(** * The cover-tree dual-tree traverser and the range-search orchestrator

    A shallow embedding of
    [src/mlpack/core/tree/cover_tree/dual_tree_traverser_impl.hpp] and of
    [src/mlpack/methods/range_search/range_search_impl.hpp].

    - A cover-tree node is a finite tree carrying a point index ([size_t]), a
      scale ([int]) and its children; a leaf has scale [INT_MIN].
    - [std::map<int, std::vector<MapEntry>>] is a list of buckets ordered by
      strictly decreasing scale, so that the head of the list is
      [*referenceMap.rbegin()] and the last element is [*referenceMap.begin()].
    - The rule object (scoring policy) is a record of three state-passing
      functions over an arbitrary rule state.
    - The traverser runs in a state-and-error monad: the state is the rule
      state together with [numPrunes]; an error is an access the C++ leaves
      undefined (dereferencing [rbegin()]/[begin()] of an empty map,
      decrementing [begin()], [Child(0)] of a childless node) or a failed
      [Log::Assert]. *)

From Stdlib Require Import ZArith NArith List Bool Lia Arith Permutation.
Import ListNotations.

Set Implicit Arguments.

(** ** Machine integers *)

Definition INT_MIN : Z := (-2147483648)%Z.
Definition INT_MAX : Z := 2147483647%Z.

(** [size_t] counters wrap modulo 2^64. *)
Definition SIZE_MOD : N := (2 ^ 64)%N.
Definition size_add (a b : N) : N := ((a + b) mod SIZE_MOD)%N.

(** ** Cover-tree nodes (the tree interface the traverser consumes) *)

#[local] Unset Elimination Schemes.
Inductive CoverTree : Type :=
| Node (point : nat) (scale : Z) (children : list CoverTree).
#[local] Set Elimination Schemes.

Definition Point (t : CoverTree) : nat := match t with Node p _ _ => p end.
Definition Scale (t : CoverTree) : Z := match t with Node _ s _ => s end.
Definition Children (t : CoverTree) : list CoverTree :=
  match t with Node _ _ cs => cs end.
Definition NumChildren (t : CoverTree) : nat := length (Children t).
Definition Child (t : CoverTree) (i : nat) : option CoverTree :=
  nth_error (Children t) i.

(** A weight that strictly exceeds the weights of the children plus one unit
    per child; it bounds the work the reference recursion can do on a node. *)
Fixpoint tree_weight (t : CoverTree) : nat :=
  match t with
  | Node _ _ cs => S (fold_right (fun c n => S (tree_weight c) + n) 0 cs)
  end.

(** The points a node covers: the points of the leaves below it. *)
Fixpoint leaf_points (t : CoverTree) : list nat :=
  match t with
  | Node p _ [] => [p]
  | Node _ _ cs => flat_map leaf_points cs
  end.

(** The points of every node of the subtree. *)
Fixpoint all_points (t : CoverTree) : list nat :=
  match t with
  | Node p _ cs => p :: flat_map all_points cs
  end.

(** ** Outcomes *)

Inductive fault : Type :=
| EmptyMapDeref        (* [*m.rbegin()] or [*m.begin()] on an empty map *)
| DecrementBegin       (* [--it] on [m.begin()] *)
| InvalidIterator      (* use of an iterator whose element was erased *)
| ChildOutOfRange      (* [Child(0)] of a node without children *)
| NullTree             (* use of a tree pointer that was never set *)
| AssertionFailed.     (* [Log::Assert(false)] *)

Inductive outcome (A : Type) : Type :=
| Ok (a : A)
| Fault (f : fault)
| OutOfFuel.

Arguments Fault {A} f.
Arguments OutOfFuel {A}.

Section Traverser.

(** [double] scores: only the comparison with [DBL_MAX], the constant [0.0]
    and the order used by [std::sort] are needed. *)
Variable D : Type.
Variable is_DBL_MAX : D -> bool.
Variable zero : D.

(** ** Candidate frames and the reference frontier *)

Record MapEntry : Type := mkEntry {
  referenceNode : CoverTree;
  score : D;
  referenceIndex : nat;
  queryIndex : nat;
  baseCase : D
}.

Definition set_frame (f : MapEntry) (sc bc : D) (ri qi : nat) : MapEntry :=
  {| referenceNode := referenceNode f; score := sc;
     referenceIndex := ri; queryIndex := qi; baseCase := bc |}.

Definition bucket : Type := list MapEntry.
Definition scale_map : Type := list (Z * bucket).

Definition keys (m : scale_map) : list Z := map fst m.

(** Keys strictly decreasing from the head. *)
Fixpoint map_ok (m : scale_map) : Prop :=
  match m with
  | [] => True
  | (k, _) :: m' => Forall (fun k' => (k' < k)%Z) (keys m') /\ map_ok m'
  end.

Fixpoint m_find (k : Z) (m : scale_map) : option bucket :=
  match m with
  | [] => None
  | (k', v) :: m' => if (k =? k')%Z then Some v else m_find k m'
  end.

(** [m[k] = v]: insert or overwrite. *)
Fixpoint m_set (k : Z) (v : bucket) (m : scale_map) : scale_map :=
  match m with
  | [] => [(k, v)]
  | (k', v') :: m' =>
      if (k' <? k)%Z then (k, v) :: m
      else if (k =? k')%Z then (k, v) :: m'
      else (k', v') :: m_set k v m'
  end.

(** [m.erase(k)]. *)
Fixpoint m_erase (k : Z) (m : scale_map) : scale_map :=
  match m with
  | [] => []
  | (k', v') :: m' =>
      if (k =? k')%Z then m' else (k', v') :: m_erase k m'
  end.

(** The contents of [m[k]], a missing bucket reading as the empty vector. *)
Definition m_bucket (k : Z) (m : scale_map) : bucket :=
  match m_find k m with Some v => v | None => [] end.

(** [m[k]] used as an lvalue: [operator[]] creates a missing bucket. *)
Definition m_touch (k : Z) (m : scale_map) : scale_map :=
  match m_find k m with Some _ => m | None => m_set k [] m end.

(** [m[k].push_back(f)]. *)
Definition m_push (k : Z) (f : MapEntry) (m : scale_map) : scale_map :=
  m_set k (m_bucket k m ++ [f]) m.

(** [*m.rbegin()]: the coarsest bucket. *)
Definition m_rbegin (m : scale_map) : option (Z * bucket) := hd_error m.

(** [*m.begin()]: the finest bucket. *)
Fixpoint m_begin (m : scale_map) : option (Z * bucket) :=
  match m with
  | [] => None
  | [e] => Some e
  | _ :: m' => m_begin m'
  end.

Definition frames (m : scale_map) : list MapEntry := flat_map snd m.

(** ** Map iterators

    A [std::map] iterator designates a node of the map or is [end()].  A
    [reverse_iterator] stores such a base iterator [current]; it
    dereferences to the element before [current] and [++it] is
    [--current]. *)

Inductive iterator : Type :=
| End
| At (k : Z).

Definition iterator_eqb (a b : iterator) : bool :=
  match a, b with
  | End, End => true
  | At x, At y => (x =? y)%Z
  | _, _ => false
  end.

Definition begin_it (m : scale_map) : iterator :=
  match m_begin m with
  | None => End
  | Some (k, _) => At k
  end.

Definition it_valid (it : iterator) (m : scale_map) : bool :=
  match it with
  | End => true
  | At k => match m_find k m with Some _ => true | None => false end
  end.

(** The first bucket, from the coarsest, whose key is below [k]. *)
Fixpoint first_below (k : Z) (m : scale_map) : option (Z * bucket) :=
  match m with
  | [] => None
  | (k', v) :: m' => if (k' <? k)%Z then Some (k', v) else first_below k m'
  end.

(** The element before [current]. *)
Definition it_prev (current : iterator) (m : scale_map) : option (Z * bucket) :=
  match current with
  | End => m_rbegin m
  | At k => first_below k m
  end.

(** [*it] for a reverse iterator with base [current]. *)
Definition rit_deref (current : iterator) (m : scale_map)
  : outcome (Z * bucket) :=
  if negb (it_valid current m) then Fault InvalidIterator
  else match it_prev current m with
       | Some e => Ok e
       | None => Fault DecrementBegin
       end.

(** [++it] for a reverse iterator with base [current]: [--current]. *)
Definition rit_incr (current : iterator) (m : scale_map) : outcome iterator :=
  if negb (it_valid current m) then Fault InvalidIterator
  else if iterator_eqb current (begin_it m) then Fault DecrementBegin
  else match it_prev current m with
       | Some (k, _) => Ok (At k)
       | None => Fault DecrementBegin
       end.

(** The keys a reverse iterator with base [current] has yet to visit. *)
Definition under (current : iterator) (j : Z) : bool :=
  match current with
  | End => true
  | At k => (j <? k)%Z
  end.

(** How many buckets a reverse iterator with base [current] has left. *)
Definition below (current : iterator) (m : scale_map) : nat :=
  length (filter (under current) (keys m)).

(** ** The rule object (scoring policy) *)

Variable S : Type.

Record RuleType : Type := mkRule {
  BaseCase : nat -> nat -> S -> D * S;
  Score : CoverTree -> CoverTree -> D -> S -> D * S;
  Rescore : CoverTree -> CoverTree -> D -> S -> D * S
}.

Variable rule : RuleType.

(** [std::sort(scaleVector.begin(), scaleVector.end())] with
    [operator<] comparing scores. *)
Variable sort : bucket -> bucket.

(** ** The traverser monad *)

Record TState : Type := mkState {
  rule_state : S;
  numPrunes : N
}.

Definition M (A : Type) : Type := TState -> outcome (A * TState).

Definition ret {A} (a : A) : M A := fun st => Ok (a, st).

Definition bind {A B} (m : M A) (f : A -> M B) : M B :=
  fun st =>
    match m st with
    | Ok (a, st') => f a st'
    | Fault e => Fault e
    | OutOfFuel => OutOfFuel
    end.

Definition fail {A} (e : fault) : M A := fun _ => Fault e.
Definition out_of_fuel {A} : M A := fun _ => OutOfFuel.

Definition lift {A} (o : outcome A) : M A :=
  fun st =>
    match o with
    | Ok a => Ok (a, st)
    | Fault e => Fault e
    | OutOfFuel => OutOfFuel
    end.

Notation "x <- m ;; k" := (bind m (fun x => k))
  (at level 61, m at next level, right associativity).
Notation "m ;;; k" := (bind m (fun _ => k))
  (at level 61, right associativity).

Definition call_BaseCase (q r : nat) : M D :=
  fun st =>
    let (d, s) := BaseCase rule q r (rule_state st) in
    Ok (d, mkState s (numPrunes st)).

Definition call_Score (qn rn : CoverTree) (bc : D) : M D :=
  fun st =>
    let (d, s) := Score rule qn rn bc (rule_state st) in
    Ok (d, mkState s (numPrunes st)).

Definition call_Rescore (qn rn : CoverTree) (old : D) : M D :=
  fun st =>
    let (d, s) := Rescore rule qn rn old (rule_state st) in
    Ok (d, mkState s (numPrunes st)).

(** [numPrunes += n]. *)
Definition add_prunes (n : N) : M unit :=
  fun st => Ok (tt, mkState (rule_state st) (size_add (numPrunes st) n)).

(** ** Leaf phase of [Traverse] (the loop over [pointVector]) *)

Fixpoint base_cases (queryNode : CoverTree) (pointVector : bucket) : M unit :=
  match pointVector with
  | [] => ret tt
  | frame :: rest =>
      let refNode := referenceNode frame in
      if (referenceIndex frame =? Point refNode)
         && (queryIndex frame =? Point queryNode)
      then add_prunes 1 ;;; base_cases queryNode rest
      else
        rescore <- call_Rescore queryNode refNode (score frame) ;;
        if is_DBL_MAX rescore
        then add_prunes 1 ;;; base_cases queryNode rest
        else
          call_BaseCase (Point queryNode) (Point refNode) ;;;
          base_cases queryNode rest
  end.

(** ** [PruneMap] *)

(** The loop over the frames of one scale: [newScaleVector] grows by the
    frames that survive. *)
Fixpoint PruneMap_frames (candidateQueryNode : CoverTree)
    (scaleVector newScaleVector : bucket) : M bucket :=
  match scaleVector with
  | [] => ret newScaleVector
  | frame :: rest =>
      let refNode := referenceNode frame in
      sc <- call_Rescore candidateQueryNode refNode (score frame) ;;
      if is_DBL_MAX sc
      then add_prunes 1 ;;;
           PruneMap_frames candidateQueryNode rest newScaleVector
      else
        bc <- call_BaseCase (Point candidateQueryNode) (Point refNode) ;;
        sc' <- call_Score candidateQueryNode refNode bc ;;
        if is_DBL_MAX sc'
        then add_prunes 1 ;;;
             PruneMap_frames candidateQueryNode rest newScaleVector
        else
          PruneMap_frames candidateQueryNode rest
            (newScaleVector ++
               [set_frame frame sc' bc (Point refNode)
                  (Point candidateQueryNode)])
  end.

(** The loop over the scales, from [rbegin()] down to the leaf bucket.
    [referenceMap] is only read here, so the iteration is a walk over its
    buckets. *)
Fixpoint PruneMap_scales (candidateQueryNode : CoverTree)
    (buckets : scale_map) (childMap : scale_map) : M scale_map :=
  match buckets with
  | [] => ret childMap
  | (thisScale, scaleVector) :: rest =>
      if (thisScale =? INT_MIN)%Z then ret childMap
      else
        let childMap1 := m_touch thisScale childMap in
        newScaleVector <-
          PruneMap_frames candidateQueryNode scaleVector
            (m_bucket thisScale childMap1) ;;
        let childMap2 := m_set thisScale newScaleVector childMap1 in
        let childMap3 :=
          match newScaleVector with
          | [] => m_erase thisScale childMap2
          | _ => childMap2
          end in
        PruneMap_scales candidateQueryNode rest childMap3
  end.

(** Returns the pair (referenceMap, childMap) as they stand on return. *)
Definition PruneMap (queryNode candidateQueryNode : CoverTree)
    (referenceMap childMap : scale_map) : M (scale_map * scale_map) :=
  match referenceMap with
  | [] => ret (referenceMap, childMap)
  | _ =>
      childMap' <- PruneMap_scales candidateQueryNode referenceMap childMap ;;
      let referenceMap' := m_touch INT_MIN referenceMap in
      ret (referenceMap',
           m_set INT_MIN (m_bucket INT_MIN referenceMap') childMap')
  end.

(** ** [PruneMapForSelfChild] *)

Fixpoint PruneMapForSelfChild_frames (candidateQueryNode : CoverTree)
    (scaleVector newScaleVector : bucket) : M bucket :=
  match scaleVector with
  | [] => ret newScaleVector
  | frame :: rest =>
      let refNode := referenceNode frame in
      (* [None]: pruned by [Rescore]; [Some bc]: the base case to score. *)
      obc <-
        (if negb (referenceIndex frame =? Point refNode)
            || negb (queryIndex frame =? Point candidateQueryNode)
         then
           sc <- call_Rescore candidateQueryNode refNode (score frame) ;;
           if is_DBL_MAX sc
           then add_prunes 1 ;;; ret None
           else
             bc <- call_BaseCase (Point candidateQueryNode)
                     (Point refNode) ;;
             ret (Some bc)
         else ret (Some (baseCase frame))) ;;
      match obc with
      | None =>
          PruneMapForSelfChild_frames candidateQueryNode rest newScaleVector
      | Some bc =>
          sc' <- call_Score candidateQueryNode refNode bc ;;
          if is_DBL_MAX sc'
          then add_prunes 1 ;;;
               PruneMapForSelfChild_frames candidateQueryNode rest
                 newScaleVector
          else
            PruneMapForSelfChild_frames candidateQueryNode rest
              (newScaleVector ++
                 [set_frame frame sc' bc (Point refNode)
                    (Point candidateQueryNode)])
      end
  end.

(** The [while] loop.  [current] is the base of the reverse iterator [it];
    the map is modified (buckets rewritten, emptied buckets erased) while
    [it] walks over it. *)
Fixpoint PruneMapForSelfChild_loop (fuel : nat)
    (candidateQueryNode : CoverTree) (current : iterator)
    (referenceMap : scale_map) : M scale_map :=
  match fuel with
  | O => out_of_fuel
  | Datatypes.S fuel' =>
      if iterator_eqb current (begin_it referenceMap)
      then ret referenceMap                        (* it == rend() *)
      else
        e <- lift (rit_deref current referenceMap) ;;
        let (thisScale, scaleVector) := (e : Z * bucket) in
        if (thisScale =? INT_MIN)%Z then ret referenceMap
        else
          newScaleVector <-
            PruneMapForSelfChild_frames candidateQueryNode scaleVector [] ;;
          let referenceMap1 := m_set thisScale newScaleVector referenceMap in
          match newScaleVector with
          | [] =>
              let referenceMap2 := m_erase thisScale referenceMap1 in
              match referenceMap2 with
              | [] => ret referenceMap2            (* break *)
              | _ =>
                  current' <- lift (rit_incr current referenceMap2) ;;
                  PruneMapForSelfChild_loop fuel' candidateQueryNode
                    current' referenceMap2
              end
          | _ =>
              current' <- lift (rit_incr current referenceMap1) ;;
              PruneMapForSelfChild_loop fuel' candidateQueryNode
                current' referenceMap1
          end
  end.

Definition PruneMapForSelfChild (candidateQueryNode : CoverTree)
    (referenceMap : scale_map) : M scale_map :=
  match referenceMap with
  | [] => ret referenceMap
  | _ =>
      PruneMapForSelfChild_loop (Datatypes.S (length referenceMap))
        candidateQueryNode End referenceMap
  end.

(** ** [ReferenceRecursion] *)

(** The loop over the non-self children of an expanded reference node. *)
Fixpoint ReferenceRecursion_children (queryNode : CoverTree)
    (cs : list CoverTree) (referenceMap : scale_map) : M scale_map :=
  match cs with
  | [] => ret referenceMap
  | child :: rest =>
      let queryIndex := Point queryNode in
      let refIndex := Point child in
      bc <- call_BaseCase queryIndex refIndex ;;
      childScore <- call_Score queryNode child bc ;;
      if is_DBL_MAX childScore
      then add_prunes 1 ;;;
           ReferenceRecursion_children queryNode rest referenceMap
      else
        ReferenceRecursion_children queryNode rest
          (m_push (Scale child)
             (mkEntry child childScore refIndex queryIndex bc) referenceMap)
  end.

(** The expansion of one frame whose [Score] did not prune: the self-child,
    then the other children. *)
Definition ReferenceRecursion_expand (queryNode refNode : CoverTree)
    (bc : D) (referenceMap : scale_map) : M scale_map :=
  match Children refNode with
  | [] => fail ChildOutOfRange
  | child0 :: others =>
      childScore <- call_Score queryNode child0 bc ;;
      referenceMap1 <-
        (if is_DBL_MAX childScore
         then add_prunes 1 ;;; ret referenceMap
         else ret (m_push (Scale child0)
                     (mkEntry child0 childScore (Point refNode)
                        (Point queryNode) bc) referenceMap)) ;;
      ReferenceRecursion_children queryNode others referenceMap1
  end.

(** The body of the [for] loop, for one frame of the coarsest bucket. *)
Definition ReferenceRecursion_frame (queryNode : CoverTree)
    (frame : MapEntry) (referenceMap : scale_map) : M scale_map :=
  let refNode := referenceNode frame in
  let refPoint := Point refNode in
  let queryPoint := Point queryNode in
  r <- call_Rescore queryNode refNode (score frame) ;;
  if is_DBL_MAX r
  then add_prunes 1 ;;; ret referenceMap
  else
    bc <-
      (if negb (refPoint =? referenceIndex frame)
          || negb (queryPoint =? queryIndex frame)
       then call_BaseCase queryPoint refPoint
       else ret (baseCase frame)) ;;
    childScore <- call_Score queryNode refNode bc ;;
    if is_DBL_MAX childScore
    then add_prunes (N.of_nat (NumChildren refNode)) ;;; ret referenceMap
    else ReferenceRecursion_expand queryNode refNode bc referenceMap.

(** The [for] loop: [scaleVector] is a reference to the bucket at
    [thisScale], read afresh by [scaleVector.at(i)] at every iteration. *)
Fixpoint ReferenceRecursion_for (fuel : nat) (queryNode : CoverTree)
    (thisScale : Z) (i : nat) (referenceMap : scale_map) : M scale_map :=
  match fuel with
  | O => out_of_fuel
  | Datatypes.S fuel' =>
      match nth_error (m_bucket thisScale referenceMap) i with
      | None => ret referenceMap
      | Some frame =>
          referenceMap' <-
            ReferenceRecursion_frame queryNode frame referenceMap ;;
          ReferenceRecursion_for fuel' queryNode thisScale
            (Datatypes.S i) referenceMap'
      end
  end.

Definition bucket_weight (v : bucket) : nat :=
  fold_right (fun f n => tree_weight (referenceNode f) + n) 0 v.

Definition map_weight (m : scale_map) : nat :=
  fold_right (fun e n => Datatypes.S (bucket_weight (snd e)) + n) 0 m.

(** The [while] loop. *)
Fixpoint ReferenceRecursion_while (fuel : nat) (queryNode : CoverTree)
    (referenceMap : scale_map) : M scale_map :=
  match fuel with
  | O => out_of_fuel
  | Datatypes.S fuel' =>
      match m_rbegin referenceMap with
      | None => fail EmptyMapDeref
      | Some (top, scaleVector) =>
          if (top >? Scale queryNode)%Z
          then
            if (Scale queryNode =? INT_MIN)%Z && (top =? INT_MIN)%Z
            then ret referenceMap                  (* break *)
            else
              let referenceMap1 :=
                m_set top (sort scaleVector) referenceMap in
              referenceMap2 <-
                ReferenceRecursion_for
                  (Datatypes.S (bucket_weight scaleVector))
                  queryNode top 0 referenceMap1 ;;
              match m_rbegin referenceMap2 with
              | None => fail EmptyMapDeref
              | Some (top', _) =>
                  ReferenceRecursion_while fuel' queryNode
                    (m_erase top' referenceMap2)
              end
          else ret referenceMap
      end
  end.

Definition ReferenceRecursion (queryNode : CoverTree)
    (referenceMap : scale_map) : M scale_map :=
  ReferenceRecursion_while (Datatypes.S (map_weight referenceMap))
    queryNode referenceMap.

(** ** [Traverse] on a reference map *)

(** The loop over the non-self children of the query node: [body] is run
    for each child in turn on the reference map, which it may modify. *)
Definition for_each_child (body : CoverTree -> scale_map -> M scale_map)
  : list CoverTree -> scale_map -> M scale_map :=
  fix loop (cs : list CoverTree) (referenceMap : scale_map) : M scale_map :=
    match cs with
    | [] => ret referenceMap
    | child :: cs' =>
        referenceMap' <- body child referenceMap ;;
        loop cs' referenceMap'
    end.

Fixpoint Traverse_map (queryNode : CoverTree) (referenceMap : scale_map)
    {struct queryNode} : M scale_map :=
  match referenceMap with
  | [] => ret referenceMap                         (* Nothing to do! *)
  | _ =>
      referenceMap1 <- ReferenceRecursion queryNode referenceMap ;;
      referenceMap2 <-
        (if negb (Scale queryNode =? INT_MIN)%Z
         then
           match m_rbegin referenceMap1 with
           | None => fail EmptyMapDeref
           | Some (top, _) =>
               if (Scale queryNode >=? top)%Z
               then
                 match Children queryNode with
                 | [] => fail ChildOutOfRange      (* queryNode.Child(0) *)
                 | child0 :: others =>
                     referenceMap' <-
                       for_each_child
                         (fun child referenceMap =>
                            maps <- PruneMap queryNode child
                                      referenceMap [] ;;
                            Traverse_map child (snd maps) ;;;
                            ret (fst maps))
                         others referenceMap1 ;;
                     referenceMap'' <-
                       PruneMapForSelfChild child0 referenceMap' ;;
                     Traverse_map child0 referenceMap''
                 end
               else ret referenceMap1
           end
         else ret referenceMap1) ;;
      if negb (Scale queryNode =? INT_MIN)%Z
      then ret referenceMap2
      else
        match m_begin referenceMap2 with
        | None => fail EmptyMapDeref
        | Some (first, pointVector) =>
            if negb (first =? INT_MIN)%Z then fail AssertionFailed
            else base_cases queryNode pointVector ;;; ret referenceMap2
        end
  end.

(** ** [Traverse] on a pair of roots *)

Definition Traverse (queryNode referenceNode : CoverTree) : M scale_map :=
  bc <- call_BaseCase (Point queryNode) (Point referenceNode) ;;
  let rootRefEntry :=
    mkEntry referenceNode zero (Point referenceNode) (Point queryNode) bc in
  Traverse_map queryNode (m_push (Scale referenceNode) rootRefEntry []).

End Traverser.

(** ** A scoring policy that records the calls it receives *)

Section Recording.

Variables D S : Type.

Inductive Event : Type :=
| EvBaseCase (queryIndex referenceIndex : nat)
| EvScore (queryNode referenceNode : CoverTree) (baseCase : D)
| EvRescore (queryNode referenceNode : CoverTree) (oldScore : D).

(** The policy [P] with a log of the calls, oldest first. *)
Definition Recording (P : RuleType D S) : RuleType D (S * list Event) :=
  mkRule
    (fun q r s =>
       let (d, s') := BaseCase P q r (fst s) in
       (d, (s', snd s ++ [EvBaseCase q r])))
    (fun qn rn bc s =>
       let (d, s') := Score P qn rn bc (fst s) in
       (d, (s', snd s ++ [EvScore qn rn bc])))
    (fun qn rn old s =>
       let (d, s') := Rescore P qn rn old (fst s) in
       (d, (s', snd s ++ [EvRescore qn rn old]))).

Definition is_BaseCase (e : Event) : bool :=
  match e with EvBaseCase _ _ => true | _ => false end.

Definition is_BaseCase_of (q r : nat) (e : Event) : bool :=
  match e with
  | EvBaseCase q' r' => (q =? q') && (r =? r')
  | _ => false
  end.

(** How many times [BaseCase(q, r)] occurs in a log. *)
Definition count_BaseCase (q r : nat) (log : list Event) : nat :=
  length (filter (is_BaseCase_of q r) log).

(** How many [BaseCase] calls a log holds. *)
Definition count_BaseCases (log : list Event) : nat :=
  length (filter is_BaseCase log).

End Recording.

Arguments EvBaseCase {D} queryIndex referenceIndex.
Arguments is_BaseCase {D} e.
Arguments is_BaseCase_of {D} q r e.
Arguments count_BaseCase {D} q r log.
Arguments count_BaseCases {D} log.

(** ** The range-search orchestrator *)

Inductive exception : Type :=
| out_of_range
| invalid_argument
| other_exception.

Section RangeSearch.

(** [TreeType::Mat], and the tree constructor
    [TreeType(dataset, oldFromNew, leafSize)], which belongs to the tree
    type: it returns the tree and the permutation it applied, or throws. *)
Variable Mat : Type.
Variable n_cols : Mat -> nat.
Variable TreeType_new : Mat -> N -> exception + (CoverTree * list nat).

Record RangeSearch : Type := mkRangeSearch {
  referenceSet : Mat;
  querySet : Mat;
  referenceTree : option CoverTree;
  queryTree : option CoverTree;
  oldFromNewReferences : list nat;
  oldFromNewQueries : list nat;
  treeOwner : bool;
  hasQuerySet : bool;
  naive : bool;
  singleMode : bool;
  rs_numPrunes : N
}.

(** [RangeSearch(referenceSet, querySet, naive, singleMode, leafSize,
    metric)].  [leafSize] is a [size_t]. *)
Definition RangeSearch_new (referenceSet querySet : Mat)
    (naive singleMode : bool) (leafSize : N) : exception + RangeSearch :=
  if negb naive then
    match TreeType_new referenceSet leafSize with
    | inl e => inl e
    | inr (rt, oldFromNewR) =>
        if negb singleMode then
          match TreeType_new querySet leafSize with
          | inl e => inl e
          | inr (qt, oldFromNewQ) =>
              inr (mkRangeSearch referenceSet querySet (Some rt) (Some qt)
                     oldFromNewR oldFromNewQ true true false singleMode 0)
          end
        else
          inr (mkRangeSearch referenceSet querySet (Some rt) None
                 oldFromNewR [] true true false singleMode 0)
    end
  else
    inr (mkRangeSearch referenceSet querySet None None [] []
           false true true false 0).

(** [RangeSearch(referenceSet, naive, singleMode, leafSize, metric)]: the
    query set is the reference set and the query tree a copy of the
    reference tree. *)
Definition RangeSearch_new_mono (referenceSet : Mat)
    (naive singleMode : bool) (leafSize : N) : exception + RangeSearch :=
  if negb naive then
    match TreeType_new referenceSet leafSize with
    | inl e => inl e
    | inr (rt, oldFromNewR) =>
        inr (mkRangeSearch referenceSet referenceSet (Some rt)
               (if negb singleMode then Some rt else None)
               oldFromNewR [] true false false singleMode 0)
    end
  else
    inr (mkRangeSearch referenceSet referenceSet None None [] []
           false false true false 0).

(** [RangeSearch(referenceTree, queryTree, referenceSet, querySet,
    singleMode, metric)]: the trees are supplied by the caller. *)
Definition RangeSearch_of_trees (referenceTree queryTree : CoverTree)
    (referenceSet querySet : Mat) (singleMode : bool) : RangeSearch :=
  mkRangeSearch referenceSet querySet (Some referenceTree) (Some queryTree)
    [] [] false true false singleMode 0.

(** *** [Search]: the choice of the traversal *)

Variable D : Type.
Variable is_DBL_MAX : D -> bool.
Variable zero : D.
Variable S : Type.
Variable rules : RuleType D S.
Variable sort : bucket D -> bucket D.

(** The naive brute-force solution: [rules.BaseCase(i, j)] for every query
    column [i] and every reference column [j]. *)
Definition naive_row (i : nat) (nr : nat) (s : S) : S :=
  fold_left (fun s j => snd (BaseCase rules i j s)) (seq 0 nr) s.

Definition naive_search (nq nr : nat) (s : S) : S :=
  fold_left (fun s i => naive_row i nr s) (seq 0 nq) s.

(** The three branches of [Search] (naive, single-tree, dual-tree), from the
    rule state the [RuleType rules(...)] object starts in to the state it
    ends in, with the value [Search] leaves in [numPrunes].  The single-tree
    traverser is a parameter: its source is not part of this development. *)
Variable SingleTreeTraverse : nat -> CoverTree -> M S unit.

Fixpoint single_loop (queries : list nat) (referenceTree : CoverTree)
  : M S unit :=
  match queries with
  | [] => ret tt
  | i :: rest =>
      bind (SingleTreeTraverse i referenceTree)
           (fun _ => single_loop rest referenceTree)
  end.

Definition Search_traversal (rs : RangeSearch) (s : S) : outcome (S * N) :=
  if naive rs then
    Ok (naive_search (n_cols (querySet rs)) (n_cols (referenceSet rs)) s, 0%N)
  else if singleMode rs then
    match referenceTree rs with
    | None => Fault NullTree
    | Some rt =>
        match single_loop (seq 0 (n_cols (querySet rs))) rt (mkState s 0) with
        | Ok (_, st) => Ok (rule_state st, numPrunes st)
        | Fault e => Fault e
        | OutOfFuel => OutOfFuel
        end
    end
  else
    match queryTree rs, referenceTree rs with
    | Some qt, Some rt =>
        match Traverse is_DBL_MAX zero rules sort qt rt (mkState s 0) with
        | Ok (_, st) => Ok (rule_state st, numPrunes st)
        | Fault e => Fault e
        | OutOfFuel => OutOfFuel
        end
    | _, _ => Fault NullTree
    end.

End RangeSearch.

(** ** Concrete trees and policies used in the examples *)

Module Examples.

(** Scores are integers here, with one value standing for [DBL_MAX]. *)
Definition DBL_MAX : Z := 1000000000%Z.
Definition is_max (d : Z) : bool := (d =? DBL_MAX)%Z.

(** Sorting by ascending score (insertion sort). *)
Fixpoint insert_frame (f : MapEntry Z) (l : bucket Z) : bucket Z :=
  match l with
  | [] => [f]
  | g :: l' =>
      if (score g <? score f)%Z then g :: insert_frame f l' else f :: l
  end.

Definition sort_by_score (l : bucket Z) : bucket Z :=
  fold_right insert_frame [] l.

Definition leaf (p : nat) : CoverTree := Node p INT_MIN [].

(** A range-search policy over points on a line.  [BaseCase] records the
    pair when its distance lies in [lo, hi]; [Score] prunes exactly when no
    covered pair lies in the range; [Rescore] returns the old score. *)
Definition dist (qx rx : list Z) (q r : nat) : Z :=
  Z.abs (nth q qx 0 - nth r rx 0)%Z.

Definition in_range (lo hi d : Z) : bool := (lo <=? d)%Z && (d <=? hi)%Z.

Definition range_rules (qx rx : list Z) (lo hi : Z)
  : RuleType Z (list (nat * nat)) :=
  mkRule
    (fun q r s =>
       let d := dist qx rx q r in
       (d, if in_range lo hi d then s ++ [(q, r)] else s))
    (fun qn rn _ s =>
       (if existsb
             (fun q => existsb (fun r => in_range lo hi (dist qx rx q r))
                         (leaf_points rn))
             (leaf_points qn)
        then 0%Z else DBL_MAX, s))
    (fun _ _ old s => (old, s)).

(** A policy given by two tables: which pairs of nodes [Score] prunes and
    which pairs [Rescore] prunes.  It keeps no state of its own. *)
Definition table_rules (score_prunes rescore_prunes : CoverTree -> CoverTree -> bool)
  : RuleType Z unit :=
  mkRule
    (fun _ _ s => (0%Z, s))
    (fun qn rn _ s => (if score_prunes qn rn then DBL_MAX else 0%Z, s))
    (fun qn rn old s => (if rescore_prunes qn rn then DBL_MAX else old, s)).

Definition never (_ _ : CoverTree) : bool := false.
Definition always (_ _ : CoverTree) : bool := true.

Definition run {S A} (m : M S A) (s : S) : outcome (A * TState S) :=
  m (mkState s 0).

Definition traverse {S} (rules : RuleType Z S) (q r : CoverTree)
  : M S (scale_map Z) :=
  Traverse is_max 0%Z rules sort_by_score q r.

(** Far-apart sets: one query point at 100, reference points at 0 and 1,
    searched for distances in [0, 5]. *)
Definition far_query : CoverTree := leaf 0.
Definition far_reference : CoverTree := Node 0 1 [leaf 0; leaf 1].
Definition far_rules : RuleType Z (list (nat * nat)) :=
  range_rules [100%Z] [0%Z; 1%Z] 0 5.

(** A reference root at scale 5 whose self-child sits at scale 2, and a
    query root at scale 4. *)
Definition deep_reference : CoverTree :=
  Node 0 5 [Node 0 2 [leaf 0; leaf 1]; leaf 2].
Definition shallow_query : CoverTree := Node 0 4 [leaf 0; leaf 1].

Definition no_prune : RuleType Z unit := table_rules never never.

(** The map [Traverse] builds for a pair of roots under [no_prune]. *)
Definition root_map (q r : CoverTree) : scale_map Z :=
  m_push (Scale r) (mkEntry r 0%Z (Point r) (Point q) 0%Z) [].

Definition deep_after_recursion : scale_map Z :=
  [(2%Z, [mkEntry (Node 0 2 [leaf 0; leaf 1]) 0%Z 0 0 0%Z]);
   (INT_MIN, [mkEntry (leaf 2) 0%Z 2 0 0%Z])].

(** Query points at 0, 1 and 100 and reference points at 100, 101, 102 and
    103, searched for distances in [0, 5]: the query root covers the point
    at 100, its self-child only the points at 0 and 1. *)
Definition skip_query_self : CoverTree := Node 0 0 [leaf 0; leaf 1].
Definition skip_query : CoverTree := Node 0 3 [skip_query_self; leaf 2].
Definition skip_reference_self : CoverTree := Node 0 2 [leaf 0; leaf 1].
Definition skip_reference_other : CoverTree := Node 2 1 [leaf 2; leaf 3].
Definition skip_reference : CoverTree :=
  Node 0 4 [skip_reference_self; skip_reference_other].
Definition skip_rules : RuleType Z (list (nat * nat)) :=
  range_rules [0%Z; 1%Z; 100%Z] [100%Z; 101%Z; 102%Z; 103%Z] 0 5.

(** The reference map when [Traverse] on the two roots reaches
    [PruneMapForSelfChild]. *)
Definition skip_frontier : scale_map Z :=
  [(2%Z, [mkEntry skip_reference_self 0%Z 0 0 100%Z]);
   (1%Z, [mkEntry skip_reference_other 0%Z 2 0 102%Z]);
   (INT_MIN, [])].

(** A query root whose only child is its self-child, and a policy whose
    [Score] prunes the second reference child for that self-child. *)
Definition single_child_query : CoverTree := Node 0 3 [skip_query_self].
Definition self_child_rules : RuleType Z unit :=
  table_rules (fun qn rn => (Scale qn =? 0)%Z && (Point rn =? 2)) never.

(** A dataset is represented by its number of columns. *)
Definition no_tree (_ : nat) (_ : N) : exception + (CoverTree * list nat) :=
  inl out_of_range.

Definition no_single {S} (_ : nat) (_ : CoverTree) : M S unit := ret tt.

End Examples.

(** ** The expansion step, in the words of the design

    The self-child is scored with the base case already at hand and no
    [BaseCase] call; every other child gets a [BaseCase] call on its own
    point and then its own [Score]; a child enters the frontier unless its
    score is [DBL_MAX].  The result is the list of calls, the frames
    admitted and the final rule state. *)

Section ExpansionSpec.

Variables D S : Type.
Variable is_DBL_MAX : D -> bool.
Variable P : RuleType D S.

Definition admitted (queryNode child : CoverTree) (referenceIndex : nat)
    (bc sc : D) : bucket D :=
  if is_DBL_MAX sc then []
  else [mkEntry child sc referenceIndex (Point queryNode) bc].

Fixpoint children_spec (queryNode : CoverTree) (cs : list CoverTree) (s : S)
  : list (Event D) * bucket D * S :=
  match cs with
  | [] => ([], [], s)
  | child :: rest =>
      let (bc, s1) := BaseCase P (Point queryNode) (Point child) s in
      let (sc, s2) := Score P queryNode child bc s1 in
      let '(calls, admittedFrames, s3) := children_spec queryNode rest s2 in
      (EvBaseCase (Point queryNode) (Point child)
         :: EvScore queryNode child bc :: calls,
       admitted queryNode child (Point child) bc sc ++ admittedFrames,
       s3)
  end.

Definition expansion_spec (queryNode refNode child0 : CoverTree)
    (others : list CoverTree) (bc : D) (s : S)
  : list (Event D) * bucket D * S :=
  let (sc, s1) := Score P queryNode child0 bc s in
  let '(calls, admittedFrames, s2) := children_spec queryNode others s1 in
  (EvScore queryNode child0 bc :: calls,
   admitted queryNode child0 (Point refNode) bc sc ++ admittedFrames,
   s2).

End ExpansionSpec.

(** ** The leaf phase, in the words of the design

    A frame whose cached indices are those of the current pair is skipped
    and counted as a prune; otherwise [Rescore] is attempted, a pruned frame
    is counted, and a frame that is not pruned gets its [BaseCase].  The
    result is the list of calls, the number of prune increments and the
    final rule state. *)

Section LeafPhaseSpec.

Variables D S : Type.
Variable is_DBL_MAX : D -> bool.
Variable P : RuleType D S.

Definition already_evaluated (queryNode : CoverTree) (frame : MapEntry D)
  : bool :=
  (referenceIndex frame =? Point (referenceNode frame))
  && (queryIndex frame =? Point queryNode).

Fixpoint leaf_phase_spec (queryNode : CoverTree) (pointVector : bucket D)
    (s : S) : list (Event D) * nat * S :=
  match pointVector with
  | [] => ([], 0, s)
  | frame :: rest =>
      if already_evaluated queryNode frame then
        let '(calls, pruned, s') := leaf_phase_spec queryNode rest s in
        (calls, Datatypes.S pruned, s')
      else
        let (r, s1) :=
          Rescore P queryNode (referenceNode frame) (score frame) s in
        if is_DBL_MAX r then
          let '(calls, pruned, s') := leaf_phase_spec queryNode rest s1 in
          (EvRescore queryNode (referenceNode frame) (score frame) :: calls,
           Datatypes.S pruned, s')
        else
          let (_, s2) :=
            BaseCase P (Point queryNode) (Point (referenceNode frame)) s1 in
          let '(calls, pruned, s') := leaf_phase_spec queryNode rest s2 in
          (EvRescore queryNode (referenceNode frame) (score frame)
             :: EvBaseCase (Point queryNode) (Point (referenceNode frame))
             :: calls,
           pruned, s')
  end.

End LeafPhaseSpec.

(** No bucket other than the leaf bucket is empty. *)
Definition no_empty_bucket D (m : scale_map D) : Prop :=
  forall k, k <> INT_MIN -> m_find k m <> Some [].

(** The frames of the leaf bucket that may lead to [BaseCase(a, b)]. *)
Definition pending D (q : CoverTree) (a b : nat) (frame : MapEntry D) : bool :=
  negb (already_evaluated q frame)
  && (a =? Point q) && (b =? Point (referenceNode frame)).

(** ** Well-formed cover trees and the frontier they induce *)

(** The self-child carries the point of its parent and every child sits at
    a strictly finer scale than its parent. *)
Fixpoint wf_tree (t : CoverTree) : Prop :=
  match t with
  | Node p s cs =>
      match cs with [] => True | child0 :: _ => Point child0 = p end
      /\ fold_right (fun c acc => (Scale c < s)%Z /\ wf_tree c /\ acc) True cs
  end.

(** A list that keeps some elements of another, in order. *)
Inductive subseq (A : Type) : list A -> list A -> Prop :=
| subseq_nil : subseq [] []
| subseq_skip x l1 l2 : subseq l1 l2 -> subseq l1 (x :: l2)
| subseq_take x l1 l2 : subseq l1 l2 -> subseq (x :: l1) (x :: l2).

Section Frontier.

Variable D : Type.

Definition nodes (fs : bucket D) : list CoverTree := map (@referenceNode D) fs.

(** The reference points a list of frames covers. *)
Definition frontier_points (fs : bucket D) : list nat :=
  flat_map leaf_points (nodes fs).

(** [m[Scale(node)].push_back(frame)] for every frame of a list. *)
Definition push_all (adm : bucket D) (m : scale_map D) : scale_map D :=
  fold_left (fun m g => m_push (Scale (referenceNode g)) g m) adm m.

(** Every frame sits in the bucket of the scale of its node. *)
Definition frontier_ok (m : scale_map D) : Prop :=
  map_ok m /\
  forall k v f, In (k, v) m -> In f v -> Scale (referenceNode f) = k.

(** The pairs a log of calls has [BaseCase] evaluated for, oldest first. *)
Fixpoint bc_pairs (log : list (Event D)) : list (nat * nat) :=
  match log with
  | [] => []
  | EvBaseCase q r :: log' => (q, r) :: bc_pairs log'
  | _ :: log' => bc_pairs log'
  end.

(** Among the query points [X], the only pairs already evaluated against a
    point covered by a frame are the pair the frame has cached for the
    current query point [a]. *)
Definition cached_only (X : list nat) (a : nat) (fs : bucket D)
    (C : list (nat * nat)) : Prop :=
  forall x y f,
    In x X -> In (x, y) C -> In f fs ->
    In y (leaf_points (referenceNode f)) ->
    x = a /\ y = Point (referenceNode f)
    /\ referenceIndex f = y /\ queryIndex f = a.

(** The invariant of a traversal that evaluates no pair twice: the frames
    cover disjoint sets of reference points, their nodes are well formed, no
    pair has been evaluated twice, and [cached_only] holds. *)
Definition once_inv (X : list nat) (a : nat) (fs : bucket D)
    (C : list (nat * nat)) : Prop :=
  NoDup (frontier_points fs)
  /\ Forall (fun f => wf_tree (referenceNode f)) fs
  /\ NoDup C
  /\ cached_only X a fs C.

End Frontier.

(** ** A traversal that evaluates no pair twice *)

Section AtMostOnce.

Variables D S : Type.
Variable is_DBL_MAX : D -> bool.
Variable P : RuleType D S.
Variable sort : bucket D -> bucket D.

(** The cache of a frame holds the pair of the frame's node and [a]. *)
Definition cached_for (a : nat) (g : MapEntry D) : Prop :=
  queryIndex g = a /\ referenceIndex g = Point (referenceNode g).

Definition pair_with (x : nat) (f : MapEntry D) : nat * nat :=
  (x, Point (referenceNode f)).

(** The pairs [BaseCase] has been evaluated for so far. *)
Definition calls (st : TState (S * list (Event D))) : list (nat * nat) :=
  bc_pairs (snd (rule_state st)).

(** What the traversal of a query node [c] guarantees: started on a frontier
    that satisfies [once_inv] for the points below [c], it evaluates new
    pairs only, all of them pairs of query points below [c]. *)
Definition traverses_once (c : CoverTree) : Prop :=
  wf_tree c -> NoDup (leaf_points c) ->
  forall m st m' st',
    frontier_ok m ->
    once_inv (leaf_points c) (Point c) (frames m) (calls st) ->
    Traverse_map is_DBL_MAX (Recording P) sort c m st = Ok (m', st') ->
    exists new,
      calls st' = calls st ++ new
      /\ NoDup (calls st')
      /\ (forall x y, In (x, y) new -> In x (leaf_points c)).

End AtMostOnce.

(** ** Outcomes of a run: where it may end *)

(** A run ends in a result that satisfies [Post], or at one of the accesses
    [allowed]; it does not stop for lack of fuel. *)
Definition ends S A (allowed : fault -> Prop)
    (Post : A -> TState S -> Prop) (o : outcome (A * TState S)) : Prop :=
  match o with
  | Ok (a, st) => Post a st
  | Fault e => allowed e
  | OutOfFuel => False
  end.

Definition no_fault (e : fault) : Prop := False.

(** The read of [rbegin()] of an emptied map by [ReferenceRecursion]. *)
Definition emptied_read (e : fault) : Prop := e = EmptyMapDeref.

(** The step of the reverse iterator of [PruneMapForSelfChild] past
    [begin()]. *)
Definition begin_step (e : fault) : Prop := e = DecrementBegin.

Definition emptied_or_begin (e : fault) : Prop :=
  e = EmptyMapDeref \/ e = DecrementBegin.

(** ** Cover trees as the tree builder makes them *)

(** Scales are [int]s, a node that is not a leaf has a child, and every
    child sits at a strictly finer scale than its parent. *)
Fixpoint proper (t : CoverTree) : Prop :=
  match t with
  | Node _ s cs =>
      (INT_MIN <= s)%Z
      /\ (s <> INT_MIN -> cs <> [])
      /\ fold_right (fun c acc => (Scale c < s)%Z /\ proper c /\ acc) True cs
  end.

(** The shape [Traverse] keeps its reference maps in: every frame in the
    bucket of its node's scale, the nodes proper, and no empty bucket other
    than the leaf bucket. *)
Definition bucket_inv D (k : Z) (v : bucket D) : Prop :=
  (v = [] -> k = INT_MIN)
  /\ Forall (fun f => Scale (referenceNode f) = k
                      /\ proper (referenceNode f)) v.

Definition frontier_inv D (m : scale_map D) : Prop :=
  map_ok m /\ forall k v, m_find k m = Some v -> bucket_inv k v.

(** A frame as the two filters leave it for the query node with point [a]:
    the pair ([a], point of its node) cached, and a score that is not
    [DBL_MAX]. *)
Definition kept_for D (is_DBL_MAX : D -> bool) (a : nat) (g : MapEntry D)
  : Prop :=
  cached_for a g /\ is_DBL_MAX (score g) = false.

(** The base of a reverse iterator stands above the leaf bucket. *)
Definition above_leaf (current : iterator) : Prop :=
  match current with End => True | At c => (INT_MIN < c)%Z end.

(** The step past [begin()], on a map that has no leaf bucket. *)
Definition leafless_step D (m : scale_map D) (e : fault) : Prop :=
  e = DecrementBegin /\ m_find INT_MIN m = None.

(** [m'] is [m] filtered: the leaf bucket is the same, and every bucket of
    [m'] holds, in order, some of the nodes of the bucket of [m] at the same
    scale. *)
Definition filtered D (m m' : scale_map D) : Prop :=
  m_find INT_MIN m' = m_find INT_MIN m
  /\ forall k w, m_find k m' = Some w ->
       exists v, m_find k m = Some v /\ subseq (nodes w) (nodes v).

(** What the loop over the non-self children [cs] of a query node leaves of
    the map [m] of the parent: an empty leaf bucket is added when [m] has
    none. *)
Definition after_children D (cs : list CoverTree) (m : scale_map D)
  : scale_map D :=
  match cs, m with
  | [], _ => m
  | _, [] => []
  | _, _ => m_touch INT_MIN m
  end.

(** [numPrunes] has advanced by [n] from [st] to [st'] (the counter is a
    [size_t]). *)
Definition counted S (st st' : TState S) (n : nat) : Prop :=
  (numPrunes st' mod SIZE_MOD
   = (numPrunes st + N.of_nat n) mod SIZE_MOD)%N.

(** The frames of the buckets above the leaf bucket, those the loop of
    [PruneMap] visits. *)
Fixpoint inner_frames D (m : scale_map D) : bucket D :=
  match m with
  | [] => []
  | (k, v) :: m' => if (k =? INT_MIN)%Z then [] else v ++ inner_frames m'
  end.

(** ** [Search]: mapping the results back to the original indices

    [Search] hands the rule object two vectors, [*neighborPtr] and
    [*distancePtr], with one row per query column.  When the object built
    its trees itself, the rows hold the indices of the permuted datasets
    and are copied into [neighbors] and [distances] through the tables
    [oldFromNewReferences] and [oldFromNewQueries].  A vector is a list;
    [operator[]] out of range is undefined behaviour and gives [None]. *)

Section SearchResults.

Variable Mat : Type.
Variable n_cols : Mat -> nat.

(** The type of a distance ([double]). *)
Variable Dist : Type.

(** [v.resize(n)], new elements being [d]. *)
Definition resize A (n : nat) (d : A) (v : list A) : list A :=
  firstn n v ++ repeat d (n - length v).

(** [v[i] = x]. *)
Fixpoint vec_set A (i : nat) (x : A) (v : list A) : option (list A) :=
  match v, i with
  | [], _ => None
  | _ :: v', O => Some (x :: v')
  | y :: v', Datatypes.S i' =>
      match vec_set i' x v' with
      | Some w => Some (y :: w)
      | None => None
      end
  end.

Notation "x <-? c ;; k" := (match c with Some x => k | None => None end)
  (at level 61, c at next level, right associativity).

(** The loop over [j]:
    [row[j] = oldFromNewReferences[( *neighborPtr)[i][j]]]. *)
Fixpoint map_neighbors (oldFromNewReferences : list nat)
    (neighborPtr : list (list nat)) (i : nat) (js : list nat)
    (row : list nat) : option (list nat) :=
  match js with
  | [] => Some row
  | j :: js' =>
      source <-? nth_error neighborPtr i ;;
      new <-? nth_error source j ;;
      old <-? nth_error oldFromNewReferences new ;;
      row' <-? vec_set j old row ;;
      map_neighbors oldFromNewReferences neighborPtr i js' row'
  end.

(** A loop over the rows [i], on the output vectors. *)
Fixpoint for_rows A (body : nat -> A -> option A) (rows : list nat) (out : A)
  : option A :=
  match rows with
  | [] => Some out
  | i :: rows' =>
      out' <-? body i out ;;
      for_rows body rows' out'
  end.

(** The body of the loops that map both sets and that map one set used on
    both sides: [rowMapping] is [oldFromNewQueries] in the first and
    [oldFromNewReferences] in the second. *)
Definition map_both_row (rowMapping oldFromNewReferences : list nat)
    (neighborPtr : list (list nat)) (distancePtr : list (list Dist))
    (i : nat) (out : list (list nat) * list (list Dist))
  : option (list (list nat) * list (list Dist)) :=
  let (neighbors, distances) := out in
  queryMapping <-? nth_error rowMapping i ;;
  d <-? nth_error distancePtr i ;;
  distances' <-? vec_set queryMapping d distances ;;
  row <-? nth_error neighbors queryMapping ;;
  row' <-? map_neighbors oldFromNewReferences neighborPtr i
             (seq 0 (length d)) (resize (length d) 0 row) ;;
  neighbors' <-? vec_set queryMapping row' neighbors ;;
  Some (neighbors', distances').

(** The body of the loop that maps only the references. *)
Definition map_references_row (oldFromNewReferences : list nat)
    (neighborPtr : list (list nat)) (i : nat) (neighbors : list (list nat))
  : option (list (list nat)) :=
  source <-? nth_error neighborPtr i ;;
  row <-? nth_error neighbors i ;;
  row' <-? map_neighbors oldFromNewReferences neighborPtr i
             (seq 0 (length source)) (resize (length source) 0 row) ;;
  vec_set i row' neighbors.

(** The end of [Search], from the rows [neighborPtr] and [distancePtr] the
    traversal has left: the vectors [neighbors] and [distances] on return.
    [neighbors0] and [distances0] are the caller's vectors on entry; the
    conditions of the chain are exhaustive, so no object reaches its end. *)
Definition Search_results (rs : RangeSearch Mat)
    (neighbors0 : list (list nat)) (distances0 : list (list Dist))
    (neighborPtr : list (list nat)) (distancePtr : list (list Dist))
  : option (list (list nat) * list (list Dist)) :=
  let n := n_cols (querySet rs) in
  if negb (treeOwner rs) then Some (neighborPtr, distancePtr)
  else if treeOwner rs && hasQuerySet rs && negb (singleMode rs) then
    for_rows
      (map_both_row (oldFromNewQueries rs) (oldFromNewReferences rs)
         neighborPtr distancePtr)
      (seq 0 n) (resize n [] [], resize n [] [])
  else if treeOwner rs && negb (hasQuerySet rs) then
    for_rows
      (map_both_row (oldFromNewReferences rs) (oldFromNewReferences rs)
         neighborPtr distancePtr)
      (seq 0 n) (resize n [] [], resize n [] [])
  else if treeOwner rs && hasQuerySet rs && singleMode rs then
    neighbors <-? for_rows
                    (map_references_row (oldFromNewReferences rs) neighborPtr)
                    (seq 0 n) (resize n [] []) ;;
    Some (neighbors, distancePtr)
  else Some (neighbors0, distances0).


End SearchResults.

(** ** A traversal is complete up to pruning *)

Section Coverage.

Variables D S : Type.
Variable is_DBL_MAX : D -> bool.
Variable P : RuleType D S.

(** [d] is a value [BaseCase] returns for the pair of points. *)
Definition base_case_of (a b : nat) (d : D) : Prop :=
  exists s, d = fst (BaseCase P a b s).

(** The policy can prune the pair of nodes: [Score] can return [DBL_MAX]
    for it, given a base case of the points of the two nodes, or [Rescore]
    can, given a score that is not [DBL_MAX]. *)
Definition prunable (qn rn : CoverTree) : Prop :=
  exists d s,
    (base_case_of (Point qn) (Point rn) d
     /\ is_DBL_MAX (fst (Score P qn rn d s)) = true)
    \/ (is_DBL_MAX d = false
        /\ is_DBL_MAX (fst (Rescore P qn rn d s)) = true).

(** The policy prunes a pair of nodes only when every pair of points the
    two nodes cover may be skipped. *)
Definition sound_prunes (may_skip : nat -> nat -> Prop) : Prop :=
  forall qn rn,
    prunable qn rn ->
    forall a b,
      In a (leaf_points qn) -> In b (leaf_points rn) -> may_skip a b.

(** A frame is sound for the pairs [C] evaluated so far: its score is not
    [DBL_MAX], its node is well formed, its base case is one of the cached
    pair of points and, when the cache names the point of the frame's
    node, the cached pair is in [C]. *)
Definition sound_frame (C : list (nat * nat)) (f : MapEntry D) : Prop :=
  is_DBL_MAX (score f) = false
  /\ wf_tree (referenceNode f)
  /\ base_case_of (queryIndex f) (referenceIndex f) (baseCase f)
  /\ (referenceIndex f = Point (referenceNode f) ->
      In (queryIndex f, referenceIndex f) C).

(** The frames [fs'] keep every node of [fs] that the policy cannot prune
    for the query node [c]. *)
Definition narrowed (c : CoverTree) (fs fs' : bucket D) : Prop :=
  forall n, In n (nodes fs) -> In n (nodes fs') \/ prunable c n.

(** The invariant of a complete traversal, for the query node [q], the
    reference points [R] and the pairs [C] evaluated so far: the caches are
    sound, and every pair of a point below [q] and a point of [R] is still
    covered by a frame, or evaluated, or may be skipped. *)
Definition covering (may_skip : nat -> nat -> Prop) (R : list nat)
    (q : CoverTree) (fs : bucket D) (C : list (nat * nat)) : Prop :=
  Forall (sound_frame C) fs
  /\ forall a b,
       In a (leaf_points q) -> In b R ->
       In b (frontier_points fs) \/ In (a, b) C \/ may_skip a b.

End Coverage.

(** ** Policies that never prune *)

Section NeverPrunes.

Variables D S : Type.
Variable is_DBL_MAX : D -> bool.
Variable rule : RuleType D S.

(** [Score] never returns [DBL_MAX], and [Rescore] does not either when
    the score it is given is not [DBL_MAX]. *)
Definition never_prunes : Prop :=
  forall qn rn d s,
    is_DBL_MAX (fst (Score rule qn rn d s)) = false
    /\ (is_DBL_MAX d = false ->
        is_DBL_MAX (fst (Rescore rule qn rn d s)) = false).

Definition finite_score (f : MapEntry D) : Prop :=
  is_DBL_MAX (score f) = false.

(** No frame of the map has the score [DBL_MAX]. *)
Definition finite_scores (m : scale_map D) : Prop :=
  forall k v, m_find k m = Some v -> Forall finite_score v.

End NeverPrunes.

(** ** The calls of a traversal stay within the two trees *)

Section Within.

Variable D : Type.

(** Every pair of [C] is a pair of a point of [Qs] and a point of [Rs]. *)
Definition within (Qs Rs : list nat) (C : list (nat * nat)) : Prop :=
  forall a b, In (a, b) C -> In a Qs /\ In b Rs.

(** The nodes of the frames hold points of [Rs] only. *)
Definition rooted (Rs : list nat) (fs : bucket D) : Prop :=
  Forall (fun f => incl (all_points (referenceNode f)) Rs) fs.

Definition rooted_map (Rs : list nat) (m : scale_map D) : Prop :=
  forall k v, In (k, v) m -> rooted Rs v.

End Within.

(** * Properties *)

(** ** Induction on cover trees *)

Lemma CoverTree_ind' (P : CoverTree -> Prop) :
  (forall p s cs, Forall P cs -> P (Node p s cs)) -> forall t, P t.
Proof.
  intros H. fix IH 1. intros [p s cs]. apply H.
  induction cs as [|c cs IHcs]; constructor; [apply IH | exact IHcs].
Qed.

(** ** The monad *)

Section MonadFacts.

Variable S : Type.

Lemma bind_Ok A B (m : M S A) (f : A -> M S B) st b st' :
  bind m f st = Ok (b, st') ->
  exists a st1, m st = Ok (a, st1) /\ f a st1 = Ok (b, st').
Proof.
  unfold bind. destruct (m st) as [[a st1]| |]; try discriminate.
  intros H. exists a, st1. split; [reflexivity | exact H].
Qed.

Lemma ret_Ok A (a b : A) (st st' : TState S) :
  ret a st = Ok (b, st') -> b = a /\ st' = st.
Proof. unfold ret. intros H. inversion H. split; reflexivity. Qed.

Lemma lift_Ok A (o : outcome A) (a : A) (st st' : TState S) :
  lift o st = Ok (a, st') -> o = Ok a /\ st' = st.
Proof.
  unfold lift. destruct o; try discriminate.
  intros H. inversion H. split; reflexivity.
Qed.

End MonadFacts.

(** Inversion of a successful monadic computation, one step at a time. *)
Ltac monad_inv H :=
  match type of H with
  | bind _ _ _ = Ok _ =>
      let a := fresh "a" in
      let st := fresh "st" in
      let H1 := fresh "Hstep" in
      let H2 := fresh "Hrest" in
      apply bind_Ok in H; destruct H as (a & st & H1 & H2)
  | ret _ _ = Ok _ =>
      apply ret_Ok in H; destruct H as [? ?]; subst
  | lift _ _ = Ok _ =>
      apply lift_Ok in H; destruct H as [? ?]; subst
  | fail _ _ = Ok _ => discriminate H
  | out_of_fuel _ = Ok _ => discriminate H
  end.

(** ** The empty frontier *)

Section EmptyFrontier.

Variables D S : Type.
Variable is_DBL_MAX : D -> bool.
Variable rule : RuleType D S.
Variable sort : bucket D -> bucket D.

(** C9.  [Traverse] on a reference map without entries returns at once: the
    map is still empty and the traverser state, hence the rule state (no
    call of [BaseCase], [Score] or [Rescore]) and the prune count, is the
    one it was called with; the query node's children are not visited. *)
Theorem Traverse_map_empty_frontier (queryNode : CoverTree) (st : TState S) :
  Traverse_map is_DBL_MAX rule sort queryNode [] st = Ok ([], st).
Proof. destruct queryNode as [p s cs]. reflexivity. Qed.

End EmptyFrontier.

(** ** Construction of the orchestrator *)

Section Construction.

Variable Mat : Type.
Variable TreeType_new : Mat -> N -> exception + (CoverTree * list nat).

Lemma RangeSearch_new_naive referenceSet querySet singleMode leafSize :
  RangeSearch_new TreeType_new referenceSet querySet true singleMode leafSize
  = inr (mkRangeSearch referenceSet querySet None None [] []
           false true true false 0).
Proof. reflexivity. Qed.

Lemma RangeSearch_new_throws referenceSet querySet naive singleMode leafSize e :
  RangeSearch_new TreeType_new referenceSet querySet naive singleMode leafSize
  = inl e ->
  naive = false /\
  (TreeType_new referenceSet leafSize = inl e \/
   singleMode = false /\ TreeType_new querySet leafSize = inl e).
Proof.
  unfold RangeSearch_new. destruct naive; simpl; [discriminate|].
  destruct (TreeType_new referenceSet leafSize) as [e1|[rt o1]] eqn:Hr.
  - intros H. inversion H. subst. auto.
  - destruct singleMode; simpl; [discriminate|].
    destruct (TreeType_new querySet leafSize) as [e2|[qt o2]] eqn:Hq;
      [|discriminate].
    intros H. inversion H. subst. auto.
Qed.

Lemma RangeSearch_new_mono_throws referenceSet naive singleMode leafSize e :
  RangeSearch_new_mono TreeType_new referenceSet naive singleMode leafSize
  = inl e ->
  naive = false /\ TreeType_new referenceSet leafSize = inl e.
Proof.
  unfold RangeSearch_new_mono. destruct naive; simpl; [discriminate|].
  destruct (TreeType_new referenceSet leafSize) as [e1|[rt o1]] eqn:Hr;
    [|discriminate].
  intros H. inversion H. subst. auto.
Qed.

(** C10, as the code has it.  The constructors do not inspect the leaf size:
    in naive mode they succeed for every leaf size, zero included, and
    build no tree; otherwise the leaf size is handed to the tree
    constructor, and the construction throws exactly what that constructor
    throws. *)
Theorem RangeSearch_new_leafSize :
  (forall referenceSet querySet singleMode leafSize,
      exists rs,
        RangeSearch_new TreeType_new referenceSet querySet true singleMode
          leafSize = inr rs
        /\ RangeSearch_new_mono TreeType_new referenceSet true singleMode
             leafSize
           = inr (mkRangeSearch referenceSet referenceSet None None [] []
                    false false true false 0)
        /\ referenceTree rs = None /\ queryTree rs = None
        /\ naive rs = true)
  /\ (forall referenceSet querySet naive singleMode leafSize e,
        RangeSearch_new TreeType_new referenceSet querySet naive singleMode
          leafSize = inl e
        \/ RangeSearch_new_mono TreeType_new referenceSet naive singleMode
             leafSize = inl e ->
        naive = false /\
        (TreeType_new referenceSet leafSize = inl e \/
         TreeType_new querySet leafSize = inl e)).
Proof.
  split.
  - intros. eexists. rewrite RangeSearch_new_naive.
    repeat split; reflexivity.
  - intros referenceSet querySet naive singleMode leafSize e [H|H].
    + apply RangeSearch_new_throws in H. destruct H as [Hn [H|[_ H]]]; auto.
    + apply RangeSearch_new_mono_throws in H. destruct H as [Hn H]; auto.
Qed.

End Construction.

(** C10, counterexample.  In naive mode the construction succeeds with leaf
    size zero, even for a tree type whose constructor would refuse it. *)
Lemma RangeSearch_new_leafSize_zero_succeeds :
  RangeSearch_new Examples.no_tree 2 1 true false 0 <> inl out_of_range
  /\ RangeSearch_new_mono Examples.no_tree 2 true false 0 <> inl out_of_range.
Proof. split; discriminate. Qed.

Lemma RangeSearch_new_leafSize_witness :
  (exists rs,
      RangeSearch_new Examples.no_tree 2 1 true false 0 = inr rs
      /\ naive rs = true)
  /\ (false = false /\
      (Examples.no_tree 2 0 = inl out_of_range \/
       Examples.no_tree 1 0 = inl out_of_range)).
Proof.
  destruct (RangeSearch_new_leafSize Examples.no_tree) as [H1 H2]. split.
  - destruct (H1 2 1 false 0%N) as (rs & Hrs & _ & _ & _ & Hn).
    exists rs. split; assumption.
  - apply (H2 2 1 false false 0%N out_of_range). left. reflexivity.
Defined.

(** ** Frontiers emptied by pruning *)

(** C7, at the failing input.  One query point far from both reference
    points: the root frame is pruned by [Score], the only bucket is erased,
    and the loop condition of [ReferenceRecursion] reads [rbegin()] of the
    empty map. *)
Theorem Traverse_reads_emptied_frontier :
  Examples.run
    (Examples.traverse Examples.far_rules
       Examples.far_query Examples.far_reference) []
  = Fault EmptyMapDeref.
Proof. vm_compute. reflexivity. Qed.

(** C1, at the same input.  In naive mode [Search] ends with empty result
    sets; in dual-tree mode, on trees over the same sets and with the same
    rules, it does not end normally. *)
Theorem Search_dual_tree_differs_from_naive :
  (exists rs,
      RangeSearch_new Examples.no_tree 2 1 true false 0 = inr rs /\
      Search_traversal (fun n : nat => n) Examples.is_max 0%Z
        Examples.far_rules Examples.sort_by_score Examples.no_single rs []
      = Ok ([], 0%N))
  /\ Search_traversal (fun n : nat => n) Examples.is_max 0%Z
       Examples.far_rules Examples.sort_by_score Examples.no_single
       (RangeSearch_of_trees Examples.far_reference Examples.far_query
          2 1 false) []
     = Fault EmptyMapDeref.
Proof.
  split.
  - eexists. split; [reflexivity | vm_compute; reflexivity].
  - vm_compute. reflexivity.
Qed.

(** ** The ordered map *)

Section MapFacts.

Variable D : Type.

Implicit Types (m : scale_map D) (v : bucket D) (k j : Z).

Lemma m_find_keys k m : m_find k m = None <-> ~ In k (keys m).
Proof.
  induction m as [|[k' v'] m' IH]; simpl.
  - split; auto.
  - destruct (Z.eqb_spec k k') as [->|Hne].
    + split; [discriminate | intros H; exfalso; apply H; auto].
    + rewrite IH. split.
      * intros H [E|E]; [congruence | auto].
      * intros H E. apply H. auto.
Qed.

Lemma m_find_In k v m : m_find k m = Some v -> In (k, v) m.
Proof.
  induction m as [|[k' v'] m' IH]; simpl; [discriminate|].
  destruct (Z.eqb_spec k k') as [->|Hne].
  - intros H. inversion H. auto.
  - auto.
Qed.

Lemma m_find_Some_keys k v m : m_find k m = Some v -> In k (keys m).
Proof. intros H. apply m_find_In in H. apply (in_map fst) in H. exact H. Qed.

Lemma In_m_find k v m : map_ok m -> In (k, v) m -> m_find k m = Some v.
Proof.
  induction m as [|[k' v'] m' IH]; simpl; [tauto|].
  intros [Hlt Hok] [E|Hin].
  - inversion E. subst. rewrite Z.eqb_refl. reflexivity.
  - destruct (Z.eqb_spec k k') as [->|Hne]; [|auto].
    apply (in_map fst) in Hin. simpl in Hin.
    rewrite Forall_forall in Hlt. apply Hlt in Hin. lia.
Qed.

Lemma m_find_set j k v m :
  m_find j (m_set k v m) = if (j =? k)%Z then Some v else m_find j m.
Proof.
  induction m as [|[k' v'] m' IH]; simpl.
  - destruct (j =? k)%Z; reflexivity.
  - destruct (Z.ltb_spec k' k).
    + simpl. destruct (j =? k)%Z; reflexivity.
    + destruct (Z.eqb_spec k k') as [->|Hne]; simpl.
      * destruct (Z.eqb_spec j k'); reflexivity.
      * rewrite IH. destruct (Z.eqb_spec j k'), (Z.eqb_spec j k);
          try reflexivity; congruence.
Qed.

Lemma keys_set j k v m : In j (keys (m_set k v m)) <-> j = k \/ In j (keys m).
Proof.
  induction m as [|[k' v'] m' IH]; simpl.
  - intuition.
  - destruct (Z.ltb_spec k' k); simpl; [intuition|].
    destruct (Z.eqb_spec k k') as [->|Hne]; simpl.
    + intuition.
    + rewrite IH. intuition.
Qed.

Lemma map_ok_set k v m : map_ok m -> map_ok (m_set k v m).
Proof.
  induction m as [|[k' v'] m' IH]; simpl.
  - intros _. split; [constructor | exact I].
  - intros [Hlt Hok]. destruct (Z.ltb_spec k' k); simpl.
    + split; [|split; assumption].
      constructor; [assumption|].
      eapply Forall_impl; [|exact Hlt]. simpl. intros; lia.
    + destruct (Z.eqb_spec k k') as [->|Hne]; simpl.
      * split; assumption.
      * split; [|auto].
        rewrite Forall_forall in *. intros j Hj.
        apply keys_set in Hj. destruct Hj as [->|Hj]; [lia | auto].
Qed.

Lemma keys_erase j k m : In j (keys (m_erase k m)) -> In j (keys m).
Proof.
  induction m as [|[k' v'] m' IH]; simpl; [tauto|].
  destruct (Z.eqb_spec k k'); simpl; intuition.
Qed.

Lemma map_ok_erase k m : map_ok m -> map_ok (m_erase k m).
Proof.
  induction m as [|[k' v'] m' IH]; simpl; [tauto|].
  intros [Hlt Hok]. destruct (Z.eqb_spec k k'); simpl; [assumption|].
  split; [|auto].
  rewrite Forall_forall in *. intros j Hj. apply keys_erase in Hj. auto.
Qed.

Lemma m_find_erase j k m :
  map_ok m ->
  m_find j (m_erase k m) = if (j =? k)%Z then None else m_find j m.
Proof.
  induction m as [|[k' v'] m' IH]; simpl.
  - intros _. destruct (j =? k)%Z; reflexivity.
  - intros [Hlt Hok]. destruct (Z.eqb_spec k k') as [->|Hne]; simpl.
    + destruct (Z.eqb_spec j k') as [->|Hj]; [|reflexivity].
      apply m_find_keys. intros Hin.
      rewrite Forall_forall in Hlt. apply Hlt in Hin. lia.
    + rewrite (IH Hok).
      destruct (Z.eqb_spec j k'), (Z.eqb_spec j k);
        try reflexivity; congruence.
Qed.

Lemma m_find_touch j k m :
  m_find j (m_touch k m)
  = match m_find j m with
    | Some v => Some v
    | None => if (j =? k)%Z then Some [] else None
    end.
Proof.
  unfold m_touch. destruct (m_find k m) as [v|] eqn:Hk.
  - destruct (m_find j m) eqn:Hj; [reflexivity|].
    destruct (Z.eqb_spec j k) as [->|]; [congruence | reflexivity].
  - rewrite m_find_set. destruct (Z.eqb_spec j k) as [->|].
    + rewrite Hk. reflexivity.
    + destruct (m_find j m); reflexivity.
Qed.

Lemma map_ok_touch k m : map_ok m -> map_ok (m_touch k m).
Proof.
  unfold m_touch. destruct (m_find k m); [auto | apply map_ok_set].
Qed.

Lemma map_ok_push k f m : map_ok m -> map_ok (m_push k f m).
Proof. apply map_ok_set. Qed.

Lemma keys_push j k f m : In j (keys (m_push k f m)) <-> j = k \/ In j (keys m).
Proof. apply keys_set. Qed.

Lemma m_bucket_set j k v m :
  m_bucket j (m_set k v m) = if (j =? k)%Z then v else m_bucket j m.
Proof.
  unfold m_bucket. rewrite m_find_set. destruct (j =? k)%Z; reflexivity.
Qed.

Lemma m_bucket_push j k f m :
  m_bucket j (m_push k f m)
  = if (j =? k)%Z then m_bucket k m ++ [f] else m_bucket j m.
Proof. apply m_bucket_set. Qed.

(** Under [map_ok] the head of the map holds the largest key. *)
Lemma map_ok_rbegin_max top v m :
  map_ok m -> m_rbegin m = Some (top, v) ->
  Forall (fun k => (k <= top)%Z) (keys m).
Proof.
  destruct m as [|[k' v'] m']; simpl; [discriminate|].
  intros [Hlt _] H. inversion H. subst.
  constructor; [lia|]. eapply Forall_impl; [|exact Hlt]. simpl. intros; lia.
Qed.

Lemma m_rbegin_find top v m : m_rbegin m = Some (top, v) -> m_find top m = Some v.
Proof.
  destruct m as [|[k' v'] m']; simpl; [discriminate|].
  intros H. inversion H. subst. rewrite Z.eqb_refl. reflexivity.
Qed.

End MapFacts.

(** ** The reference recursion keeps the map ordered and stops below the
    query scale *)

Section ReferenceRecursionFacts.

Variables D S : Type.
Variable is_DBL_MAX : D -> bool.
Variable rule : RuleType D S.
Variable sort : bucket D -> bucket D.

Implicit Types (m : scale_map D) (st : TState S) (q : CoverTree).

Lemma RR_children_map_ok q cs : forall m st m' st',
  map_ok m ->
  ReferenceRecursion_children is_DBL_MAX rule q cs m st = Ok (m', st') ->
  map_ok m'.
Proof.
  induction cs as [|c cs IH]; simpl; intros m st m' st' Hok H.
  - monad_inv H. assumption.
  - monad_inv H. monad_inv Hrest.
    destruct (is_DBL_MAX a0).
    + monad_inv Hrest0. eapply IH; eassumption.
    + eapply IH; [|eassumption]. apply map_ok_push. assumption.
Qed.

Lemma RR_expand_map_ok q refNode bc m st m' st' :
  map_ok m ->
  ReferenceRecursion_expand is_DBL_MAX rule q refNode bc m st = Ok (m', st') ->
  map_ok m'.
Proof.
  unfold ReferenceRecursion_expand. intros Hok H.
  destruct (Children refNode) as [|c0 cs]; [discriminate|].
  monad_inv H. monad_inv Hrest.
  eapply RR_children_map_ok; [|eassumption].
  destruct (is_DBL_MAX a).
  - monad_inv Hstep0. monad_inv Hrest. assumption.
  - monad_inv Hstep0. apply map_ok_push. assumption.
Qed.

Lemma RR_frame_map_ok q frame m st m' st' :
  map_ok m ->
  ReferenceRecursion_frame is_DBL_MAX rule q frame m st = Ok (m', st') ->
  map_ok m'.
Proof.
  unfold ReferenceRecursion_frame. intros Hok H.
  monad_inv H. destruct (is_DBL_MAX a).
  - monad_inv Hrest. monad_inv Hrest0. assumption.
  - monad_inv Hrest. monad_inv Hrest0. destruct (is_DBL_MAX a1).
    + monad_inv Hrest. monad_inv Hrest0. assumption.
    + eapply RR_expand_map_ok; eassumption.
Qed.

Lemma RR_for_map_ok q k fuel : forall i m st m' st',
  map_ok m ->
  ReferenceRecursion_for is_DBL_MAX rule fuel q k i m st = Ok (m', st') ->
  map_ok m'.
Proof.
  induction fuel as [|fuel IH]; simpl; intros i m st m' st' Hok H;
    [discriminate|].
  destruct (nth_error (m_bucket k m) i) as [frame|].
  - monad_inv H. eapply IH; [|eassumption].
    eapply RR_frame_map_ok; eassumption.
  - monad_inv H. assumption.
Qed.

Lemma RR_while_stops q fuel : forall m st m' st',
  map_ok m ->
  ReferenceRecursion_while is_DBL_MAX rule sort fuel q m st = Ok (m', st') ->
  map_ok m' /\ Forall (fun k => (k <= Scale q)%Z) (keys m').
Proof.
  induction fuel as [|fuel IH]; cbn [ReferenceRecursion_while];
    intros m st m' st' Hok H; [discriminate|].
  destruct (m_rbegin m) as [[top scaleVector]|] eqn:Htop; [|discriminate].
  destruct (Z.gtb_spec top (Scale q)) as [Hgt|Hle].
  - destruct ((Scale q =? INT_MIN)%Z && (top =? INT_MIN)%Z) eqn:Hbrk.
    + (* the break is never taken: it needs top = INT_MIN = Scale q *)
      apply andb_true_iff in Hbrk. destruct Hbrk as [H1 H2].
      apply Z.eqb_eq in H1, H2. lia.
    + monad_inv H.
      destruct (m_rbegin a) as [[top' v']|] eqn:Htop'; [|discriminate].
      eapply IH; [|eassumption].
      apply map_ok_erase. eapply RR_for_map_ok; [|eassumption].
      apply map_ok_set. assumption.
  - monad_inv H. split; [assumption|].
    pose proof (map_ok_rbegin_max _ Hok Htop) as Hmax.
    eapply Forall_impl; [|exact Hmax]. simpl. intros; lia.
Qed.

(** C2, as the code has it.  When [ReferenceRecursion] returns, every scale
    present in the reference map is at most the scale of the query node. *)
Theorem ReferenceRecursion_scales_below_query q m st m' st' :
  map_ok m ->
  ReferenceRecursion is_DBL_MAX rule sort q m st = Ok (m', st') ->
  Forall (fun k => (k <= Scale q)%Z) (keys m').
Proof.
  unfold ReferenceRecursion. intros Hok H.
  eapply RR_while_stops; eassumption.
Qed.

End ReferenceRecursionFacts.

(** C2, counterexample.  The reference root has scale 5, its self-child
    scale 2, the query root scale 4: when [ReferenceRecursion] returns, the
    map holds the scale 2, which is neither [INT_MIN] nor at least 4. *)
Lemma ReferenceRecursion_leaves_scale_below_query :
  Examples.run
    (ReferenceRecursion Examples.is_max Examples.no_prune
       Examples.sort_by_score Examples.shallow_query
       (Examples.root_map Examples.shallow_query Examples.deep_reference)) tt
  = Ok (Examples.deep_after_recursion, mkState tt 0)
  /\ ~ Forall (fun k => k = INT_MIN \/ (k >= Scale Examples.shallow_query)%Z)
        (keys Examples.deep_after_recursion).
Proof.
  split; [vm_compute; reflexivity|].
  intros H. inversion H as [|k l [Hk|Hk] _]; subst.
  - discriminate Hk.
  - vm_compute in Hk. apply Hk. reflexivity.
Qed.

Lemma ReferenceRecursion_scales_below_query_witness :
  Forall (fun k => (k <= Scale Examples.shallow_query)%Z)
    (keys Examples.deep_after_recursion).
Proof.
  apply (@ReferenceRecursion_scales_below_query Z unit Examples.is_max
           Examples.no_prune Examples.sort_by_score Examples.shallow_query
           (Examples.root_map Examples.shallow_query Examples.deep_reference)
           (mkState tt 0) Examples.deep_after_recursion (mkState tt 0)).
  - simpl. split; [constructor | exact I].
  - vm_compute. reflexivity.
Defined.

(** ** The expansion of a frame *)

Section ExpansionFacts.

Variables D S : Type.
Variable is_DBL_MAX : D -> bool.
Variable P : RuleType D S.

Implicit Types (m : scale_map D) (st : TState (S * list (Event D))).

Lemma frames_push k (f : MapEntry D) m :
  map_ok m -> Permutation (frames (m_push k f m)) (frames m ++ [f]).
Proof.
  unfold m_push. induction m as [|[k' v'] m' IH]; simpl.
  - intros _. apply Permutation_refl.
  - intros [Hlt Hok]. unfold m_bucket. simpl.
    destruct (Z.ltb_spec k' k) as [Hk|Hk].
    + destruct (Z.eqb_spec k k') as [->|_]; [lia|].
      assert (Hnone : m_find k m' = None).
      { apply m_find_keys. intros Hin. rewrite Forall_forall in Hlt.
        apply Hlt in Hin. lia. }
      rewrite Hnone. simpl.
      change (f :: v' ++ frames m') with ([f] ++ (v' ++ frames m')).
      apply Permutation_app_comm.
    + destruct (Z.eqb_spec k k') as [->|Hne]; simpl.
      * rewrite <- !app_assoc. apply Permutation_app_head.
        apply Permutation_app_comm.
      * rewrite <- app_assoc. apply Permutation_app_head.
        apply IH. assumption.
Qed.

Lemma children_spec_BaseCases q cs : forall s calls fr s',
  children_spec is_DBL_MAX P q cs s = (calls, fr, s') ->
  filter is_BaseCase calls = map (fun c => EvBaseCase (Point q) (Point c)) cs.
Proof.
  induction cs as [|c cs IH]; simpl; intros s calls fr s' H.
  - inversion H. reflexivity.
  - destruct (BaseCase P (Point q) (Point c) s) as [bc s1].
    destruct (Score P q c bc s1) as [sc s2].
    destruct (children_spec is_DBL_MAX P q cs s2) as [[calls0 fr0] s3] eqn:E.
    inversion H. subst. simpl. f_equal. eapply IH. eassumption.
Qed.

End ExpansionFacts.

(** ** The leaf phase *)

Section LeafPhaseFacts.

Variables D S : Type.
Variable is_DBL_MAX : D -> bool.
Variable P : RuleType D S.

Implicit Types (st : TState (S * list (Event D))).

(** [base_cases] performs the calls and the prune increments of
    [leaf_phase_spec], and never fails. *)
Lemma base_cases_spec q pv : forall st calls pruned s',
  leaf_phase_spec is_DBL_MAX P q pv (fst (rule_state st))
  = (calls, pruned, s') ->
  exists st',
    base_cases is_DBL_MAX (Recording P) q pv st = Ok (tt, st')
    /\ rule_state st' = (s', snd (rule_state st) ++ calls)
    /\ (numPrunes st' mod SIZE_MOD
        = (numPrunes st + N.of_nat pruned) mod SIZE_MOD)%N.
Proof.
  induction pv as [|frame rest IH]; intros [[s l] n] calls pruned s' H;
    simpl in H.
  - inversion H. subst. eexists. split; [reflexivity|].
    simpl. rewrite app_nil_r, N.add_0_r. split; reflexivity.
  - cbn [base_cases]. unfold already_evaluated in H.
    destruct ((referenceIndex frame =? Point (referenceNode frame))
              && (queryIndex frame =? Point q)) eqn:Hdone.
    + destruct (leaf_phase_spec is_DBL_MAX P q rest s)
        as [[calls0 pruned0] s0] eqn:E.
      inversion H. subst. clear H.
      unfold bind at 1. simpl.
      destruct (IH (mkState (s, l) (size_add n 1)) calls pruned0 s' E)
        as (st' & Hrun & Hst & Hn).
      exists st'. split; [exact Hrun|]. split; [exact Hst|].
      simpl in Hn. rewrite Hn. unfold size_add.
      rewrite N.Div0.add_mod_idemp_l. f_equal. lia.
    + destruct (Rescore P q (referenceNode frame) (score frame) s)
        as [r s1] eqn:Hr.
      unfold bind at 1. unfold call_Rescore at 1. simpl. rewrite Hr.
      destruct (is_DBL_MAX r).
      * destruct (leaf_phase_spec is_DBL_MAX P q rest s1)
          as [[calls0 pruned0] s0] eqn:E.
        inversion H. subst. clear H.
        unfold bind at 1. simpl.
        destruct (IH (mkState
                        (s1, l ++ [EvRescore q (referenceNode frame)
                                     (score frame)]) (size_add n 1))
                    calls0 pruned0 s' E)
          as (st' & Hrun & Hst & Hn).
        exists st'. split; [exact Hrun|]. simpl in Hst.
        rewrite Hst, <- app_assoc. split; [reflexivity|].
        simpl in Hn. rewrite Hn. unfold size_add.
        rewrite N.Div0.add_mod_idemp_l. f_equal. lia.
      * destruct (BaseCase P (Point q) (Point (referenceNode frame)) s1)
          as [d s2] eqn:Hbc.
        destruct (leaf_phase_spec is_DBL_MAX P q rest s2)
          as [[calls0 pruned0] s0] eqn:E.
        inversion H. subst. clear H.
        unfold bind at 1. unfold call_BaseCase at 1. simpl. rewrite Hbc.
        destruct (IH (mkState
                        (s2, (l ++ [EvRescore q (referenceNode frame)
                                      (score frame)])
                               ++ [EvBaseCase (Point q)
                                     (Point (referenceNode frame))]) n)
                    calls0 pruned s' E)
          as (st' & Hrun & Hst & Hn).
        exists st'. split; [exact Hrun|]. simpl in Hst.
        rewrite Hst, <- !app_assoc. split; [reflexivity|]. exact Hn.
Qed.

(** Every frame accounts for one unit: a prune increment or a [BaseCase]. *)
Lemma leaf_phase_spec_accounting q pv : forall s calls pruned s',
  leaf_phase_spec is_DBL_MAX P q pv s = (calls, pruned, s') ->
  count_BaseCases calls + pruned = length pv.
Proof.
  unfold count_BaseCases.
  induction pv as [|frame rest IH]; simpl; intros s calls pruned s' H.
  - inversion H. reflexivity.
  - destruct (already_evaluated q frame).
    + destruct (leaf_phase_spec is_DBL_MAX P q rest s)
        as [[calls0 pruned0] s0] eqn:E.
      inversion H. subst. apply IH in E. lia.
    + destruct (Rescore P q (referenceNode frame) (score frame) s)
        as [r s1].
      destruct (is_DBL_MAX r).
      * destruct (leaf_phase_spec is_DBL_MAX P q rest s1)
          as [[calls0 pruned0] s0] eqn:E.
        inversion H. subst. apply IH in E. simpl. lia.
      * destruct (BaseCase P (Point q) (Point (referenceNode frame)) s1)
          as [d s2].
        destruct (leaf_phase_spec is_DBL_MAX P q rest s2)
          as [[calls0 pruned0] s0] eqn:E.
        inversion H. subst. apply IH in E. simpl. lia.
Qed.

(** The all-or-nothing prune of [ReferenceRecursion]: a frame that passes
    [Rescore] and whose [Score] is [DBL_MAX] leaves the map as it is and
    adds the number of children of its node to [numPrunes]. *)
Lemma RR_frame_Score_prunes q (frame : MapEntry D) (m : scale_map D)
    (st : TState S) r s1 bc s2 sc s3 :
  Rescore P q (referenceNode frame) (score frame) (rule_state st) = (r, s1) ->
  is_DBL_MAX r = false ->
  (if negb (Point (referenceNode frame) =? referenceIndex frame)
      || negb (Point q =? queryIndex frame)
   then BaseCase P (Point q) (Point (referenceNode frame)) s1
   else (baseCase frame, s1)) = (bc, s2) ->
  Score P q (referenceNode frame) bc s2 = (sc, s3) ->
  is_DBL_MAX sc = true ->
  ReferenceRecursion_frame is_DBL_MAX P q frame m st
  = Ok (m, mkState s3
             (size_add (numPrunes st)
                (N.of_nat (NumChildren (referenceNode frame))))).
Proof.
  intros Hr Hrmax Hbc Hsc Hscmax. unfold ReferenceRecursion_frame.
  unfold bind at 1. unfold call_Rescore at 1. rewrite Hr, Hrmax.
  unfold bind at 1.
  destruct (negb (Point (referenceNode frame) =? referenceIndex frame)
            || negb (Point q =? queryIndex frame)).
  - unfold call_BaseCase at 1. simpl. rewrite Hbc.
    unfold bind at 1. unfold call_Score at 1. simpl. rewrite Hsc, Hscmax.
    reflexivity.
  - unfold ret at 1. inversion Hbc. subst.
    unfold bind at 1. unfold call_Score at 1. simpl. rewrite Hsc, Hscmax.
    reflexivity.
Qed.

(** C3, as the code has it.  [numPrunes] counts pruned frames and child
    nodes, not pairs of points.  In the leaf phase every frame of the leaf
    bucket accounts for exactly one unit, a [BaseCase] call or a prune
    increment, so that calls plus increments is the size of the bucket; in
    [ReferenceRecursion] a frame whose [Score] is [DBL_MAX] adds the number
    of children of its node. *)
Theorem prune_accounting :
  (forall q pv (st : TState (S * list (Event D))),
      exists st' calls pruned,
        base_cases is_DBL_MAX (Recording P) q pv st = Ok (tt, st')
        /\ snd (rule_state st') = snd (rule_state st) ++ calls
        /\ count_BaseCases calls + pruned = length pv
        /\ (numPrunes st' mod SIZE_MOD
            = (numPrunes st + N.of_nat pruned) mod SIZE_MOD)%N)
  /\ (forall q (frame : MapEntry D) (m : scale_map D) (st : TState S)
             r s1 bc s2 sc s3,
        Rescore P q (referenceNode frame) (score frame) (rule_state st)
        = (r, s1) ->
        is_DBL_MAX r = false ->
        (if negb (Point (referenceNode frame) =? referenceIndex frame)
            || negb (Point q =? queryIndex frame)
         then BaseCase P (Point q) (Point (referenceNode frame)) s1
         else (baseCase frame, s1)) = (bc, s2) ->
        Score P q (referenceNode frame) bc s2 = (sc, s3) ->
        is_DBL_MAX sc = true ->
        exists st' : TState S,
          ReferenceRecursion_frame is_DBL_MAX P q frame m st = Ok (m, st')
          /\ numPrunes st'
             = size_add (numPrunes st)
                 (N.of_nat (NumChildren (referenceNode frame)))).
Proof.
  split.
  - intros q pv st.
    destruct (leaf_phase_spec is_DBL_MAX P q pv (fst (rule_state st)))
      as [[calls pruned] s'] eqn:E.
    destruct (base_cases_spec q pv st E) as (st' & Hrun & Hst & Hn).
    exists st', calls, pruned. rewrite Hst. simpl.
    repeat split; auto. eapply leaf_phase_spec_accounting. eassumption.
  - intros. eexists. split; [eapply RR_frame_Score_prunes; eassumption|].
    reflexivity.
Qed.

End LeafPhaseFacts.

(** C3, counterexample.  Query and reference trees of one point each and a
    policy that never prunes: one [BaseCase] call and one prune increment
    (the leaf frame was already evaluated), two in all for one pair. *)
Lemma prune_accounting_not_pairs :
  Examples.run
    (Examples.traverse (Recording Examples.no_prune)
       (Examples.leaf 0) (Examples.leaf 0)) (tt, [])
  = Ok (Examples.root_map (Examples.leaf 0) (Examples.leaf 0),
        mkState (tt, [EvBaseCase 0 0]) 1)
  /\ (N.of_nat (count_BaseCases ([EvBaseCase 0 0] : list (Event Z))) + 1)%N
     <> N.of_nat (length (leaf_points (Examples.leaf 0))
                  * length (leaf_points (Examples.leaf 0))).
Proof.
  split; [vm_compute; reflexivity|].
  vm_compute. discriminate.
Qed.

Lemma prune_accounting_witness :
  exists st',
    ReferenceRecursion_frame Examples.is_max Examples.far_rules
      Examples.far_query
      (mkEntry Examples.far_reference 0%Z 0 0 100%Z) [] (mkState [] 0)
    = Ok ([], st')
    /\ numPrunes st' = size_add 0 2.
Proof.
  destruct (prune_accounting Examples.is_max Examples.far_rules) as [_ H].
  apply (H Examples.far_query (mkEntry Examples.far_reference 0%Z 0 0 100%Z)
           [] (mkState [] 0) 0%Z [] 100%Z [] Examples.DBL_MAX []);
    reflexivity.
Defined.

(** ** [PruneMap] *)

Section PruneMapFacts.

Variables D S : Type.
Variable is_DBL_MAX : D -> bool.
Variable rule : RuleType D S.

Implicit Types (m : scale_map D) (st : TState S).

Lemma PruneMap_frames_total cand sv : forall nv st,
  exists added st',
    PruneMap_frames is_DBL_MAX rule cand sv nv st = Ok (nv ++ added, st').
Proof.
  induction sv as [|frame rest IH]; intros nv st; cbn [PruneMap_frames].
  - exists [], st. rewrite app_nil_r. reflexivity.
  - unfold bind at 1. unfold call_Rescore at 1.
    destruct (Rescore rule cand (referenceNode frame) (score frame)
                (rule_state st)) as [sc s1].
    destruct (is_DBL_MAX sc).
    + unfold bind at 1. simpl. apply IH.
    + unfold bind at 1. unfold call_BaseCase at 1. simpl.
      destruct (BaseCase rule (Point cand) (Point (referenceNode frame)) s1)
        as [bc s2].
      unfold bind at 1. unfold call_Score at 1. simpl.
      destruct (Score rule cand (referenceNode frame) bc s2) as [sc' s3].
      destruct (is_DBL_MAX sc').
      * unfold bind at 1. simpl. apply IH.
      * match goal with
        | |- context [PruneMap_frames _ _ _ rest ?nv' ?st'] =>
            destruct (IH nv' st') as (added & st'' & Hrun)
        end.
        rewrite Hrun, <- app_assoc. eexists. eexists. reflexivity.
Qed.

Lemma PruneMap_scales_total cand buckets : forall childMap st,
  map_ok childMap -> no_empty_bucket childMap ->
  exists childMap' st',
    PruneMap_scales is_DBL_MAX rule cand buckets childMap st
    = Ok (childMap', st')
    /\ map_ok childMap' /\ no_empty_bucket childMap'.
Proof.
  induction buckets as [|[thisScale scaleVector] rest IH];
    intros childMap st Hok Hne; cbn [PruneMap_scales].
  - exists childMap, st. auto.
  - destruct (Z.eqb_spec thisScale INT_MIN) as [->|Hscale].
    + exists childMap, st. auto.
    + destruct (PruneMap_frames_total cand scaleVector
                  (m_bucket thisScale (m_touch thisScale childMap)) st)
        as (added & st1 & Hrun).
      unfold bind at 1. rewrite Hrun.
      apply IH.
      * destruct (_ ++ added); [apply map_ok_erase|];
          apply map_ok_set; apply map_ok_touch; assumption.
      * intros k Hk.
        destruct (m_bucket thisScale (m_touch thisScale childMap) ++ added)
          as [|f v] eqn:Hnew.
        -- rewrite m_find_erase
             by (apply map_ok_set; apply map_ok_touch; assumption).
           destruct (Z.eqb_spec k thisScale) as [->|Hk']; [discriminate|].
           rewrite m_find_set. apply Z.eqb_neq in Hk'. rewrite Hk'.
           rewrite m_find_touch. rewrite Hk'.
           specialize (Hne k Hk). destruct (m_find k childMap);
             [assumption | discriminate].
        -- rewrite m_find_set.
           destruct (Z.eqb_spec k thisScale) as [->|Hk']; [discriminate|].
           rewrite m_find_touch. apply Z.eqb_neq in Hk'. rewrite Hk'.
           specialize (Hne k Hk). destruct (m_find k childMap);
             [assumption | discriminate].
Qed.

(** C5, as the code has it.  [PruneMap] always returns.  It changes no
    bucket of the parent's map and removes none; the one change it can make
    to the parent is to add an empty leaf bucket when the map is not empty
    and has none ([referenceMap[INT_MIN]] creates it).  The child's leaf
    bucket is the parent's (empty when the parent had none), and the child
    has no empty bucket at another scale. *)
Theorem PruneMap_frame_effect q cand referenceMap childMap st :
  map_ok childMap -> no_empty_bucket childMap ->
  exists referenceMap' childMap' st',
    PruneMap is_DBL_MAX rule q cand referenceMap childMap st
    = Ok ((referenceMap', childMap'), st')
    /\ referenceMap'
       = match referenceMap with
         | [] => []
         | _ => m_touch INT_MIN referenceMap
         end
    /\ (forall k v, m_find k referenceMap = Some v ->
                    m_find k referenceMap' = Some v)
    /\ (forall k, k <> INT_MIN ->
                  m_find k referenceMap' = m_find k referenceMap)
    /\ (referenceMap <> [] ->
        m_find INT_MIN childMap' = Some (m_bucket INT_MIN referenceMap))
    /\ no_empty_bucket childMap'.
Proof.
  intros Hok Hne. unfold PruneMap.
  destruct referenceMap as [|e rest] eqn:Hmap.
  - exists [], childMap, st. repeat split; auto. congruence.
  - rewrite <- Hmap.
    destruct (PruneMap_scales_total cand referenceMap st Hok Hne)
      as (childMap' & st' & Hrun & Hok' & Hne').
    unfold bind at 1. rewrite Hrun.
    eexists. eexists. eexists. split; [reflexivity|]. split.
    { rewrite Hmap. reflexivity. }
    split.
    { intros k v Hk. rewrite m_find_touch, Hk. reflexivity. }
    split.
    { intros k Hk. rewrite m_find_touch. apply Z.eqb_neq in Hk. rewrite Hk.
      destruct (m_find k referenceMap); reflexivity. }
    split.
    { intros _. rewrite m_find_set, Z.eqb_refl. f_equal.
      unfold m_bucket. rewrite m_find_touch, Z.eqb_refl.
      destruct (m_find INT_MIN referenceMap); reflexivity. }
    intros k Hk. rewrite m_find_set.
    destruct (Z.eqb_spec k INT_MIN); [contradiction | apply Hne'; assumption].
Qed.

End PruneMapFacts.

(** C5, counterexample.  Called on the map that [Traverse] holds for a
    query root with a second child, a map without a leaf bucket,
    [PruneMap] returns with the parent's map extended by an empty leaf
    bucket. *)
Lemma PruneMap_changes_parent_map :
  Examples.run
    (PruneMap Examples.is_max Examples.no_prune Examples.shallow_query
       (Examples.leaf 1)
       (Examples.root_map Examples.shallow_query Examples.far_reference) [])
    tt
  = Ok ((Examples.root_map Examples.shallow_query Examples.far_reference
           ++ [(INT_MIN, [])],
         [(1%Z, [mkEntry Examples.far_reference 0%Z 0 1 0%Z]);
          (INT_MIN, [])]),
        mkState tt 0)
  /\ Examples.root_map Examples.shallow_query Examples.far_reference
       ++ [(INT_MIN, [])]
     <> Examples.root_map Examples.shallow_query Examples.far_reference.
Proof.
  split; [vm_compute; reflexivity|].
  vm_compute. discriminate.
Qed.

Lemma PruneMap_frame_effect_witness :
  exists referenceMap' childMap' st',
    PruneMap Examples.is_max Examples.no_prune Examples.shallow_query
      (Examples.leaf 1)
      (Examples.root_map Examples.shallow_query Examples.far_reference) []
      (mkState tt 0)
    = Ok ((referenceMap', childMap'), st')
    /\ m_find INT_MIN referenceMap' = Some []
    /\ m_find INT_MIN childMap' = Some []
    /\ no_empty_bucket childMap'.
Proof.
  destruct (@PruneMap_frame_effect Z unit Examples.is_max Examples.no_prune
              Examples.shallow_query (Examples.leaf 1)
              (Examples.root_map Examples.shallow_query
                 Examples.far_reference) [] (mkState tt 0))
    as (rm & cm & st' & Hrun & Hrm & _ & _ & Hleaf & Hne).
  - exact I.
  - intros k _. discriminate.
  - exists rm, cm, st'. split; [exact Hrun|]. split; [|split].
    + rewrite Hrm. reflexivity.
    + rewrite Hleaf; [reflexivity | discriminate].
    + exact Hne.
Defined.

(** ** [PruneMapForSelfChild] and the reverse iterator *)

(** C8, at the failing inputs.  On well-formed trees and range-search rules,
    [Traverse] reaches [PruneMapForSelfChild] with buckets at the scales 2,
    1 and [INT_MIN].  The frame at scale 2 is pruned and its bucket erased;
    the advance of the iterator then steps over the bucket at scale 1, which
    is returned as it was, with no [Rescore] or [Score] call for its frame.
    On a query root with a single child, where the map has no leaf bucket,
    erasing the finest bucket while a coarser one remains makes the advance
    decrement [begin()]. *)
Theorem PruneMapForSelfChild_skips_a_bucket :
  (exists st1 childMap st2,
      Examples.run
        (ReferenceRecursion Examples.is_max Examples.skip_rules
           Examples.sort_by_score Examples.skip_query
           (m_push 4 (mkEntry Examples.skip_reference 0%Z 0 0 100%Z) [])) []
      = Ok (firstn 2 Examples.skip_frontier, st1)
      /\ PruneMap Examples.is_max Examples.skip_rules Examples.skip_query
           (Examples.leaf 2) (firstn 2 Examples.skip_frontier) [] st1
         = Ok ((Examples.skip_frontier, childMap), st2))
  /\ Examples.run
       (PruneMapForSelfChild Examples.is_max
          (Recording Examples.skip_rules) Examples.skip_query_self
          Examples.skip_frontier) ([], [])
     = Ok (tl Examples.skip_frontier,
           mkState
             ([], [EvScore Examples.skip_query_self
                     Examples.skip_reference_self 100%Z]) 1)
  /\ Examples.run
       (PruneMapForSelfChild Examples.is_max Examples.self_child_rules
          Examples.skip_query_self (firstn 2 Examples.skip_frontier)) tt
     = Fault DecrementBegin
  /\ Examples.run
       (Examples.traverse Examples.self_child_rules
          Examples.single_child_query Examples.skip_reference) tt
     = Fault DecrementBegin.
Proof.
  split; [|split; [|split]].
  - eexists. eexists. eexists. split; vm_compute; reflexivity.
  - vm_compute. reflexivity.
  - vm_compute. reflexivity.
  - vm_compute. reflexivity.
Qed.

(** ** The leaf phase evaluates a pair at most once per frame *)

Section LeafPhaseDedup.

Variables D S : Type.
Variable is_DBL_MAX : D -> bool.
Variable P : RuleType D S.

Lemma leaf_phase_spec_count q a b pv : forall s calls pruned s',
  leaf_phase_spec is_DBL_MAX P q pv s = (calls, pruned, s') ->
  count_BaseCase a b calls <= length (filter (pending q a b) pv).
Proof.
  unfold count_BaseCase, pending.
  induction pv as [|frame rest IH]; simpl; intros s calls pruned s' H.
  - inversion H. auto.
  - destruct (already_evaluated q frame); simpl.
    + destruct (leaf_phase_spec is_DBL_MAX P q rest s)
        as [[calls0 pruned0] s0] eqn:E.
      inversion H. subst. eapply IH. eassumption.
    + destruct (Rescore P q (referenceNode frame) (score frame) s)
        as [r s1].
      destruct (is_DBL_MAX r).
      * destruct (leaf_phase_spec is_DBL_MAX P q rest s1)
          as [[calls0 pruned0] s0] eqn:E.
        inversion H. subst. simpl. apply IH in E.
        destruct ((a =? Point q) && (b =? Point (referenceNode frame)));
          simpl; lia.
      * destruct (BaseCase P (Point q) (Point (referenceNode frame)) s1)
          as [d s2].
        destruct (leaf_phase_spec is_DBL_MAX P q rest s2)
          as [[calls0 pruned0] s0] eqn:E.
        inversion H. subst. simpl. apply IH in E.
        destruct ((a =? Point q) && (b =? Point (referenceNode frame)));
          simpl; lia.
Qed.

(** The leaf phase: a frame whose cached indices are those of the current
    pair is skipped and counted as a prune; any other frame is rescored and
    gets its [BaseCase] exactly when [Rescore] does not prune; so
    [BaseCase(a, b)] is called at most once for every frame of the leaf
    bucket that is not already evaluated and stands for that pair. *)
Lemma base_cases_leaf_phase q pv (st : TState (S * list (Event D))) :
  exists st' calls pruned,
    base_cases is_DBL_MAX (Recording P) q pv st = Ok (tt, st')
    /\ leaf_phase_spec is_DBL_MAX P q pv (fst (rule_state st))
       = (calls, pruned, fst (rule_state st'))
    /\ snd (rule_state st') = snd (rule_state st) ++ calls
    /\ (numPrunes st' mod SIZE_MOD
        = (numPrunes st + N.of_nat pruned) mod SIZE_MOD)%N
    /\ (forall a b,
          count_BaseCase a b calls <= length (filter (pending q a b) pv)).
Proof.
  destruct (leaf_phase_spec is_DBL_MAX P q pv (fst (rule_state st)))
    as [[calls pruned] s'] eqn:E.
  destruct (base_cases_spec is_DBL_MAX P q pv st E)
    as (st' & Hrun & Hst & Hn).
  exists st', calls, pruned. rewrite Hst. simpl.
  split; [assumption|]. split; [reflexivity|]. split; [reflexivity|].
  split; [assumption|].
  intros a b. eapply leaf_phase_spec_count. eassumption.
Qed.

End LeafPhaseDedup.

(** C4, counterexample.  Two traversals of the same pair of one-point trees
    by one traverser with a recording policy: [BaseCase(0, 0)] is invoked
    twice. *)
Lemma second_traversal_repeats_BaseCase :
  Examples.run
    (bind
       (Examples.traverse (Recording Examples.no_prune)
          (Examples.leaf 0) (Examples.leaf 0))
       (fun _ =>
          Examples.traverse (Recording Examples.no_prune)
            (Examples.leaf 0) (Examples.leaf 0))) (tt, [])
  = Ok (Examples.root_map (Examples.leaf 0) (Examples.leaf 0),
        mkState (tt, [EvBaseCase 0 0; EvBaseCase 0 0]) 2)
  /\ count_BaseCase 0 0 ([EvBaseCase 0 0; EvBaseCase 0 0] : list (Event Z))
     = 2.
Proof.
  split; vm_compute; reflexivity.
Qed.

(** ** Lists: subsequences, disjoint covers *)

Unset Implicit Arguments.

Lemma subseq_refl A (l : list A) : subseq l l.
Proof. induction l; [apply subseq_nil | apply subseq_take]; assumption. Qed.

Lemma subseq_nil_l A (l : list A) : subseq [] l.
Proof. induction l; constructor; assumption. Qed.

Lemma subseq_In A (l1 l2 : list A) x : subseq l1 l2 -> In x l1 -> In x l2.
Proof.
  induction 1 as [|y l1 l2 _ IH|y l1 l2 _ IH]; simpl; intuition.
Qed.

Lemma subseq_NoDup A (l1 l2 : list A) : subseq l1 l2 -> NoDup l2 -> NoDup l1.
Proof.
  induction 1 as [|y l1 l2 Hs IH|y l1 l2 Hs IH]; intros Hnd.
  - constructor.
  - inversion Hnd. auto.
  - inversion Hnd as [|? ? Hnin Hnd']. subst. constructor; [|auto].
    intros Hin. apply Hnin. eapply subseq_In; eassumption.
Qed.

Lemma subseq_app A (l1 l2 l1' l2' : list A) :
  subseq l1 l2 -> subseq l1' l2' -> subseq (l1 ++ l1') (l2 ++ l2').
Proof.
  induction 1; simpl; intros H'.
  - assumption.
  - apply subseq_skip. auto.
  - apply subseq_take. auto.
Qed.

Lemma subseq_trans A (l1 l2 l3 : list A) :
  subseq l1 l2 -> subseq l2 l3 -> subseq l1 l3.
Proof.
  intros H12 H23. revert l1 H12.
  induction H23 as [|x l2 l3 _ IH|x l2 l3 _ IH]; intros l1 H12.
  - assumption.
  - constructor. auto.
  - inversion H12; subst; [apply subseq_skip | apply subseq_take]; auto.
Qed.

Lemma subseq_flat_map A B (f : A -> list B) (l1 l2 : list A) :
  subseq l1 l2 -> subseq (flat_map f l1) (flat_map f l2).
Proof.
  induction 1 as [|x l1 l2 _ IH|x l1 l2 _ IH]; simpl.
  - constructor.
  - apply (subseq_app _ _ _ _ _ (subseq_nil_l _ (f x)) IH).
  - apply subseq_app; [apply subseq_refl | assumption].
Qed.

Lemma subseq_map A B (f : A -> B) (l1 l2 : list A) :
  subseq l1 l2 -> subseq (map f l1) (map f l2).
Proof.
  induction 1; simpl;
    [apply subseq_nil | apply subseq_skip | apply subseq_take]; assumption.
Qed.

Lemma subseq_app_l A (l1 l2 : list A) : subseq l2 (l1 ++ l2).
Proof. apply (subseq_app _ _ _ _ _ (subseq_nil_l _ l1) (subseq_refl _ l2)). Qed.

Lemma subseq_app_r A (l1 l2 : list A) : subseq l1 (l1 ++ l2).
Proof.
  rewrite <- (app_nil_r l1) at 1.
  apply (subseq_app _ _ _ _ _ (subseq_refl _ l1) (subseq_nil_l _ l2)).
Qed.

Lemma NoDup_app_inv A (l1 l2 : list A) :
  NoDup (l1 ++ l2) ->
  NoDup l1 /\ NoDup l2 /\ forall x, In x l1 -> In x l2 -> False.
Proof.
  intros H. split; [|split].
  - eapply NoDup_app_remove_r; eassumption.
  - eapply NoDup_app_remove_l; eassumption.
  - induction l1 as [|y l1 IH]; simpl in *; [tauto|].
    inversion H as [|? ? Hnin Hnd]. subst.
    intros x [->|Hin] Hx.
    + apply Hnin. apply in_or_app. auto.
    + eapply IH; eassumption.
Qed.

(** In a duplicate-free concatenation, an element lies in one part only. *)
Lemma NoDup_flat_map_unique A B (f : A -> list B) (l : list A) x x' y :
  NoDup (flat_map f l) -> In x l -> In x' l -> In y (f x) -> In y (f x') ->
  x = x'.
Proof.
  induction l as [|z l IH]; simpl; [tauto|].
  intros Hnd Hx Hx' Hy Hy'. apply NoDup_app_inv in Hnd.
  destruct Hnd as (Hz & Hl & Hdisj).
  destruct Hx as [->|Hx], Hx' as [->|Hx'].
  - reflexivity.
  - exfalso. apply (Hdisj y Hy). apply in_flat_map. eauto.
  - exfalso. apply (Hdisj y Hy'). apply in_flat_map. eauto.
  - eapply IH; eassumption.
Qed.


(** ** Well-formed trees *)

Lemma wf_tree_children p s cs :
  wf_tree (Node p s cs) ->
  Forall (fun c => (Scale c < s)%Z /\ wf_tree c) cs.
Proof.
  simpl. intros [_ H]. induction cs as [|c cs IH]; simpl in *.
  - constructor.
  - destruct H as (H1 & H2 & H3). constructor; auto.
Qed.

Lemma wf_tree_self p s child0 cs :
  wf_tree (Node p s (child0 :: cs)) -> Point child0 = p.
Proof. simpl. tauto. Qed.

Lemma leaf_points_node p s c cs :
  leaf_points (Node p s (c :: cs)) = flat_map leaf_points (c :: cs).
Proof. reflexivity. Qed.

(** The point of a well-formed node is one of the points it covers. *)
Lemma Point_in_leaf_points t : wf_tree t -> In (Point t) (leaf_points t).
Proof.
  induction t as [p s cs IH] using CoverTree_ind'. intros Hwf.
  destruct cs as [|c0 cs].
  - simpl. auto.
  - rewrite leaf_points_node. simpl. apply in_or_app. left.
    pose proof (wf_tree_self _ _ _ _ Hwf) as Hp.
    pose proof (wf_tree_children _ _ _ Hwf) as Hch.
    inversion IH as [|? ? IH0 _]. subst. inversion Hch as [|? ? [_ H0] _].
    subst. apply IH0. assumption.
Qed.

(** ** Frames of a map under its updates *)

Section FrameFacts.

Variable D : Type.

Implicit Types (m low : scale_map D) (v vec : bucket D) (k j top : Z)
  (f g : MapEntry D).

Lemma In_m_set j w k v m :
  In (j, w) (m_set k v m) -> (j = k /\ w = v) \/ In (j, w) m.
Proof.
  induction m as [|[k' v'] m' IH]; simpl.
  - intros [E|[]]. inversion E. auto.
  - destruct (Z.ltb_spec k' k); simpl.
    + intros [E|H']; [inversion E|]; auto.
    + destruct (Z.eqb_spec k k'); simpl.
      * intros [E|H']; [inversion E|]; auto.
      * intros [E|H']; [auto|]. apply IH in H'. tauto.
Qed.

Lemma In_m_erase j w k m : In (j, w) (m_erase k m) -> In (j, w) m.
Proof.
  induction m as [|[k' v'] m' IH]; simpl; [tauto|].
  destruct (Z.eqb_spec k k'); simpl; intuition.
Qed.

Lemma m_erase_absent k m : ~ In k (keys m) -> m_erase k m = m.
Proof.
  induction m as [|[k' v'] m' IH]; simpl; [reflexivity|].
  intros H. destruct (Z.eqb_spec k k') as [->|Hne].
  - exfalso. apply H. auto.
  - f_equal. apply IH. intros Hin. apply H. auto.
Qed.

Lemma m_erase_set k v m : map_ok m -> m_erase k (m_set k v m) = m_erase k m.
Proof.
  induction m as [|[k' v'] m' IH]; simpl.
  - intros _. rewrite Z.eqb_refl. reflexivity.
  - intros [Hlt Hok]. destruct (Z.ltb_spec k' k) as [Hk|Hk]; simpl.
    + rewrite Z.eqb_refl. destruct (Z.eqb_spec k k') as [->|_]; [lia|].
      f_equal. symmetry. apply m_erase_absent. intros Hin.
      rewrite Forall_forall in Hlt. apply Hlt in Hin. lia.
    + destruct (Z.eqb_spec k k') as [->|Hne]; simpl.
      * rewrite Z.eqb_refl. reflexivity.
      * destruct (Z.eqb_spec k k'); [contradiction|].
        f_equal. apply IH. assumption.
Qed.

Lemma m_erase_touch k m : map_ok m -> m_erase k (m_touch k m) = m_erase k m.
Proof.
  intros Hok. unfold m_touch. destruct (m_find k m); [reflexivity|].
  apply m_erase_set. assumption.
Qed.

Lemma frames_erase k m :
  map_ok m -> Permutation (frames m) (m_bucket k m ++ frames (m_erase k m)).
Proof.
  unfold m_bucket. induction m as [|[k' v'] m' IH]; simpl.
  - intros _. constructor.
  - intros [Hlt Hok]. destruct (Z.eqb_spec k k') as [->|Hne]; simpl.
    + apply Permutation_refl.
    + eapply Permutation_trans;
        [apply Permutation_app_head; apply IH; assumption|].
      apply Permutation_app_swap_app.
Qed.

Lemma frames_set k v m :
  map_ok m -> Permutation (frames (m_set k v m)) (v ++ frames (m_erase k m)).
Proof.
  intros Hok.
  eapply Permutation_trans;
    [apply (frames_erase k); apply map_ok_set; assumption|].
  rewrite m_erase_set by assumption.
  unfold m_bucket. rewrite m_find_set, Z.eqb_refl. apply Permutation_refl.
Qed.

Lemma m_push_below top vec low k g :
  (k < top)%Z ->
  m_push k g ((top, vec) :: low) = (top, vec) :: m_push k g low.
Proof.
  intros Hk. unfold m_push, m_bucket. simpl.
  destruct (Z.ltb_spec top k); [lia|].
  destruct (Z.eqb_spec k top); [lia|]. reflexivity.
Qed.

Lemma push_all_below top vec adm : forall low,
  Forall (fun g => (Scale (referenceNode g) < top)%Z) adm ->
  push_all adm ((top, vec) :: low) = (top, vec) :: push_all adm low.
Proof.
  unfold push_all. induction adm as [|g adm IH]; simpl; intros low H.
  - reflexivity.
  - inversion H. subst. rewrite m_push_below by assumption. apply IH.
    assumption.
Qed.

Lemma push_all_app adm1 adm2 m :
  push_all (adm1 ++ adm2) m = push_all adm2 (push_all adm1 m).
Proof. unfold push_all. apply fold_left_app. Qed.

Lemma map_ok_push_all adm : forall m, map_ok m -> map_ok (push_all adm m).
Proof.
  unfold push_all. induction adm as [|g adm IH]; simpl; intros m H.
  - assumption.
  - apply IH. apply map_ok_push. assumption.
Qed.

Lemma frames_push_all adm : forall m,
  map_ok m -> Permutation (frames (push_all adm m)) (frames m ++ adm).
Proof.
  unfold push_all. induction adm as [|g adm IH]; simpl; intros m H.
  - rewrite app_nil_r. apply Permutation_refl.
  - eapply Permutation_trans; [apply IH; apply map_ok_push; assumption|].
    eapply Permutation_trans;
      [apply Permutation_app_tail; apply frames_push; assumption|].
    rewrite <- app_assoc. apply Permutation_refl.
Qed.

Lemma keys_push_all j adm : forall m,
  In j (keys (push_all adm m)) ->
  In j (keys m) \/ exists g, In g adm /\ Scale (referenceNode g) = j.
Proof.
  unfold push_all. induction adm as [|g adm IH]; simpl; intros m H.
  - auto.
  - apply IH in H. destruct H as [H|(g' & Hg' & Hs)].
    + apply keys_push in H. destruct H as [->|H]; eauto.
    + eauto.
Qed.

Lemma frontier_ok_set k v m :
  frontier_ok m -> Forall (fun f => Scale (referenceNode f) = k) v ->
  frontier_ok (m_set k v m).
Proof.
  intros [Hok Hsc] Hv. split; [apply map_ok_set; assumption|].
  intros j w f Hin Hf. apply In_m_set in Hin. destruct Hin as [[-> ->]|Hin].
  - rewrite Forall_forall in Hv. auto.
  - eauto.
Qed.

Lemma frontier_ok_erase k m : frontier_ok m -> frontier_ok (m_erase k m).
Proof.
  intros [Hok Hsc]. split; [apply map_ok_erase; assumption|].
  intros j w f Hin Hf. apply In_m_erase in Hin. eauto.
Qed.

Lemma frontier_ok_touch k m : frontier_ok m -> frontier_ok (m_touch k m).
Proof.
  intros H. unfold m_touch. destruct (m_find k m); [assumption|].
  apply frontier_ok_set; [assumption | constructor].
Qed.

Lemma frontier_ok_bucket k m :
  frontier_ok m ->
  Forall (fun f => Scale (referenceNode f) = k) (m_bucket k m).
Proof.
  intros [Hok Hsc]. unfold m_bucket. destruct (m_find k m) as [v|] eqn:Hk.
  - apply Forall_forall. intros f Hf. apply m_find_In in Hk. eauto.
  - constructor.
Qed.

Lemma frontier_ok_push f m :
  frontier_ok m -> frontier_ok (m_push (Scale (referenceNode f)) f m).
Proof.
  intros H. apply frontier_ok_set; [assumption|].
  apply Forall_app. split; [apply frontier_ok_bucket; assumption|].
  constructor; [reflexivity | constructor].
Qed.

Lemma frontier_ok_push_all adm : forall m,
  frontier_ok m -> frontier_ok (push_all adm m).
Proof.
  unfold push_all. induction adm as [|g adm IH]; simpl; intros m H.
  - assumption.
  - apply IH. apply frontier_ok_push. assumption.
Qed.

Lemma frontier_ok_tail e m : frontier_ok (e :: m) -> frontier_ok m.
Proof.
  intros [Hok Hsc]. destruct e as [k v]. simpl in Hok. split; [tauto|].
  intros j w f Hin Hf. eapply Hsc; [right|]; eassumption.
Qed.

End FrameFacts.

(** ** The invariant of a traversal that evaluates no pair twice *)

Section OnceFacts.

Variable D : Type.

Implicit Types (fs vec adm kept called : bucket D) (f g : MapEntry D)
  (C : list (nat * nat)) (X : list nat).

Lemma frontier_points_app fs1 fs2 :
  frontier_points (fs1 ++ fs2) = frontier_points fs1 ++ frontier_points fs2.
Proof. unfold frontier_points, nodes. rewrite map_app. apply flat_map_app. Qed.

Lemma In_frontier_points y fs :
  In y (frontier_points fs) <->
  exists f, In f fs /\ In y (leaf_points (referenceNode f)).
Proof.
  unfold frontier_points, nodes. rewrite in_flat_map. split.
  - intros (n & Hn & Hy). apply in_map_iff in Hn.
    destruct Hn as (f & <- & Hf). eauto.
  - intros (f & Hf & Hy). exists (referenceNode f). split; [|assumption].
    apply in_map. assumption.
Qed.

Lemma frontier_points_subseq fs1 fs2 :
  subseq (nodes fs1) (nodes fs2) ->
  subseq (frontier_points fs1) (frontier_points fs2).
Proof. apply subseq_flat_map. Qed.

Lemma frontier_points_perm fs1 fs2 :
  Permutation fs1 fs2 -> Permutation (frontier_points fs1) (frontier_points fs2).
Proof.
  intros H. unfold frontier_points, nodes.
  apply Permutation_flat_map. apply Permutation_map. assumption.
Qed.

Lemma once_inv_perm X a fs fs' C :
  Permutation fs fs' -> once_inv X a fs C -> once_inv X a fs' C.
Proof.
  intros Hp (Hnd & Hwf & HC & Hc). split; [|split; [|split]].
  - eapply Permutation_NoDup; [apply frontier_points_perm|]; eassumption.
  - rewrite Forall_forall in *. intros f Hf. apply Hwf.
    eapply Permutation_in; [apply Permutation_sym|]; eassumption.
  - assumption.
  - intros x y f Hx Hxy Hf Hy. eapply Hc; try eassumption.
    eapply Permutation_in; [apply Permutation_sym|]; eassumption.
Qed.

Lemma once_inv_X X X' a fs C :
  incl X' X -> once_inv X a fs C -> once_inv X' a fs C.
Proof.
  intros Hi (Hnd & Hwf & HC & Hc). repeat split; try assumption.
  all: eapply Hc; eauto.
Qed.

(** A node of a duplicate-free cover lies under one frame only. *)
Lemma node_unique fs n n' y :
  NoDup (frontier_points fs) -> In n (nodes fs) -> In n' (nodes fs) ->
  In y (leaf_points n) -> In y (leaf_points n') -> n = n'.
Proof. apply NoDup_flat_map_unique. Qed.

Lemma wf_Point_in f fs :
  Forall (fun f => wf_tree (referenceNode f)) fs -> In f fs ->
  In (Point (referenceNode f)) (leaf_points (referenceNode f)).
Proof.
  intros Hwf Hf. rewrite Forall_forall in Hwf.
  apply Point_in_leaf_points. auto.
Qed.

(** The calls [(x, Point f)] for frames [called] of the frontier are new and
    pairwise distinct, provided that for [x = a] their caches did not hold
    the pair. *)
Lemma fresh_calls X a x fs called C :
  once_inv X a fs C -> In x X -> subseq called fs ->
  (x = a -> Forall (fun f => ~ cached_for a f) called) ->
  NoDup (C ++ map (pair_with x) called).
Proof.
  intros (Hnd & Hwf & HC & Hc) Hx Hsub Hmis.
  apply NoDup_app; [assumption| |].
  - (* distinct points *)
    assert (Hnd' : NoDup (frontier_points called)).
    { eapply subseq_NoDup; [|exact Hnd].
      apply frontier_points_subseq. apply subseq_map. assumption. }
    assert (Hwf' : Forall (fun f => wf_tree (referenceNode f)) called).
    { rewrite Forall_forall in *. intros f Hf. apply Hwf.
      eapply subseq_In; eassumption. }
    clear - Hnd' Hwf'. induction called as [|f called IH]; simpl.
    + constructor.
    + change (f :: called) with ([f] ++ called) in Hnd'.
      rewrite frontier_points_app in Hnd'.
      apply NoDup_app_inv in Hnd'. destruct Hnd' as (_ & Hnd & Hdisj).
      inversion Hwf' as [|? ? Hf Hwf]. subst. constructor; [|auto].
      intros Hin. apply in_map_iff in Hin.
      destruct Hin as (g & Hg & Hgin). unfold pair_with in Hg.
      inversion Hg as [Hpt].
      apply (Hdisj (Point (referenceNode f))).
      * unfold frontier_points. simpl. rewrite app_nil_r.
        apply Point_in_leaf_points. assumption.
      * apply In_frontier_points. exists g. split; [assumption|].
        rewrite <- Hpt. apply wf_Point_in with (fs := called); assumption.
  - (* not evaluated before *)
    intros [x' y] HinC Hin. apply in_map_iff in Hin.
    destruct Hin as (f & Hf & Hfin). unfold pair_with in Hf.
    inversion Hf. subst x' y.
    assert (Hffs : In f fs) by (eapply subseq_In; eassumption).
    destruct (Hc x _ f Hx HinC Hffs (wf_Point_in f fs Hwf Hffs))
      as (Ha & _ & Hri & Hqi).
    specialize (Hmis Ha). rewrite Forall_forall in Hmis.
    apply (Hmis f Hfin). split; assumption.
Qed.

(** Frames [vec] of the frontier are filtered for the same query point:
    [kept] are the survivors, with their caches set; [called] are the
    frames that had [BaseCase] evaluated. *)
Lemma once_inv_refilter X a vec fs C kept called :
  once_inv X a (vec ++ fs) C -> In a X ->
  subseq called vec -> Forall (fun f => ~ cached_for a f) called ->
  subseq (nodes kept) (nodes vec) -> Forall (cached_for a) kept ->
  once_inv X a (kept ++ fs) (C ++ map (pair_with a) called).
Proof.
  intros Hinv Ha Hcalled Hmis Hkept Hcache.
  pose proof Hinv as (Hnd & Hwf & HC & Hc).
  assert (Hkin : forall g, In g kept ->
                   exists f, In f vec /\ referenceNode f = referenceNode g).
  { intros g Hg. apply (in_map (@referenceNode D)) in Hg.
    apply (subseq_In _ _ _ _ Hkept) in Hg. apply in_map_iff in Hg.
    destruct Hg as (f & Hf & Hfin). eauto. }
  rewrite frontier_points_app in Hnd.
  pose proof (NoDup_app_inv _ _ _ Hnd) as (Hndv & Hndf & Hdisj).
  split; [|split; [|split]].
  - rewrite frontier_points_app. apply NoDup_app; [| assumption |].
    + eapply subseq_NoDup; [|exact Hndv].
      apply frontier_points_subseq. assumption.
    + intros y Hy Hy'. apply (Hdisj y); [|assumption].
      eapply subseq_In; [apply frontier_points_subseq|]; eassumption.
  - apply Forall_app. apply Forall_app in Hwf. destruct Hwf as [Hwfv Hwff].
    split; [|assumption]. rewrite Forall_forall in *.
    intros g Hg. destruct (Hkin g Hg) as (f & Hf & <-). auto.
  - apply (fresh_calls X a a (vec ++ fs) called C Hinv Ha).
    + eapply subseq_trans; [eassumption | apply subseq_app_r].
    + intros _. assumption.
  - intros x y g Hx Hxy Hg Hy.
    apply in_app_or in Hxy. apply in_app_or in Hg.
    destruct Hxy as [Hxy|Hxy].
    + destruct Hg as [Hg|Hg].
      * destruct (Hkin g Hg) as (f & Hf & Hn).
        rewrite <- Hn in Hy.
        destruct (Hc x y f Hx Hxy (in_or_app _ _ _ (or_introl Hf)) Hy)
          as (Hxa & Hyp & _ & _).
        rewrite Forall_forall in Hcache. destruct (Hcache g Hg) as [Hq Hr].
        rewrite Hn in Hyp. rewrite Hr, Hq. auto.
      * eapply Hc; try eassumption. apply in_or_app. auto.
    + apply in_map_iff in Hxy. destruct Hxy as (f & Hf & Hfin).
      unfold pair_with in Hf. inversion Hf. subst x y.
      assert (Hfv : In f vec) by (eapply subseq_In; eassumption).
      assert (Hpf : In (Point (referenceNode f))
                      (leaf_points (referenceNode f))).
      { apply wf_Point_in with (fs := vec ++ fs); [assumption|].
        apply in_or_app. auto. }
      destruct Hg as [Hg|Hg].
      * destruct (Hkin g Hg) as (f' & Hf' & Hn).
        assert (Heq : referenceNode f = referenceNode g).
        { rewrite <- Hn.
          apply (node_unique vec _ _ (Point (referenceNode f)) Hndv).
          - apply in_map. assumption.
          - apply in_map. assumption.
          - assumption.
          - rewrite Hn. assumption. }
        rewrite Forall_forall in Hcache. destruct (Hcache g Hg) as [Hq Hr].
        rewrite Hr, Hq, Heq. auto.
      * exfalso. apply (Hdisj (Point (referenceNode f))).
        -- apply In_frontier_points. eauto.
        -- apply In_frontier_points. eauto.
Qed.

Lemma NoDup_points cs :
  Forall wf_tree cs -> NoDup (flat_map leaf_points cs) -> NoDup (map Point cs).
Proof.
  induction cs as [|c cs IH]; simpl; intros Hwf Hnd.
  - constructor.
  - inversion Hwf as [|? ? Hc Hcs]. subst.
    apply NoDup_app_inv in Hnd. destruct Hnd as (_ & Hnd & Hdisj).
    constructor; [|auto].
    intros Hin. apply in_map_iff in Hin. destruct Hin as (c' & Hp & Hc').
    apply (Hdisj (Point c)).
    + apply Point_in_leaf_points. assumption.
    + apply in_flat_map. exists c'. split; [assumption|].
      rewrite <- Hp. apply Point_in_leaf_points.
      rewrite Forall_forall in Hcs. auto.
Qed.

Lemma NoDup_map_pair (a : nat) (l : list nat) :
  NoDup l -> NoDup (map (fun y => (a, y)) l).
Proof.
  induction 1 as [|y l Hnin Hnd IH]; simpl; constructor; [|assumption].
  intros Hin. apply in_map_iff in Hin. destruct Hin as (y' & E & Hy').
  inversion E. subst. contradiction.
Qed.

(** A frame [f] is expanded: [adm] are the children admitted, with their
    caches set; [pre] is the call for the node itself, made when the cache
    of [f] did not hold the pair; every non-self child had its call. *)
Lemma once_inv_expand X a f fs C adm pre child0 others :
  once_inv X a (f :: fs) C -> In a X ->
  Children (referenceNode f) = child0 :: others ->
  subseq (nodes adm) (child0 :: others) ->
  Forall (cached_for a) adm ->
  pre = [] \/ (pre = [pair_with a f] /\ ~ cached_for a f) ->
  once_inv X a (adm ++ fs)
    (C ++ pre ++ map (fun c => (a, Point c)) others).
Proof.
  intros Hinv Ha Hch Hadm Hcache Hpre.
  pose proof Hinv as (Hnd & Hwf & HC & Hc).
  inversion Hwf as [|? ? Hwfn Hwffs]. subst.
  destruct (referenceNode f) as [p s cs] eqn:Hn. simpl in Hch. subst cs.
  pose proof (wf_tree_self _ _ _ _ Hwfn) as Hself.
  pose proof (wf_tree_children _ _ _ Hwfn) as Hchildren.
  assert (Hwfc : Forall wf_tree (child0 :: others)).
  { eapply Forall_impl; [|exact Hchildren]. simpl. tauto. }
  change (f :: fs) with ([f] ++ fs) in Hnd.
  rewrite frontier_points_app in Hnd.
  assert (Hlp : frontier_points [f] = flat_map leaf_points (child0 :: others)).
  { unfold frontier_points, nodes. simpl. rewrite Hn, app_nil_r.
    reflexivity. }
  rewrite Hlp in Hnd.
  pose proof (NoDup_app_inv _ _ _ Hnd) as (Hndc & Hndf & Hdisj).
  pose proof (NoDup_points _ Hwfc Hndc) as Hpts.
  assert (Hin_c : forall c, In c (child0 :: others) ->
                    In (Point c) (flat_map leaf_points (child0 :: others))).
  { intros c Hcin. apply in_flat_map. exists c. split; [assumption|].
    apply Point_in_leaf_points. rewrite Forall_forall in Hwfc. auto. }
  assert (Hgin : forall g, In g adm -> In (referenceNode g) (child0 :: others)).
  { intros g Hg. apply (subseq_In _ _ _ _ Hadm). apply in_map. assumption. }
  assert (Hlpf : forall y, In y (flat_map leaf_points (child0 :: others)) ->
                   In y (leaf_points (referenceNode f))).
  { intros y Hy. rewrite Hn. exact Hy. }
  (* the new pairs are pairs of [a] with points of children *)
  assert (Hnew : forall x y,
             In (x, y) (pre ++ map (fun c => (a, Point c)) others) ->
             x = a /\ exists c, In c (child0 :: others) /\ y = Point c
                               /\ (c = child0 -> ~ cached_for a f)).
  { intros x y Hxy. apply in_app_or in Hxy. destruct Hxy as [Hxy|Hxy].
    - destruct Hpre as [->|[-> Hmis]]; [destruct Hxy|].
      destruct Hxy as [E|[]]. unfold pair_with in E. rewrite Hn in E.
      inversion E. subst. split; [reflexivity|].
      exists child0. simpl. repeat split; auto.
    - apply in_map_iff in Hxy. destruct Hxy as (c & E & Hcin).
      inversion E. subst. split; [reflexivity|].
      exists c. simpl. repeat split; auto.
      intros ->. exfalso. simpl in Hpts. inversion Hpts as [|? ? Hnin _].
      apply Hnin. apply in_map. assumption. }
  split; [|split; [|split]].
  - rewrite frontier_points_app.
    eapply subseq_NoDup; [|exact Hnd].
    apply subseq_app; [|apply subseq_refl].
    apply subseq_flat_map. assumption.
  - apply Forall_app. split; [|assumption].
    rewrite Forall_forall in *. intros g Hg. apply Hwfc. auto.
  - apply NoDup_app; [assumption| |].
    + destruct Hpre as [->|[-> _]]; simpl.
      * rewrite <- (map_map Point (fun y => (a, y))).
        apply NoDup_map_pair. simpl in Hpts. inversion Hpts. assumption.
      * unfold pair_with. rewrite Hn. simpl. rewrite <- Hself.
        change ((a, Point child0) :: map (fun c => (a, Point c)) others)
          with (map (fun c => (a, Point c)) (child0 :: others)).
        rewrite <- (map_map Point (fun y => (a, y))).
        apply NoDup_map_pair. assumption.
    + intros [x y] HinC Hin. apply Hnew in Hin.
      destruct Hin as (-> & c & Hcin & -> & Hmis).
      destruct (Hc a (Point c) f Ha HinC (or_introl eq_refl)
                  (Hlpf _ (Hin_c c Hcin)))
        as (_ & Hy & Hri & Hqi).
      rewrite Hn in Hy. simpl in Hy.
      destruct Hcin as [<-|Hcin].
      * apply Hmis; [reflexivity|]. split; [assumption|].
        rewrite Hri, Hn. simpl. congruence.
      * simpl in Hpts. inversion Hpts as [|? ? Hnin _]. apply Hnin.
        rewrite Hself, <- Hy. apply in_map. assumption.
  - intros x y g Hx Hxy Hg Hy.
    apply in_app_or in Hxy. apply in_app_or in Hg.
    destruct Hg as [Hg|Hg].
    + (* an admitted child *)
      pose proof (Hgin g Hg) as Hgc.
      assert (Hyc : In y (flat_map leaf_points (child0 :: others))).
      { apply in_flat_map. eauto. }
      rewrite Forall_forall in Hcache. destruct (Hcache g Hg) as [Hq Hr].
      destruct Hxy as [Hxy|Hxy].
      * destruct (Hc x y f Hx Hxy (or_introl eq_refl) (Hlpf _ Hyc))
          as (Hxa & Hyp & _ & _).
        rewrite Hn in Hyp. simpl in Hyp.
        assert (Heq : referenceNode g = child0).
        { apply (NoDup_flat_map_unique _ _ leaf_points (child0 :: others)
                   _ _ y Hndc Hgc (or_introl eq_refl) Hy).
          rewrite Hyp, <- Hself. apply Point_in_leaf_points.
          inversion Hwfc. assumption. }
        rewrite Hr, Hq, Heq. repeat split; congruence.
      * apply Hnew in Hxy. destruct Hxy as (-> & c & Hcin & -> & _).
        assert (Heq : referenceNode g = c).
        { apply (NoDup_flat_map_unique _ _ leaf_points (child0 :: others)
                   _ _ (Point c) Hndc Hgc Hcin Hy).
          apply Point_in_leaf_points. rewrite Forall_forall in Hwfc. auto. }
        rewrite Hr, Hq, Heq. auto.
    + (* an untouched frame *)
      destruct Hxy as [Hxy|Hxy].
      * eapply Hc; try eassumption. right. assumption.
      * apply Hnew in Hxy. destruct Hxy as (-> & c & Hcin & -> & _).
        exfalso. apply (Hdisj (Point c)); [auto|].
        apply In_frontier_points. eauto.
Qed.

(** The frontier of a query child with point [xc]: [processed] are the
    parent's frames that had [BaseCase] evaluated for the child, [kept] the
    survivors among them, [leaf] the frames carried over as they are. *)
Lemma once_inv_child X a fs C Xc xc kept processed leaf :
  once_inv X a fs C -> incl Xc X -> In xc Xc -> ~ In a Xc ->
  subseq (processed ++ leaf) fs ->
  subseq (nodes kept) (nodes processed) -> Forall (cached_for xc) kept ->
  once_inv Xc xc (kept ++ leaf) (C ++ map (pair_with xc) processed).
Proof.
  intros Hinv Hincl Hxc Ha Hsub Hkept Hcache.
  pose proof Hinv as (Hnd & Hwf & HC & Hc).
  assert (Hndpl : NoDup (frontier_points processed ++ frontier_points leaf)).
  { rewrite <- frontier_points_app. eapply subseq_NoDup; [|exact Hnd].
    apply frontier_points_subseq. apply subseq_map. assumption. }
  pose proof (NoDup_app_inv _ _ _ Hndpl) as (Hndp & Hndl & Hdisj).
  assert (Hpin : forall f, In f processed -> In f fs).
  { intros f Hf. apply (subseq_In _ _ _ _ Hsub). apply in_or_app. auto. }
  assert (Hlin : forall f, In f leaf -> In f fs).
  { intros f Hf. apply (subseq_In _ _ _ _ Hsub). apply in_or_app. auto. }
  assert (Hkin : forall g, In g kept ->
                   exists f, In f processed
                             /\ referenceNode f = referenceNode g).
  { intros g Hg. apply (in_map (@referenceNode D)) in Hg.
    apply (subseq_In _ _ _ _ Hkept) in Hg. apply in_map_iff in Hg.
    destruct Hg as (f & Hf & Hfin). eauto. }
  split; [|split; [|split]].
  - rewrite frontier_points_app. eapply subseq_NoDup; [|exact Hndpl].
    apply subseq_app; [|apply subseq_refl].
    apply frontier_points_subseq. assumption.
  - apply Forall_app. rewrite Forall_forall in Hwf. split.
    + apply Forall_forall. intros g Hg.
      destruct (Hkin g Hg) as (f & Hf & <-). auto.
    + apply Forall_forall. auto.
  - apply (fresh_calls X a xc fs processed C Hinv (Hincl _ Hxc)).
    + eapply subseq_trans; [apply subseq_app_r | eassumption].
    + intros ->. contradiction.
  - intros x y g Hx Hxy Hg Hy.
    apply in_app_or in Hxy. apply in_app_or in Hg.
    destruct Hxy as [Hxy|Hxy].
    + (* evaluated before: it would be a pair of the parent's point *)
      exfalso. apply Ha.
      assert (Hf : exists f, In f fs /\ referenceNode f = referenceNode g).
      { destruct Hg as [Hg|Hg].
        - destruct (Hkin g Hg) as (f & Hf & Hn). eauto.
        - eauto. }
      destruct Hf as (f & Hf & Hn). rewrite <- Hn in Hy.
      destruct (Hc x y f (Hincl _ Hx) Hxy Hf Hy) as (<- & _). assumption.
    + apply in_map_iff in Hxy. destruct Hxy as (f & E & Hfin).
      unfold pair_with in E. inversion E. subst x y.
      assert (Hpf : In (Point (referenceNode f))
                      (leaf_points (referenceNode f))).
      { apply (wf_Point_in f fs); auto. }
      destruct Hg as [Hg|Hg].
      * destruct (Hkin g Hg) as (f' & Hf' & Hn).
        assert (Heq : referenceNode f = referenceNode g).
        { rewrite <- Hn.
          apply (node_unique processed _ _ (Point (referenceNode f)) Hndp).
          - apply in_map. assumption.
          - apply in_map. assumption.
          - assumption.
          - rewrite Hn. assumption. }
        rewrite Forall_forall in Hcache. destruct (Hcache g Hg) as [Hq Hr].
        rewrite Hr, Hq, Heq. auto.
      * exfalso. apply (Hdisj (Point (referenceNode f))).
        -- apply In_frontier_points. eauto.
        -- apply In_frontier_points. eauto.
Qed.

(** After the traversal of a query child the parent's frontier still
    satisfies the invariant for the query points of the other children. *)
Lemma once_inv_after_child X X' a fs C new Xc :
  once_inv X a fs C -> NoDup (C ++ new) ->
  (forall x y, In (x, y) new -> In x Xc) ->
  incl X' X -> (forall x, In x X' -> ~ In x Xc) ->
  once_inv X' a fs (C ++ new).
Proof.
  intros (Hnd & Hwf & HC & Hc) Hnew Hin Hincl Hdisj.
  split; [|split; [|split]]; try assumption.
  intros x y f Hx Hxy Hf Hy.
  apply in_app_or in Hxy. destruct Hxy as [HinC|Hinnew].
  - eapply Hc; eauto.
  - exfalso. eapply Hdisj; [eassumption | eapply Hin; eassumption].
Qed.

End OnceFacts.

(** ** Runs with a recording policy: the pairs evaluated *)

Section OnceRun.

Variables D S : Type.
Variable is_DBL_MAX : D -> bool.
Variable P : RuleType D S.

Let rstate : Type := TState (S * list (Event D)).

Lemma bc_pairs_app (l1 l2 : list (Event D)) :
  bc_pairs (l1 ++ l2) = bc_pairs l1 ++ bc_pairs l2.
Proof.
  induction l1 as [|e l1 IH]; simpl; [reflexivity|].
  destruct e; simpl; rewrite IH; reflexivity.
Qed.

Lemma call_BaseCase_calls q r (st : rstate) d st' :
  call_BaseCase (Recording P) q r st = Ok (d, st') ->
  calls st' = calls st ++ [(q, r)].
Proof.
  unfold call_BaseCase, calls. simpl.
  destruct (BaseCase P q r (fst (rule_state st))) as [d' s'].
  intros H. inversion H. subst. simpl. rewrite bc_pairs_app. reflexivity.
Qed.

Lemma call_Score_calls qn rn bc (st : rstate) d st' :
  call_Score (Recording P) qn rn bc st = Ok (d, st') -> calls st' = calls st.
Proof.
  unfold call_Score, calls. simpl.
  destruct (Score P qn rn bc (fst (rule_state st))) as [d' s'].
  intros H. inversion H. subst. simpl. rewrite bc_pairs_app. simpl.
  apply app_nil_r.
Qed.

Lemma call_Rescore_calls qn rn old (st : rstate) d st' :
  call_Rescore (Recording P) qn rn old st = Ok (d, st') ->
  calls st' = calls st.
Proof.
  unfold call_Rescore, calls. simpl.
  destruct (Rescore P qn rn old (fst (rule_state st))) as [d' s'].
  intros H. inversion H. subst. simpl. rewrite bc_pairs_app. simpl.
  apply app_nil_r.
Qed.

Lemma add_prunes_calls n (st : rstate) u st' :
  add_prunes n st = Ok (u, st') -> calls st' = calls st.
Proof. unfold add_prunes. intros H. inversion H. reflexivity. Qed.

(** The test of [PruneMapForSelfChild] and of [ReferenceRecursion] for a
    base case that has to be evaluated. *)
Lemma mismatch_spec a (f : MapEntry D) :
  negb (referenceIndex f =? Point (referenceNode f))
  || negb (queryIndex f =? a) = true <-> ~ cached_for a f.
Proof.
  unfold cached_for.
  destruct (Nat.eqb_spec (referenceIndex f) (Point (referenceNode f))),
    (Nat.eqb_spec (queryIndex f) a); simpl; intuition congruence.
Qed.

Lemma nodes_set_frame (f : MapEntry D) sc bc ri qi :
  referenceNode (set_frame f sc bc ri qi) = referenceNode f.
Proof. reflexivity. Qed.

Ltac calls_step :=
  match goal with
  | H : call_BaseCase _ _ _ _ = Ok _ |- _ =>
      apply call_BaseCase_calls in H
  | H : call_Score _ _ _ _ _ = Ok _ |- _ => apply call_Score_calls in H
  | H : call_Rescore _ _ _ _ _ = Ok _ |- _ => apply call_Rescore_calls in H
  | H : add_prunes _ _ = Ok _ |- _ => apply add_prunes_calls in H
  end.

Ltac calls_solve :=
  repeat calls_step;
  repeat match goal with
         | H : calls ?x = _ |- context [calls ?x] => rewrite H
         end;
  simpl; rewrite <- ?app_assoc; simpl; try reflexivity.

Lemma PMSC_frames_run cand vec : forall acc (st : rstate) res st',
  PruneMapForSelfChild_frames is_DBL_MAX (Recording P) cand vec acc st
  = Ok (res, st') ->
  exists kept called,
    res = acc ++ kept
    /\ subseq (nodes kept) (nodes vec)
    /\ Forall (cached_for (Point cand)) kept
    /\ subseq called vec
    /\ Forall (fun f => ~ cached_for (Point cand) f) called
    /\ calls st' = calls st ++ map (pair_with (Point cand)) called.
Proof.
  induction vec as [|f rest IH]; intros acc st res st' H;
    cbn [PruneMapForSelfChild_frames] in H.
  - monad_inv H. exists [], []. simpl. rewrite !app_nil_r.
    repeat split; constructor.
  - monad_inv H.
    destruct (negb (referenceIndex f =? Point (referenceNode f))
              || negb (queryIndex f =? Point cand)) eqn:Hmis.
    + apply mismatch_spec in Hmis.
      monad_inv Hstep. destruct (is_DBL_MAX a0).
      * monad_inv Hrest0. monad_inv Hrest1.
        repeat calls_step.
        destruct (IH _ _ _ _ Hrest)
          as (kept & called & Hres & Hk & Hc & Hcl & Hm & Hcalls).
        exists kept, called. repeat split; auto.
        -- apply subseq_skip. assumption.
        -- apply subseq_skip. assumption.
        -- calls_solve.
      * monad_inv Hrest0. monad_inv Hrest1.
        monad_inv Hrest. repeat calls_step.
        destruct (is_DBL_MAX a).
        -- monad_inv Hrest0. repeat calls_step.
           destruct (IH _ _ _ _ Hrest)
             as (kept & called & Hres & Hk & Hc & Hcl & Hm & Hcalls).
           exists kept, (f :: called). repeat split; auto.
           ++ apply subseq_skip. assumption.
           ++ apply subseq_take. assumption.
           ++ calls_solve.
        -- destruct (IH _ _ _ _ Hrest0)
             as (kept & called & Hres & Hk & Hc & Hcl & Hm & Hcalls).
           eexists (_ :: kept), (f :: called). repeat split.
           ++ rewrite Hres, <- app_assoc. reflexivity.
           ++ simpl. apply subseq_take. assumption.
           ++ constructor; [|assumption]. split; reflexivity.
           ++ apply subseq_take. assumption.
           ++ constructor; assumption.
           ++ calls_solve.
    + monad_inv Hstep. monad_inv Hrest. repeat calls_step.
      destruct (is_DBL_MAX a).
      * monad_inv Hrest0. repeat calls_step.
        destruct (IH _ _ _ _ Hrest)
          as (kept & called & Hres & Hk & Hc & Hcl & Hm & Hcalls).
        exists kept, called. repeat split; auto.
        -- apply subseq_skip. assumption.
        -- apply subseq_skip. assumption.
        -- calls_solve.
      * destruct (IH _ _ _ _ Hrest0)
          as (kept & called & Hres & Hk & Hc & Hcl & Hm & Hcalls).
        eexists (_ :: kept), called. repeat split.
        -- rewrite Hres, <- app_assoc. reflexivity.
        -- simpl. apply subseq_take. assumption.
        -- constructor; [|assumption]. split; reflexivity.
        -- apply subseq_skip. assumption.
        -- assumption.
        -- calls_solve.
Qed.

Lemma PruneMap_frames_run cand vec : forall acc (st : rstate) res st',
  PruneMap_frames is_DBL_MAX (Recording P) cand vec acc st = Ok (res, st') ->
  exists kept processed,
    res = acc ++ kept
    /\ subseq (nodes kept) (nodes processed)
    /\ Forall (cached_for (Point cand)) kept
    /\ subseq processed vec
    /\ calls st' = calls st ++ map (pair_with (Point cand)) processed.
Proof.
  induction vec as [|f rest IH]; intros acc st res st' H;
    cbn [PruneMap_frames] in H.
  - monad_inv H. exists [], []. simpl. rewrite !app_nil_r.
    repeat split; constructor.
  - monad_inv H. destruct (is_DBL_MAX a).
    + monad_inv Hrest.
      destruct (IH _ _ _ _ Hrest0)
        as (kept & processed & Hres & Hk & Hc & Hp & Hcalls).
      exists kept, processed. repeat split; auto.
      * apply subseq_skip. assumption.
      * calls_solve.
    + monad_inv Hrest. monad_inv Hrest0. destruct (is_DBL_MAX a1).
      * monad_inv Hrest.
        destruct (IH _ _ _ _ Hrest0)
          as (kept & processed & Hres & Hk & Hc & Hp & Hcalls).
        exists kept, (f :: processed). repeat split; auto.
        -- simpl. apply subseq_skip. assumption.
        -- apply subseq_take. assumption.
        -- calls_solve.
      * destruct (IH _ _ _ _ Hrest)
          as (kept & processed & Hres & Hk & Hc & Hp & Hcalls).
        eexists (_ :: kept), (f :: processed). repeat split.
        -- rewrite Hres, <- app_assoc. reflexivity.
        -- simpl. apply subseq_take. assumption.
        -- constructor; [|assumption]. split; reflexivity.
        -- apply subseq_take. assumption.
        -- calls_solve.
Qed.

Lemma dedup_spec q (f : MapEntry D) :
  (referenceIndex f =? Point (referenceNode f)) && (queryIndex f =? Point q)
  = false <-> ~ cached_for (Point q) f.
Proof.
  unfold cached_for.
  destruct (Nat.eqb_spec (referenceIndex f) (Point (referenceNode f))),
    (Nat.eqb_spec (queryIndex f) (Point q)); simpl; intuition congruence.
Qed.

Lemma base_cases_run q pv : forall (st : rstate) u st',
  base_cases is_DBL_MAX (Recording P) q pv st = Ok (u, st') ->
  exists called,
    subseq called pv
    /\ Forall (fun f => ~ cached_for (Point q) f) called
    /\ calls st' = calls st ++ map (pair_with (Point q)) called.
Proof.
  induction pv as [|f rest IH]; intros st u st' H; cbn [base_cases] in H.
  - monad_inv H. exists []. simpl. rewrite app_nil_r.
    repeat split; constructor.
  - destruct ((referenceIndex f =? Point (referenceNode f))
              && (queryIndex f =? Point q)) eqn:Hdone.
    + monad_inv H.
      destruct (IH _ _ _ Hrest) as (called & Hc & Hm & Hcalls).
      exists called. repeat split; auto.
      * apply subseq_skip. assumption.
      * calls_solve.
    + apply dedup_spec in Hdone. monad_inv H. destruct (is_DBL_MAX a).
      * monad_inv Hrest.
        destruct (IH _ _ _ Hrest0) as (called & Hc & Hm & Hcalls).
        exists called. repeat split; auto.
        -- apply subseq_skip. assumption.
        -- calls_solve.
      * monad_inv Hrest.
        destruct (IH _ _ _ Hrest0) as (called & Hc & Hm & Hcalls).
        exists (f :: called). repeat split; auto.
        -- apply subseq_take. assumption.
        -- calls_solve.
Qed.

Lemma RR_children_run q cs : forall m (st : rstate) m' st',
  ReferenceRecursion_children is_DBL_MAX (Recording P) q cs m st
  = Ok (m', st') ->
  exists adm,
    m' = push_all adm m
    /\ subseq (nodes adm) cs
    /\ Forall (cached_for (Point q)) adm
    /\ calls st' = calls st ++ map (fun c => (Point q, Point c)) cs.
Proof.
  induction cs as [|c cs IH]; intros m st m' st' H;
    cbn [ReferenceRecursion_children] in H.
  - monad_inv H. exists []. simpl. rewrite app_nil_r.
    repeat split; constructor.
  - monad_inv H. monad_inv Hrest. destruct (is_DBL_MAX a0).
    + monad_inv Hrest0.
      destruct (IH _ _ _ _ Hrest) as (adm & Hm & Hs & Hc & Hcalls).
      exists adm. repeat split; auto.
      * apply subseq_skip. assumption.
      * calls_solve.
    + destruct (IH _ _ _ _ Hrest0) as (adm & Hm & Hs & Hc & Hcalls).
      match type of Hm with
      | _ = push_all adm (m_push _ ?g m) => exists (g :: adm)
      end.
      repeat split.
      * rewrite Hm. reflexivity.
      * simpl. apply subseq_take. assumption.
      * constructor; [|assumption]. split; reflexivity.
      * calls_solve.
Qed.

Lemma subseq_scale_below s (adm : bucket D) cs :
  subseq (nodes adm) cs -> Forall (fun c => (Scale c < s)%Z /\ wf_tree c) cs ->
  Forall (fun g => (Scale (referenceNode g) < s)%Z) adm.
Proof.
  intros Hs Hcs. rewrite Forall_forall in *. intros g Hg.
  apply Hcs. apply (subseq_In _ _ _ _ Hs). apply in_map. assumption.
Qed.

(** The part of the loop body that follows the base case of the node. *)
Lemma RR_frame_tail_run q (f : MapEntry D) bc (m : scale_map D)
    (st : rstate) m' st' :
  wf_tree (referenceNode f) ->
  bind (call_Score (Recording P) q (referenceNode f) bc)
    (fun childScore =>
       if is_DBL_MAX childScore
       then bind (add_prunes (N.of_nat (NumChildren (referenceNode f))))
              (fun _ => ret m)
       else ReferenceRecursion_expand is_DBL_MAX (Recording P) q
              (referenceNode f) bc m) st = Ok (m', st') ->
  exists adm cs,
    m' = push_all adm m
    /\ calls st' = calls st ++ map (fun c => (Point q, Point c)) cs
    /\ Forall (fun g => (Scale (referenceNode g)
                         < Scale (referenceNode f))%Z) adm
    /\ Forall (cached_for (Point q)) adm
    /\ ((adm = [] /\ cs = []) \/
        exists child0,
          Children (referenceNode f) = child0 :: cs
          /\ subseq (nodes adm) (child0 :: cs)).
Proof.
  intros Hwf H. monad_inv H. destruct (is_DBL_MAX a).
  - monad_inv Hrest. monad_inv Hrest0.
    exists [], []. simpl. repeat split; auto.
    calls_solve. rewrite app_nil_r. reflexivity.
  - unfold ReferenceRecursion_expand in Hrest.
    destruct (referenceNode f) as [p s children] eqn:Hn.
    simpl in Hrest. destruct children as [|child0 others]; [discriminate|].
    pose proof (wf_tree_self _ _ _ _ Hwf) as Hself.
    pose proof (wf_tree_children _ _ _ Hwf) as Hch.
    monad_inv Hrest. monad_inv Hrest0.
    destruct (RR_children_run _ _ _ _ _ _ Hrest)
      as (adm & Hm & Hs & Hc & Hcalls).
    destruct (is_DBL_MAX a0).
    + monad_inv Hstep1. monad_inv Hrest0.
      exists adm, others. repeat split; auto.
      * calls_solve.
      * simpl. eapply subseq_scale_below; [|exact Hch].
        apply subseq_skip. eassumption.
      * right. exists child0. split; [reflexivity|].
        apply subseq_skip. assumption.
    + monad_inv Hstep1.
      match goal with
      | |- exists _ _, push_all adm (m_push _ ?g m) = _ /\ _ =>
          exists (g :: adm), others
      end.
      split; [reflexivity|]. split; [calls_solve|].
      split; [|split].
      * simpl. inversion Hch as [|? ? [Hlt _] Hch']. subst.
        constructor; [exact Hlt|].
        eapply subseq_scale_below; [|exact Hch].
        apply subseq_skip. eassumption.
      * constructor; [|assumption]. split; reflexivity.
      * right. exists child0. split; [reflexivity|].
        simpl. apply subseq_take. assumption.
Qed.

(** One frame of the coarsest bucket: either it is dropped, with at most
    the call for its own node, or it is replaced by admitted children. *)
Lemma RR_frame_run q (f : MapEntry D) (m : scale_map D) (st : rstate) m' st' :
  wf_tree (referenceNode f) ->
  ReferenceRecursion_frame is_DBL_MAX (Recording P) q f m st = Ok (m', st') ->
  exists adm pre cs,
    m' = push_all adm m
    /\ calls st' = calls st ++ pre ++ map (fun c => (Point q, Point c)) cs
    /\ Forall (fun g => (Scale (referenceNode g)
                         < Scale (referenceNode f))%Z) adm
    /\ Forall (cached_for (Point q)) adm
    /\ (pre = [] \/
        (pre = [pair_with (Point q) f] /\ ~ cached_for (Point q) f))
    /\ ((adm = [] /\ cs = []) \/
        exists child0,
          Children (referenceNode f) = child0 :: cs
          /\ subseq (nodes adm) (child0 :: cs)).
Proof.
  intros Hwf H. unfold ReferenceRecursion_frame in H.
  monad_inv H. destruct (is_DBL_MAX a).
  - monad_inv Hrest. monad_inv Hrest0.
    exists [], [], []. simpl. repeat split; auto.
    calls_solve. rewrite app_nil_r. reflexivity.
  - monad_inv Hrest.
    destruct (negb (Point (referenceNode f) =? referenceIndex f)
              || negb (Point q =? queryIndex f)) eqn:Hmis.
    + destruct (RR_frame_tail_run _ _ _ _ _ _ _ Hwf Hrest0)
        as (adm & cs & Hm & Hcalls & Hsc & Hc & Hshape).
      exists adm, [pair_with (Point q) f], cs. repeat split; auto.
      * calls_solve.
      * right. split; [reflexivity|]. apply mismatch_spec.
        rewrite (Nat.eqb_sym (referenceIndex f)),
          (Nat.eqb_sym (queryIndex f)). assumption.
    + monad_inv Hstep0.
      destruct (RR_frame_tail_run _ _ _ _ _ _ _ Hwf Hrest0)
        as (adm & cs & Hm & Hcalls & Hsc & Hc & Hshape).
      exists adm, [], cs. repeat split; auto.
      calls_solve.
Qed.

End OnceRun.

(** ** The loops of the traversal preserve the invariant *)

Section OnceLoops.

Variables D S : Type.
Variable is_DBL_MAX : D -> bool.
Variable P : RuleType D S.
Variable sort : bucket D -> bucket D.
Hypothesis sort_perm : forall v, Permutation (sort v) v.

Let rstate : Type := TState (S * list (Event D)).

Implicit Types (m low : scale_map D) (vec fs : bucket D) (st : rstate)
  (q : CoverTree) (X : list nat).

Lemma skipn_nth_error A (l : list A) : forall i x,
  nth_error l i = Some x -> skipn i l = x :: skipn (Datatypes.S i) l.
Proof.
  induction l as [|y l IH]; intros [|i] x H; simpl in *; try discriminate.
  - inversion H. reflexivity.
  - apply IH. assumption.
Qed.

Lemma skipn_nth_error_None A (l : list A) : forall i,
  nth_error l i = None -> skipn i l = [].
Proof.
  induction l as [|y l IH]; intros [|i] H; simpl in *;
    try reflexivity; try discriminate.
  apply IH. assumption.
Qed.

Lemma RR_frame_once X q f fs m st m' st' :
  In (Point q) X ->
  once_inv X (Point q) (f :: fs) (calls st) ->
  ReferenceRecursion_frame is_DBL_MAX (Recording P) q f m st = Ok (m', st') ->
  exists adm new,
    m' = push_all adm m
    /\ Forall (fun g => (Scale (referenceNode g)
                         < Scale (referenceNode f))%Z) adm
    /\ calls st' = calls st ++ new
    /\ once_inv X (Point q) (adm ++ fs) (calls st')
    /\ (forall x y, In (x, y) new -> x = Point q).
Proof.
  intros Ha Hinv H.
  assert (Hwf : wf_tree (referenceNode f)).
  { destruct Hinv as (_ & Hwf & _). inversion Hwf. assumption. }
  destruct (RR_frame_run D S is_DBL_MAX P q f m st m' st' Hwf H)
    as (adm & pre & cs & Hm & Hcalls & Hsc & Hc & Hpre & Hshape).
  exists adm, (pre ++ map (fun c => (Point q, Point c)) cs).
  split; [assumption|]. split; [assumption|]. split; [assumption|].
  split.
  - rewrite Hcalls. destruct Hshape as [[-> ->]|(child0 & Hch & Hsub)].
    + simpl. rewrite app_nil_r.
      change (f :: fs) with ([f] ++ fs) in Hinv.
      destruct Hpre as [->|[-> Hmis]].
      * assert (Hr : once_inv X (Point q) ([] ++ fs)
                       (calls st ++ map (@pair_with D (Point q)) [])).
        { apply (once_inv_refilter D X (Point q) [f] fs _ [] [] Hinv Ha).
          - apply subseq_nil_l.
          - constructor.
          - apply subseq_nil_l.
          - constructor. }
        simpl in Hr. simpl. exact Hr.
      * apply (once_inv_refilter D X (Point q) [f] fs _ [] [f] Hinv Ha).
        -- apply subseq_refl.
        -- constructor; [assumption | constructor].
        -- apply subseq_nil_l.
        -- constructor.
    + eapply once_inv_expand; eassumption.
  - intros x y Hin. apply in_app_or in Hin. destruct Hin as [Hin|Hin].
    + destruct Hpre as [->|[-> _]]; [destruct Hin|].
      destruct Hin as [E|[]]. unfold pair_with in E. congruence.
    + apply in_map_iff in Hin. destruct Hin as (c & E & _). congruence.
Qed.

(** The [for] loop over the coarsest bucket [(top, vec)]: the frames from
    index [i] on are still to be processed. *)
Lemma RR_for_once X q top vec : In (Point q) X ->
  forall fuel i low st m' st',
    frontier_ok ((top, vec) :: low) ->
    once_inv X (Point q) (skipn i vec ++ frames low) (calls st) ->
    ReferenceRecursion_for is_DBL_MAX (Recording P) fuel q top i
      ((top, vec) :: low) st = Ok (m', st') ->
    exists low' new,
      m' = (top, vec) :: low'
      /\ frontier_ok ((top, vec) :: low')
      /\ calls st' = calls st ++ new
      /\ once_inv X (Point q) (frames low') (calls st')
      /\ (forall x y, In (x, y) new -> x = Point q).
Proof.
  intros Ha. induction fuel as [|fuel IH]; intros i low st m' st' Hok Hinv H;
    cbn [ReferenceRecursion_for] in H; [discriminate|].
  assert (Hb : m_bucket top ((top, vec) :: low) = vec).
  { unfold m_bucket. simpl. rewrite Z.eqb_refl. reflexivity. }
  rewrite Hb in H.
  destruct (nth_error vec i) as [f|] eqn:Hnth.
  - monad_inv H.
    rewrite (skipn_nth_error _ _ _ _ Hnth) in Hinv. simpl in Hinv.
    destruct (RR_frame_once X q f _ _ st a st0 Ha Hinv Hstep)
      as (adm & new & Hm & Hsc & Hcalls & Hinv' & Hnew).
    assert (Hftop : Scale (referenceNode f) = top).
    { destruct Hok as [_ Hsc']. apply (Hsc' top vec f); [left; reflexivity|].
      eapply nth_error_In. eassumption. }
    rewrite Hftop in Hsc.
    rewrite (push_all_below D top vec adm low Hsc) in Hm. subst a.
    assert (Hok' : frontier_ok ((top, vec) :: push_all adm low)).
    { rewrite <- (push_all_below D top vec adm low Hsc).
      apply frontier_ok_push_all. assumption. }
    destruct (IH (Datatypes.S i) (push_all adm low) st0 m' st' Hok')
      as (low' & new' & Hm' & Hok'' & Hcalls' & Hinv'' & Hnew').
    + eapply once_inv_perm; [|exact Hinv'].
      eapply Permutation_trans; [apply Permutation_app_comm|].
      rewrite <- app_assoc. apply Permutation_app_head.
      apply Permutation_sym. apply frames_push_all.
      destruct Hok as [Hmok _]. simpl in Hmok. tauto.
    + assumption.
    + exists low', (new ++ new'). split; [assumption|].
      split; [assumption|]. split; [|split; [assumption|]].
      * rewrite Hcalls', Hcalls, app_assoc. reflexivity.
      * intros x y Hin. apply in_app_or in Hin. destruct Hin; eauto.
  - monad_inv H. rewrite (skipn_nth_error_None _ _ _ Hnth) in Hinv.
    exists low, []. rewrite app_nil_r.
    split; [reflexivity|]. split; [assumption|]. split; [reflexivity|].
    split; [exact Hinv|]. intros x y [].
Qed.

Lemma frontier_ok_perm_head top vec vec' low :
  Permutation vec' vec -> frontier_ok ((top, vec) :: low) ->
  frontier_ok ((top, vec') :: low).
Proof.
  intros Hp [Hok Hsc]. split; [exact Hok|].
  intros k v f [E|Hin] Hf.
  - inversion E. subst. apply (Hsc k vec f); [left; reflexivity|].
    eapply Permutation_in; eassumption.
  - apply (Hsc k v f); [right|]; assumption.
Qed.

Lemma m_set_head top v vec low :
  m_set top v ((top, vec) :: low) = (top, v) :: low.
Proof.
  simpl. destruct (Z.ltb_spec top top); [lia|].
  rewrite Z.eqb_refl. reflexivity.
Qed.

Lemma m_erase_head top vec low : m_erase top ((top, vec) :: low) = low.
Proof. simpl. rewrite Z.eqb_refl. reflexivity. Qed.

(** The [while] loop of [ReferenceRecursion]. *)
Lemma RR_while_once X q : In (Point q) X ->
  forall fuel m st m' st',
    frontier_ok m ->
    once_inv X (Point q) (frames m) (calls st) ->
    ReferenceRecursion_while is_DBL_MAX (Recording P) sort fuel q m st
    = Ok (m', st') ->
    exists new,
      frontier_ok m'
      /\ calls st' = calls st ++ new
      /\ once_inv X (Point q) (frames m') (calls st')
      /\ (forall x y, In (x, y) new -> x = Point q).
Proof.
  intros Ha. induction fuel as [|fuel IH]; intros m st m' st' Hok Hinv H;
    cbn [ReferenceRecursion_while] in H; [discriminate|].
  destruct m as [|[top vec] low]; [discriminate|].
  unfold m_rbegin in H. cbn [hd_error] in H.
  destruct (top >? Scale q)%Z.
  - destruct ((Scale q =? INT_MIN)%Z && (top =? INT_MIN)%Z).
    + monad_inv H. exists []. rewrite app_nil_r.
      split; [assumption|]. split; [reflexivity|].
      split; [exact Hinv|]. intros x y [].
    + rewrite m_set_head in H. monad_inv H.
      assert (Hok1 : frontier_ok ((top, sort vec) :: low)).
      { eapply frontier_ok_perm_head; [apply sort_perm | assumption]. }
      destruct (RR_for_once X q top (sort vec) Ha
                  (Datatypes.S (bucket_weight vec)) 0 low st a st0 Hok1)
        as (low' & new & Hm & Hok' & Hcalls & Hinv' & Hnew).
      * simpl. eapply once_inv_perm; [|exact Hinv]. simpl.
        apply Permutation_app_tail. apply Permutation_sym. apply sort_perm.
      * assumption.
      * subst a. cbn [hd_error] in Hrest. rewrite m_erase_head in Hrest.
        destruct (IH low' st0 m' st' (frontier_ok_tail _ _ _ Hok') Hinv'
                    Hrest)
          as (new' & Hok'' & Hcalls' & Hinv'' & Hnew').
        exists (new ++ new'). split; [assumption|].
        split; [|split; [assumption|]].
        -- rewrite Hcalls', Hcalls, app_assoc. reflexivity.
        -- intros x y Hin. apply in_app_or in Hin. destruct Hin; eauto.
  - monad_inv H. exists []. rewrite app_nil_r.
    split; [assumption|]. split; [reflexivity|].
    split; [exact Hinv|]. intros x y [].
Qed.

Lemma first_below_In k m e : first_below k m = Some e -> In e m.
Proof.
  induction m as [|[k' v'] m' IH]; simpl; [discriminate|].
  destruct (k' <? k)%Z.
  - intros H. inversion H. auto.
  - auto.
Qed.

Lemma rit_deref_In cur m e : rit_deref cur m = Ok e -> In e m.
Proof.
  unfold rit_deref. destruct (negb (it_valid cur m)); [discriminate|].
  destruct (it_prev cur m) as [e'|] eqn:Hprev; [|discriminate].
  intros H. inversion H. subst. destruct cur as [|k]; simpl in Hprev.
  - destruct m; simpl in Hprev; [discriminate|]. inversion Hprev. left.
    reflexivity.
  - eapply first_below_In. eassumption.
Qed.

Lemma kept_scale k vec (kept : bucket D) :
  Forall (fun f => Scale (referenceNode f) = k) vec ->
  subseq (nodes kept) (nodes vec) ->
  Forall (fun f => Scale (referenceNode f) = k) kept.
Proof.
  intros Hv Hs. rewrite Forall_forall in *. intros g Hg.
  apply (in_map (@referenceNode D)) in Hg.
  apply (subseq_In _ _ _ _ Hs) in Hg. apply in_map_iff in Hg.
  destruct Hg as (f & <- & Hf). auto.
Qed.

Lemma frontier_ok_In_bucket m k vec :
  frontier_ok m -> In (k, vec) m ->
  m_bucket k m = vec /\ Forall (fun f => Scale (referenceNode f) = k) vec.
Proof.
  intros [Hok Hsc] Hin. split.
  - unfold m_bucket. rewrite (In_m_find _ _ _ Hok Hin). reflexivity.
  - apply Forall_forall. intros f Hf. eapply Hsc; eassumption.
Qed.

(** One bucket of the map is filtered in place for the same query point. *)
Lemma refilter_bucket_once X a m k vec kept called C :
  frontier_ok m -> In (k, vec) m -> In a X ->
  once_inv X a (frames m) C ->
  subseq called vec -> Forall (fun f => ~ cached_for a f) called ->
  subseq (nodes kept) (nodes vec) -> Forall (cached_for a) kept ->
  frontier_ok (m_set k kept m)
  /\ once_inv X a (frames (m_set k kept m))
       (C ++ map (pair_with a) called)
  /\ (kept = [] ->
      once_inv X a (frames (m_erase k (m_set k kept m)))
        (C ++ map (pair_with a) called)).
Proof.
  intros Hok Hin Ha Hinv Hcalled Hmis Hkept Hcache.
  destruct (frontier_ok_In_bucket _ _ _ Hok Hin) as [Hb Hsc].
  pose proof Hok as [Hmok _].
  assert (Hinv' : once_inv X a (kept ++ frames (m_erase k m))
                    (C ++ map (pair_with a) called)).
  { apply (once_inv_refilter D X a vec _ C kept called); try assumption.
    eapply once_inv_perm; [|exact Hinv].
    rewrite <- Hb. apply frames_erase. assumption. }
  split; [|split].
  - apply frontier_ok_set; [assumption|].
    eapply kept_scale; eassumption.
  - eapply once_inv_perm; [|exact Hinv'].
    apply Permutation_sym. apply frames_set. assumption.
  - intros ->. rewrite m_erase_set by assumption. exact Hinv'.
Qed.

(** The loop of [PruneMapForSelfChild], whatever buckets the iterator
    visits. *)
Lemma PMSC_loop_once X cand : In (Point cand) X ->
  forall fuel cur m st m' st',
    frontier_ok m ->
    once_inv X (Point cand) (frames m) (calls st) ->
    PruneMapForSelfChild_loop is_DBL_MAX (Recording P) fuel cand cur m st
    = Ok (m', st') ->
    exists new,
      frontier_ok m'
      /\ calls st' = calls st ++ new
      /\ once_inv X (Point cand) (frames m') (calls st')
      /\ (forall x y, In (x, y) new -> x = Point cand).
Proof.
  intros Ha. induction fuel as [|fuel IH];
    intros cur m st m' st' Hok Hinv H;
    cbn [PruneMapForSelfChild_loop] in H; [discriminate|].
  assert (Hdone : exists new : list (nat * nat),
             frontier_ok m /\ calls st = calls st ++ new
             /\ once_inv X (Point cand) (frames m) (calls st)
             /\ (forall x y, In (x, y) new -> x = Point cand)).
  { exists []. rewrite app_nil_r. repeat (split; [assumption || reflexivity|]).
    intros x y []. }
  destruct (iterator_eqb cur (begin_it m)).
  { monad_inv H. exact Hdone. }
  monad_inv H. monad_inv Hstep. destruct a as [k vec].
  destruct (k =? INT_MIN)%Z.
  { monad_inv Hrest. exact Hdone. }
  clear Hdone. monad_inv Hrest.
  pose proof (rit_deref_In _ _ _ H) as Hin.
  destruct (PMSC_frames_run D S is_DBL_MAX P cand vec [] st a st0 Hstep)
    as (kept & called & Hres & Hk & Hc & Hcl & Hm & Hcalls).
  simpl in Hres. subst a.
  destruct (refilter_bucket_once X (Point cand) m k vec kept called
              (calls st) Hok Hin Ha Hinv Hcl Hm Hk Hc)
    as (Hok1 & Hinv1 & Hinv2).
  rewrite <- Hcalls in Hinv1, Hinv2.
  assert (Hnew : forall x y,
             In (x, y) (map (pair_with (Point cand)) called) ->
             x = Point cand).
  { intros x y Hxy. apply in_map_iff in Hxy. destruct Hxy as (f & E & _).
    unfold pair_with in E. congruence. }
  assert (Hcont : forall m1,
             frontier_ok m1 ->
             once_inv X (Point cand) (frames m1) (calls st0) ->
             bind (lift (rit_incr cur m1))
               (fun current' =>
                  PruneMapForSelfChild_loop is_DBL_MAX (Recording P) fuel
                    cand current' m1) st0 = Ok (m', st') ->
             exists new,
               frontier_ok m'
               /\ calls st' = calls st ++ new
               /\ once_inv X (Point cand) (frames m') (calls st')
               /\ (forall x y, In (x, y) new -> x = Point cand)).
  { intros m1 Hokm Hinvm Hrun. monad_inv Hrun. monad_inv Hstep0.
    destruct (IH _ _ _ _ _ Hokm Hinvm Hrest)
      as (new' & Hok' & Hcalls' & Hinv' & Hnew').
    exists (map (pair_with (Point cand)) called ++ new').
    split; [assumption|]. split; [|split; [assumption|]].
    - rewrite Hcalls', Hcalls, app_assoc. reflexivity.
    - intros x y Hxy. apply in_app_or in Hxy. destruct Hxy; eauto. }
  destruct kept as [|g kept].
  - specialize (Hinv2 eq_refl).
    destruct (m_erase k (m_set k [] m)) as [|e m2] eqn:Hm2.
    + monad_inv Hrest0.
      exists (map (pair_with (Point cand)) called).
      split; [split; [exact I | intros ? ? ? []]|].
      split; [assumption|]. split; assumption.
    + apply (Hcont (e :: m2)); auto.
      rewrite <- Hm2. apply frontier_ok_erase. assumption.
  - apply (Hcont (m_set k (g :: kept) m)); auto.
Qed.

Lemma m_bucket_touch j k m : m_bucket j (m_touch k m) = m_bucket j m.
Proof.
  unfold m_bucket. rewrite m_find_touch.
  destruct (m_find j m); [reflexivity|].
  destruct (j =? k)%Z; reflexivity.
Qed.

Lemma frames_touch k m :
  map_ok m -> Permutation (frames (m_touch k m)) (frames m).
Proof.
  intros Hok. unfold m_touch. destruct (m_find k m) eqn:Hk.
  - apply Permutation_refl.
  - eapply Permutation_trans; [apply frames_set; assumption|].
    rewrite m_erase_absent; [apply Permutation_refl|].
    apply m_find_keys. assumption.
Qed.

Lemma keys_touch j k m : In j (keys (m_touch k m)) -> j = k \/ In j (keys m).
Proof.
  unfold m_touch. destruct (m_find k m); [auto|]. apply keys_set.
Qed.

Lemma nodes_app (l1 l2 : bucket D) : nodes (l1 ++ l2) = nodes l1 ++ nodes l2.
Proof. apply map_app. Qed.

(** The buckets of the parent's map are filtered into the child's map. *)
Lemma PruneMap_scales_once cand : forall buckets cm st cm' st',
  (forall k v f, In (k, v) buckets -> In f v ->
                 Scale (referenceNode f) = k) ->
  frontier_ok cm -> ~ In INT_MIN (keys cm) ->
  PruneMap_scales is_DBL_MAX (Recording P) cand buckets cm st
  = Ok (cm', st') ->
  exists kept processed,
    Permutation (frames cm') (frames cm ++ kept)
    /\ frontier_ok cm' /\ ~ In INT_MIN (keys cm')
    /\ subseq (processed ++ m_bucket INT_MIN buckets) (frames buckets)
    /\ subseq (nodes kept) (nodes processed)
    /\ Forall (cached_for (Point cand)) kept
    /\ calls st' = calls st ++ map (pair_with (Point cand)) processed.
Proof.
  induction buckets as [|[k v] rest IH]; intros cm st cm' st' Hsc Hok Hmin H;
    cbn [PruneMap_scales] in H.
  - monad_inv H. exists [], []. rewrite !app_nil_r.
    split; [apply Permutation_refl|]. split; [assumption|].
    split; [assumption|]. split; [apply subseq_nil|].
    split; [apply subseq_nil|]. split; [constructor | reflexivity].
  - destruct (Z.eqb_spec k INT_MIN) as [->|Hk].
    + monad_inv H. exists [], []. rewrite !app_nil_r.
      split; [apply Permutation_refl|]. split; [assumption|].
      split; [assumption|]. split.
      * unfold m_bucket. cbn [m_find]. rewrite Z.eqb_refl.
        apply subseq_app_r.
      * split; [apply subseq_nil|]. split; [constructor | reflexivity].
    + monad_inv H. rewrite m_bucket_touch in Hstep.
      destruct (PruneMap_frames_run D S is_DBL_MAX P cand v _ st a st0 Hstep)
        as (kept & processed & Hres & Hkp & Hc & Hp & Hcalls).
      pose proof Hok as [Hmok Hcm].
      assert (Hvsc : Forall (fun f => Scale (referenceNode f) = k) v).
      { apply Forall_forall. intros f Hf. apply (Hsc k v f); auto.
        left. reflexivity. }
      assert (Hressc : Forall (fun f => Scale (referenceNode f) = k) a).
      { rewrite Hres. apply Forall_app. split.
        - apply frontier_ok_bucket. assumption.
        - eapply kept_scale; [exact Hvsc|].
          eapply subseq_trans; [exact Hkp|].
          apply subseq_map. assumption. }
      set (cm2 := m_set k a (m_touch k cm)) in *.
      assert (Hok2 : frontier_ok cm2).
      { apply frontier_ok_set; [apply frontier_ok_touch|]; assumption. }
      assert (Hf2 : Permutation (frames cm2) (frames cm ++ kept)).
      { unfold cm2.
        eapply Permutation_trans;
          [apply frames_set; apply map_ok_touch; assumption|].
        rewrite m_erase_touch by assumption. rewrite Hres, <- app_assoc.
        eapply Permutation_trans; [apply Permutation_app_head;
                                   apply Permutation_app_comm|].
        rewrite app_assoc. apply Permutation_app_tail.
        apply Permutation_sym. apply frames_erase. assumption. }
      assert (Hmin2 : ~ In INT_MIN (keys cm2)).
      { unfold cm2. intros Hin. apply keys_set in Hin.
        destruct Hin as [Hin|Hin]; [congruence|].
        apply keys_touch in Hin. destruct Hin; [congruence | contradiction]. }
      assert (Hcm3 : exists cm3,
                 (match a with [] => m_erase k cm2 | _ :: _ => cm2 end = cm3)
                 /\ Permutation (frames cm3) (frames cm ++ kept)
                 /\ frontier_ok cm3 /\ ~ In INT_MIN (keys cm3)).
      { destruct a as [|g a'].
        - exists (m_erase k cm2). split; [reflexivity|].
          split; [|split].
          + unfold cm2. rewrite m_erase_set by (apply map_ok_touch; assumption).
            rewrite m_erase_touch by assumption.
            symmetry in Hres. apply app_eq_nil in Hres.
            destruct Hres as [Hold ->]. rewrite app_nil_r.
            eapply Permutation_trans;
              [|apply Permutation_sym; apply (frames_erase D k); assumption].
            rewrite Hold. apply Permutation_refl.
          + apply frontier_ok_erase. assumption.
          + intros Hin. apply keys_erase in Hin. contradiction.
        - exists cm2. auto. }
      destruct Hcm3 as (cm3 & Hcm3 & Hf3 & Hok3 & Hmin3).
      rewrite Hcm3 in Hrest.
      destruct (IH cm3 st0 cm' st') as
        (kept' & processed' & Hf' & Hok' & Hmin' & Hsub' & Hkp' & Hc'
         & Hcalls'); try assumption.
      { intros k' v' f Hin Hf. apply (Hsc k' v' f); auto. right. assumption. }
      exists (kept ++ kept'), (processed ++ processed').
      split; [|split; [assumption|split; [assumption|split; [|split;
        [|split]]]]].
      * eapply Permutation_trans; [exact Hf'|].
        rewrite app_assoc. apply Permutation_app_tail. assumption.
      * assert (Hb : m_bucket INT_MIN ((k, v) :: rest)
                     = m_bucket INT_MIN rest).
        { unfold m_bucket. cbn [m_find].
          destruct (Z.eqb_spec INT_MIN k) as [E|_]; [congruence|].
          reflexivity. }
        rewrite Hb, <- app_assoc.
        change (frames ((k, v) :: rest)) with (v ++ frames rest).
        apply subseq_app; assumption.
      * rewrite !nodes_app. apply subseq_app; assumption.
      * apply Forall_app. split; assumption.
      * rewrite Hcalls', Hcalls, map_app, app_assoc. reflexivity.
Qed.

Lemma PruneMap_once X a q cand Xc m st m' cm st' :
  frontier_ok m -> once_inv X a (frames m) (calls st) ->
  incl Xc X -> In (Point cand) Xc -> ~ In a Xc ->
  PruneMap is_DBL_MAX (Recording P) q cand m [] st = Ok ((m', cm), st') ->
  frontier_ok m' /\ Permutation (frames m') (frames m) /\ frontier_ok cm
  /\ exists new,
       calls st' = calls st ++ new
       /\ once_inv Xc (Point cand) (frames cm) (calls st')
       /\ (forall x y, In (x, y) new -> x = Point cand).
Proof.
  intros Hok Hinv Hincl Hxc Ha H. unfold PruneMap in H.
  assert (Hnil : frontier_ok (@nil (Z * bucket D))).
  { split; [exact I | intros ? ? ? []]. }
  destruct m as [|e m0] eqn:Hm.
  - unfold ret in H. inversion H. subst.
    split; [assumption|]. split; [apply Permutation_refl|].
    split; [assumption|]. exists []. rewrite app_nil_r.
    split; [reflexivity|]. split; [|intros x y []].
    destruct Hinv as (_ & _ & HC & _).
    split; [constructor|]. split; [constructor|]. split; [assumption|].
    intros x y f _ _ [].
  - rewrite <- Hm in *. clear Hm e m0. monad_inv H.
    unfold ret in Hrest. inversion Hrest. subst m' cm st0. clear Hrest.
    pose proof Hok as [Hmok Hsc].
    apply PruneMap_scales_once in Hstep;
      [| exact Hsc | exact Hnil | exact (fun H => H)].
    destruct Hstep
      as (kept & processed & Hf & Hoka & Hmina & Hsub & Hkp & Hc & Hcalls).
    simpl in Hf.
    split; [apply frontier_ok_touch; assumption|].
    split; [apply frames_touch; assumption|].
    rewrite m_bucket_touch.
    split.
    { apply frontier_ok_set; [assumption|].
      apply frontier_ok_bucket. assumption. }
    exists (map (pair_with (Point cand)) processed).
    split; [assumption|]. split.
    + rewrite Hcalls.
      eapply once_inv_perm;
        [|apply (once_inv_child D X a (frames m) (calls st) Xc (Point cand)
                   kept processed (m_bucket INT_MIN m)); eassumption].
      apply Permutation_sym.
      eapply Permutation_trans;
        [apply frames_set; destruct Hoka; assumption|].
      rewrite m_erase_absent by assumption.
      eapply Permutation_trans; [apply Permutation_app_comm|].
      apply Permutation_app_tail. assumption.
    + intros x y Hxy. apply in_map_iff in Hxy.
      destruct Hxy as (f & E & _). unfold pair_with in E. congruence.
Qed.

Lemma m_begin_frames m k v :
  m_begin m = Some (k, v) -> subseq v (frames m).
Proof.
  induction m as [|e m IH]; [discriminate|].
  destruct m as [|e' m'].
  - simpl. intros H. inversion H. subst. simpl. rewrite app_nil_r.
    apply subseq_refl.
  - intros H. change (frames (e :: e' :: m'))
      with (snd e ++ frames (e' :: m')).
    eapply subseq_trans; [apply IH; exact H | apply subseq_app_l].
Qed.

Lemma Traverse_map_unfold (rule : RuleType D (S * list (Event D))) q m :
  Traverse_map is_DBL_MAX rule sort q m
  = match m with
    | [] => ret m
    | _ =>
        bind (ReferenceRecursion is_DBL_MAX rule sort q m)
          (fun referenceMap1 =>
             bind
               (if negb (Scale q =? INT_MIN)%Z
                then
                  match m_rbegin referenceMap1 with
                  | None => fail EmptyMapDeref
                  | Some (top, _) =>
                      if (Scale q >=? top)%Z
                      then
                        match Children q with
                        | [] => fail ChildOutOfRange
                        | child0 :: others =>
                            bind
                              (for_each_child
                                 (fun child referenceMap =>
                                    bind
                                      (PruneMap is_DBL_MAX rule q child
                                         referenceMap [])
                                      (fun maps =>
                                         bind
                                           (Traverse_map is_DBL_MAX rule
                                              sort child (snd maps))
                                           (fun _ => ret (fst maps))))
                                 others referenceMap1)
                              (fun referenceMap' =>
                                 bind
                                   (PruneMapForSelfChild is_DBL_MAX rule
                                      child0 referenceMap')
                                   (fun referenceMap'' =>
                                      Traverse_map is_DBL_MAX rule sort
                                        child0 referenceMap''))
                        end
                      else ret referenceMap1
                  end
                else ret referenceMap1)
               (fun referenceMap2 =>
                  if negb (Scale q =? INT_MIN)%Z
                  then ret referenceMap2
                  else
                    match m_begin referenceMap2 with
                    | None => fail EmptyMapDeref
                    | Some (first, pointVector) =>
                        if negb (first =? INT_MIN)%Z
                        then fail AssertionFailed
                        else
                          bind (base_cases is_DBL_MAX rule q pointVector)
                            (fun _ => ret referenceMap2)
                    end))
    end.
Proof. destruct q. reflexivity. Qed.

(** The loop over the non-self children of the query node. *)
Lemma non_self_once q a X0 : In a X0 ->
  forall cs,
    Forall (traverses_once is_DBL_MAX P sort) cs -> Forall wf_tree cs ->
    NoDup (X0 ++ flat_map leaf_points cs) ->
    forall m st m' st',
      frontier_ok m ->
      once_inv (X0 ++ flat_map leaf_points cs) a (frames m) (calls st) ->
      for_each_child
        (fun child referenceMap =>
           bind (PruneMap is_DBL_MAX (Recording P) q child referenceMap [])
             (fun maps =>
                bind (Traverse_map is_DBL_MAX (Recording P) sort child
                        (snd maps))
                  (fun _ => ret (fst maps))))
        cs m st = Ok (m', st') ->
      frontier_ok m'
      /\ exists new,
           calls st' = calls st ++ new
           /\ once_inv X0 a (frames m') (calls st')
           /\ (forall x y, In (x, y) new ->
                            In x (flat_map leaf_points cs)).
Proof.
  intros Ha. induction cs as [|c rest IH];
    intros Htrav Hwf Hnd m st m' st' Hok Hinv H; cbn [for_each_child] in H.
  - monad_inv H. split; [assumption|]. exists []. rewrite app_nil_r.
    split; [reflexivity|]. split; [|intros x y []].
    simpl in Hinv. rewrite app_nil_r in Hinv. assumption.
  - inversion Htrav as [|? ? Hc Hrest']. subst.
    inversion Hwf as [|? ? Hwfc Hwfrest]. subst.
    simpl in Hnd, Hinv.
    pose proof (NoDup_app_inv _ _ _ Hnd) as (HndX0 & Hndcs & Hdisj0).
    pose proof (NoDup_app_inv _ _ _ Hndcs) as (Hndc & Hndrest & Hdisjc).
    monad_inv H. monad_inv Hstep. monad_inv Hrest0.
    match goal with
    | HP : PruneMap _ _ _ _ _ _ _ = Ok (?maps, ?sP),
      HT : Traverse_map _ _ _ _ _ _ = Ok (?mT, ?sT) |- _ =>
        rename HP into HPM; rename HT into HTM;
        rename maps into mps; rename sP into stP; rename sT into stT;
        rename mT into mapT
    end.
    try monad_inv Hrest1.
    destruct mps as [mP cm]. cbn [fst snd] in *.
    destruct (PruneMap_once _ a q c (leaf_points c) m st mP cm stP Hok Hinv)
      as (HokP & HfP & Hokcm & newP & HcallsP & Hinvcm & HnewP);
      try assumption.
    { intros x Hx. apply in_or_app. right. apply in_or_app. auto. }
    { apply Point_in_leaf_points. assumption. }
    { intros Hin. apply (Hdisj0 a Ha). apply in_or_app. auto. }
    destruct (Hc Hwfc Hndc cm stP mapT stT Hokcm Hinvcm HTM)
      as (newT & HcallsT & HndT & HnewT).
    assert (Hinv' : once_inv (X0 ++ flat_map leaf_points rest) a (frames mP)
                      (calls stT)).
    { eapply once_inv_perm; [apply Permutation_sym; exact HfP|].
      rewrite HcallsT, HcallsP, <- app_assoc.
      apply (once_inv_after_child D _ _ a (frames m) (calls st)
               (newP ++ newT) (leaf_points c) Hinv).
      - rewrite app_assoc, <- HcallsP, <- HcallsT. assumption.
      - intros x y Hxy. apply in_app_or in Hxy. destruct Hxy as [Hxy|Hxy].
        + rewrite (HnewP x y Hxy). apply Point_in_leaf_points. assumption.
        + eapply HnewT. eassumption.
      - intros x Hx. apply in_app_or in Hx. apply in_or_app.
        destruct Hx; [left | right; apply in_or_app; right]; assumption.
      - intros x Hx Hxc. apply in_app_or in Hx. destruct Hx as [Hx|Hx].
        + apply (Hdisj0 x Hx). apply in_or_app. auto.
        + apply (Hdisjc x Hxc Hx). }
    destruct (IH Hrest' Hwfrest) with (m := mP) (st := stT) (m' := m')
                                      (st' := st')
      as (Hok' & new' & Hcalls' & Hinv'' & Hnew'); try assumption.
    { eapply subseq_NoDup; [|exact Hnd].
      apply subseq_app; [apply subseq_refl | apply subseq_app_l]. }
    split; [assumption|]. exists ((newP ++ newT) ++ new').
    split; [|split; [assumption|]].
    + rewrite Hcalls', HcallsT, HcallsP, <- !app_assoc. reflexivity.
    + intros x y Hxy. apply in_or_app.
      apply in_app_or in Hxy. destruct Hxy as [Hxy|Hxy]; [left | right; eauto].
      apply in_app_or in Hxy. destruct Hxy as [Hxy|Hxy].
      * rewrite (HnewP x y Hxy). apply Point_in_leaf_points. assumption.
      * eapply HnewT. eassumption.
Qed.

Lemma PMSC_once X cand m st m' st' :
  In (Point cand) X -> frontier_ok m ->
  once_inv X (Point cand) (frames m) (calls st) ->
  PruneMapForSelfChild is_DBL_MAX (Recording P) cand m st = Ok (m', st') ->
  exists new,
    frontier_ok m'
    /\ calls st' = calls st ++ new
    /\ once_inv X (Point cand) (frames m') (calls st')
    /\ (forall x y, In (x, y) new -> x = Point cand).
Proof.
  intros Ha Hok Hinv H. unfold PruneMapForSelfChild in H.
  destruct m as [|e m0] eqn:Hm.
  - monad_inv H. exists []. rewrite app_nil_r.
    split; [assumption|]. split; [reflexivity|].
    split; [assumption|]. intros x y [].
  - rewrite <- Hm in *. eapply PMSC_loop_once; eassumption.
Qed.

(** Every traversal of a query node evaluates new pairs only, all of them
    pairs of query points below the node. *)
Lemma Traverse_map_once : forall q, traverses_once is_DBL_MAX P sort q.
Proof.
  induction q as [p s cs IH] using CoverTree_ind'.
  intros Hwf Hnd m st m' st' Hok Hinv H.
  rewrite Traverse_map_unfold in H.
  assert (Ha : In p (leaf_points (Node p s cs))).
  { apply (Point_in_leaf_points (Node p s cs)). assumption. }
  cbn [Point Scale Children] in *.
  destruct m as [|e m0] eqn:Hm.
  { monad_inv H. exists []. rewrite app_nil_r.
    split; [reflexivity|]. split; [|intros x y []].
    destruct Hinv as (_ & _ & HC & _). assumption. }
  rewrite <- Hm in *. clear Hm e m0.
  monad_inv H. unfold ReferenceRecursion in Hstep.
  match goal with
  | HR : ReferenceRecursion_while _ _ _ _ _ _ _ = Ok (?m1, ?s1) |- _ =>
      rename HR into HRR; rename m1 into mR; rename s1 into stR
  end.
  destruct (RR_while_once _ (Node p s cs) Ha _ m st mR stR Hok Hinv HRR)
    as (newR & HokR & HcallsR & HinvR & HnewR).
  cbn [Point] in *.
  assert (HnewR' : forall x y, In (x, y) newR ->
                     In x (leaf_points (Node p s cs))).
  { intros x y Hxy. rewrite (HnewR x y Hxy). assumption. }
  monad_inv Hrest.
  destruct (s =? INT_MIN)%Z; cbn [negb] in *.
  - (* a leaf of the query tree: the base cases *)
    monad_inv Hstep.
    destruct (m_begin mR) as [[first pv]|] eqn:Hbegin; [|discriminate].
    destruct (negb (first =? INT_MIN)%Z); [discriminate|].
    monad_inv Hrest0. monad_inv Hrest.
    match goal with
    | HB : base_cases _ _ _ _ ?s0 = Ok (_, ?s1) |- _ =>
        destruct (base_cases_run D S is_DBL_MAX P _ _ _ _ _ HB)
          as (called & Hcl & Hmis & Hcalls)
    end.
    cbn [Point] in *.
    exists (newR ++ map (pair_with p) called).
    split; [rewrite Hcalls, HcallsR, app_assoc; reflexivity|].
    split.
    + rewrite Hcalls.
      apply (fresh_calls D _ p p (frames mR) called (calls stR) HinvR Ha).
      * eapply subseq_trans; [exact Hcl|].
        eapply m_begin_frames. eassumption.
      * intros _. assumption.
    + intros x y Hxy. apply in_app_or in Hxy. destruct Hxy as [Hxy|Hxy].
      * eauto.
      * apply in_map_iff in Hxy. destruct Hxy as (f & E & _).
        unfold pair_with in E. inversion E. subst. assumption.
  - (* an inner node: the descent into the children *)
    monad_inv Hrest0.
    destruct (m_rbegin mR) as [[top v]|]; [|discriminate].
    destruct (s >=? top)%Z.
    + destruct cs as [|c0 others]; [discriminate|].
      pose proof (wf_tree_self _ _ _ _ Hwf) as Hself.
      pose proof (wf_tree_children _ _ _ Hwf) as Hch.
      assert (Hwfc : Forall wf_tree (c0 :: others)).
      { eapply Forall_impl; [|exact Hch]. simpl. tauto. }
      inversion Hwfc as [|? ? Hwf0 Hwfo]. subst.
      inversion IH as [|? ? IH0 IHo]. subst.
      rewrite leaf_points_node in *. cbn [flat_map] in *.
      pose proof (NoDup_app_inv _ _ _ Hnd) as (Hnd0 & Hndo & Hdisj).
      assert (Ha0 : In (Point c0) (leaf_points c0)).
      { apply Point_in_leaf_points. assumption. }
      monad_inv Hstep. monad_inv Hrest.
      match goal with
      | HL : for_each_child _ _ _ _ = Ok (?mL, ?sL),
        HP : PruneMapForSelfChild _ _ _ _ _ = Ok (?mS, ?sS),
        HT : Traverse_map _ _ _ _ _ _ = Ok (?mT, ?sT) |- _ =>
          rename HL into HLoop; rename HP into HPMSC; rename HT into HTrav;
          rename mT into mapT; rename sT into stT;
          rename mL into mapL; rename sL into stL;
          rename mS into mapS; rename sS into stS
      end.
      destruct (non_self_once (Node (Point c0) s (c0 :: others)) (Point c0)
                  (leaf_points c0) Ha0 others IHo Hwfo Hnd mR stR mapL stL
                  HokR HinvR HLoop)
        as (HokL & newL & HcallsL & HinvL & HnewL).
      destruct (PMSC_once _ c0 mapL stL mapS stS Ha0 HokL HinvL HPMSC)
        as (newS & HokS & HcallsS & HinvS & HnewS).
      destruct (IH0 Hwf0 Hnd0 mapS stS mapT stT HokS HinvS HTrav)
        as (newT & HcallsT & HndT & HnewT).
      exists (newR ++ newL ++ newS ++ newT).
      split; [|split; [assumption|]].
      * rewrite HcallsT, HcallsS, HcallsL, HcallsR, <- !app_assoc.
        reflexivity.
      * intros x y Hxy. apply in_app_or in Hxy.
        destruct Hxy as [Hxy|Hxy]; [eauto|].
        apply in_or_app. apply in_app_or in Hxy.
        destruct Hxy as [Hxy|Hxy]; [right; eauto|].
        left. apply in_app_or in Hxy. destruct Hxy as [Hxy|Hxy].
        -- rewrite (HnewS x y Hxy). assumption.
        -- eauto.
    + monad_inv Hstep. exists newR.
      split; [assumption|]. split; [|assumption].
      destruct HinvR as (_ & _ & HC & _). assumption.
Qed.

End OnceLoops.

Section OnceTop.

Variables D S : Type.
Variable is_DBL_MAX : D -> bool.
Variable zero : D.
Variable P : RuleType D S.
Variable sort : bucket D -> bucket D.
Hypothesis sort_perm : forall v, Permutation (sort v) v.

Let rstate := TState (S * list (Event D)).

Lemma count_BaseCase_In a b : forall log : list (Event D),
  0 < count_BaseCase a b log -> In (a, b) (bc_pairs log).
Proof.
  unfold count_BaseCase.
  induction log as [|e log IH]; cbn [filter bc_pairs length]; [lia|].
  destruct e as [q r'| |]; cbn [is_BaseCase_of]; try exact IH.
  destruct (Nat.eqb_spec a q) as [->|Hq]; cbn [andb].
  - destruct (Nat.eqb_spec b r') as [->|Hr].
    + intros _. left. reflexivity.
    + intros H. right. apply IH. assumption.
  - intros H. right. apply IH. assumption.
Qed.

Lemma NoDup_count_BaseCase a b : forall log : list (Event D),
  NoDup (bc_pairs log) -> count_BaseCase a b log <= 1.
Proof.
  induction log as [|e log IH]; intros Hnd.
  - unfold count_BaseCase. simpl. lia.
  - destruct e as [q r'| |]; cbn [bc_pairs] in Hnd;
      try (specialize (IH Hnd); unfold count_BaseCase in *;
           cbn [filter is_BaseCase_of]; exact IH).
    inversion Hnd as [|? ? Hnot Hnd']. subst.
    specialize (IH Hnd').
    unfold count_BaseCase in *. cbn [filter is_BaseCase_of].
    destruct (Nat.eqb_spec a q) as [->|Hq]; cbn [andb]; [|exact IH].
    destruct (Nat.eqb_spec b r') as [->|Hr]; [|exact IH].
    cbn [length].
    destruct (length (filter (is_BaseCase_of q r') log)) eqn:E; [lia|].
    exfalso. apply Hnot. apply count_BaseCase_In.
    unfold count_BaseCase. rewrite E. lia.
Qed.

(** The frontier [Traverse] starts from: the root frame, whose cache holds
    the one pair evaluated so far. *)
Lemma root_once_inv q r (bc : D) :
  wf_tree r -> NoDup (leaf_points r) ->
  once_inv (leaf_points q) (Point q)
    (frames (m_push (Scale r)
               (mkEntry r zero (Point r) (Point q) bc) []))
    [(Point q, Point r)].
Proof.
  intros Hwr Hnr.
  set (root := mkEntry r zero (Point r) (Point q) bc).
  change (frames (m_push (Scale r) root [])) with [root].
  split; [unfold frontier_points; cbn; rewrite app_nil_r; assumption|].
  split; [repeat constructor; assumption|].
  split; [repeat constructor; intros []|].
  intros x y f _ [E|[]] [<-|[]] _. inversion E. subst.
  cbn. auto.
Qed.

Lemma root_frontier_ok r (f : MapEntry D) :
  referenceNode f = r -> frontier_ok (m_push (Scale r) f []).
Proof.
  intros <-. apply (frontier_ok_push D f []). split; [exact I|].
  intros k v g [].
Qed.

Lemma Traverse_once q r (st : rstate) m st' :
  wf_tree q -> NoDup (leaf_points q) ->
  wf_tree r -> NoDup (leaf_points r) ->
  calls st = [] ->
  Traverse is_DBL_MAX zero (Recording P) sort q r st = Ok (m, st') ->
  NoDup (calls st').
Proof.
  intros Hwq Hnq Hwr Hnr Hfresh H. unfold Traverse in H. monad_inv H.
  match goal with
  | HB : call_BaseCase _ _ _ _ = Ok (?d, ?s1) |- _ =>
      pose proof (call_BaseCase_calls D S P _ _ _ _ _ HB) as Hcalls;
      rename d into bc; rename s1 into st1
  end.
  rewrite Hfresh in Hcalls. cbn [app] in Hcalls.
  pose proof (root_once_inv q r bc Hwr Hnr) as Hinv.
  rewrite <- Hcalls in Hinv.
  destruct (Traverse_map_once D S is_DBL_MAX P sort sort_perm q Hwq Hnq
              _ _ _ _
              (root_frontier_ok r (mkEntry r zero (Point r) (Point q) bc)
                 eq_refl)
              Hinv Hrest) as (new & _ & Hnd & _).
  assumption.
Qed.

End OnceTop.

(** ** The fuel of the loops is enough *)

Section FuelBasics.

Variables D S : Type.
Variable is_DBL_MAX : D -> bool.
Variable rule : RuleType D S.

Implicit Types (st : TState S) (m : scale_map D).

Lemma bind_fueled (A B : Type) (c : M S A) (f : A -> M S B) st :
  c st <> OutOfFuel ->
  (forall a st', c st = Ok (a, st') -> f a st' <> OutOfFuel) ->
  bind c f st <> OutOfFuel.
Proof.
  unfold bind. intros Hc Hf. destruct (c st) as [[a st']| |].
  - apply Hf. reflexivity.
  - discriminate.
  - exfalso. apply Hc. reflexivity.
Qed.

Lemma call_BaseCase_fueled q r st : call_BaseCase rule q r st <> OutOfFuel.
Proof.
  unfold call_BaseCase. destruct (BaseCase rule q r (rule_state st)).
  discriminate.
Qed.

Lemma call_Score_fueled qn rn bc st : call_Score rule qn rn bc st <> OutOfFuel.
Proof.
  unfold call_Score. destruct (Score rule qn rn bc (rule_state st)).
  discriminate.
Qed.

Lemma call_Rescore_fueled qn rn old st :
  call_Rescore rule qn rn old st <> OutOfFuel.
Proof.
  unfold call_Rescore. destruct (Rescore rule qn rn old (rule_state st)).
  discriminate.
Qed.

Lemma add_prunes_fueled n st : add_prunes n st <> OutOfFuel.
Proof. unfold add_prunes. discriminate. Qed.

Lemma ret_fueled (A : Type) (a : A) st : ret a st <> OutOfFuel.
Proof. unfold ret. discriminate. Qed.

Lemma fail_fueled (A : Type) e st : @fail S A e st <> OutOfFuel.
Proof. unfold fail. discriminate. Qed.

End FuelBasics.

Create HintDb fuel.

#[local] Hint Resolve call_BaseCase_fueled call_Score_fueled
  call_Rescore_fueled add_prunes_fueled ret_fueled fail_fueled : fuel.

Ltac fueled :=
  repeat first
    [ apply bind_fueled; [|intros ? ? ?]
    | apply call_BaseCase_fueled
    | apply call_Score_fueled
    | apply call_Rescore_fueled
    | apply add_prunes_fueled
    | apply ret_fueled
    | apply fail_fueled
    | match goal with
      | |- (if ?c then _ else _) _ <> OutOfFuel => destruct c
      | |- (match ?x with Some _ => _ | None => _ end) _ <> OutOfFuel =>
          destruct x
      end
    | solve [eauto with fuel] ].

Section FuelFrames.

Variables D S : Type.
Variable is_DBL_MAX : D -> bool.
Variable rule : RuleType D S.

Implicit Types (st : TState S) (m : scale_map D).

Lemma base_cases_fueled q pv : forall st,
  base_cases is_DBL_MAX rule q pv st <> OutOfFuel.
Proof.
  induction pv as [|f rest IH]; intros st; cbn [base_cases]; fueled.
Qed.

Lemma PruneMapForSelfChild_frames_fueled cand vec : forall acc st,
  PruneMapForSelfChild_frames is_DBL_MAX rule cand vec acc st <> OutOfFuel.
Proof.
  induction vec as [|f rest IH]; intros acc st;
    cbn [PruneMapForSelfChild_frames]; fueled.
Qed.

Lemma ReferenceRecursion_children_fueled q cs : forall m st,
  ReferenceRecursion_children is_DBL_MAX rule q cs m st <> OutOfFuel.
Proof.
  induction cs as [|c rest IH]; intros m st;
    cbn [ReferenceRecursion_children]; fueled.
Qed.

Lemma ReferenceRecursion_frame_fueled q f m st :
  ReferenceRecursion_frame is_DBL_MAX rule q f m st <> OutOfFuel.
Proof.
  unfold ReferenceRecursion_frame, ReferenceRecursion_expand.
  fueled. destruct (Children (referenceNode f)); fueled.
  apply ReferenceRecursion_children_fueled.
Qed.

Lemma PruneMap_frames_fueled cand sv : forall nv st,
  PruneMap_frames is_DBL_MAX rule cand sv nv st <> OutOfFuel.
Proof.
  induction sv as [|f rest IH]; intros nv st; cbn [PruneMap_frames]; fueled.
Qed.

Lemma PruneMap_scales_fueled cand buckets : forall cm st,
  PruneMap_scales is_DBL_MAX rule cand buckets cm st <> OutOfFuel.
Proof.
  induction buckets as [|[k v] rest IH]; intros cm st;
    cbn [PruneMap_scales]; fueled.
  apply PruneMap_frames_fueled.
Qed.

Lemma PruneMap_fueled q cand m cm st :
  PruneMap is_DBL_MAX rule q cand m cm st <> OutOfFuel.
Proof.
  unfold PruneMap. destruct m; fueled. apply PruneMap_scales_fueled.
Qed.

Lemma rit_deref_fueled cur m st :
  lift (rit_deref cur m) st <> @OutOfFuel (_ * TState S).
Proof.
  unfold lift, rit_deref. destruct (negb (it_valid cur m)); [discriminate|].
  destruct (it_prev cur m); discriminate.
Qed.

Lemma rit_incr_fueled cur m st :
  lift (rit_incr cur m) st <> @OutOfFuel (_ * TState S).
Proof.
  unfold lift, rit_incr. destruct (negb (it_valid cur m)); [discriminate|].
  destruct (iterator_eqb cur (begin_it m)); [discriminate|].
  destruct (it_prev cur m) as [[k v]|]; discriminate.
Qed.

End FuelFrames.

(** ** Weights: the work left in a reference map *)

Section Weights.

Variable D : Type.

Implicit Types (m : scale_map D) (v adm : bucket D).

Lemma tree_weight_pos t : 0 < tree_weight t.
Proof. destruct t. simpl. lia. Qed.

Lemma bucket_weight_app v1 v2 :
  bucket_weight (v1 ++ v2) = bucket_weight v1 + bucket_weight v2.
Proof.
  unfold bucket_weight. induction v1 as [|f v1 IH]; simpl; [reflexivity|].
  rewrite IH. lia.
Qed.

Lemma bucket_weight_perm v v' :
  Permutation v v' -> bucket_weight v = bucket_weight v'.
Proof.
  unfold bucket_weight. induction 1; simpl; lia.
Qed.

Lemma length_le_bucket_weight v : length v <= bucket_weight v.
Proof.
  unfold bucket_weight. induction v as [|f v IH]; simpl; [lia|].
  pose proof (tree_weight_pos (referenceNode f)). lia.
Qed.

Lemma bucket_weight_skipn i v f :
  nth_error v i = Some f ->
  bucket_weight (skipn i v)
  = tree_weight (referenceNode f) + bucket_weight (skipn (Datatypes.S i) v).
Proof.
  revert v. induction i as [|i IH]; intros [|g v] H; simpl in H;
    try discriminate.
  - inversion H. subst. reflexivity.
  - apply IH in H. exact H.
Qed.

Lemma map_weight_cons k v m :
  map_weight ((k, v) :: m) = Datatypes.S (bucket_weight v) + map_weight m.
Proof. reflexivity. Qed.

Lemma map_weight_set k v m :
  map_ok m ->
  map_weight (m_set k v m) + bucket_weight (m_bucket k m)
  <= map_weight m + Datatypes.S (bucket_weight v).
Proof.
  unfold m_bucket.
  induction m as [|[k' v'] m' IH]; cbn [m_set m_find].
  - intros _. rewrite map_weight_cons. simpl. lia.
  - intros [Hlt Hok].
    destruct (Z.ltb_spec k' k) as [Hk|Hk].
    + destruct (Z.eqb_spec k k') as [->|_]; [lia|].
      assert (Hnone : m_find k m' = None).
      { apply m_find_keys. intros Hin. rewrite Forall_forall in Hlt.
        apply Hlt in Hin. lia. }
      rewrite Hnone. rewrite !map_weight_cons.
      change (bucket_weight []) with 0. lia.
    + destruct (Z.eqb_spec k k') as [->|Hne].
      * rewrite !map_weight_cons. lia.
      * specialize (IH Hok). rewrite !map_weight_cons. lia.
Qed.

Lemma map_weight_push k g m :
  map_ok m ->
  map_weight (m_push k g m)
  <= map_weight m + Datatypes.S (tree_weight (referenceNode g)).
Proof.
  intros Hok. unfold m_push.
  pose proof (map_weight_set k (m_bucket k m ++ [g]) m Hok) as H.
  rewrite bucket_weight_app in H. simpl in H. lia.
Qed.

Lemma map_weight_push_all adm : forall m,
  map_ok m ->
  map_weight (push_all adm m) <= map_weight m + length adm + bucket_weight adm.
Proof.
  unfold push_all.
  induction adm as [|g adm IH]; intros m Hok; cbn [fold_left].
  - simpl. lia.
  - specialize (IH (m_push (Scale (referenceNode g)) g m)
                  (map_ok_push (Scale (referenceNode g)) g m Hok)).
    pose proof (map_weight_push (Scale (referenceNode g)) g m Hok).
    simpl. lia.
Qed.

Lemma children_weight l cs :
  subseq l cs ->
  forall adm, nodes adm = l ->
    length adm + bucket_weight adm
    <= fold_right (fun c n => Datatypes.S (tree_weight c) + n) 0 cs.
Proof.
  induction 1 as [|x l1 l2 Hs IH|x l1 l2 Hs IH]; intros adm E.
  - destruct adm; [simpl; lia | discriminate].
  - specialize (IH adm E). cbn [fold_right]. lia.
  - destruct adm as [|g adm]; [discriminate|].
    simpl in E. inversion E. subst.
    specialize (IH adm eq_refl). cbn [fold_right length].
    change (bucket_weight (g :: adm))
      with (tree_weight (referenceNode g) + bucket_weight adm). lia.
Qed.

End Weights.

(** ** Iterators: the buckets below a position *)

Section Below.

Variable D : Type.

Implicit Types (m : scale_map D) (v : bucket D).

Lemma below_erase cur k m : below cur (m_erase k m) <= below cur m.
Proof.
  unfold below. induction m as [|[k' v'] m' IH]; cbn [m_erase]; [lia|].
  destruct (k =? k')%Z.
  - change (keys ((k', v') :: m')) with (k' :: keys m'). cbn [filter].
    destruct (under cur k'); cbn [length]; lia.
  - change (keys ((k', v') :: m_erase k m'))
      with (k' :: keys (m_erase k m')).
    change (keys ((k', v') :: m')) with (k' :: keys m'). cbn [filter].
    destruct (under cur k'); cbn [length]; lia.
Qed.

Lemma keys_set_present k v w m :
  map_ok m -> m_find k m = Some w -> keys (m_set k v m) = keys m.
Proof.
  induction m as [|[k' v'] m' IH]; cbn [m_set m_find]; [discriminate|].
  intros [Hlt Hok] H.
  destruct (Z.eqb_spec k k') as [->|Hne].
  - destruct (Z.ltb_spec k' k'); [lia|]. reflexivity.
  - destruct (Z.ltb_spec k' k) as [Hk|Hk].
    + exfalso. apply m_find_Some_keys in H. rewrite Forall_forall in Hlt.
      apply Hlt in H. lia.
    + cbn [keys map fst] in *. f_equal. apply IH; assumption.
Qed.

Lemma filter_under_le k c l :
  (k <= c)%Z ->
  length (filter (under (At k)) l) <= length (filter (under (At c)) l).
Proof.
  intros Hkc. induction l as [|j l IH]; cbn [filter under]; [lia|].
  destruct (Z.ltb_spec j k); destruct (Z.ltb_spec j c); simpl; lia.
Qed.

Lemma filter_length_le (A : Type) (p : A -> bool) l :
  length (filter p l) <= length l.
Proof. induction l as [|x l IH]; simpl; [lia|]. destruct (p x); simpl; lia. Qed.

Lemma filter_under_End (l : list Z) : filter (under End) l = l.
Proof. induction l as [|j l IH]; simpl; [reflexivity|]. rewrite IH. reflexivity. Qed.

Lemma first_below_lt c m k v : first_below c m = Some (k, v) -> (k < c)%Z.
Proof.
  induction m as [|[k' v'] m' IH]; cbn [first_below]; [discriminate|].
  destruct (Z.ltb_spec k' c) as [Hk|Hk].
  - intros H. inversion H. subst. assumption.
  - exact IH.
Qed.

Lemma it_prev_below cur m k v :
  it_prev cur m = Some (k, v) -> below (At k) m < below cur m.
Proof.
  unfold below. destruct cur as [|c]; cbn [it_prev].
  - destruct m as [|[k' v'] m']; cbn [m_rbegin hd_error]; [discriminate|].
    intros H. inversion H. subst.
    change (keys ((k, v) :: m')) with (k :: keys m').
    cbn [filter]. change (under End k) with true.
    change (under (At k) k) with (k <? k)%Z.
    destruct (Z.ltb_spec k k); [lia|].
    pose proof (filter_length_le Z (under (At k)) (keys m')).
    rewrite filter_under_End. cbn [length]. lia.
  - induction m as [|[k' v'] m' IH]; cbn [first_below]; [discriminate|].
    change (keys ((k', v') :: m')) with (k' :: keys m').
    cbn [filter]. change (under (At c) k') with (k' <? c)%Z.
    change (under (At k) k') with (k' <? k)%Z.
    destruct (Z.ltb_spec k' c) as [Hk|Hk].
    + intros H. inversion H. subst.
      destruct (Z.ltb_spec k k); [lia|].
      pose proof (filter_under_le k c (keys m')) as Hle.
      cbn [length]. lia.
    + intros H. specialize (IH H).
      pose proof (first_below_lt c m' k v H).
      destruct (Z.ltb_spec k' k); [lia|]. exact IH.
Qed.

End Below.

(** ** The loops of a traversal never run out of fuel *)

Section FuelLoops.

Variables D S : Type.
Variable is_DBL_MAX : D -> bool.
Variable P : RuleType D S.
Variable sort : bucket D -> bucket D.
Hypothesis sort_perm : forall v, Permutation (sort v) v.

Let rstate : Type := TState (S * list (Event D)).

Implicit Types (m low : scale_map D) (vec fs : bucket D) (st : rstate)
  (q : CoverTree) (X : list nat).

Lemma RR_frame_weight q (f : MapEntry D) m st m' st' :
  map_ok m -> wf_tree (referenceNode f) ->
  ReferenceRecursion_frame is_DBL_MAX (Recording P) q f m st = Ok (m', st') ->
  map_weight m' < map_weight m + tree_weight (referenceNode f).
Proof.
  intros Hok Hwf H.
  destruct (RR_frame_run D S is_DBL_MAX P q f m st m' st' Hwf H)
    as (adm & pre & cs & Hm & _ & _ & _ & _ & Hshape).
  subst m'. pose proof (map_weight_push_all D adm m Hok) as Hw.
  destruct Hshape as [[-> ->] | (child0 & Hch & Hsub)].
  - pose proof (tree_weight_pos (referenceNode f)). simpl in *. lia.
  - pose proof (children_weight D _ _ Hsub adm eq_refl) as Hc.
    destruct (referenceNode f) as [p s kids]. cbn [Children] in Hch.
    subst kids. cbn [tree_weight]. lia.
Qed.

(** One iteration of the [for] loop of [ReferenceRecursion]. *)
Lemma RR_for_step X q top vec i (f : MapEntry D) low st m1 st1 :
  In (Point q) X ->
  frontier_ok ((top, vec) :: low) ->
  once_inv X (Point q) (skipn i vec ++ frames low) (calls st) ->
  nth_error vec i = Some f ->
  ReferenceRecursion_frame is_DBL_MAX (Recording P) q f ((top, vec) :: low) st
  = Ok (m1, st1) ->
  exists low1,
    m1 = (top, vec) :: low1
    /\ frontier_ok ((top, vec) :: low1)
    /\ once_inv X (Point q) (skipn (Datatypes.S i) vec ++ frames low1)
         (calls st1)
    /\ map_weight low1 < map_weight low + tree_weight (referenceNode f).
Proof.
  intros Ha Hok Hinv Hnth Hstep.
  rewrite (skipn_nth_error _ _ _ _ Hnth) in Hinv. simpl in Hinv.
  assert (Hwf : wf_tree (referenceNode f)).
  { destruct Hinv as (_ & Hwf & _). inversion Hwf. assumption. }
  pose proof (RR_frame_weight q f _ st m1 st1 (proj1 Hok) Hwf Hstep) as Hw.
  destruct (RR_frame_once D S is_DBL_MAX P X q f _ _ st m1 st1 Ha Hinv Hstep)
    as (adm & new & Hm & Hsc & Hcalls & Hinv' & Hnew).
  assert (Hftop : Scale (referenceNode f) = top).
  { destruct Hok as [_ Hsc']. apply (Hsc' top vec f); [left; reflexivity|].
    eapply nth_error_In. eassumption. }
  rewrite Hftop in Hsc.
  rewrite (push_all_below D top vec adm low Hsc) in Hm. subst m1.
  exists (push_all adm low). split; [reflexivity|].
  split; [|split].
  - rewrite <- (push_all_below D top vec adm low Hsc).
    apply frontier_ok_push_all. assumption.
  - eapply once_inv_perm; [|exact Hinv'].
    eapply Permutation_trans; [apply Permutation_app_comm|].
    rewrite <- app_assoc. apply Permutation_app_head.
    apply Permutation_sym. apply frames_push_all.
    destruct Hok as [Hmok _]. simpl in Hmok. tauto.
  - rewrite !map_weight_cons in Hw. lia.
Qed.

Lemma m_bucket_head top vec low : m_bucket top ((top, vec) :: low) = vec.
Proof. unfold m_bucket. simpl. rewrite Z.eqb_refl. reflexivity. Qed.

Lemma RR_for_fueled X q top vec : In (Point q) X ->
  forall fuel i low st,
    frontier_ok ((top, vec) :: low) ->
    once_inv X (Point q) (skipn i vec ++ frames low) (calls st) ->
    length (skipn i vec) < fuel ->
    ReferenceRecursion_for is_DBL_MAX (Recording P) fuel q top i
      ((top, vec) :: low) st <> OutOfFuel.
Proof.
  intros Ha. induction fuel as [|fuel IH]; intros i low st Hok Hinv Hlen;
    [lia|].
  cbn [ReferenceRecursion_for]. rewrite m_bucket_head.
  destruct (nth_error vec i) as [f|] eqn:Hnth; [|apply ret_fueled].
  apply bind_fueled; [apply ReferenceRecursion_frame_fueled|].
  intros m1 st1 Hstep.
  destruct (RR_for_step X q top vec i f low st m1 st1 Ha Hok Hinv Hnth Hstep)
    as (low1 & -> & Hok1 & Hinv1 & _).
  apply IH; try assumption.
  rewrite (skipn_nth_error _ _ _ _ Hnth) in Hlen. cbn [length] in Hlen. lia.
Qed.

Lemma RR_for_weight X q top vec : In (Point q) X ->
  forall fuel i low st m' st',
    frontier_ok ((top, vec) :: low) ->
    once_inv X (Point q) (skipn i vec ++ frames low) (calls st) ->
    ReferenceRecursion_for is_DBL_MAX (Recording P) fuel q top i
      ((top, vec) :: low) st = Ok (m', st') ->
    map_weight m' + length (skipn i vec)
    <= map_weight ((top, vec) :: low) + bucket_weight (skipn i vec).
Proof.
  intros Ha. induction fuel as [|fuel IH]; intros i low st m' st' Hok Hinv H;
    cbn [ReferenceRecursion_for] in H; [discriminate|].
  rewrite m_bucket_head in H.
  destruct (nth_error vec i) as [f|] eqn:Hnth.
  - monad_inv H.
    match goal with
    | HF : ReferenceRecursion_frame _ _ _ _ _ _ = Ok (?m1, ?s1) |- _ =>
        destruct (RR_for_step X q top vec i f low st m1 s1 Ha Hok Hinv Hnth HF)
          as (low1 & -> & Hok1 & Hinv1 & Hw)
    end.
    match goal with
    | HR : ReferenceRecursion_for _ _ _ _ _ _ _ _ = Ok _ |- _ =>
        pose proof (IH _ _ _ _ _ Hok1 Hinv1 HR) as Hrec
    end.
    rewrite (bucket_weight_skipn D i vec f Hnth).
    rewrite (skipn_nth_error _ _ _ _ Hnth). cbn [length].
    rewrite !map_weight_cons in *. lia.
  - monad_inv H. rewrite (skipn_nth_error_None _ _ _ Hnth). simpl. lia.
Qed.

Lemma RR_while_fueled X q : In (Point q) X ->
  forall fuel m st,
    frontier_ok m ->
    once_inv X (Point q) (frames m) (calls st) ->
    map_weight m < fuel ->
    ReferenceRecursion_while is_DBL_MAX (Recording P) sort fuel q m st
    <> OutOfFuel.
Proof.
  intros Ha. induction fuel as [|fuel IH]; intros m st Hok Hinv Hlt; [lia|].
  cbn [ReferenceRecursion_while].
  destruct m as [|[top vec] low]; [apply fail_fueled|].
  unfold m_rbegin. cbn [hd_error].
  destruct (top >? Scale q)%Z; [|apply ret_fueled].
  destruct ((Scale q =? INT_MIN)%Z && (top =? INT_MIN)%Z);
    [apply ret_fueled|].
  rewrite m_set_head.
  assert (Hok1 : frontier_ok ((top, sort vec) :: low)).
  { eapply frontier_ok_perm_head; [apply sort_perm | assumption]. }
  assert (Hinv1 : once_inv X (Point q)
                    (skipn 0 (sort vec) ++ frames low) (calls st)).
  { simpl. eapply once_inv_perm; [|exact Hinv]. simpl.
    apply Permutation_app_tail. apply Permutation_sym. apply sort_perm. }
  pose proof (length_le_bucket_weight D vec) as Hlv.
  pose proof (Permutation_length (sort_perm vec)) as Hls.
  apply bind_fueled.
  - apply (RR_for_fueled X q top (sort vec) Ha); try assumption.
    simpl. lia.
  - intros m2 st2 Hfor.
    pose proof (RR_for_weight X q top (sort vec) Ha _ 0 low st m2 st2
                  Hok1 Hinv1 Hfor) as Hw.
    destruct (RR_for_once D S is_DBL_MAX P X q top (sort vec) Ha
                _ 0 low st m2 st2 Hok1 Hinv1 Hfor)
      as (low' & new & -> & Hok' & _ & Hinv' & _).
    cbn [hd_error]. rewrite m_erase_head.
    apply IH; [eapply frontier_ok_tail; eassumption | assumption |].
    cbn [skipn] in Hw. rewrite !map_weight_cons in *.
    rewrite (bucket_weight_perm D _ _ (sort_perm vec)) in Hw. lia.
Qed.

Lemma PMSC_loop_fueled cand : forall fuel cur m st,
  map_ok m -> below cur m < fuel ->
  PruneMapForSelfChild_loop is_DBL_MAX (Recording P) fuel cand cur m st
  <> OutOfFuel.
Proof.
  induction fuel as [|fuel IH]; intros cur m st Hok Hlt; [lia|].
  cbn [PruneMapForSelfChild_loop].
  destruct (iterator_eqb cur (begin_it m)); [apply ret_fueled|].
  apply bind_fueled; [apply rit_deref_fueled|].
  intros [thisScale vec] st1 Hd. apply lift_Ok in Hd. destruct Hd as [Hd ->].
  destruct (thisScale =? INT_MIN)%Z; [apply ret_fueled|].
  apply bind_fueled; [apply PruneMapForSelfChild_frames_fueled|].
  intros newvec st2 _.
  assert (Hfind : m_find thisScale m = Some vec).
  { apply In_m_find; [assumption|]. eapply rit_deref_In. eassumption. }
  pose proof (keys_set_present D thisScale newvec vec m Hok Hfind) as Hkeys.
  assert (Hsame : forall c, below c (m_set thisScale newvec m)
                            = below c m).
  { intros c. unfold below. rewrite Hkeys. reflexivity. }
  assert (Hstep : forall m2 cur',
             (forall c, below c m2 <= below c m) -> map_ok m2 ->
             rit_incr cur m2 = Ok cur' ->
             PruneMapForSelfChild_loop is_DBL_MAX (Recording P) fuel cand
               cur' m2 st2 <> OutOfFuel).
  { intros m2 cur' Hle Hok2 Hincr. apply IH; [assumption|].
    unfold rit_incr in Hincr.
    destruct (negb (it_valid cur m2)); [discriminate|].
    destruct (iterator_eqb cur (begin_it m2)); [discriminate|].
    destruct (it_prev cur m2) as [[k v]|] eqn:Hprev; [|discriminate].
    inversion Hincr. subst cur'.
    pose proof (it_prev_below D cur m2 k v Hprev).
    pose proof (Hle cur). lia. }
  destruct newvec as [|g newvec].
  - destruct (m_erase thisScale (m_set thisScale [] m)) as [|e m2] eqn:Hm2;
      [apply ret_fueled|].
    rewrite <- Hm2. apply bind_fueled; [apply rit_incr_fueled|].
    intros cur' st3 Hi. apply lift_Ok in Hi. destruct Hi as [Hi ->].
    apply Hstep; [| |assumption].
    + intros c. rewrite <- (Hsame c). apply below_erase.
    + apply map_ok_erase. apply map_ok_set. assumption.
  - apply bind_fueled; [apply rit_incr_fueled|].
    intros cur' st3 Hi. apply lift_Ok in Hi. destruct Hi as [Hi ->].
    apply Hstep; [| |assumption].
    + intros c. rewrite Hsame. lia.
    + apply map_ok_set. assumption.
Qed.

Lemma PMSC_fueled cand m st :
  map_ok m ->
  PruneMapForSelfChild is_DBL_MAX (Recording P) cand m st <> OutOfFuel.
Proof.
  intros Hok. unfold PruneMapForSelfChild.
  destruct m as [|e m'] eqn:Hm; [apply ret_fueled|]. rewrite <- Hm.
  apply PMSC_loop_fueled; [subst; assumption|].
  unfold below. rewrite filter_under_End. unfold keys.
  rewrite length_map. lia.
Qed.

End FuelLoops.

Section FuelTraverse.

Variables D S : Type.
Variable is_DBL_MAX : D -> bool.
Variable zero : D.
Variable P : RuleType D S.
Variable sort : bucket D -> bucket D.
Hypothesis sort_perm : forall v, Permutation (sort v) v.

Let rstate : Type := TState (S * list (Event D)).

Implicit Types (m : scale_map D) (st : rstate) (q c : CoverTree).

(** The traversal of the query node [c] does not stop for lack of fuel. *)
Let fueled_at (c : CoverTree) : Prop :=
  wf_tree c -> NoDup (leaf_points c) ->
  forall m st,
    frontier_ok m ->
    once_inv (leaf_points c) (Point c) (frames m) (calls st) ->
    Traverse_map is_DBL_MAX (Recording P) sort c m st <> OutOfFuel.

Let body (q : CoverTree) :=
  fun (child : CoverTree) (referenceMap : scale_map D) =>
    bind (PruneMap is_DBL_MAX (Recording P) q child referenceMap [])
      (fun maps =>
         bind (Traverse_map is_DBL_MAX (Recording P) sort child (snd maps))
           (fun _ => ret (fst maps))).

Lemma for_each_child_one q c m st m1 st1 :
  body q c m st = Ok (m1, st1) ->
  for_each_child (body q) [c] m st = Ok (m1, st1).
Proof.
  intros H. cbn [for_each_child]. unfold bind at 1. rewrite H. reflexivity.
Qed.

Lemma non_self_fueled q a X0 : In a X0 ->
  forall cs,
    Forall fueled_at cs -> Forall wf_tree cs ->
    NoDup (X0 ++ flat_map leaf_points cs) ->
    forall m st,
      frontier_ok m ->
      once_inv (X0 ++ flat_map leaf_points cs) a (frames m) (calls st) ->
      for_each_child (body q) cs m st <> OutOfFuel.
Proof.
  intros Ha. induction cs as [|c rest IH];
    intros Hfuel Hwf Hnd m st Hok Hinv; cbn [for_each_child].
  - apply ret_fueled.
  - inversion Hfuel as [|? ? Hc Hrest']. subst.
    inversion Hwf as [|? ? Hwfc Hwfrest]. subst.
    cbn [flat_map] in Hnd, Hinv.
    pose proof (NoDup_app_inv _ _ _ Hnd) as (HndX0 & Hndcs & Hdisj0).
    pose proof (NoDup_app_inv _ _ _ Hndcs) as (Hndc & Hndrest & Hdisjc).
    apply bind_fueled.
    + unfold body. apply bind_fueled; [apply PruneMap_fueled|].
      intros [mP cm] stP HPM. cbn [fst snd].
      apply bind_fueled; [|intros; apply ret_fueled].
      destruct (PruneMap_once D S is_DBL_MAX P _ a q c (leaf_points c)
                  m st mP cm stP Hok Hinv)
        as (_ & _ & Hokcm & newP & _ & Hinvcm & _); try assumption.
      { intros x Hx. apply in_or_app. right. apply in_or_app. auto. }
      { apply Point_in_leaf_points. assumption. }
      { intros Hin. apply (Hdisj0 a Ha). apply in_or_app. auto. }
      apply Hc; assumption.
    + intros m1 st1 Hbody. apply for_each_child_one in Hbody.
      assert (Hperm : Permutation
                        ((X0 ++ flat_map leaf_points rest)
                           ++ flat_map leaf_points [c])
                        (X0 ++ leaf_points c ++ flat_map leaf_points rest)).
      { cbn [flat_map]. rewrite app_nil_r, <- app_assoc.
        apply Permutation_app_head. apply Permutation_app_comm. }
      destruct (non_self_once D S is_DBL_MAX P sort q a
                  (X0 ++ flat_map leaf_points rest)
                  (in_or_app _ _ _ (or_introl Ha)) [c])
        with (m := m) (st := st) (m' := m1) (st' := st1)
        as (Hok1 & new & _ & Hinv1 & _); try assumption.
      * constructor; [|constructor].
        apply (Traverse_map_once D S is_DBL_MAX P sort sort_perm).
      * constructor; [assumption | constructor].
      * eapply Permutation_NoDup; [apply Permutation_sym; exact Hperm|].
        assumption.
      * eapply once_inv_X; [|exact Hinv].
        intros x Hx. eapply Permutation_in; [exact Hperm | exact Hx].
      * apply IH; try assumption.
        eapply subseq_NoDup; [|exact Hnd].
        apply subseq_app; [apply subseq_refl | apply subseq_app_l].
Qed.

Lemma Traverse_map_fueled : forall q, fueled_at q.
Proof.
  induction q as [p s cs IH] using CoverTree_ind'.
  intros Hwf Hnd m st Hok Hinv.
  rewrite Traverse_map_unfold.
  assert (Ha : In p (leaf_points (Node p s cs))).
  { apply (Point_in_leaf_points (Node p s cs)). assumption. }
  cbn [Point Scale Children] in *.
  destruct m as [|e m0] eqn:Hm; [apply ret_fueled|].
  rewrite <- Hm in *. clear Hm e m0.
  apply bind_fueled.
  { unfold ReferenceRecursion.
    apply (RR_while_fueled D S is_DBL_MAX P sort sort_perm _
             (Node p s cs) Ha); [assumption | assumption | lia]. }
  intros mR stR HRR. unfold ReferenceRecursion in HRR.
  destruct (RR_while_once D S is_DBL_MAX P sort sort_perm _ (Node p s cs) Ha
              _ m st mR stR Hok Hinv HRR)
    as (newR & HokR & _ & HinvR & _).
  cbn [Point] in *.
  apply bind_fueled.
  - destruct (s =? INT_MIN)%Z; cbn [negb]; [apply ret_fueled|].
    destruct (m_rbegin mR) as [[top v]|]; [|apply fail_fueled].
    destruct (s >=? top)%Z; [|apply ret_fueled].
    destruct cs as [|c0 others]; [apply fail_fueled|].
    pose proof (wf_tree_self _ _ _ _ Hwf) as Hself.
    pose proof (wf_tree_children _ _ _ Hwf) as Hch.
    assert (Hwfc : Forall wf_tree (c0 :: others)).
    { eapply Forall_impl; [|exact Hch]. simpl. tauto. }
    inversion Hwfc as [|? ? Hwf0 Hwfo]. subst.
    inversion IH as [|? ? IH0 IHo]. subst.
    rewrite leaf_points_node in *. cbn [flat_map] in *.
    pose proof (NoDup_app_inv _ _ _ Hnd) as (Hnd0 & Hndo & Hdisj).
    assert (Ha0 : In (Point c0) (leaf_points c0)).
    { apply Point_in_leaf_points. assumption. }
    apply bind_fueled.
    { apply (non_self_fueled (Node (Point c0) s (c0 :: others)) (Point c0)
               (leaf_points c0) Ha0 others IHo Hwfo Hnd mR stR HokR HinvR). }
    intros mapL stL HLoop.
    destruct (non_self_once D S is_DBL_MAX P sort
                (Node (Point c0) s (c0 :: others)) (Point c0)
                (leaf_points c0) Ha0 others
                (proj2 (Forall_forall _ _)
                   (fun c _ =>
                      Traverse_map_once D S is_DBL_MAX P sort sort_perm c))
                Hwfo Hnd mR stR mapL stL HokR HinvR HLoop)
      as (HokL & newL & _ & HinvL & _).
    apply bind_fueled; [apply PMSC_fueled; apply HokL|].
    intros mapS stS HPMSC.
    destruct (PMSC_once D S is_DBL_MAX P _ c0 mapL stL mapS stS
                Ha0 HokL HinvL HPMSC)
      as (newS & HokS & _ & HinvS & _).
    apply IH0; assumption.
  - intros m2 st2 _.
    destruct (negb (s =? INT_MIN)%Z); [apply ret_fueled|].
    destruct (m_begin m2) as [[first pv]|]; [|apply fail_fueled].
    destruct (negb (first =? INT_MIN)%Z); [apply fail_fueled|].
    apply bind_fueled; [apply base_cases_fueled | intros; apply ret_fueled].
Qed.

Lemma Traverse_fueled q r st :
  wf_tree q -> NoDup (leaf_points q) ->
  wf_tree r -> NoDup (leaf_points r) ->
  calls st = [] ->
  Traverse is_DBL_MAX zero (Recording P) sort q r st <> OutOfFuel.
Proof.
  intros Hwq Hnq Hwr Hnr Hfresh. unfold Traverse.
  apply bind_fueled; [apply call_BaseCase_fueled|].
  intros bc st1 HB.
  pose proof (call_BaseCase_calls D S P _ _ _ _ _ HB) as Hcalls.
  rewrite Hfresh in Hcalls. cbn [app] in Hcalls.
  apply Traverse_map_fueled; try assumption.
  - apply root_frontier_ok. reflexivity.
  - rewrite Hcalls. apply root_once_inv; assumption.
Qed.

End FuelTraverse.

(** ** The log of calls only grows *)

Section LogGrows.

Variables D S : Type.
Variable is_DBL_MAX : D -> bool.
Variable zero : D.
Variable P : RuleType D S.
Variable sort : bucket D -> bucket D.

Let rstate : Type := TState (S * list (Event D)).

(** A computation that returns has kept every [BaseCase] call of the log it
    started with. *)
Let grows (A : Type) (c : M (S * list (Event D)) A) : Prop :=
  forall (st : rstate) a st',
    c st = Ok (a, st') ->
    forall x y,
      count_BaseCase x y (snd (rule_state st))
      <= count_BaseCase x y (snd (rule_state st')).

Lemma count_BaseCase_app x y (l1 l2 : list (Event D)) :
  count_BaseCase x y (l1 ++ l2) = count_BaseCase x y l1 + count_BaseCase x y l2.
Proof. unfold count_BaseCase. rewrite filter_app, length_app. reflexivity. Qed.

Lemma grows_ret A (a : A) : grows A (ret a).
Proof. intros st b st' H x y. apply ret_Ok in H. destruct H as [_ ->]. lia. Qed.

Lemma grows_fail A e : grows A (fail e).
Proof. intros st b st' H. discriminate. Qed.

Lemma grows_out_of_fuel A : grows A (@out_of_fuel _ A).
Proof. intros st b st' H. discriminate. Qed.

Lemma grows_lift A (o : outcome A) : grows A (lift o).
Proof.
  intros st b st' H x y. apply lift_Ok in H. destruct H as [_ ->]. lia.
Qed.

Lemma grows_bind A B (c : M (S * list (Event D)) A)
    (f : A -> M (S * list (Event D)) B) :
  grows A c -> (forall a, grows B (f a)) -> grows B (bind c f).
Proof.
  intros Hc Hf st b st' H x y. apply bind_Ok in H.
  destruct H as (a & st1 & H1 & H2).
  specialize (Hc st a st1 H1 x y). specialize (Hf a st1 b st' H2 x y). lia.
Qed.

Lemma grows_BaseCase q r : grows D (call_BaseCase (Recording P) q r).
Proof.
  intros [[s l] n] d st' H x y. unfold call_BaseCase in H.
  cbn [Recording BaseCase rule_state fst snd numPrunes] in H.
  destruct (BaseCase P q r s) as [d' s1]. inversion H. subst.
  cbn [rule_state snd]. rewrite count_BaseCase_app. lia.
Qed.

Lemma grows_Score qn rn bc : grows D (call_Score (Recording P) qn rn bc).
Proof.
  intros [[s l] n] d st' H x y. unfold call_Score in H.
  cbn [Recording Score rule_state fst snd numPrunes] in H.
  destruct (Score P qn rn bc s) as [d' s1]. inversion H. subst.
  cbn [rule_state snd]. rewrite count_BaseCase_app. lia.
Qed.

Lemma grows_Rescore qn rn old : grows D (call_Rescore (Recording P) qn rn old).
Proof.
  intros [[s l] n] d st' H x y. unfold call_Rescore in H.
  cbn [Recording Rescore rule_state fst snd numPrunes] in H.
  destruct (Rescore P qn rn old s) as [d' s1]. inversion H. subst.
  cbn [rule_state snd]. rewrite count_BaseCase_app. lia.
Qed.

Lemma grows_add_prunes k : grows unit (add_prunes k).
Proof.
  intros st u st' H x y. unfold add_prunes in H. inversion H. subst.
  cbn [rule_state]. lia.
Qed.

Ltac grows_step :=
  match goal with
  | |- grows _ (bind _ _) => apply grows_bind; [|intro]
  | |- grows _ (ret _) => apply grows_ret
  | |- grows _ (fail _) => apply grows_fail
  | |- grows _ (@out_of_fuel _ _) => apply grows_out_of_fuel
  | |- grows _ (lift _) => apply grows_lift
  | |- grows _ (call_BaseCase _ _ _) => apply grows_BaseCase
  | |- grows _ (call_Score _ _ _ _) => apply grows_Score
  | |- grows _ (call_Rescore _ _ _ _) => apply grows_Rescore
  | |- grows _ (add_prunes _) => apply grows_add_prunes
  | |- grows _ (if ?b then _ else _) => destruct b
  | |- grows _ (match ?x with _ => _ end) => destruct x
  | |- grows _ (let (_, _) := ?x in _) => destruct x
  end.

Ltac grows_all := repeat grows_step; try assumption.

Lemma base_cases_grows q pv :
  grows unit (base_cases is_DBL_MAX (Recording P) q pv).
Proof.
  induction pv as [|f rest IH]; cbn [base_cases]; grows_all.
Qed.

Lemma PruneMap_frames_grows cand vec : forall acc,
  grows _ (PruneMap_frames is_DBL_MAX (Recording P) cand vec acc).
Proof.
  induction vec as [|f rest IH]; intros acc; cbn [PruneMap_frames];
    grows_all; apply IH.
Qed.

Lemma PruneMap_scales_grows cand buckets : forall cm,
  grows _ (PruneMap_scales is_DBL_MAX (Recording P) cand buckets cm).
Proof.
  induction buckets as [|[k v] rest IH]; intros cm; cbn [PruneMap_scales].
  - grows_all.
  - destruct (k =? INT_MIN)%Z; [grows_all|].
    apply grows_bind; [apply PruneMap_frames_grows|]. intros nv. apply IH.
Qed.

Lemma PruneMap_grows q cand m cm :
  grows _ (PruneMap is_DBL_MAX (Recording P) q cand m cm).
Proof.
  unfold PruneMap. destruct m as [|e m0]; [grows_all|].
  apply grows_bind; [apply PruneMap_scales_grows|]. intros cm'. grows_all.
Qed.

Lemma PMSC_frames_grows cand vec : forall acc,
  grows _ (PruneMapForSelfChild_frames is_DBL_MAX (Recording P) cand vec acc).
Proof.
  induction vec as [|f rest IH]; intros acc;
    cbn [PruneMapForSelfChild_frames]; grows_all; apply IH.
Qed.

Lemma PMSC_loop_grows cand : forall fuel cur m,
  grows _ (PruneMapForSelfChild_loop is_DBL_MAX (Recording P) fuel cand cur m).
Proof.
  induction fuel as [|fuel IH]; intros cur m;
    cbn [PruneMapForSelfChild_loop]; [grows_all|].
  destruct (iterator_eqb cur (begin_it m)); [grows_all|].
  apply grows_bind; [grows_all|]. intros [k v].
  destruct (k =? INT_MIN)%Z; [grows_all|].
  apply grows_bind; [apply PMSC_frames_grows|]. intros nv.
  destruct nv as [|g nv].
  - destruct (m_erase k (m_set k [] m)); [grows_all|].
    apply grows_bind; [grows_all|]. intros cur'. apply IH.
  - apply grows_bind; [grows_all|]. intros cur'. apply IH.
Qed.

Lemma PMSC_grows cand m :
  grows _ (PruneMapForSelfChild is_DBL_MAX (Recording P) cand m).
Proof.
  unfold PruneMapForSelfChild. destruct m; [grows_all|]. apply PMSC_loop_grows.
Qed.

Lemma RR_children_grows q cs : forall m,
  grows _ (ReferenceRecursion_children is_DBL_MAX (Recording P) q cs m).
Proof.
  induction cs as [|c cs IH]; intros m; cbn [ReferenceRecursion_children];
    grows_all; apply IH.
Qed.

Lemma RR_frame_grows q f m :
  grows _ (ReferenceRecursion_frame is_DBL_MAX (Recording P) q f m).
Proof.
  unfold ReferenceRecursion_frame, ReferenceRecursion_expand.
  grows_all; apply RR_children_grows.
Qed.

Lemma RR_for_grows q k : forall fuel i m,
  grows _ (ReferenceRecursion_for is_DBL_MAX (Recording P) fuel q k i m).
Proof.
  induction fuel as [|fuel IH]; intros i m; cbn [ReferenceRecursion_for];
    [grows_all|].
  destruct (nth_error (m_bucket k m) i) as [f|]; [|grows_all].
  apply grows_bind; [apply RR_frame_grows|]. intros m1. apply IH.
Qed.

Lemma RR_while_grows q : forall fuel m,
  grows _ (ReferenceRecursion_while is_DBL_MAX (Recording P) sort fuel q m).
Proof.
  induction fuel as [|fuel IH]; intros m; cbn [ReferenceRecursion_while];
    [grows_all|].
  destruct (m_rbegin m) as [[top sv]|]; [|grows_all].
  destruct (top >? Scale q)%Z; [|grows_all].
  destruct ((Scale q =? INT_MIN)%Z && (top =? INT_MIN)%Z); [grows_all|].
  apply grows_bind; [apply RR_for_grows|]. intros m2.
  destruct (m_rbegin m2) as [[top' sv']|]; [|grows_all]. apply IH.
Qed.

Lemma for_each_child_grows
    (body : CoverTree -> scale_map D -> M (S * list (Event D)) (scale_map D))
    cs :
  (forall c, In c cs -> forall m, grows _ (body c m)) ->
  forall m, grows _ (for_each_child body cs m).
Proof.
  induction cs as [|c rest IH]; intros Hbody m; cbn [for_each_child].
  - grows_all.
  - apply grows_bind; [apply Hbody; left; reflexivity|].
    intros m1. apply IH. intros c' Hc'. apply Hbody. right. exact Hc'.
Qed.

Lemma Traverse_map_grows : forall q m,
  grows _ (Traverse_map is_DBL_MAX (Recording P) sort q m).
Proof.
  induction q as [p s cs IH] using CoverTree_ind'. intros m.
  rewrite (Traverse_map_unfold D S is_DBL_MAX sort).
  destruct m as [|e m0] eqn:Em; [grows_all|].
  rewrite <- Em. clear Em e m0.
  apply grows_bind; [apply RR_while_grows|]. intros mR.
  cbn [Scale Children].
  apply grows_bind.
  - destruct (negb (s =? INT_MIN)%Z); [|grows_all].
    destruct (m_rbegin mR) as [[top v]|]; [|grows_all].
    destruct (s >=? top)%Z; [|grows_all].
    destruct cs as [|c0 others]; [grows_all|].
    inversion IH as [|? ? IH0 IHo]. subst.
    apply grows_bind.
    + apply for_each_child_grows. intros c Hc m1.
      apply grows_bind; [apply PruneMap_grows|]. intros maps.
      apply grows_bind; [|intros; grows_all].
      rewrite Forall_forall in IHo. apply IHo. exact Hc.
    + intros mL. apply grows_bind; [apply PMSC_grows|]. intros mS.
      apply IH0.
  - intros m2. destruct (negb (s =? INT_MIN)%Z); [grows_all|].
    destruct (m_begin m2) as [[first pv]|]; [|grows_all].
    destruct (negb (first =? INT_MIN)%Z); [grows_all|].
    apply grows_bind; [apply base_cases_grows|]. intros u. grows_all.
Qed.

(** A traversal that returns has added to the log a [BaseCase] call on the
    points of the two roots. *)
Lemma Traverse_root_BaseCase q r (st : rstate) m st' :
  Traverse is_DBL_MAX zero (Recording P) sort q r st = Ok (m, st') ->
  Datatypes.S (count_BaseCase (Point q) (Point r) (snd (rule_state st)))
  <= count_BaseCase (Point q) (Point r) (snd (rule_state st')).
Proof.
  unfold Traverse. intros H. apply bind_Ok in H.
  destruct H as (bc & st1 & Hbc & H).
  pose proof (Traverse_map_grows q _ st1 m st' H (Point q) (Point r)) as Hg.
  destruct st as [[s l] n]. unfold call_BaseCase in Hbc.
  cbn [Recording BaseCase rule_state fst snd numPrunes] in Hbc.
  destruct (BaseCase P (Point q) (Point r) s) as [d s1]. inversion Hbc. subst.
  cbn [rule_state snd] in *. rewrite count_BaseCase_app in Hg.
  unfold count_BaseCase at 2 in Hg. cbn [filter is_BaseCase_of] in Hg.
  rewrite !Nat.eqb_refl in Hg. cbn [andb length] in Hg. lia.
Qed.

End LogGrows.

(** ** One traversal evaluates every pair at most once *)

Lemma insert_frame_perm f : forall l,
  Permutation (Examples.insert_frame f l) (f :: l).
Proof.
  induction l as [|g l IH]; cbn [Examples.insert_frame].
  - apply Permutation_refl.
  - destruct (score g <? score f)%Z.
    + eapply Permutation_trans; [apply perm_skip; exact IH|].
      apply perm_swap.
    + apply Permutation_refl.
Qed.

Lemma sort_by_score_perm : forall v,
  Permutation (Examples.sort_by_score v) v.
Proof.
  unfold Examples.sort_by_score.
  induction v as [|f v IH]; cbn [fold_right].
  - apply Permutation_refl.
  - eapply Permutation_trans; [apply insert_frame_perm|].
    apply perm_skip. exact IH.
Qed.

(** C4, as the code has it.  In the leaf phase a frame whose cached indices
    are those of the current pair is skipped and counted as a prune, and any
    other frame is rescored and gets its [BaseCase] exactly when [Rescore]
    does not prune.  With that rule, one traversal of a pair of well-formed
    cover trees whose leaves hold distinct points, started with an empty log
    and with a sort that permutes its argument, is not cut short by the fuel
    of its loops and, when it returns, has invoked [BaseCase] at most once
    for every pair of points.  Nothing is remembered from one traversal to
    the next: every traversal starts with a [BaseCase] call on the points of
    the two roots, so that when two traversals of the same pair of trees,
    one after the other, both return, the log holds that call at least
    twice, whatever the trees, the policy and the log at the start. *)
Theorem BaseCase_at_most_once (D S : Type) (is_DBL_MAX : D -> bool)
    (zero : D) (P : RuleType D S) (sort : bucket D -> bucket D) :
  (forall q pv (st : TState (S * list (Event D))),
     exists st' calls pruned,
       base_cases is_DBL_MAX (Recording P) q pv st = Ok (tt, st')
       /\ leaf_phase_spec is_DBL_MAX P q pv (fst (rule_state st))
          = (calls, pruned, fst (rule_state st'))
       /\ snd (rule_state st') = snd (rule_state st) ++ calls
       /\ (numPrunes st' mod SIZE_MOD
           = (numPrunes st + N.of_nat pruned) mod SIZE_MOD)%N)
  /\ (forall q r (st : TState (S * list (Event D))),
        (forall v, Permutation (sort v) v) ->
        wf_tree q -> NoDup (leaf_points q) ->
        wf_tree r -> NoDup (leaf_points r) ->
        snd (rule_state st) = [] ->
        Traverse is_DBL_MAX zero (Recording P) sort q r st <> OutOfFuel
        /\ forall m st',
             Traverse is_DBL_MAX zero (Recording P) sort q r st
             = Ok (m, st') ->
             forall a b, count_BaseCase a b (snd (rule_state st')) <= 1)
  /\ (forall q r (st : TState (S * list (Event D))) m1 st1 m2 st2,
        Traverse is_DBL_MAX zero (Recording P) sort q r st = Ok (m1, st1) ->
        Traverse is_DBL_MAX zero (Recording P) sort q r st1 = Ok (m2, st2) ->
        2 <= count_BaseCase (Point q) (Point r) (snd (rule_state st2))).
Proof.
  split; [|split].
  - intros q pv st.
    destruct (base_cases_leaf_phase is_DBL_MAX P q pv st)
      as (st' & calls & pruned & H1 & H2 & H3 & H4 & _).
    exists st', calls, pruned. auto.
  - intros q r st Hsort Hwq Hnq Hwr Hnr Hlog.
    assert (Hfresh : calls st = []).
    { unfold calls. rewrite Hlog. reflexivity. }
    split.
    + apply (Traverse_fueled D S is_DBL_MAX zero P sort Hsort); assumption.
    + intros m st' H a b. apply NoDup_count_BaseCase.
      apply (Traverse_once D S is_DBL_MAX zero P sort Hsort q r st m st');
        assumption.
  - intros q r st m1 st1 m2 st2 H1 H2.
    pose proof (Traverse_root_BaseCase D S is_DBL_MAX zero P sort q r st m1
                  st1 H1) as Hfirst.
    pose proof (Traverse_root_BaseCase D S is_DBL_MAX zero P sort q r st1 m2
                  st2 H2) as Hsecond.
    lia.
Qed.

Lemma BaseCase_at_most_once_witness :
  exists m st' m2 st2,
    Examples.run
      (Examples.traverse (Recording Examples.no_prune)
         Examples.shallow_query Examples.deep_reference) (tt, [])
    = Ok (m, st')
    /\ (forall a b, count_BaseCase a b (snd (rule_state st')) <= 1)
    /\ Examples.traverse (Recording Examples.no_prune)
         Examples.shallow_query Examples.deep_reference st'
       = Ok (m2, st2)
    /\ 2 <= count_BaseCase 0 0 (snd (rule_state st2)).
Proof.
  do 4 eexists. split; [vm_compute; reflexivity|].
  destruct (BaseCase_at_most_once Z unit Examples.is_max 0%Z
              Examples.no_prune Examples.sort_by_score)
    as (_ & Honce & Htwice).
  split; [|split; [vm_compute; reflexivity|]].
  - destruct (Honce Examples.shallow_query Examples.deep_reference
                (mkState (tt, []) 0)) as [_ Hrun].
    + exact sort_by_score_perm.
    + vm_compute. repeat split.
    + vm_compute. repeat constructor; simpl; intuition discriminate.
    + vm_compute. repeat split.
    + vm_compute. repeat constructor; simpl; intuition discriminate.
    + reflexivity.
    + eapply Hrun. vm_compute. reflexivity.
  - eapply (Htwice Examples.shallow_query Examples.deep_reference
              (mkState (tt, []) 0)); vm_compute; reflexivity.
Defined.

(** ** The expansion of a frame, as the loop runs it *)

Lemma bind_run (S A B : Type) (c : M S A) (f : A -> M S B) st a st1 :
  c st = Ok (a, st1) -> bind c f st = f a st1.
Proof. intros H. unfold bind. rewrite H. reflexivity. Qed.

Section FrameExpansion.

Variables D S : Type.
Variable is_DBL_MAX : D -> bool.
Variable P : RuleType D S.
Variable sort : bucket D -> bucket D.

Implicit Types (m rest : scale_map D) (st : TState (S * list (Event D))).

(** The admitted frames are pushed in the order of the children. *)
Lemma RR_children_pushes q cs : forall m st calls fr s',
  children_spec is_DBL_MAX P q cs (fst (rule_state st)) = (calls, fr, s') ->
  exists st',
    ReferenceRecursion_children is_DBL_MAX (Recording P) q cs m st
    = Ok (push_all fr m, st')
    /\ rule_state st' = (s', snd (rule_state st) ++ calls).
Proof.
  induction cs as [|c cs IH]; intros m st calls fr s' H;
    cbn [children_spec] in H; cbn [ReferenceRecursion_children].
  - inversion H. subst. exists st. rewrite app_nil_r.
    split; [reflexivity|]. destruct st as [[s l] n]. reflexivity.
  - destruct st as [[s l] n]. cbn [rule_state fst snd] in *.
    destruct (BaseCase P (Point q) (Point c) s) as [bc s1] eqn:Hbc.
    destruct (Score P q c bc s1) as [sc s2] eqn:Hsc.
    destruct (children_spec is_DBL_MAX P q cs s2) as [[calls0 fr0] s3] eqn:E.
    inversion H. subst. clear H.
    unfold bind at 1. unfold call_BaseCase at 1.
    cbn [Recording BaseCase rule_state fst snd numPrunes]. rewrite Hbc.
    unfold bind at 1. unfold call_Score at 1.
    cbn [Recording Score rule_state fst snd numPrunes]. rewrite Hsc.
    unfold admitted. destruct (is_DBL_MAX sc).
    + unfold bind at 1. cbn [add_prunes rule_state numPrunes].
      destruct (IH m
                  (mkState (s2, (l ++ [EvBaseCase (Point q) (Point c)])
                                  ++ [EvScore q c bc]) (size_add n 1))
                  calls0 fr0 s' E) as (st' & Hrun & Hst).
      exists st'. cbn [app]. split; [exact Hrun|].
      rewrite Hst. cbn [rule_state snd]. rewrite <- !app_assoc. reflexivity.
    + destruct (IH (m_push (Scale c)
                      (mkEntry c sc (Point c) (Point q) bc) m)
                  (mkState (s2, (l ++ [EvBaseCase (Point q) (Point c)])
                                  ++ [EvScore q c bc]) n)
                  calls0 fr0 s' E) as (st' & Hrun & Hst).
      exists st'. split; [exact Hrun|].
      rewrite Hst. cbn [rule_state snd]. rewrite <- !app_assoc. reflexivity.
Qed.

Lemma children_spec_nodes q cs : forall s calls fr s',
  children_spec is_DBL_MAX P q cs s = (calls, fr, s') ->
  incl (nodes fr) cs.
Proof.
  induction cs as [|c cs IH]; cbn [children_spec]; intros s calls fr s' H.
  - inversion H. intros x [].
  - destruct (BaseCase P (Point q) (Point c) s) as [bc s1].
    destruct (Score P q c bc s1) as [sc s2].
    destruct (children_spec is_DBL_MAX P q cs s2) as [[calls0 fr0] s3] eqn:E.
    inversion H. subst. clear H. apply IH in E.
    unfold admitted. destruct (is_DBL_MAX sc); cbn [app nodes map].
    + intros x Hx. right. apply E. exact Hx.
    + intros x [<-|Hx]; [left; reflexivity | right; apply E; exact Hx].
Qed.

Lemma expansion_spec_nodes q refNode child0 others bc s calls fr s' :
  expansion_spec is_DBL_MAX P q refNode child0 others bc s = (calls, fr, s') ->
  incl (nodes fr) (child0 :: others).
Proof.
  unfold expansion_spec.
  destruct (Score P q child0 bc s) as [sc s1].
  destruct (children_spec is_DBL_MAX P q others s1) as [[calls0 fr0] s2] eqn:E.
  intros H. inversion H. subst. clear H. apply children_spec_nodes in E.
  unfold admitted. destruct (is_DBL_MAX sc); cbn [app nodes map].
  - intros x Hx. right. apply E. exact Hx.
  - intros x [<-|Hx]; [left; reflexivity | right; apply E; exact Hx].
Qed.

(** The calls a frame receives for its own node before it is expanded. *)
Lemma RR_frame_expansion q (frame : MapEntry D) child0 others m st
    r s1 bc s2 sc s3 calls fr s' :
  Children (referenceNode frame) = child0 :: others ->
  Rescore P q (referenceNode frame) (score frame) (fst (rule_state st))
  = (r, s1) ->
  is_DBL_MAX r = false ->
  (if negb (Point (referenceNode frame) =? referenceIndex frame)
      || negb (Point q =? queryIndex frame)
   then BaseCase P (Point q) (Point (referenceNode frame)) s1
   else (baseCase frame, s1)) = (bc, s2) ->
  Score P q (referenceNode frame) bc s2 = (sc, s3) ->
  is_DBL_MAX sc = false ->
  expansion_spec is_DBL_MAX P q (referenceNode frame) child0 others bc s3
  = (calls, fr, s') ->
  exists st',
    ReferenceRecursion_frame is_DBL_MAX (Recording P) q frame m st
    = Ok (push_all fr m, st')
    /\ rule_state st'
       = (s', snd (rule_state st)
                ++ EvRescore q (referenceNode frame) (score frame)
                   :: (if negb (Point (referenceNode frame)
                                =? referenceIndex frame)
                          || negb (Point q =? queryIndex frame)
                       then [EvBaseCase (Point q)
                               (Point (referenceNode frame))]
                       else [])
                   ++ EvScore q (referenceNode frame) bc :: calls).
Proof.
  intros Hch Hr Hrmax Hbc Hsc Hscmax Hexp.
  destruct st as [[s l] n]. cbn [rule_state fst snd] in *.
  unfold ReferenceRecursion_frame.
  unfold bind at 1. unfold call_Rescore at 1.
  cbn [Recording Rescore rule_state fst snd numPrunes]. rewrite Hr, Hrmax.
  unfold expansion_spec in Hexp.
  destruct (Score P q child0 bc s3) as [sc0 s4] eqn:Hsc0.
  destruct (children_spec is_DBL_MAX P q others s4) as [[calls0 fr0] s5] eqn:E.
  inversion Hexp. subst calls fr s'. clear Hexp.
  assert (Htail : forall l0,
    exists st',
      bind (call_Score (Recording P) q (referenceNode frame) bc)
        (fun childScore =>
           if is_DBL_MAX childScore
           then bind (add_prunes (N.of_nat (NumChildren (referenceNode frame))))
                  (fun _ => ret m)
           else ReferenceRecursion_expand is_DBL_MAX (Recording P) q
                  (referenceNode frame) bc m) (mkState (s2, l0) n)
      = Ok (push_all (admitted is_DBL_MAX q child0
                        (Point (referenceNode frame)) bc sc0 ++ fr0) m, st')
      /\ rule_state st'
         = (s5, l0 ++ EvScore q (referenceNode frame) bc
                   :: EvScore q child0 bc :: calls0)).
  { intros l0. unfold bind at 1. unfold call_Score at 1.
    cbn [Recording Score rule_state fst snd numPrunes]. rewrite Hsc, Hscmax.
    unfold ReferenceRecursion_expand. rewrite Hch.
    unfold bind at 1. unfold call_Score at 1.
    cbn [Recording Score rule_state fst snd numPrunes]. rewrite Hsc0.
    unfold admitted. destruct (is_DBL_MAX sc0).
    - unfold bind at 1. unfold bind at 1.
      cbn [add_prunes rule_state numPrunes ret].
      destruct (RR_children_pushes q others m
                  (mkState (s4, (l0 ++ [EvScore q (referenceNode frame) bc])
                                  ++ [EvScore q child0 bc]) (size_add n 1))
                  calls0 fr0 s5 E) as (st' & Hrun & Hst).
      exists st'. cbn [app]. split; [exact Hrun|].
      rewrite Hst. cbn [rule_state snd]. rewrite <- !app_assoc. reflexivity.
    - unfold bind at 1. cbn [ret].
      destruct (RR_children_pushes q others
                  (m_push (Scale child0)
                     (mkEntry child0 sc0 (Point (referenceNode frame))
                        (Point q) bc) m)
                  (mkState (s4, (l0 ++ [EvScore q (referenceNode frame) bc])
                                  ++ [EvScore q child0 bc]) n)
                  calls0 fr0 s5 E) as (st' & Hrun & Hst).
      exists st'. split; [exact Hrun|].
      rewrite Hst. cbn [rule_state snd]. rewrite <- !app_assoc. reflexivity. }
  unfold bind at 1.
  destruct (negb (Point (referenceNode frame) =? referenceIndex frame)
            || negb (Point q =? queryIndex frame)).
  - unfold call_BaseCase at 1.
    cbn [Recording BaseCase rule_state fst snd numPrunes]. rewrite Hbc.
    destruct (Htail ((l ++ [EvRescore q (referenceNode frame) (score frame)])
                       ++ [EvBaseCase (Point q) (Point (referenceNode frame))]))
      as (st' & Hrun & Hst).
    exists st'. split; [exact Hrun|]. rewrite Hst.
    rewrite <- !app_assoc. reflexivity.
  - inversion Hbc. subst bc s2. unfold ret at 1.
    destruct (Htail (l ++ [EvRescore q (referenceNode frame) (score frame)]))
      as (st' & Hrun & Hst).
    exists st'. split; [exact Hrun|]. rewrite Hst.
    rewrite <- !app_assoc. reflexivity.
Qed.


(** The frames admitted by an expansion sit at the scales of children. *)
Lemma expansion_spec_scales q refNode child0 others bc s calls fr s' bound :
  expansion_spec is_DBL_MAX P q refNode child0 others bc s = (calls, fr, s') ->
  Forall (fun c => (Scale c <= bound)%Z) (child0 :: others) ->
  Forall (fun g => (Scale (referenceNode g) <= bound)%Z) fr.
Proof.
  intros Hexp Hcs. apply expansion_spec_nodes in Hexp.
  rewrite Forall_forall in *. intros g Hg. apply Hcs. apply Hexp.
  unfold nodes. apply in_map. exact Hg.
Qed.

(** [ReferenceRecursion] on a frontier whose coarsest bucket holds the one
    frame [frame], above the scale of the query node, when the children of
    the frame's node and the other buckets sit at or below that scale: the
    loop body runs once, the bucket is erased and the loop stops. *)
Lemma RR_single_frame q (frame : MapEntry D) child0 others top rest st
    r s1 bc s2 sc s3 calls fr s' :
  (forall v, Permutation (sort v) v) ->
  Children (referenceNode frame) = child0 :: others ->
  (Scale q < top)%Z ->
  Forall (fun c => (Scale c <= Scale q)%Z) (child0 :: others) ->
  Forall (fun k => (k <= Scale q)%Z) (keys rest) ->
  Rescore P q (referenceNode frame) (score frame) (fst (rule_state st))
  = (r, s1) ->
  is_DBL_MAX r = false ->
  (if negb (Point (referenceNode frame) =? referenceIndex frame)
      || negb (Point q =? queryIndex frame)
   then BaseCase P (Point q) (Point (referenceNode frame)) s1
   else (baseCase frame, s1)) = (bc, s2) ->
  Score P q (referenceNode frame) bc s2 = (sc, s3) ->
  is_DBL_MAX sc = false ->
  expansion_spec is_DBL_MAX P q (referenceNode frame) child0 others bc s3
  = (calls, fr, s') ->
  push_all fr rest <> [] ->
  exists st',
    ReferenceRecursion is_DBL_MAX (Recording P) sort q
      ((top, [frame]) :: rest) st
    = Ok (push_all fr rest, st')
    /\ rule_state st'
       = (s', snd (rule_state st)
                ++ EvRescore q (referenceNode frame) (score frame)
                   :: (if negb (Point (referenceNode frame)
                                =? referenceIndex frame)
                          || negb (Point q =? queryIndex frame)
                       then [EvBaseCase (Point q)
                               (Point (referenceNode frame))]
                       else [])
                   ++ EvScore q (referenceNode frame) bc :: calls).
Proof.
  intros Hsort Hch Htop Hkids Hrest Hr Hrmax Hbc Hsc Hscmax Hexp Hne.
  destruct (RR_frame_expansion q frame child0 others ((top, [frame]) :: rest)
              st r s1 bc s2 sc s3 calls fr s' Hch Hr Hrmax Hbc Hsc Hscmax Hexp)
    as (st' & Hrun & Hst).
  exists st'. split; [|exact Hst].
  pose proof (expansion_spec_scales _ _ _ _ _ _ _ _ _ (Scale q) Hexp Hkids)
    as Hfr.
  assert (Hbelow : Forall (fun g => (Scale (referenceNode g) < top)%Z) fr).
  { eapply Forall_impl; [|exact Hfr]. cbn beta. intros g Hg. lia. }
  assert (Hrun' :
    ReferenceRecursion_frame is_DBL_MAX (Recording P) q frame
      ((top, [frame]) :: rest) st
    = Ok ((top, [frame]) :: push_all fr rest, st')).
  { etransitivity; [exact Hrun|]. f_equal. f_equal.
    exact (push_all_below D top [frame] fr rest Hbelow). }
  clear Hrun.
  assert (Hs1 : sort [frame] = [frame]).
  { apply Permutation_length_1_inv. apply Permutation_sym. apply Hsort. }
  assert (Hfor :
    ReferenceRecursion_for is_DBL_MAX (Recording P)
      (Datatypes.S (bucket_weight [frame])) q top 0
      ((top, [frame]) :: rest) st
    = Ok ((top, [frame]) :: push_all fr rest, st')).
  { assert (Hw : exists k, bucket_weight [frame] = Datatypes.S k).
    { pose proof (tree_weight_pos (referenceNode frame)) as Hpos.
      unfold bucket_weight. cbn [fold_right].
      destruct (tree_weight (referenceNode frame)) as [|k]; [lia|].
      exists (k + 0). reflexivity. }
    destruct Hw as (k & ->).
    cbn [ReferenceRecursion_for]. rewrite (m_bucket_head D). cbn [nth_error].
    erewrite bind_run; [|exact Hrun'].
    rewrite (m_bucket_head D). reflexivity. }
  unfold ReferenceRecursion. rewrite (map_weight_cons D). cbn [Nat.add].
  remember (bucket_weight [frame] + map_weight rest) as fuel eqn:Hfuel.
  remember (Datatypes.S fuel) as fuel1 eqn:Hfuel1.
  cbn [ReferenceRecursion_while m_rbegin hd_error].
  destruct (Z.gtb_spec top (Scale q)) as [_|Hle]; [|lia].
  assert (Hbrk : (Scale q =? INT_MIN)%Z && (top =? INT_MIN)%Z = false).
  { destruct (Z.eqb_spec (Scale q) INT_MIN) as [Hq|_]; [|reflexivity].
    destruct (Z.eqb_spec top INT_MIN) as [Ht|_]; [lia | reflexivity]. }
  rewrite Hbrk. rewrite (m_set_head D), Hs1.
  erewrite bind_run; [|exact Hfor]. cbn [m_rbegin hd_error].
  rewrite (m_erase_head D). subst fuel1.
  cbn [ReferenceRecursion_while].
  destruct (push_all fr rest) as [|[top' v'] low'] eqn:Hm; [contradiction|].
  cbn [m_rbegin hd_error].
  assert (Htop' : (top' <= Scale q)%Z).
  { assert (Hin : In top' (keys (push_all fr rest))).
    { rewrite Hm. left. reflexivity. }
    apply (keys_push_all D) in Hin. destruct Hin as [Hin|(g & Hg & <-)].
    - rewrite Forall_forall in Hrest. apply Hrest. exact Hin.
    - rewrite Forall_forall in Hfr. apply Hfr. exact Hg. }
  destruct (Z.gtb_spec top' (Scale q)) as [Hgt|_]; [lia|]. reflexivity.
Qed.

(** C6.  The expansion of a candidate frame that is not pruned, as
    [ReferenceRecursion] runs it.  The loop body, on a frame that passes
    [Rescore] and whose node passes [Score] with the base case [bc] (the
    cached one when the cached indices are those of the pair, a fresh
    [BaseCase] otherwise), goes on with exactly the calls of
    [expansion_spec]: [Score] on the self-child with [bc] and no [BaseCase]
    call for it, then for every other child a [BaseCase] on the child's own
    point followed by [Score] on that child; the only [BaseCase] calls of
    the expansion are those of the non-self children, one each; the frames
    admitted, the self-child's carrying [bc], are pushed on the map in that
    order, each child being left out exactly when its own score is
    [DBL_MAX].  And [ReferenceRecursion] runs this body: on a frontier whose
    coarsest bucket holds one such frame above the scale of the query node,
    with the children and the other buckets at or below that scale, it
    returns the other buckets with the admitted frames pushed on them, and
    the log holds the calls above and no other. *)
Theorem ReferenceRecursion_expands_frame :
  (forall q (frame : MapEntry D) child0 others m st r s1 bc s2 sc s3,
     Children (referenceNode frame) = child0 :: others ->
     map_ok m ->
     Rescore P q (referenceNode frame) (score frame) (fst (rule_state st))
     = (r, s1) ->
     is_DBL_MAX r = false ->
     (if negb (Point (referenceNode frame) =? referenceIndex frame)
         || negb (Point q =? queryIndex frame)
      then BaseCase P (Point q) (Point (referenceNode frame)) s1
      else (baseCase frame, s1)) = (bc, s2) ->
     Score P q (referenceNode frame) bc s2 = (sc, s3) ->
     is_DBL_MAX sc = false ->
     exists m' st' calls fr s',
       expansion_spec is_DBL_MAX P q (referenceNode frame) child0 others bc s3
       = (EvScore q child0 bc :: calls, fr, s')
       /\ ReferenceRecursion_frame is_DBL_MAX (Recording P) q frame m st
          = Ok (m', st')
       /\ rule_state st'
          = (s', snd (rule_state st)
                   ++ EvRescore q (referenceNode frame) (score frame)
                      :: (if negb (Point (referenceNode frame)
                                   =? referenceIndex frame)
                             || negb (Point q =? queryIndex frame)
                          then [EvBaseCase (Point q)
                                  (Point (referenceNode frame))]
                          else [])
                      ++ EvScore q (referenceNode frame) bc
                      :: EvScore q child0 bc :: calls)
       /\ filter is_BaseCase (EvScore q child0 bc :: calls)
          = map (fun c => EvBaseCase (Point q) (Point c)) others
       /\ m' = push_all fr m
       /\ Permutation (frames m') (frames m ++ fr))
  /\ (forall q (frame : MapEntry D) child0 others top rest st
             r s1 bc s2 sc s3 calls fr s',
        (forall v, Permutation (sort v) v) ->
        Children (referenceNode frame) = child0 :: others ->
        (Scale q < top)%Z ->
        Forall (fun c => (Scale c <= Scale q)%Z) (child0 :: others) ->
        Forall (fun k => (k <= Scale q)%Z) (keys rest) ->
        Rescore P q (referenceNode frame) (score frame) (fst (rule_state st))
        = (r, s1) ->
        is_DBL_MAX r = false ->
        (if negb (Point (referenceNode frame) =? referenceIndex frame)
            || negb (Point q =? queryIndex frame)
         then BaseCase P (Point q) (Point (referenceNode frame)) s1
         else (baseCase frame, s1)) = (bc, s2) ->
        Score P q (referenceNode frame) bc s2 = (sc, s3) ->
        is_DBL_MAX sc = false ->
        expansion_spec is_DBL_MAX P q (referenceNode frame) child0 others bc s3
        = (calls, fr, s') ->
        push_all fr rest <> [] ->
        exists st',
          ReferenceRecursion is_DBL_MAX (Recording P) sort q
            ((top, [frame]) :: rest) st
          = Ok (push_all fr rest, st')
          /\ rule_state st'
             = (s', snd (rule_state st)
                      ++ EvRescore q (referenceNode frame) (score frame)
                         :: (if negb (Point (referenceNode frame)
                                      =? referenceIndex frame)
                                || negb (Point q =? queryIndex frame)
                             then [EvBaseCase (Point q)
                                     (Point (referenceNode frame))]
                             else [])
                         ++ EvScore q (referenceNode frame) bc :: calls)).
Proof.
  split.
  - intros q frame child0 others m st r s1 bc s2 sc s3
      Hch Hok Hr Hrmax Hbc Hsc Hscmax.
    destruct (expansion_spec is_DBL_MAX P q (referenceNode frame) child0
                others bc s3) as [[calls fr] s'] eqn:Hexp.
    assert (Hhead : exists calls0, calls = EvScore q child0 bc :: calls0
              /\ filter is_BaseCase calls0
                 = map (fun c => EvBaseCase (Point q) (Point c)) others).
    { unfold expansion_spec in Hexp.
      destruct (Score P q child0 bc s3) as [sc0 s4].
      destruct (children_spec is_DBL_MAX P q others s4)
        as [[calls0 fr0] s5] eqn:E.
      inversion Hexp. subst. exists calls0. split; [reflexivity|].
      eapply children_spec_BaseCases. exact E. }
    destruct Hhead as (calls0 & -> & Hbcs).
    destruct (RR_frame_expansion q frame child0 others m st r s1 bc s2 sc s3
                _ fr s' Hch Hr Hrmax Hbc Hsc Hscmax Hexp)
      as (st' & Hrun & Hst).
    exists (push_all fr m), st', calls0, fr, s'.
    split; [reflexivity|]. split; [exact Hrun|]. split; [exact Hst|].
    split; [exact Hbcs|]. split; [reflexivity|].
    apply (frames_push_all D). exact Hok.
  - intros q frame child0 others top rest st r s1 bc s2 sc s3 calls fr s'.
    apply RR_single_frame.
Qed.

End FrameExpansion.

Lemma ReferenceRecursion_expands_frame_witness :
  (exists m' st' calls fr s',
     expansion_spec Examples.is_max Examples.no_prune Examples.shallow_query
       Examples.deep_reference (Node 0 2 [Examples.leaf 0; Examples.leaf 1])
       [Examples.leaf 2] 0%Z tt
     = (EvScore Examples.shallow_query
          (Node 0 2 [Examples.leaf 0; Examples.leaf 1]) 0%Z :: calls, fr, s')
     /\ ReferenceRecursion_frame Examples.is_max
          (Recording Examples.no_prune) Examples.shallow_query
          (mkEntry Examples.deep_reference 0%Z 0 0 0%Z) []
          (mkState (tt, []) 0)
        = Ok (m', st')
     /\ rule_state st'
        = (s', [EvRescore Examples.shallow_query Examples.deep_reference 0%Z;
                EvScore Examples.shallow_query Examples.deep_reference 0%Z;
                EvScore Examples.shallow_query
                  (Node 0 2 [Examples.leaf 0; Examples.leaf 1]) 0%Z]
               ++ calls)
     /\ filter is_BaseCase
          (EvScore Examples.shallow_query
             (Node 0 2 [Examples.leaf 0; Examples.leaf 1]) 0%Z :: calls)
        = [EvBaseCase 0 2]
     /\ m' = push_all fr []
     /\ Permutation (frames m') (frames [] ++ fr))
  /\ (exists st',
        ReferenceRecursion Examples.is_max (Recording Examples.no_prune)
          Examples.sort_by_score Examples.shallow_query
          (Examples.root_map Examples.shallow_query Examples.deep_reference)
          (mkState (tt, []) 0)
        = Ok (Examples.deep_after_recursion, st')
        /\ rule_state st'
           = (tt,
              [EvRescore Examples.shallow_query Examples.deep_reference 0%Z;
               EvScore Examples.shallow_query Examples.deep_reference 0%Z;
               EvScore Examples.shallow_query
                 (Node 0 2 [Examples.leaf 0; Examples.leaf 1]) 0%Z;
               EvBaseCase 0 2;
               EvScore Examples.shallow_query (Examples.leaf 2) 0%Z])).
Proof.
  destruct (ReferenceRecursion_expands_frame Z unit Examples.is_max
              Examples.no_prune Examples.sort_by_score) as [Hframe Hloop].
  split.
  - apply (Hframe Examples.shallow_query
             (mkEntry Examples.deep_reference 0%Z 0 0 0%Z)
             (Node 0 2 [Examples.leaf 0; Examples.leaf 1]) [Examples.leaf 2]
             [] (mkState (tt, []) 0) 0%Z tt 0%Z tt 0%Z tt).
    + reflexivity.
    + exact I.
    + reflexivity.
    + reflexivity.
    + reflexivity.
    + reflexivity.
    + reflexivity.
  - apply (Hloop Examples.shallow_query
             (mkEntry Examples.deep_reference 0%Z 0 0 0%Z)
             (Node 0 2 [Examples.leaf 0; Examples.leaf 1]) [Examples.leaf 2]
             5%Z [] (mkState (tt, []) 0) 0%Z tt 0%Z tt 0%Z tt
             [EvScore Examples.shallow_query
                (Node 0 2 [Examples.leaf 0; Examples.leaf 1]) 0%Z;
              EvBaseCase 0 2;
              EvScore Examples.shallow_query (Examples.leaf 2) 0%Z]
             [mkEntry (Node 0 2 [Examples.leaf 0; Examples.leaf 1]) 0%Z 0 0
                0%Z;
              mkEntry (Examples.leaf 2) 0%Z 2 0 0%Z]
             tt).
    + exact sort_by_score_perm.
    + reflexivity.
    + reflexivity.
    + repeat constructor; vm_compute; discriminate.
    + constructor.
    + reflexivity.
    + reflexivity.
    + reflexivity.
    + reflexivity.
    + reflexivity.
    + reflexivity.
    + vm_compute. discriminate.
Defined.

(** ** Runs that end: composition *)

Section Ends.

Variable S : Type.

Implicit Types (st : TState S) (allowed : fault -> Prop).

Lemma ends_bind A B allowed (Mid : A -> TState S -> Prop)
    (Post : B -> TState S -> Prop) (c : M S A) (f : A -> M S B) st :
  ends allowed Mid (c st) ->
  (forall a st', Mid a st' -> ends allowed Post (f a st')) ->
  ends allowed Post (bind c f st).
Proof.
  unfold bind. destruct (c st) as [[a st']|e|]; simpl; auto.
Qed.

Lemma ends_ret A allowed (Post : A -> TState S -> Prop) (a : A) st :
  Post a st -> ends allowed Post (ret a st).
Proof. intros H. exact H. Qed.

Lemma ends_weaken A (allowed allowed' : fault -> Prop)
    (Post Post' : A -> TState S -> Prop) (o : outcome (A * TState S)) :
  (forall e, allowed e -> allowed' e) ->
  (forall a st, Post a st -> Post' a st) ->
  ends allowed Post o -> ends allowed' Post' o.
Proof. destruct o as [[a st]|e|]; simpl; auto. Qed.

Lemma ends_post A allowed (Post Post' : A -> TState S -> Prop)
    (o : outcome (A * TState S)) :
  (forall a st, Post a st -> Post' a st) ->
  ends allowed Post o -> ends allowed Post' o.
Proof. apply ends_weaken. auto. Qed.

Lemma ends_Ok A allowed (Post : A -> TState S -> Prop)
    (o : outcome (A * TState S)) a st :
  ends allowed Post o -> o = Ok (a, st) -> Post a st.
Proof. intros H ->. exact H. Qed.

Lemma ends_and A allowed (P1 P2 : A -> TState S -> Prop)
    (o : outcome (A * TState S)) :
  ends allowed P1 o -> ends allowed P2 o ->
  ends allowed (fun a st => P1 a st /\ P2 a st) o.
Proof. destruct o as [[a st]|e|]; simpl; auto. Qed.

Lemma ends_no_fault A (Post : A -> TState S -> Prop)
    (o : outcome (A * TState S)) :
  ends no_fault Post o -> exists a st, o = Ok (a, st) /\ Post a st.
Proof.
  destruct o as [[a st]|e|]; simpl; try contradiction.
  intros H. exists a, st. auto.
Qed.

Variable D : Type.
Variable rule : RuleType D S.

Lemma ends_BaseCase allowed q r st :
  ends allowed
    (fun _ st' => numPrunes st' = numPrunes st) (call_BaseCase rule q r st).
Proof.
  unfold call_BaseCase. destruct (BaseCase rule q r (rule_state st)).
  reflexivity.
Qed.

Lemma ends_Score allowed qn rn bc st :
  ends allowed
    (fun _ st' => numPrunes st' = numPrunes st) (call_Score rule qn rn bc st).
Proof.
  unfold call_Score. destruct (Score rule qn rn bc (rule_state st)).
  reflexivity.
Qed.

Lemma ends_Rescore allowed qn rn old st :
  ends allowed
    (fun r st' =>
       numPrunes st' = numPrunes st
       /\ r = fst (Rescore rule qn rn old (rule_state st)))
    (call_Rescore rule qn rn old st).
Proof.
  unfold call_Rescore. destruct (Rescore rule qn rn old (rule_state st)).
  split; reflexivity.
Qed.

Lemma counted_same st st' : numPrunes st' = numPrunes st -> counted st st' 0.
Proof. unfold counted. intros ->. rewrite N.add_0_r. reflexivity. Qed.

Lemma counted_add st st' k :
  numPrunes st' = size_add (numPrunes st) (N.of_nat k) -> counted st st' k.
Proof.
  unfold counted, size_add. intros ->. apply N.Div0.mod_mod.
Qed.

Lemma counted_trans st1 st2 st3 n k :
  counted st1 st2 n -> counted st2 st3 k -> counted st1 st3 (n + k).
Proof.
  unfold counted. intros H1 H2. rewrite H2.
  rewrite <- N.Div0.add_mod_idemp_l, H1, N.Div0.add_mod_idemp_l.
  f_equal. lia.
Qed.

Lemma counted_from st1 st2 st3 n :
  numPrunes st2 = numPrunes st1 -> counted st2 st3 n -> counted st1 st3 n.
Proof. unfold counted. intros ->. auto. Qed.

Lemma counted_one st1 st2 st3 n :
  numPrunes st2 = size_add (numPrunes st1) 1 -> counted st2 st3 n ->
  counted st1 st3 (Datatypes.S n).
Proof.
  intros H1 H2. apply (counted_trans st1 st2 st3 1 n); [|assumption].
  apply counted_add. exact H1.
Qed.

Lemma ends_add_prunes allowed n st :
  ends allowed
    (fun _ st' => numPrunes st' = size_add (numPrunes st) n)
    (@add_prunes S n st).
Proof. reflexivity. Qed.

End Ends.

Ltac ends_calls :=
  repeat first
    [ apply ends_ret
    | eapply ends_bind;
      [ first [ apply ends_BaseCase | apply ends_Score
              | apply ends_Rescore | apply ends_add_prunes ]
      | cbv beta; intros ? ? _ ]
    | match goal with
      | |- ends _ _ ((if ?c then _ else _) _) => destruct c
      end ].

(** ** Proper trees *)

Lemma proper_children p s cs :
  proper (Node p s cs) -> Forall (fun c => (Scale c < s)%Z /\ proper c) cs.
Proof.
  simpl. intros (_ & _ & H). induction cs as [|c cs IH]; simpl in *.
  - constructor.
  - destruct H as (H1 & H2 & H3). constructor; auto.
Qed.

Lemma proper_Children t :
  proper t ->
  Forall (fun c => (Scale c < Scale t)%Z /\ proper c) (Children t).
Proof. destruct t as [p s cs]. apply proper_children. Qed.

Lemma proper_Scale t : proper t -> (INT_MIN <= Scale t)%Z.
Proof. destruct t as [p s cs]. simpl. tauto. Qed.

Lemma proper_inner t : proper t -> Scale t <> INT_MIN -> Children t <> [].
Proof. destruct t as [p s cs]. simpl. tauto. Qed.

(** ** The shape of the reference map under its updates *)

Section FrontierInv.

Variable D : Type.

Implicit Types (m : scale_map D) (v adm : bucket D) (f g : MapEntry D).

Lemma m_find_cons j k v m :
  m_find j ((k, v) :: m) = if (j =? k)%Z then Some v else m_find j m.
Proof. reflexivity. Qed.

Lemma m_find_keys_Some k m : In k (keys m) -> exists v, m_find k m = Some v.
Proof.
  intros Hin. destruct (m_find k m) as [v|] eqn:E; [exists v; reflexivity|].
  apply m_find_keys in E. contradiction.
Qed.

Lemma frontier_inv_nil : frontier_inv (@nil (Z * bucket D)).
Proof. split; [exact I|]. intros k v H. discriminate H. Qed.

Lemma frontier_inv_set k v m :
  frontier_inv m -> bucket_inv k v -> frontier_inv (m_set k v m).
Proof.
  intros [Hok H] Hb. split; [apply map_ok_set; assumption|].
  intros j w. rewrite m_find_set.
  destruct (Z.eqb_spec j k) as [->|Hne].
  - intros E. inversion E. subst. assumption.
  - apply H.
Qed.

Lemma frontier_inv_erase k m : frontier_inv m -> frontier_inv (m_erase k m).
Proof.
  intros [Hok H]. split; [apply map_ok_erase; assumption|].
  intros j w. rewrite (m_find_erase j k m Hok).
  destruct (j =? k)%Z; [discriminate | apply H].
Qed.

Lemma bucket_inv_leaf_nil : bucket_inv INT_MIN (@nil (MapEntry D)).
Proof. split; [reflexivity | constructor]. Qed.

Lemma frontier_inv_touch_leaf m :
  frontier_inv m -> frontier_inv (m_touch INT_MIN m).
Proof.
  intros [Hok H]. split; [apply map_ok_touch; assumption|].
  intros j w. rewrite m_find_touch.
  destruct (m_find j m) as [v|] eqn:E.
  - intros E'. inversion E'. subst. auto.
  - destruct (Z.eqb_spec j INT_MIN) as [->|_]; [|discriminate].
    intros E'. inversion E'. apply bucket_inv_leaf_nil.
Qed.

Lemma frontier_inv_bucket k m :
  frontier_inv m ->
  Forall (fun f => Scale (referenceNode f) = k /\ proper (referenceNode f))
    (m_bucket k m).
Proof.
  intros [_ H]. unfold m_bucket. destruct (m_find k m) as [v|] eqn:E.
  - apply (H k v E).
  - constructor.
Qed.

Lemma frontier_inv_push g m :
  frontier_inv m -> proper (referenceNode g) ->
  frontier_inv (m_push (Scale (referenceNode g)) g m).
Proof.
  intros Hinv Hg. unfold m_push. apply frontier_inv_set; [assumption|].
  split.
  - intros E. destruct (m_bucket (Scale (referenceNode g)) m); discriminate.
  - apply Forall_app. split; [apply frontier_inv_bucket; assumption|].
    constructor; [split; [reflexivity | assumption] | constructor].
Qed.

Lemma frontier_inv_push_all adm : forall m,
  frontier_inv m -> Forall proper (nodes adm) ->
  frontier_inv (push_all adm m).
Proof.
  unfold push_all. induction adm as [|g adm IH]; intros m Hinv Hp;
    cbn [fold_left]; [assumption|].
  simpl in Hp. inversion Hp. subst.
  apply IH; [apply frontier_inv_push|]; assumption.
Qed.

Lemma frontier_inv_cons k v m :
  frontier_inv ((k, v) :: m) -> bucket_inv k v /\ frontier_inv m.
Proof.
  intros [Hok H]. split.
  - apply H. rewrite m_find_cons, Z.eqb_refl. reflexivity.
  - destruct Hok as [Hlt Hok]. split; [assumption|].
    intros j w E. apply H. rewrite m_find_cons.
    destruct (Z.eqb_spec j k) as [->|_]; [|assumption].
    apply m_find_Some_keys in E. rewrite Forall_forall in Hlt.
    apply Hlt in E. lia.
Qed.

Lemma bucket_inv_perm k v v' :
  Permutation v' v -> bucket_inv k v -> bucket_inv k v'.
Proof.
  intros Hp [Hne Hall]. split.
  - intros ->. apply Hne. apply Permutation_nil. assumption.
  - rewrite Forall_forall in *. intros f Hf. apply Hall.
    eapply Permutation_in; eassumption.
Qed.

Lemma frontier_inv_head k v v' m :
  bucket_inv k v' -> frontier_inv ((k, v) :: m) ->
  frontier_inv ((k, v') :: m).
Proof.
  intros Hb [Hok H]. split; [exact Hok|].
  intros j w. rewrite m_find_cons.
  destruct (Z.eqb_spec j k) as [->|Hne].
  - intros E. inversion E. subst. assumption.
  - intros E. apply H. rewrite m_find_cons.
    destruct (Z.eqb_spec j k); [contradiction | assumption].
Qed.

Lemma frontier_inv_In k v m :
  frontier_inv m -> In (k, v) m -> bucket_inv k v.
Proof. intros [Hok H] Hin. apply H. apply In_m_find; assumption. Qed.

Lemma frontier_inv_keys m :
  frontier_inv m -> Forall (fun k => (INT_MIN <= k)%Z) (keys m).
Proof.
  intros Hinv. rewrite Forall_forall. intros k Hk.
  unfold keys in Hk. apply in_map_iff in Hk.
  destruct Hk as ([k' v] & E & Hin). simpl in E. subst k'.
  destruct (frontier_inv_In k v m Hinv Hin) as [Hne Hall].
  destruct v as [|f v]; [rewrite Hne; [lia | reflexivity]|].
  apply Forall_inv in Hall. destruct Hall as [Hs Hp].
  rewrite <- Hs. apply proper_Scale. assumption.
Qed.

Lemma frontier_inv_frontier_ok m : frontier_inv m -> frontier_ok m.
Proof.
  intros Hinv. split; [apply Hinv|].
  intros k v f Hin Hf.
  destruct (frontier_inv_In k v m Hinv Hin) as [_ Hall].
  rewrite Forall_forall in Hall. apply Hall. assumption.
Qed.

Lemma frames_length_erase k w m :
  map_ok m -> m_find k m = Some w ->
  length (frames (m_erase k m)) + length w = length (frames m).
Proof.
  intros Hok E. pose proof (frames_erase D k m Hok) as Hp.
  apply Permutation_length in Hp. unfold m_bucket in Hp. rewrite E in Hp.
  rewrite length_app in Hp. lia.
Qed.

Lemma frames_length_set k v w m :
  map_ok m -> m_find k m = Some w ->
  length (frames (m_set k v m)) + length w = length (frames m) + length v.
Proof.
  intros Hok E. pose proof (frames_set D k v m Hok) as Hp.
  apply Permutation_length in Hp. rewrite length_app in Hp.
  pose proof (frames_length_erase k w m Hok E). lia.
Qed.

Lemma frames_length_set_fresh k v m :
  map_ok m -> m_find k m = None ->
  length (frames (m_set k v m)) = length (frames m) + length v.
Proof.
  intros Hok E. pose proof (frames_set D k v m Hok) as Hp.
  apply Permutation_length in Hp. rewrite length_app in Hp.
  rewrite (m_erase_absent D k m) in Hp; [lia|].
  apply m_find_keys. assumption.
Qed.

Lemma inner_frames_length m :
  frontier_inv m ->
  length (frames m)
  = length (inner_frames m) + length (m_bucket INT_MIN m).
Proof.
  induction m as [|[k v] m IH]; intros Hinv; [reflexivity|].
  destruct (frontier_inv_cons k v m Hinv) as [_ Hm].
  cbn [inner_frames]. unfold m_bucket. rewrite m_find_cons.
  change (frames ((k, v) :: m)) with (v ++ frames m).
  rewrite (Z.eqb_sym INT_MIN k).
  destruct (Z.eqb_spec k INT_MIN) as [->|Hne].
  - assert (m = []).
    { destruct m as [|[k2 v2] m2]; [reflexivity|]. exfalso.
      destruct Hinv as [[Hlt _] _]. inversion Hlt as [|? ? Hk2 _]. subst.
      pose proof (frontier_inv_keys _ Hm) as Hge.
      inversion Hge as [|? ? Hk2' _]. subst. simpl in *. lia. }
    subst m. simpl. rewrite app_nil_r. reflexivity.
  - specialize (IH Hm). unfold m_bucket in IH.
    rewrite !length_app. lia.
Qed.

End FrontierInv.

(** ** [ReferenceRecursion] under every policy *)

Section ReferenceRecursionEnds.

Variables D S : Type.
Variable is_DBL_MAX : D -> bool.
Variable rule : RuleType D S.
Variable sort : bucket D -> bucket D.
Hypothesis sort_perm : forall v, Permutation (sort v) v.

Implicit Types (m low : scale_map D) (st : TState S) (q : CoverTree)
  (allowed : fault -> Prop).

Lemma RR_children_ends allowed q cs : forall m st,
  ends allowed
    (fun m' st' =>
       exists adm pruned,
         m' = push_all adm m /\ subseq (nodes adm) cs
         /\ length adm + pruned = length cs
         /\ counted st st' pruned)
    (ReferenceRecursion_children is_DBL_MAX rule q cs m st).
Proof.
  induction cs as [|c rest IH]; intros m st;
    cbn [ReferenceRecursion_children].
  - apply ends_ret. exists [], 0. split; [reflexivity|].
    split; [apply subseq_nil|]. split; [reflexivity|].
    apply (counted_same S). reflexivity.
  - eapply ends_bind; [apply ends_BaseCase|]. cbv beta. intros bc st1 Hn1.
    eapply ends_bind; [apply ends_Score|]. cbv beta. intros sc st2 Hn2.
    destruct (is_DBL_MAX sc).
    + eapply ends_bind; [apply ends_add_prunes|]. cbv beta.
      intros _ st3 Hn3.
      eapply ends_post; [|apply IH].
      intros m' st' (adm & pruned & -> & Hs & Hlen & Hc).
      exists adm, (Datatypes.S pruned).
      split; [reflexivity|]. split; [apply subseq_skip; assumption|].
      split; [simpl; lia|].
      apply (counted_from S st st2); [congruence|].
      apply (counted_one S st2 st3 st' pruned Hn3 Hc).
    + eapply ends_post; [|apply IH].
      intros m' st' (adm & pruned & -> & Hs & Hlen & Hc).
      exists (mkEntry c sc (Point c) (Point q) bc :: adm), pruned.
      split; [reflexivity|]. split; [apply subseq_take; assumption|].
      split; [simpl; lia|].
      apply (counted_from S st st2); [congruence | assumption].
Qed.

(** What the body of the [for] loop does to the map and to [numPrunes]:
    one prune when [Rescore] prunes the frame; otherwise every child of the
    node is admitted or counted. *)
Lemma RR_frame_ends allowed q (f : MapEntry D) m st :
  (Children (referenceNode f) = [] -> allowed ChildOutOfRange) ->
  ends allowed
    (fun m' st' =>
       exists adm pruned,
         m' = push_all adm m
         /\ subseq (nodes adm) (Children (referenceNode f))
         /\ counted st st' pruned
         /\ if is_DBL_MAX
                (fst (Rescore rule q (referenceNode f) (score f)
                        (rule_state st)))
            then adm = [] /\ pruned = 1
            else length adm + pruned = NumChildren (referenceNode f))
    (ReferenceRecursion_frame is_DBL_MAX rule q f m st).
Proof.
  intros Hch. unfold ReferenceRecursion_frame.
  eapply ends_bind; [apply ends_Rescore|]. cbv beta. intros r st1 [Hn1 Hr].
  rewrite <- Hr. destruct (is_DBL_MAX r).
  { eapply ends_bind; [apply ends_add_prunes|]. cbv beta. intros _ st2 Hn2.
    apply ends_ret. exists [], 1. split; [reflexivity|].
    split; [apply subseq_nil_l|]. split; [|split; reflexivity].
    apply (counted_add S). simpl. congruence. }
  eapply ends_bind
    with (Mid := fun _ st2 => numPrunes st2 = numPrunes st1).
  { destruct (negb (Point (referenceNode f) =? referenceIndex f)
              || negb (Point q =? queryIndex f)).
    - apply ends_BaseCase.
    - apply ends_ret. reflexivity. }
  intros bc st2 Hn2.
  eapply ends_bind; [apply ends_Score|]. cbv beta. intros sc st3 Hn3.
  destruct (is_DBL_MAX sc).
  { eapply ends_bind; [apply ends_add_prunes|]. cbv beta. intros _ st4 Hn4.
    apply ends_ret. exists [], (NumChildren (referenceNode f)).
    split; [reflexivity|]. split; [apply subseq_nil_l|].
    split; [|reflexivity].
    apply (counted_add S). congruence. }
  unfold ReferenceRecursion_expand. unfold NumChildren.
  destruct (Children (referenceNode f)) as [|child0 others] eqn:E;
    [apply Hch; reflexivity|].
  eapply ends_bind; [apply ends_Score|]. cbv beta. intros sc0 st4 Hn4.
  eapply ends_bind
    with (Mid := fun m1 st5 =>
                   exists adm0 pruned0,
                     m1 = push_all adm0 m
                     /\ subseq (nodes adm0) [child0]
                     /\ length adm0 + pruned0 = 1
                     /\ counted st st5 pruned0).
  { destruct (is_DBL_MAX sc0).
    - eapply ends_bind; [apply ends_add_prunes|]. cbv beta.
      intros _ st5 Hn5.
      apply ends_ret. exists [], 1. split; [reflexivity|].
      split; [apply subseq_skip; apply subseq_nil|].
      split; [reflexivity|]. apply (counted_add S). simpl. congruence.
    - apply ends_ret.
      exists [mkEntry child0 sc0 (Point (referenceNode f)) (Point q) bc], 0.
      split; [reflexivity|].
      split; [apply subseq_take; apply subseq_nil|].
      split; [reflexivity|]. apply (counted_same S). congruence. }
  intros m1 st5 (adm0 & pruned0 & -> & Hs0 & Hlen0 & Hc0).
  eapply ends_post; [|apply RR_children_ends].
  intros m' st' (adm & pruned & -> & Hs & Hlen & Hc).
  exists (adm0 ++ adm), (pruned0 + pruned).
  split; [rewrite push_all_app; reflexivity|].
  split.
  - unfold nodes. rewrite map_app.
    change (child0 :: others) with ([child0] ++ others).
    apply subseq_app; assumption.
  - split; [eapply (counted_trans S); eassumption|].
    rewrite length_app. simpl. lia.
Qed.

Lemma kids_weight t :
  tree_weight t
  = Datatypes.S
      (fold_right (fun c n => Datatypes.S (tree_weight c) + n) 0
         (Children t)).
Proof. destruct t. reflexivity. Qed.

Lemma RR_for_ends allowed q top vec :
  (INT_MIN < top)%Z ->
  forall fuel i low st,
    frontier_inv ((top, vec) :: low) ->
    length (skipn i vec) < fuel ->
    ends allowed
      (fun m' _ =>
         exists low',
           m' = (top, vec) :: low'
           /\ frontier_inv ((top, vec) :: low')
           /\ map_weight low' + length (skipn i vec)
              <= map_weight low + bucket_weight (skipn i vec))
      (ReferenceRecursion_for is_DBL_MAX rule fuel q top i
         ((top, vec) :: low) st).
Proof.
  intros Htop. induction fuel as [|fuel IH]; intros i low st Hinv Hlen;
    [lia|].
  cbn [ReferenceRecursion_for]. rewrite m_bucket_head.
  destruct (nth_error vec i) as [f|] eqn:Hnth.
  - destruct (frontier_inv_cons D top vec low Hinv) as [[_ Hvec] Hlow].
    assert (Hf : Scale (referenceNode f) = top /\ proper (referenceNode f)).
    { rewrite Forall_forall in Hvec. apply Hvec.
      eapply nth_error_In. eassumption. }
    destruct Hf as [Hfs Hfp].
    eapply ends_bind.
    { apply RR_frame_ends. intros Hnil. exfalso.
      apply (proper_inner _ Hfp); [lia | assumption]. }
    cbv beta. intros m1 st1 (adm & pruned & -> & Hsub & _ & _).
    assert (Hadm : Forall (fun c => (Scale c < top)%Z /\ proper c)
                     (nodes adm)).
    { pose proof (proper_Children _ Hfp) as Hch. rewrite Hfs in Hch.
      rewrite Forall_forall in *. intros c Hc. apply Hch.
      eapply subseq_In; eassumption. }
    assert (Hbelow : Forall (fun g => (Scale (referenceNode g) < top)%Z) adm).
    { rewrite Forall_forall in *. intros g Hg.
      apply (Hadm (referenceNode g)). unfold nodes. apply in_map.
      assumption. }
    assert (Hprop : Forall proper (nodes adm)).
    { eapply Forall_impl; [|exact Hadm]. simpl. tauto. }
    rewrite (push_all_below D top vec adm low Hbelow).
    assert (Hinv1 : frontier_inv ((top, vec) :: push_all adm low)).
    { rewrite <- (push_all_below D top vec adm low Hbelow).
      apply frontier_inv_push_all; assumption. }
    eapply ends_post; [|apply (IH (Datatypes.S i) _ st1 Hinv1)].
    + intros m' _ (low' & -> & Hinv' & Hw). exists low'.
      split; [reflexivity|]. split; [assumption|].
      pose proof (map_weight_push_all D adm low (proj1 Hlow)) as Hpw.
      pose proof (children_weight D _ _ Hsub adm eq_refl) as Hcw.
      pose proof (kids_weight (referenceNode f)) as Hk.
      rewrite (bucket_weight_skipn D i vec f Hnth).
      rewrite (skipn_nth_error _ _ _ _ Hnth). cbn [length]. lia.
    + rewrite (skipn_nth_error _ _ _ _ Hnth) in Hlen. cbn [length] in Hlen.
      lia.
  - apply ends_ret. exists low. split; [reflexivity|].
    split; [assumption|].
    rewrite (skipn_nth_error_None _ _ _ Hnth). simpl. lia.
Qed.

Lemma RR_while_ends q :
  (INT_MIN <= Scale q)%Z ->
  forall fuel m st,
    frontier_inv m -> map_weight m < fuel ->
    ends emptied_read
      (fun m' _ =>
         frontier_inv m' /\ m' <> []
         /\ Forall (fun k => (k <= Scale q)%Z) (keys m'))
      (ReferenceRecursion_while is_DBL_MAX rule sort fuel q m st).
Proof.
  intros Hq. induction fuel as [|fuel IH]; intros m st Hinv Hlt; [lia|].
  cbn [ReferenceRecursion_while].
  destruct m as [|[top vec] low]; [reflexivity|].
  unfold m_rbegin. cbn [hd_error].
  destruct (Z.gtb_spec top (Scale q)) as [Hgt|Hle].
  - destruct ((Scale q =? INT_MIN)%Z && (top =? INT_MIN)%Z) eqn:Hbrk.
    { apply andb_true_iff in Hbrk. destruct Hbrk as [H1 H2].
      apply Z.eqb_eq in H1, H2. lia. }
    rewrite m_set_head.
    destruct (frontier_inv_cons D top vec low Hinv) as [Hvec Hlow].
    assert (Hinv1 : frontier_inv ((top, sort vec) :: low)).
    { eapply frontier_inv_head; [|exact Hinv].
      eapply bucket_inv_perm; [apply sort_perm | assumption]. }
    pose proof (length_le_bucket_weight D vec) as Hlv.
    pose proof (Permutation_length (sort_perm vec)) as Hls.
    eapply ends_bind.
    { apply (RR_for_ends emptied_read q top (sort vec)); [lia|exact Hinv1|].
      simpl. lia. }
    cbv beta. intros m2 st2 (low' & -> & Hinv' & Hw).
    cbn [hd_error]. rewrite m_erase_head.
    apply IH; [apply (frontier_inv_cons D top (sort vec) low' Hinv')|].
    cbn [skipn] in Hw. rewrite !map_weight_cons in *.
    rewrite (bucket_weight_perm D _ _ (sort_perm vec)) in Hw. lia.
  - apply ends_ret. split; [assumption|]. split; [discriminate|].
    pose proof (@map_ok_rbegin_max D top vec ((top, vec) :: low)
                  (proj1 Hinv) eq_refl) as Hmax.
    eapply Forall_impl; [|exact Hmax]. simpl. intros k Hk. lia.
Qed.

End ReferenceRecursionEnds.

(** ** The two filters under every policy *)

Section FilterEnds.

Variables D S : Type.
Variable is_DBL_MAX : D -> bool.
Variable rule : RuleType D S.

Implicit Types (m cm : scale_map D) (st : TState S) (q cand : CoverTree)
  (allowed : fault -> Prop) (v w sv nv : bucket D).

Lemma subseq_nodes_Forall (Q : CoverTree -> Prop) v w :
  subseq (nodes w) (nodes v) ->
  Forall (fun f => Q (referenceNode f)) v ->
  Forall (fun f => Q (referenceNode f)) w.
Proof.
  intros Hs Hv. rewrite Forall_forall in *. intros g Hg.
  apply (in_map (@referenceNode D)) in Hg.
  eapply subseq_In in Hg; [|exact Hs]. apply in_map_iff in Hg.
  destruct Hg as (f & E & Hf). rewrite <- E. apply Hv. assumption.
Qed.

Lemma PruneMap_frames_ends allowed cand sv : forall nv st,
  ends allowed
    (fun res st' =>
       exists added pruned,
         res = nv ++ added
         /\ subseq (nodes added) (nodes sv)
         /\ Forall (kept_for is_DBL_MAX (Point cand)) added
         /\ length added + pruned = length sv
         /\ counted st st' pruned)
    (PruneMap_frames is_DBL_MAX rule cand sv nv st).
Proof.
  induction sv as [|f rest IH]; intros nv st; cbn [PruneMap_frames].
  - apply ends_ret. exists [], 0. rewrite app_nil_r.
    split; [reflexivity|]. split; [apply subseq_nil|].
    split; [constructor|]. split; [reflexivity|].
    apply (counted_same S). reflexivity.
  - assert (Hskip : forall st0 st1,
               numPrunes st0 = numPrunes st ->
               numPrunes st1 = size_add (numPrunes st0) 1 ->
               ends allowed
                 (fun res st' =>
                    exists added pruned,
                      res = nv ++ added
                      /\ subseq (nodes added) (nodes (f :: rest))
                      /\ Forall (kept_for is_DBL_MAX (Point cand)) added
                      /\ length added + pruned = length (f :: rest)
                      /\ counted st st' pruned)
                 (PruneMap_frames is_DBL_MAX rule cand rest nv st1)).
    { intros st0 st1 H0 H1. eapply ends_post; [|apply IH].
      intros res st' (added & pruned & -> & Hs & Hk & Hlen & Hc).
      exists added, (Datatypes.S pruned).
      split; [reflexivity|]. split; [apply subseq_skip; assumption|].
      split; [assumption|]. split; [simpl; lia|].
      apply (counted_from S st st0); [assumption|].
      apply (counted_one S st0 st1 st' pruned H1 Hc). }
    eapply ends_bind; [apply ends_Rescore|]. cbv beta.
    intros sc st1 [Hn1 _].
    destruct (is_DBL_MAX sc).
    { eapply ends_bind; [apply ends_add_prunes|]. cbv beta.
      intros _ st2 Hn2. apply (Hskip st1 st2); assumption. }
    eapply ends_bind; [apply ends_BaseCase|]. cbv beta. intros bc st2 Hn2.
    eapply ends_bind; [apply ends_Score|]. cbv beta. intros sc' st3 Hn3.
    destruct (is_DBL_MAX sc') eqn:Hsc.
    { eapply ends_bind; [apply ends_add_prunes|]. cbv beta.
      intros _ st4 Hn4. apply (Hskip st3 st4); [congruence | assumption]. }
    eapply ends_post; [|apply IH].
    intros res st' (added & pruned & -> & Hs & Hk & Hlen & Hc).
    exists (set_frame f sc' bc (Point (referenceNode f)) (Point cand)
              :: added), pruned.
    rewrite <- app_assoc. split; [reflexivity|].
    split; [apply subseq_take; assumption|].
    split.
    + constructor; [|assumption]. split; [split; reflexivity | exact Hsc].
    + split; [simpl; lia|].
      apply (counted_from S st st3); [congruence | assumption].
Qed.

(** What [PruneMap] leaves in a bucket of the child's map. *)
Let child_bucket cand (buckets : scale_map D) (k : Z) w : Prop :=
  k <> INT_MIN
  /\ Forall (kept_for is_DBL_MAX (Point cand)) w
  /\ exists v, In (k, v) buckets /\ subseq (nodes w) (nodes v).

Lemma PruneMap_scales_ends allowed cand : forall buckets cm st,
  map_ok buckets ->
  (forall k v, In (k, v) buckets ->
     Forall (fun f => Scale (referenceNode f) = k
                      /\ proper (referenceNode f)) v) ->
  (forall j k, In j (keys cm) -> In k (keys buckets) -> (k < j)%Z) ->
  frontier_inv cm ->
  (forall k w, m_find k cm = Some w -> k <> INT_MIN) ->
  ends allowed
    (fun cm' st' =>
       frontier_inv cm'
       /\ (forall k w, m_find k cm' = Some w ->
             k <> INT_MIN
             /\ (m_find k cm = Some w \/ child_bucket cand buckets k w))
       /\ exists pruned,
            length (frames cm') + pruned
            = length (frames cm) + length (inner_frames buckets)
            /\ counted st st' pruned)
    (PruneMap_scales is_DBL_MAX rule cand buckets cm st).
Proof.
  induction buckets as [|[thisScale sv] rest IH];
    intros cm st Hbok Hb Habove Hinv Hnl; cbn [PruneMap_scales].
  - apply ends_ret. split; [assumption|]. split.
    + intros k w E.
      split; [eapply Hnl; eassumption | left; assumption].
    + exists 0. simpl. split; [lia | apply (counted_same S); reflexivity].
  - cbn [inner_frames].
    destruct (Z.eqb_spec thisScale INT_MIN) as [Hleaf|Hleaf].
    { apply ends_ret. split; [assumption|]. split.
      - intros k w E.
        split; [eapply Hnl; eassumption | left; assumption].
      - exists 0. simpl.
        split; [lia | apply (counted_same S); reflexivity]. }
    assert (Hfresh : m_find thisScale cm = None).
    { apply m_find_keys. intros Hin.
      specialize (Habove thisScale thisScale Hin (or_introl eq_refl)). lia. }
    assert (Htouch : m_touch thisScale cm = m_set thisScale [] cm).
    { unfold m_touch. rewrite Hfresh. reflexivity. }
    rewrite Htouch.
    assert (Hb0 : m_bucket thisScale (m_set thisScale [] cm) = []).
    { rewrite m_bucket_set, Z.eqb_refl. reflexivity. }
    rewrite Hb0.
    eapply ends_bind; [apply PruneMap_frames_ends|]. cbv beta.
    intros newvec st1 (added & pruned0 & -> & Hs & Hk & Hlen0 & Hc0).
    cbn [app]. destruct Hbok as [Hlt Hbok'].
    assert (Hok1 : map_ok (m_set thisScale [] cm)).
    { apply map_ok_set. apply Hinv. }
    assert (Hfind : forall j,
               m_find j (m_set thisScale added (m_set thisScale [] cm))
               = if (j =? thisScale)%Z then Some added else m_find j cm).
    { intros j. rewrite !m_find_set.
      destruct (Z.eqb_spec j thisScale); reflexivity. }
    assert (Hok2 : map_ok (m_set thisScale added (m_set thisScale [] cm))).
    { apply map_ok_set. assumption. }
    set (cm3 := match added with
                | [] => m_erase thisScale
                          (m_set thisScale added (m_set thisScale [] cm))
                | _ :: _ => m_set thisScale added (m_set thisScale [] cm)
                end).
    assert (Hfind3 : forall j,
               m_find j cm3
               = if (j =? thisScale)%Z
                 then match added with [] => None | _ => Some added end
                 else m_find j cm).
    { intros j. subst cm3. destruct added as [|g added'].
      - rewrite (m_find_erase j thisScale _ Hok2), Hfind.
        destruct (j =? thisScale)%Z; reflexivity.
      - apply Hfind. }
    assert (Hok3 : map_ok cm3).
    { subst cm3. destruct added; [apply map_ok_erase|]; assumption. }
    assert (Hlen3 : length (frames cm3)
                    = length (frames cm) + length added).
    { pose proof (frames_length_set_fresh D thisScale [] cm (proj1 Hinv)
                    Hfresh) as H1.
      pose proof (frames_length_set D thisScale added [] _ Hok1
                    (eq_trans (m_find_set thisScale thisScale [] cm)
                       (f_equal (fun b : bool =>
                                   if b then Some [] else m_find thisScale cm)
                          (Z.eqb_refl thisScale)))) as H2.
      subst cm3. destruct added as [|g added'].
      - pose proof (frames_length_erase D thisScale [] _ Hok2
                      (eq_trans (Hfind thisScale)
                         (f_equal (fun b : bool =>
                                     if b then Some []
                                     else m_find thisScale cm)
                            (Z.eqb_refl thisScale)))) as H3.
        simpl in *. lia.
      - simpl in *. lia. }
    assert (Hadded : Forall (fun f => Scale (referenceNode f) = thisScale
                                      /\ proper (referenceNode f)) added).
    { apply (subseq_nodes_Forall
               (fun t => Scale t = thisScale /\ proper t) sv added Hs).
      apply (Hb thisScale sv). left. reflexivity. }
    eapply ends_post; [|apply (IH cm3 st1 Hbok')].
    + intros cm' st' (Hinv' & Hall & pruned & Hlen & Hc).
      split; [assumption|]. split.
      * intros k w E.
        destruct (Hall k w E) as [Hk0 [E3|(H1 & H2 & v & Hin & Hsv)]].
        -- split; [assumption|]. rewrite Hfind3 in E3.
           destruct (Z.eqb_spec k thisScale) as [->|Hne];
             [|left; assumption].
           right. destruct added as [|g added']; [discriminate|].
           inversion E3. subst w. split; [assumption|].
           split; [assumption|].
           exists sv. split; [left; reflexivity | assumption].
        -- split; [assumption|]. right. split; [assumption|].
           split; [assumption|]. exists v.
           split; [right|]; assumption.
      * exists (pruned0 + pruned). rewrite length_app.
        split; [lia | eapply (counted_trans S); eassumption].
    + intros k v Hin. apply (Hb k v). right. assumption.
    + intros j k Hj Hk'.
      assert (Hj' : j = thisScale \/ In j (keys cm)).
      { apply m_find_keys_Some in Hj. destruct Hj as [w E].
        rewrite Hfind3 in E.
        destruct (Z.eqb_spec j thisScale) as [->|Hne]; [left; reflexivity|].
        right. eapply m_find_Some_keys. eassumption. }
      destruct Hj' as [->|Hj'].
      * rewrite Forall_forall in Hlt. apply Hlt. assumption.
      * apply Habove; [assumption | right; assumption].
    + split; [assumption|]. intros k w. rewrite Hfind3.
      destruct (Z.eqb_spec k thisScale) as [->|Hne].
      * destruct added as [|g added']; [discriminate|].
        intros E. inversion E. subst w. split; [discriminate | assumption].
      * apply Hinv.
    + intros k w. rewrite Hfind3.
      destruct (Z.eqb_spec k thisScale) as [->|Hne].
      * intros _. assumption.
      * apply Hnl.
Qed.

Lemma PruneMap_ends allowed q cand m st :
  frontier_inv m ->
  ends allowed
    (fun maps st' =>
       fst maps = match m with [] => [] | _ => m_touch INT_MIN m end
       /\ frontier_inv (fst maps) /\ frontier_inv (snd maps)
       /\ (forall k w, m_find k (snd maps) = Some w -> k <> INT_MIN ->
             Forall (kept_for is_DBL_MAX (Point cand)) w
             /\ exists v, m_find k m = Some v
                          /\ subseq (nodes w) (nodes v))
       /\ exists pruned,
            length (frames (snd maps)) + pruned = length (frames m)
            /\ counted st st' pruned)
    (PruneMap is_DBL_MAX rule q cand m [] st).
Proof.
  intros Hinv. unfold PruneMap.
  destruct m as [|e m0] eqn:Hm.
  { apply ends_ret. cbn [fst snd]. split; [reflexivity|].
    split; [apply frontier_inv_nil|]. split; [apply frontier_inv_nil|].
    split; [intros k w E; discriminate E|].
    exists 0. split; [reflexivity | apply (counted_same S); reflexivity]. }
  rewrite <- Hm in *. clear Hm e m0.
  eapply ends_bind.
  { apply (PruneMap_scales_ends allowed cand m [] st).
    - apply Hinv.
    - intros k v Hin. apply (frontier_inv_In D k v m Hinv Hin).
    - intros j k [].
    - apply frontier_inv_nil.
    - intros k w E. discriminate E. }
  cbv beta. intros cm st1 (Hcm & Hall & pruned & Hlen & Hc).
  apply ends_ret. cbn [fst snd].
  split; [reflexivity|].
  pose proof (frontier_inv_touch_leaf D m Hinv) as Hinv'.
  split; [assumption|]. split; [|split].
  - apply frontier_inv_set; [assumption|]. split; [reflexivity|].
    apply frontier_inv_bucket. assumption.
  - intros k w. rewrite m_find_set.
    destruct (Z.eqb_spec k INT_MIN) as [->|Hne]; [intros _ Hk; contradiction|].
    intros E _. destruct (Hall k w E) as [_ [E0|(_ & Hk & v & Hin & Hs)]];
      [discriminate E0|].
    split; [assumption|]. exists v. split; [|assumption].
    apply In_m_find; [apply Hinv | assumption].
  - exists pruned. split; [|assumption].
    assert (Hnone : m_find INT_MIN cm = None).
    { destruct (m_find INT_MIN cm) as [w|] eqn:E; [|reflexivity].
      destruct (Hall INT_MIN w E) as [Hk _]. contradiction. }
    rewrite (frames_length_set_fresh D INT_MIN _ cm (proj1 Hcm) Hnone).
    rewrite m_bucket_touch.
    rewrite (inner_frames_length D m Hinv). simpl in Hlen. lia.
Qed.

Lemma PMSC_frames_ends allowed cand vec : forall acc st,
  ends allowed
    (fun res st' =>
       exists kept pruned,
         res = acc ++ kept
         /\ subseq (nodes kept) (nodes vec)
         /\ Forall (kept_for is_DBL_MAX (Point cand)) kept
         /\ length kept + pruned = length vec
         /\ counted st st' pruned)
    (PruneMapForSelfChild_frames is_DBL_MAX rule cand vec acc st).
Proof.
  induction vec as [|f rest IH]; intros acc st;
    cbn [PruneMapForSelfChild_frames].
  - apply ends_ret. exists [], 0. rewrite app_nil_r.
    split; [reflexivity|]. split; [apply subseq_nil|].
    split; [constructor|]. split; [reflexivity|].
    apply (counted_same S). reflexivity.
  - assert (Hskip : forall st1,
               numPrunes st1 = size_add (numPrunes st) 1 ->
               ends allowed
                 (fun res st' =>
                    exists kept pruned,
                      res = acc ++ kept
                      /\ subseq (nodes kept) (nodes (f :: rest))
                      /\ Forall (kept_for is_DBL_MAX (Point cand)) kept
                      /\ length kept + pruned = length (f :: rest)
                      /\ counted st st' pruned)
                 (PruneMapForSelfChild_frames is_DBL_MAX rule cand rest acc
                    st1)).
    { intros st1 H1. eapply ends_post; [|apply IH].
      intros res st' (kept & pruned & -> & Hs & Hk & Hlen & Hc).
      exists kept, (Datatypes.S pruned).
      split; [reflexivity|]. split; [apply subseq_skip; assumption|].
      split; [assumption|]. split; [simpl; lia|].
      apply (counted_one S st st1 st' pruned H1 Hc). }
    eapply ends_bind
      with (Mid := fun (obc : option D) st1 =>
                     match obc with
                     | None => numPrunes st1 = size_add (numPrunes st) 1
                     | Some _ => numPrunes st1 = numPrunes st
                     end).
    { destruct (negb (referenceIndex f =? Point (referenceNode f))
                || negb (queryIndex f =? Point cand)).
      - eapply ends_bind; [apply ends_Rescore|]. cbv beta.
        intros sc st1 [Hn1 _].
        destruct (is_DBL_MAX sc).
        + eapply ends_bind; [apply ends_add_prunes|]. cbv beta.
          intros _ st2 Hn2. apply ends_ret. simpl in *. congruence.
        + eapply ends_bind; [apply ends_BaseCase|]. cbv beta.
          intros bc st2 Hn2. apply ends_ret. congruence.
      - apply ends_ret. reflexivity. }
    intros [bc|] st1 Hn1; [|apply Hskip; assumption].
    eapply ends_bind; [apply ends_Score|]. cbv beta. intros sc' st2 Hn2.
    destruct (is_DBL_MAX sc') eqn:Hsc.
    { eapply ends_bind; [apply ends_add_prunes|]. cbv beta.
      intros _ st3 Hn3. apply Hskip. simpl in *. congruence. }
    eapply ends_post; [|apply IH].
    intros res st' (kept & pruned & -> & Hs & Hk & Hlen & Hc).
    exists (set_frame f sc' bc (Point (referenceNode f)) (Point cand)
              :: kept), pruned.
    rewrite <- app_assoc. split; [reflexivity|].
    split; [apply subseq_take; assumption|].
    split.
    + constructor; [|assumption]. split; [split; reflexivity | exact Hsc].
    + split; [simpl; lia|].
      apply (counted_from S st st2); [congruence | assumption].
Qed.

End FilterEnds.

(** ** The reverse iterator of [PruneMapForSelfChild] *)

Section IteratorFacts.

Variable D : Type.

Implicit Types (m : scale_map D) (cur : iterator).

Lemma m_begin_In m e : m_begin m = Some e -> In e m.
Proof.
  induction m as [|e0 m IH]; [discriminate|].
  destruct m as [|e1 m'].
  - simpl. intros H. inversion H. left. reflexivity.
  - intros H. right. apply IH. exact H.
Qed.

Lemma m_begin_min m k v :
  map_ok m -> m_begin m = Some (k, v) ->
  Forall (fun j => (k <= j)%Z) (keys m).
Proof.
  induction m as [|[k0 v0] m IH]; [discriminate|].
  intros [Hlt Hok] H. destruct m as [|e1 m'].
  - simpl in H. inversion H. subst. constructor; [simpl; lia | constructor].
  - specialize (IH Hok H). constructor; [|exact IH].
    assert (Hin : In (k, v) (e1 :: m')) by (apply m_begin_In; exact H).
    apply (in_map fst) in Hin.
    rewrite Forall_forall in Hlt. specialize (Hlt k Hin). simpl. lia.
Qed.

Lemma m_begin_Some m : m <> [] -> exists e, m_begin m = Some e.
Proof.
  induction m as [|e0 m IH]; [contradiction|]. intros _.
  destruct m as [|e1 m'].
  - exists e0. reflexivity.
  - destruct IH as [e E]; [discriminate|]. exists e. exact E.
Qed.

Lemma leaf_begin m lv :
  frontier_inv m -> m_find INT_MIN m = Some lv -> begin_it m = At INT_MIN.
Proof.
  intros Hinv Hleaf. unfold begin_it.
  destruct (m_begin_Some m) as [[k v] E].
  { intros ->. discriminate Hleaf. }
  rewrite E. f_equal.
  pose proof (m_begin_min m k v (proj1 Hinv) E) as Hmin.
  pose proof (frontier_inv_keys D m Hinv) as Hge.
  rewrite Forall_forall in Hmin, Hge.
  specialize (Hmin INT_MIN (m_find_Some_keys _ _ Hleaf)).
  apply m_begin_In in E. apply (in_map fst) in E. simpl in E.
  specialize (Hge k E). lia.
Qed.

Lemma first_below_Some c m j :
  In j (keys m) -> (j < c)%Z -> first_below c m <> None.
Proof.
  induction m as [|[k v] m IH]; simpl; [tauto|].
  intros [->|Hin] Hlt.
  - destruct (Z.ltb_spec j c); [discriminate | lia].
  - destruct (k <? c)%Z; [discriminate | auto].
Qed.

Lemma leaf_prev cur m lv :
  m_find INT_MIN m = Some lv -> above_leaf cur -> it_prev cur m <> None.
Proof.
  intros Hleaf Habove. destruct cur as [|c]; cbn [it_prev].
  - destruct m; [discriminate Hleaf | discriminate].
  - apply (first_below_Some c m INT_MIN); [|exact Habove].
    eapply m_find_Some_keys. eassumption.
Qed.

Lemma it_prev_In cur m e : it_prev cur m = Some e -> In e m.
Proof.
  destruct cur as [|c]; cbn [it_prev].
  - destruct m; simpl; [discriminate|]. intros H. inversion H. left.
    reflexivity.
  - apply first_below_In.
Qed.

Lemma it_prev_under cur m k v :
  it_prev cur m = Some (k, v) -> under cur k = true.
Proof.
  destruct cur as [|c]; cbn [it_prev under]; [reflexivity|].
  intros H. apply first_below_lt in H. apply Z.ltb_lt. assumption.
Qed.

Lemma it_valid_At c m : it_valid (At c) m = true -> In c (keys m).
Proof.
  cbn [it_valid]. destruct (m_find c m) as [v|] eqn:E; [|discriminate].
  intros _. eapply m_find_Some_keys. eassumption.
Qed.

End IteratorFacts.

(** ** [PruneMapForSelfChild] under every policy *)

Section SelfChildEnds.

Variables D S : Type.
Variable is_DBL_MAX : D -> bool.
Variable rule : RuleType D S.

Implicit Types (m : scale_map D) (st : TState S) (cand : CoverTree)
  (cur : iterator).

Lemma filtered_refl m : filtered m m.
Proof.
  split; [reflexivity|]. intros k w E. exists w.
  split; [assumption | apply subseq_refl].
Qed.

Lemma filtered_trans m1 m2 m3 :
  filtered m1 m2 -> filtered m2 m3 -> filtered m1 m3.
Proof.
  intros [H1 H1'] [H2 H2']. split; [congruence|].
  intros k w E. destruct (H2' k w E) as (v2 & E2 & Hs2).
  destruct (H1' k v2 E2) as (v1 & E1 & Hs1). exists v1.
  split; [assumption|]. eapply subseq_trans; eassumption.
Qed.

Lemma it_valid_off cur m m2 k :
  under cur k = true ->
  (forall j, j <> k -> m_find j m2 = m_find j m) ->
  it_valid cur m = true -> it_valid cur m2 = true.
Proof.
  destruct cur as [|c]; cbn [it_valid under]; [reflexivity|].
  intros Hlt Hsame. rewrite Hsame; [auto|].
  apply Z.ltb_lt in Hlt. lia.
Qed.

Lemma above_leaf_under cur m k :
  frontier_inv m -> In k (keys m) -> under cur k = true -> above_leaf cur.
Proof.
  intros Hinv Hk. destruct cur as [|c]; cbn [under above_leaf]; [auto|].
  intros Hlt. apply Z.ltb_lt in Hlt.
  pose proof (frontier_inv_keys D m Hinv) as Hge.
  rewrite Forall_forall in Hge. specialize (Hge k Hk). lia.
Qed.

(** [++it] on a map in shape. *)
Lemma rit_incr_ends cur m st :
  frontier_inv m -> m <> [] -> it_valid cur m = true -> above_leaf cur ->
  ends (leafless_step m)
    (fun cur' st' =>
       st' = st /\ it_valid cur' m = true
       /\ below cur' m < below cur m)
    (lift (rit_incr cur m) st).
Proof.
  intros Hinv Hne Hvalid Habove. unfold lift, rit_incr.
  rewrite Hvalid. cbn [negb].
  assert (Hleaf : forall lv, m_find INT_MIN m = Some lv ->
                    iterator_eqb cur (begin_it m) = false
                    /\ it_prev cur m <> None).
  { intros lv E. split; [|eapply leaf_prev; eassumption].
    rewrite (leaf_begin D m lv Hinv E).
    destruct cur as [|c]; cbn [iterator_eqb above_leaf] in *; [reflexivity|].
    apply Z.eqb_neq. lia. }
  destruct (iterator_eqb cur (begin_it m)) eqn:Hb.
  { simpl. split; [reflexivity|].
    destruct (m_find INT_MIN m) as [lv|] eqn:E; [|reflexivity].
    destruct (Hleaf lv eq_refl). discriminate. }
  destruct (it_prev cur m) as [[k v]|] eqn:Hprev.
  - simpl. split; [reflexivity|]. split.
    + apply it_prev_In in Hprev.
      rewrite (In_m_find k v m (proj1 Hinv) Hprev). reflexivity.
    + eapply it_prev_below. eassumption.
  - simpl. split; [reflexivity|].
    destruct (m_find INT_MIN m) as [lv|] eqn:E; [|reflexivity].
    destruct (Hleaf lv eq_refl). contradiction.
Qed.

Lemma PMSC_loop_ends cand : forall fuel cur m st,
  frontier_inv m -> it_valid cur m = true -> below cur m < fuel ->
  ends (leafless_step m)
    (fun m' st' =>
       frontier_inv m' /\ filtered m m'
       /\ exists pruned,
            length (frames m') + pruned = length (frames m)
            /\ counted st st' pruned)
    (PruneMapForSelfChild_loop is_DBL_MAX rule fuel cand cur m st).
Proof.
  induction fuel as [|fuel IH]; intros cur m st Hinv Hvalid Hlt; [lia|].
  cbn [PruneMapForSelfChild_loop].
  assert (Hstop : forall st0,
             numPrunes st0 = numPrunes st ->
             ends (leafless_step m)
               (fun m' st' =>
                  frontier_inv m' /\ filtered m m'
                  /\ exists pruned,
                       length (frames m') + pruned = length (frames m)
                       /\ counted st st' pruned)
               (ret m st0)).
  { intros st0 H0. apply ends_ret. split; [assumption|].
    split; [apply filtered_refl|]. exists 0.
    split; [lia | apply (counted_same S); assumption]. }
  destruct (iterator_eqb cur (begin_it m)) eqn:Hb;
    [apply Hstop; reflexivity|].
  unfold bind at 1. unfold lift, rit_deref. rewrite Hvalid. cbn [negb].
  destruct (it_prev cur m) as [[thisScale vec]|] eqn:Hprev.
  2:{ simpl. split; [reflexivity|].
      destruct (m_find INT_MIN m) as [lv|] eqn:E; [|reflexivity].
      exfalso. apply (leaf_prev D cur m lv E); [|assumption].
      destruct cur as [|c]; cbn [above_leaf]; [exact I|].
      rewrite (leaf_begin D m lv Hinv E) in Hb. cbn [iterator_eqb] in Hb.
      apply Z.eqb_neq in Hb. apply it_valid_At in Hvalid.
      pose proof (frontier_inv_keys D m Hinv) as Hge.
      rewrite Forall_forall in Hge. specialize (Hge c Hvalid). lia. }
  destruct (Z.eqb_spec thisScale INT_MIN) as [Hleaf|Hleaf];
    [apply Hstop; reflexivity|].
  pose proof (it_prev_In D cur m _ Hprev) as Hin.
  pose proof (it_prev_under D cur m _ _ Hprev) as Hunder.
  pose proof (In_m_find thisScale vec m (proj1 Hinv) Hin) as Hfind.
  destruct (frontier_inv_In D thisScale vec m Hinv Hin) as [_ Hvec].
  assert (Hkey : In thisScale (keys m)).
  { eapply m_find_Some_keys. eassumption. }
  pose proof (above_leaf_under cur m thisScale Hinv Hkey Hunder) as Habove.
  eapply ends_bind; [apply PMSC_frames_ends|]. cbv beta.
  intros newvec st1 (kept & pruned0 & -> & Hs & Hk & Hlen0 & Hc0).
  cbn [app].
  assert (Hstep : forall m2,
             frontier_inv m2 -> m2 <> [] ->
             (forall c, below c m2 <= below c m) ->
             (forall j, j <> thisScale -> m_find j m2 = m_find j m) ->
             (forall w, m_find thisScale m2 = Some w ->
                        subseq (nodes w) (nodes vec)) ->
             length (frames m2) + pruned0 = length (frames m) ->
             ends (leafless_step m)
               (fun m' st' =>
                  frontier_inv m' /\ filtered m m'
                  /\ exists pruned,
                       length (frames m') + pruned = length (frames m)
                       /\ counted st st' pruned)
               (bind (lift (rit_incr cur m2))
                  (fun cur' =>
                     PruneMapForSelfChild_loop is_DBL_MAX rule fuel cand
                       cur' m2) st1)).
  { intros m2 Hinv2 Hne2 Hle Hsame Hthis Hcount.
    assert (Hf2 : filtered m m2).
    { split; [apply Hsame; congruence|]. intros k w E.
      destruct (Z.eq_dec k thisScale) as [->|Hne].
      - exists vec. split; [assumption | apply Hthis; assumption].
      - exists w. rewrite <- (Hsame k Hne).
        split; [assumption | apply subseq_refl]. }
    assert (Hl2 : forall e, leafless_step m2 e -> leafless_step m e).
    { intros e [He Hn]. split; [assumption|].
      rewrite <- (Hsame INT_MIN); [assumption | congruence]. }
    eapply ends_bind.
    { eapply ends_weaken; [exact Hl2 | |apply rit_incr_ends];
        [intros a s H; exact H | assumption | assumption | | assumption].
      eapply it_valid_off; eassumption. }
    cbv beta. intros cur' st2 (-> & Hv' & Hb').
    eapply ends_weaken; [exact Hl2 | |apply IH]; try assumption.
    - intros m' st' (Hinv' & Hf' & pruned & Hlen' & Hc').
      split; [assumption|].
      split; [eapply filtered_trans; eassumption|].
      exists (pruned0 + pruned).
      split; [lia | eapply (counted_trans S); eassumption].
    - specialize (Hle cur). lia. }
  destruct kept as [|g kept].
  - rewrite (m_erase_set D thisScale [] m (proj1 Hinv)).
    pose proof (frames_length_erase D thisScale vec m (proj1 Hinv) Hfind)
      as Hfe.
    destruct (m_erase thisScale m) as [|e2 m2] eqn:Hm2.
    { apply ends_ret. split; [apply frontier_inv_nil|].
      split; [split|].
      - destruct (m_find INT_MIN m) as [lv|] eqn:E; [|reflexivity].
        exfalso.
        pose proof (m_find_erase INT_MIN thisScale m (proj1 Hinv)) as He.
        rewrite Hm2 in He. destruct (Z.eqb_spec INT_MIN thisScale); [lia|].
        rewrite E in He. discriminate He.
      - intros k w E. discriminate E.
      - exists pruned0. simpl in *. split; [lia | assumption]. }
    rewrite <- Hm2 in *. apply Hstep.
    + apply frontier_inv_erase. assumption.
    + rewrite Hm2. discriminate.
    + intros c. apply below_erase.
    + intros j Hne. rewrite (m_find_erase j thisScale m (proj1 Hinv)).
      destruct (Z.eqb_spec j thisScale); [contradiction | reflexivity].
    + intros w. rewrite (m_find_erase thisScale thisScale m (proj1 Hinv)).
      rewrite Z.eqb_refl. discriminate.
    + simpl in Hlen0. lia.
  - apply Hstep.
    + apply frontier_inv_set; [assumption|]. split; [discriminate|].
      apply (subseq_nodes_Forall D
               (fun t => Scale t = thisScale /\ proper t) vec (g :: kept));
        assumption.
    + intros E. apply (f_equal (m_find thisScale)) in E.
      rewrite m_find_set, Z.eqb_refl in E. discriminate E.
    + intros c. unfold below.
      rewrite (keys_set_present D thisScale (g :: kept) vec m
                 (proj1 Hinv) Hfind). lia.
    + intros j Hne. rewrite m_find_set.
      destruct (Z.eqb_spec j thisScale); [contradiction | reflexivity].
    + intros w. rewrite m_find_set, Z.eqb_refl. intros E. inversion E.
      subst. assumption.
    + pose proof (frames_length_set D thisScale (g :: kept) vec m
                    (proj1 Hinv) Hfind). lia.
Qed.

Lemma PMSC_ends cand m st :
  frontier_inv m ->
  ends (leafless_step m)
    (fun m' st' =>
       frontier_inv m' /\ filtered m m'
       /\ exists pruned,
            length (frames m') + pruned = length (frames m)
            /\ counted st st' pruned)
    (PruneMapForSelfChild is_DBL_MAX rule cand m st).
Proof.
  intros Hinv. unfold PruneMapForSelfChild.
  destruct m as [|e m0] eqn:Hm.
  { apply ends_ret. split; [assumption|]. split; [apply filtered_refl|].
    exists 0. split; [reflexivity | apply (counted_same S); reflexivity]. }
  rewrite <- Hm in *. apply PMSC_loop_ends; [assumption | reflexivity|].
  unfold below. rewrite filter_under_End. unfold keys.
  rewrite length_map. lia.
Qed.

End SelfChildEnds.

(** ** [Traverse] under every policy *)

Section TraverseEnds.

Variables D S : Type.
Variable is_DBL_MAX : D -> bool.
Variable zero : D.
Variable rule : RuleType D S.
Variable sort : bucket D -> bucket D.
Hypothesis sort_perm : forall v, Permutation (sort v) v.

Implicit Types (m : scale_map D) (st : TState S) (q c : CoverTree).

(** The body of the loop over the non-self children of [q]. *)
Let child_step (q : CoverTree) :=
  fun (child : CoverTree) (referenceMap : scale_map D) =>
    bind (PruneMap is_DBL_MAX rule q child referenceMap [])
      (fun maps =>
         bind (Traverse_map is_DBL_MAX rule sort child (snd maps))
           (fun _ => ret (fst maps))).

Lemma Traverse_map_eq q m :
  Traverse_map is_DBL_MAX rule sort q m
  = match m with
    | [] => ret m
    | _ =>
        bind (ReferenceRecursion is_DBL_MAX rule sort q m)
          (fun referenceMap1 =>
             bind
               (if negb (Scale q =? INT_MIN)%Z
                then
                  match m_rbegin referenceMap1 with
                  | None => fail EmptyMapDeref
                  | Some (top, _) =>
                      if (Scale q >=? top)%Z
                      then
                        match Children q with
                        | [] => fail ChildOutOfRange
                        | child0 :: others =>
                            bind
                              (for_each_child (child_step q) others
                                 referenceMap1)
                              (fun referenceMap' =>
                                 bind
                                   (PruneMapForSelfChild is_DBL_MAX rule
                                      child0 referenceMap')
                                   (fun referenceMap'' =>
                                      Traverse_map is_DBL_MAX rule sort
                                        child0 referenceMap''))
                        end
                      else ret referenceMap1
                  end
                else ret referenceMap1)
               (fun referenceMap2 =>
                  if negb (Scale q =? INT_MIN)%Z
                  then ret referenceMap2
                  else
                    match m_begin referenceMap2 with
                    | None => fail EmptyMapDeref
                    | Some (first, pointVector) =>
                        if negb (first =? INT_MIN)%Z
                        then fail AssertionFailed
                        else
                          bind (base_cases is_DBL_MAX rule q pointVector)
                            (fun _ => ret referenceMap2)
                    end))
    end.
Proof. destruct q. reflexivity. Qed.

Lemma base_cases_ends allowed q pv : forall st,
  ends allowed (fun _ _ => True) (base_cases is_DBL_MAX rule q pv st).
Proof.
  induction pv as [|f rest IH]; intros st; cbn [base_cases].
  - apply ends_ret. exact I.
  - destruct ((referenceIndex f =? Point (referenceNode f))
              && (queryIndex f =? Point q)).
    + eapply ends_bind; [apply ends_add_prunes|]. cbv beta. intros _ st1 _.
      apply IH.
    + eapply ends_bind; [apply ends_Rescore|]. cbv beta. intros r st1 _.
      destruct (is_DBL_MAX r).
      * eapply ends_bind; [apply ends_add_prunes|]. cbv beta.
        intros _ st2 _. apply IH.
      * eapply ends_bind; [apply ends_BaseCase|]. cbv beta.
        intros _ st2 _. apply IH.
Qed.

Lemma m_touch_present k m v : m_find k m = Some v -> m_touch k m = m.
Proof. unfold m_touch. intros ->. reflexivity. Qed.

Lemma m_touch_find k m : exists v, m_find k (m_touch k m) = Some v.
Proof.
  rewrite m_find_touch. destruct (m_find k m) as [v|]; [eauto|].
  rewrite Z.eqb_refl. eauto.
Qed.

Lemma after_children_cons c cs m :
  after_children cs (match m with [] => [] | _ => m_touch INT_MIN m end)
  = after_children (c :: cs) m.
Proof.
  destruct m as [|e m0] eqn:Hm; [destruct cs; reflexivity|].
  rewrite <- Hm. cbn [after_children].
  destruct (m_touch_find INT_MIN m) as [v Hv].
  destruct cs as [|c' cs'].
  - subst. reflexivity.
  - cbn [after_children].
    destruct (m_touch INT_MIN m) as [|e1 m1] eqn:Ht.
    + subst. reflexivity.
    + rewrite <- Ht in *. rewrite (m_touch_present _ _ _ Hv).
      subst. reflexivity.
Qed.

Lemma for_each_child_ends q cs : forall m st,
  Forall (fun c => forall m st,
            frontier_inv m ->
            ends emptied_or_begin (fun m' _ => frontier_inv m')
              (Traverse_map is_DBL_MAX rule sort c m st)) cs ->
  frontier_inv m ->
  ends emptied_or_begin
    (fun m' _ => frontier_inv m' /\ m' = after_children cs m)
    (for_each_child (child_step q) cs m st).
Proof.
  induction cs as [|c rest IH]; intros m st Hcs Hinv; cbn [for_each_child].
  - apply ends_ret. split; [assumption | reflexivity].
  - inversion Hcs as [|? ? Hc Hrest]. subst.
    eapply ends_bind
      with (Mid := fun m1 _ =>
                     frontier_inv m1
                     /\ m1 = match m with
                             | [] => []
                             | _ => m_touch INT_MIN m
                             end).
    + unfold child_step. eapply ends_bind; [apply PruneMap_ends; assumption|].
      cbv beta. intros [mP cm] stP (HmP & HinvP & Hinvcm & _).
      cbn [fst snd] in *.
      eapply ends_bind; [apply Hc; assumption|]. cbv beta.
      intros _ stT _. apply ends_ret. split; assumption.
    + intros m1 st1 [Hinv1 ->].
      eapply ends_post; [|apply IH; assumption].
      intros m' _ [Hinv' ->]. split; [assumption|].
      apply after_children_cons.
Qed.

Lemma for_each_child_Ok q cs : forall m st mL stL,
  frontier_inv m ->
  for_each_child (child_step q) cs m st = Ok (mL, stL) ->
  frontier_inv mL /\ mL = after_children cs m.
Proof.
  induction cs as [|c rest IH]; intros m st mL stL Hinv H;
    cbn [for_each_child] in H.
  - apply ret_Ok in H. destruct H as [E _]. subst mL.
    split; [assumption | reflexivity].
  - apply bind_Ok in H. destruct H as (m1 & st1 & Hstep & Hrest).
    unfold child_step in Hstep. apply bind_Ok in Hstep.
    destruct Hstep as ([mP cm] & stP & HPM & Hstep).
    apply bind_Ok in Hstep. destruct Hstep as (mT & stT & _ & Hret).
    apply ret_Ok in Hret. destruct Hret as [E _]. cbn [fst] in E.
    subst m1.
    pose proof (PruneMap_ends D S is_DBL_MAX rule no_fault q c m st Hinv)
      as He.
    rewrite HPM in He. simpl in He. destruct He as (-> & HinvP & _).
    destruct (IH _ _ _ _ HinvP Hrest) as [HinvL ->].
    split; [assumption | apply after_children_cons].
Qed.

Lemma leaf_only m :
  frontier_inv m -> m <> [] ->
  Forall (fun k => (k <= INT_MIN)%Z) (keys m) ->
  exists pv, m = [(INT_MIN, pv)].
Proof.
  intros Hinv Hne Hle. pose proof (frontier_inv_keys D m Hinv) as Hge.
  destruct m as [|[k v] rest]; [contradiction|].
  inversion Hle as [|? ? Hk Hle']. inversion Hge as [|? ? Hk' Hge']. subst.
  assert (k = INT_MIN) by lia. subst k.
  destruct rest as [|[k2 v2] rest'].
  - exists v. reflexivity.
  - exfalso. destruct Hinv as [[Hlt _] _].
    inversion Hlt as [|? ? Hk2 _]. inversion Hge' as [|? ? Hk2' _]. subst.
    simpl in *. lia.
Qed.

Lemma Traverse_map_ends : forall q, proper q -> forall m st,
  frontier_inv m ->
  ends emptied_or_begin (fun m' _ => frontier_inv m')
    (Traverse_map is_DBL_MAX rule sort q m st).
Proof.
  induction q as [p s cs IH] using CoverTree_ind'.
  intros Hq m st Hinv. rewrite Traverse_map_eq.
  pose proof (proper_Scale _ Hq) as Hs.
  pose proof (proper_Children _ Hq) as Hch.
  cbn [Scale Children] in *.
  destruct m as [|e m0] eqn:Hm; [apply ends_ret; assumption|].
  rewrite <- Hm in *. clear Hm e m0.
  eapply ends_bind.
  { unfold ReferenceRecursion.
    eapply ends_weaken;
      [| |apply (RR_while_ends D S is_DBL_MAX rule sort sort_perm
                   (Node p s cs) Hs _ m st Hinv)];
      [intros e He; left; exact He | intros a s0 H; exact H | lia]. }
  cbv beta. intros mR stR (HinvR & HneR & HleR). cbn [Scale] in HleR.
  eapply ends_bind with (Mid := fun m2 _ =>
                                  frontier_inv m2
                                  /\ (s = INT_MIN -> m2 = mR)).
  - destruct (Z.eqb_spec s INT_MIN) as [Hleaf|Hinner]; cbn [negb].
    { apply ends_ret. split; [assumption | reflexivity]. }
    destruct (m_rbegin mR) as [[top v]|]; [|left; reflexivity].
    destruct (s >=? top)%Z;
      [|apply ends_ret; split; [assumption | contradiction]].
    destruct cs as [|c0 others].
    { exfalso. apply (proper_inner _ Hq); [exact Hinner | reflexivity]. }
    inversion IH as [|? ? IH0 IHo]. inversion Hch as [|? ? [_ Hc0] Hco].
    subst.
    assert (Hothers : Forall (fun c => forall m st,
                         frontier_inv m ->
                         ends emptied_or_begin (fun m' _ => frontier_inv m')
                           (Traverse_map is_DBL_MAX rule sort c m st))
                        others).
    { rewrite Forall_forall in *. intros c Hc. apply IHo; [assumption|].
      apply Hco. assumption. }
    eapply ends_bind; [apply for_each_child_ends; eassumption|]. cbv beta.
    intros mL stL [HinvL _].
    eapply ends_bind.
    { eapply ends_weaken;
        [| |apply (PMSC_ends D S is_DBL_MAX rule c0 mL stL HinvL)];
        [intros e [He _]; right; exact He | intros a s0 H; exact H]. }
    cbv beta. intros mS stS [HinvS _].
    eapply ends_post; [|apply IH0; assumption].
    intros m' s' Hm'. split; [exact Hm' | contradiction].
  - intros m2 st2 [Hinv2 Hleaf].
    destruct (Z.eqb_spec s INT_MIN) as [Hs0|Hs0]; cbn [negb];
      [|apply ends_ret; assumption].
    rewrite (Hleaf Hs0). rewrite Hs0 in HleR.
    destruct (leaf_only mR HinvR HneR HleR) as [pv ->]. cbn [m_begin].
    rewrite Z.eqb_refl. cbn [negb].
    eapply ends_bind; [apply base_cases_ends|]. cbv beta. intros _ st3 _.
    apply ends_ret. assumption.
Qed.

Lemma root_frontier_inv r (bc : D) (qi : nat) :
  proper r ->
  frontier_inv (m_push (Scale r) (mkEntry r zero (Point r) qi bc) []).
Proof.
  intros Hr.
  apply (frontier_inv_push D (mkEntry r zero (Point r) qi bc) []);
    [apply frontier_inv_nil | exact Hr].
Qed.

Lemma Traverse_ends q r st :
  proper q -> proper r ->
  ends emptied_or_begin (fun m' _ => frontier_inv m')
    (Traverse is_DBL_MAX zero rule sort q r st).
Proof.
  intros Hq Hr. unfold Traverse.
  eapply ends_bind; [apply ends_BaseCase|]. cbv beta. intros bc st1 _.
  apply Traverse_map_ends; [assumption|].
  apply root_frontier_inv. assumption.
Qed.

End TraverseEnds.

(** ** Concrete proper trees *)

Ltac proper_tree :=
  vm_compute;
  repeat match goal with
         | |- _ /\ _ => split
         | |- True => exact I
         | |- _ = _ -> False => discriminate
         | |- (_ = _ -> False) -> _ =>
             let H := fresh in
             intros H; try discriminate; exfalso; apply H; reflexivity
         | |- _ = _ => reflexivity
         end.

Lemma proper_shallow_query : proper Examples.shallow_query.
Proof. proper_tree. Qed.

Lemma proper_deep_reference : proper Examples.deep_reference.
Proof. proper_tree. Qed.

Lemma proper_far_query : proper Examples.far_query.
Proof. proper_tree. Qed.

Lemma proper_far_reference : proper Examples.far_reference.
Proof. proper_tree. Qed.

Lemma proper_skip_reference : proper Examples.skip_reference.
Proof. proper_tree. Qed.

Lemma root_map_inv q r :
  proper r -> frontier_inv (Examples.root_map q r).
Proof. intros Hr. apply (root_frontier_inv Z 0%Z r 0%Z (Point q) Hr). Qed.

(** ** The outcomes of the traverser's functions on proper trees *)

Section Outcomes.

Variables D S : Type.
Variable is_DBL_MAX : D -> bool.
Variable rule : RuleType D S.
Variable sort : bucket D -> bucket D.

Implicit Types (m : scale_map D) (st : TState S) (q : CoverTree).

(** X1.  On a reference map in shape (every frame in the bucket of its
    node's scale, proper nodes, no empty bucket but the leaf bucket) and
    with a sort that permutes its bucket, [ReferenceRecursion] terminates
    under every policy: it returns a map that is not empty and is in shape
    again, or it reads [rbegin()] of a map it has emptied. *)
Theorem ReferenceRecursion_returns_or_reads_emptied_map q m st :
  (forall v, Permutation (sort v) v) ->
  frontier_inv m -> (INT_MIN <= Scale q)%Z ->
  (exists m' st',
      ReferenceRecursion is_DBL_MAX rule sort q m st = Ok (m', st')
      /\ frontier_inv m' /\ m' <> [])
  \/ ReferenceRecursion is_DBL_MAX rule sort q m st = Fault EmptyMapDeref.
Proof.
  intros Hsort Hinv Hq.
  pose proof (RR_while_ends D S is_DBL_MAX rule sort Hsort q Hq
                (Datatypes.S (map_weight m)) m st Hinv (Nat.lt_succ_diag_r _))
    as H.
  unfold ReferenceRecursion.
  destruct (ReferenceRecursion_while is_DBL_MAX rule sort
              (Datatypes.S (map_weight m)) q m st) as [[m' st']|e|];
    simpl in H.
  - left. exists m', st'. split; [reflexivity | tauto].
  - right. rewrite H. reflexivity.
  - contradiction.
Qed.

(** X2.  For a query node that is a leaf, the map [ReferenceRecursion]
    returns holds the leaf bucket and nothing else: the first key is
    [INT_MIN], as the [Log::Assert] before the base cases states. *)
Theorem ReferenceRecursion_leaf_query q m st m' st' :
  (forall v, Permutation (sort v) v) ->
  frontier_inv m -> Scale q = INT_MIN ->
  ReferenceRecursion is_DBL_MAX rule sort q m st = Ok (m', st') ->
  exists pv, m' = [(INT_MIN, pv)] /\ m_begin m' = Some (INT_MIN, pv).
Proof.
  intros Hsort Hinv Hq H. unfold ReferenceRecursion in H.
  assert (Hq' : (INT_MIN <= Scale q)%Z) by lia.
  pose proof (RR_while_ends D S is_DBL_MAX rule sort Hsort q Hq'
                (Datatypes.S (map_weight m)) m st Hinv (Nat.lt_succ_diag_r _))
    as He.
  rewrite H in He. simpl in He. destruct He as (Hinv' & Hne & Hle).
  rewrite Hq in Hle.
  destruct (leaf_only D m' Hinv' Hne Hle) as [pv ->].
  exists pv. split; reflexivity.
Qed.

(** X3.  [PruneMap], called with an empty child map on a map in shape,
    leaves both maps in shape; every bucket of the child's map other than
    the leaf bucket holds, in order, some of the nodes of the parent's
    bucket at the same scale, each frame with the pair (point of the
    candidate query node, point of its node) cached and a score that is not
    [DBL_MAX]. *)
Theorem PruneMap_child_frontier q cand m st m' cm st' :
  frontier_inv m ->
  PruneMap is_DBL_MAX rule q cand m [] st = Ok ((m', cm), st') ->
  frontier_inv m' /\ frontier_inv cm
  /\ forall k w, m_find k cm = Some w -> k <> INT_MIN ->
       Forall (kept_for is_DBL_MAX (Point cand)) w
       /\ exists v, m_find k m = Some v /\ subseq (nodes w) (nodes v).
Proof.
  intros Hinv H.
  pose proof (PruneMap_ends D S is_DBL_MAX rule no_fault q cand m st Hinv)
    as He.
  rewrite H in He. simpl in He. tauto.
Qed.

(** X4.  [PruneMapForSelfChild] only filters: when it returns, the map is in
    shape, the leaf bucket is the one it was, and every bucket holds, in
    order, some of the nodes of the bucket that the map had at the same
    scale. *)
Theorem PruneMapForSelfChild_filters cand m st m' st' :
  frontier_inv m ->
  PruneMapForSelfChild is_DBL_MAX rule cand m st = Ok (m', st') ->
  frontier_inv m' /\ filtered m m'.
Proof.
  intros Hinv H.
  pose proof (PMSC_ends D S is_DBL_MAX rule cand m st Hinv) as He.
  rewrite H in He. simpl in He. tauto.
Qed.

(** X5.  On a map in shape [PruneMapForSelfChild] terminates under every
    policy and its iterator never designates an erased element: it returns,
    or it steps past [begin()], which can only happen on a map without a
    leaf bucket. *)
Theorem PruneMapForSelfChild_returns_or_steps_past_begin cand m st :
  frontier_inv m ->
  (exists m' st',
      PruneMapForSelfChild is_DBL_MAX rule cand m st = Ok (m', st'))
  \/ (PruneMapForSelfChild is_DBL_MAX rule cand m st = Fault DecrementBegin
      /\ m_find INT_MIN m = None).
Proof.
  intros Hinv.
  pose proof (PMSC_ends D S is_DBL_MAX rule cand m st Hinv) as He.
  destruct (PruneMapForSelfChild is_DBL_MAX rule cand m st)
    as [[m' st']|e|]; simpl in He.
  - left. exists m', st'. reflexivity.
  - right. destruct He as [-> Hn]. split; [reflexivity | assumption].
  - contradiction.
Qed.

(** X6.  On proper trees and with a sort that permutes its bucket,
    [Traverse] terminates under every policy, and the only accesses it can
    make that the C++ leaves undefined are the read of [rbegin()] of an
    emptied map and the step past [begin()]: no child is read out of range,
    no iterator designates an erased element and the [Log::Assert] of the
    leaf phase holds. *)
Theorem Traverse_returns_or_known_fault (zero : D) q r st :
  (forall v, Permutation (sort v) v) ->
  proper q -> proper r ->
  (exists m st',
      Traverse is_DBL_MAX zero rule sort q r st = Ok (m, st')
      /\ frontier_inv m)
  \/ Traverse is_DBL_MAX zero rule sort q r st = Fault EmptyMapDeref
  \/ Traverse is_DBL_MAX zero rule sort q r st = Fault DecrementBegin.
Proof.
  intros Hsort Hq Hr.
  pose proof (Traverse_ends D S is_DBL_MAX zero rule sort Hsort q r st Hq Hr)
    as He.
  destruct (Traverse is_DBL_MAX zero rule sort q r st) as [[m st']|e|];
    simpl in He.
  - left. exists m, st'. split; [reflexivity | assumption].
  - right. destruct He as [->| ->]; [left | right]; reflexivity.
  - contradiction.
Qed.

(** X7.  In [Traverse], when the query node has a non-self child, the
    filter for the self-child always returns: the [PruneMap] calls of the
    loop over the non-self children have left the map of the parent as it
    was but for an empty leaf bucket added if there was none, and on a map
    with a leaf bucket [PruneMapForSelfChild] cannot step past [begin()]. *)
Theorem self_child_filter_after_children q child0 c cs m st mL stL :
  frontier_inv m ->
  for_each_child
    (fun child referenceMap =>
       bind (PruneMap is_DBL_MAX rule q child referenceMap [])
         (fun maps =>
            bind (Traverse_map is_DBL_MAX rule sort child (snd maps))
              (fun _ => ret (fst maps))))
    (c :: cs) m st = Ok (mL, stL) ->
  mL = after_children (c :: cs) m
  /\ exists m' st',
       PruneMapForSelfChild is_DBL_MAX rule child0 mL stL = Ok (m', st').
Proof.
  intros Hinv H.
  destruct (for_each_child_Ok D S is_DBL_MAX rule sort q (c :: cs)
              m st mL stL Hinv H) as [HinvL HmL].
  split; [assumption|].
  assert (Hleaf : m = [] \/ exists lv, m_find INT_MIN mL = Some lv).
  { destruct m as [|e0 m0] eqn:Hm; [left; reflexivity|]. right.
    rewrite <- Hm in *. rewrite HmL. cbn [after_children].
    destruct m; [discriminate Hm|]. apply m_touch_find. }
  destruct Hleaf as [->|[lv Hlv]].
  { cbn [after_children] in HmL. subst mL. exists [], stL. reflexivity. }
  pose proof (PMSC_ends D S is_DBL_MAX rule child0 mL stL HinvL) as He.
  destruct (PruneMapForSelfChild is_DBL_MAX rule child0 mL stL)
    as [[m' st']|e|]; simpl in He.
  - exists m', st'. reflexivity.
  - exfalso. destruct He as [_ Hnone]. congruence.
  - contradiction.
Qed.

(** X8.  The body of the [for] loop of [ReferenceRecursion], under every
    policy: a frame that [Rescore] prunes adds one to [numPrunes] and
    leaves the map as it is; for any other frame every child of its node is
    either pushed into the bucket of its own scale, in the order of the
    children, or counted in [numPrunes] (modulo 2^64). *)
Theorem ReferenceRecursion_frame_accounting q (f : MapEntry D) m st m' st' :
  ReferenceRecursion_frame is_DBL_MAX rule q f m st = Ok (m', st') ->
  exists adm pruned,
    m' = push_all adm m
    /\ subseq (nodes adm) (Children (referenceNode f))
    /\ counted st st' pruned
    /\ if is_DBL_MAX
           (fst (Rescore rule q (referenceNode f) (score f) (rule_state st)))
       then adm = [] /\ pruned = 1
       else length adm + pruned = NumChildren (referenceNode f).
Proof.
  intros H.
  pose proof (RR_frame_ends D S is_DBL_MAX rule (fun _ => True) q f m st
                (fun _ => I)) as He.
  rewrite H in He. exact He.
Qed.

(** X9.  [PruneMap] accounts for every frame of the parent's map: a frame
    is in the child's map or counted in [numPrunes] (modulo 2^64). *)
Theorem PruneMap_accounting q cand m st m' cm st' :
  frontier_inv m ->
  PruneMap is_DBL_MAX rule q cand m [] st = Ok ((m', cm), st') ->
  exists pruned,
    length (frames cm) + pruned = length (frames m)
    /\ counted st st' pruned.
Proof.
  intros Hinv H.
  pose proof (PruneMap_ends D S is_DBL_MAX rule no_fault q cand m st Hinv)
    as He.
  rewrite H in He. simpl in He. destruct He as (_ & _ & _ & _ & Hc).
  exact Hc.
Qed.

(** X10.  [PruneMapForSelfChild] accounts for every frame of the map, the
    frames of the buckets it steps over included: a frame is still in the
    map or counted in [numPrunes] (modulo 2^64). *)
Theorem PruneMapForSelfChild_accounting cand m st m' st' :
  frontier_inv m ->
  PruneMapForSelfChild is_DBL_MAX rule cand m st = Ok (m', st') ->
  exists pruned,
    length (frames m') + pruned = length (frames m)
    /\ counted st st' pruned.
Proof.
  intros Hinv H.
  pose proof (PMSC_ends D S is_DBL_MAX rule cand m st Hinv) as He.
  rewrite H in He. simpl in He. destruct He as (_ & _ & Hc). exact Hc.
Qed.

End Outcomes.

Lemma ReferenceRecursion_returns_or_reads_emptied_map_witness :
  (exists m' st',
      ReferenceRecursion Examples.is_max Examples.far_rules
        Examples.sort_by_score Examples.far_query
        (Examples.root_map Examples.far_query Examples.far_reference)
        (mkState [] 0) = Ok (m', st')
      /\ frontier_inv m' /\ m' <> [])
  \/ ReferenceRecursion Examples.is_max Examples.far_rules
       Examples.sort_by_score Examples.far_query
       (Examples.root_map Examples.far_query Examples.far_reference)
       (mkState [] 0) = Fault EmptyMapDeref.
Proof.
  apply (ReferenceRecursion_returns_or_reads_emptied_map Z
           (list (nat * nat)) Examples.is_max Examples.far_rules
           Examples.sort_by_score Examples.far_query
           (Examples.root_map Examples.far_query Examples.far_reference)
           (mkState [] 0)).
  - exact sort_by_score_perm.
  - apply root_map_inv. exact proper_far_reference.
  - vm_compute. discriminate.
Defined.

Lemma ReferenceRecursion_leaf_query_witness :
  exists pv,
    [(INT_MIN,
      [mkEntry (Examples.leaf 0) 0%Z 0 0 0%Z;
       mkEntry (Examples.leaf 1) 0%Z 1 0 0%Z])]
    = [(INT_MIN, pv)]
    /\ m_begin
         [(INT_MIN,
           [mkEntry (Examples.leaf 0) 0%Z 0 0 0%Z;
            mkEntry (Examples.leaf 1) 0%Z 1 0 0%Z])]
       = Some (INT_MIN, pv).
Proof.
  apply (ReferenceRecursion_leaf_query Z unit Examples.is_max
           Examples.no_prune Examples.sort_by_score Examples.far_query
           (Examples.root_map Examples.far_query Examples.far_reference)
           (mkState tt 0) _ (mkState tt 0)).
  - exact sort_by_score_perm.
  - apply root_map_inv. exact proper_far_reference.
  - reflexivity.
  - vm_compute. reflexivity.
Defined.

Lemma PruneMap_child_frontier_witness :
  exists m' cm st',
    PruneMap Examples.is_max Examples.no_prune Examples.shallow_query
      (Examples.leaf 1)
      (Examples.root_map Examples.shallow_query Examples.far_reference) []
      (mkState tt 0) = Ok ((m', cm), st')
    /\ frontier_inv m' /\ frontier_inv cm
    /\ forall k w, m_find k cm = Some w -> k <> INT_MIN ->
         Forall (kept_for Examples.is_max (Point (Examples.leaf 1))) w
         /\ exists v,
              m_find k (Examples.root_map Examples.shallow_query
                          Examples.far_reference) = Some v
              /\ subseq (nodes w) (nodes v).
Proof.
  eexists. eexists. eexists. split; [vm_compute; reflexivity|].
  eapply (PruneMap_child_frontier Z unit Examples.is_max Examples.no_prune
            Examples.shallow_query (Examples.leaf 1)
            (Examples.root_map Examples.shallow_query Examples.far_reference)
            (mkState tt 0)).
  - apply root_map_inv. exact proper_far_reference.
  - vm_compute. reflexivity.
Defined.

Lemma skip_frontier_inv : frontier_inv Examples.skip_frontier.
Proof.
  assert (H : Examples.skip_frontier
              = m_touch INT_MIN
                  (m_push 1
                     (mkEntry Examples.skip_reference_other 0%Z 2 0 102%Z)
                     (m_push 2
                        (mkEntry Examples.skip_reference_self 0%Z 0 0 100%Z)
                        []))).
  { vm_compute. reflexivity. }
  rewrite H. apply frontier_inv_touch_leaf.
  apply (frontier_inv_push Z
           (mkEntry Examples.skip_reference_other 0%Z 2 0 102%Z)).
  - apply (frontier_inv_push Z
             (mkEntry Examples.skip_reference_self 0%Z 0 0 100%Z)).
    + apply frontier_inv_nil.
    + proper_tree.
  - proper_tree.
Qed.

Lemma PruneMapForSelfChild_filters_witness :
  frontier_inv (tl Examples.skip_frontier)
  /\ filtered Examples.skip_frontier (tl Examples.skip_frontier).
Proof.
  apply (PruneMapForSelfChild_filters Z (list (nat * nat)) Examples.is_max
           Examples.skip_rules Examples.skip_query_self
           Examples.skip_frontier (mkState [] 0)
           (tl Examples.skip_frontier) (mkState [] 1)).
  - exact skip_frontier_inv.
  - vm_compute. reflexivity.
Defined.

Lemma PruneMapForSelfChild_returns_or_steps_past_begin_witness :
  (exists m' st',
      PruneMapForSelfChild Examples.is_max Examples.skip_rules
        Examples.skip_query_self Examples.skip_frontier (mkState [] 0)
      = Ok (m', st'))
  \/ (PruneMapForSelfChild Examples.is_max Examples.skip_rules
        Examples.skip_query_self Examples.skip_frontier (mkState [] 0)
      = Fault DecrementBegin
      /\ m_find INT_MIN Examples.skip_frontier = None).
Proof.
  apply (PruneMapForSelfChild_returns_or_steps_past_begin Z
           (list (nat * nat)) Examples.is_max Examples.skip_rules
           Examples.skip_query_self Examples.skip_frontier (mkState [] 0)).
  exact skip_frontier_inv.
Defined.

Lemma Traverse_returns_or_known_fault_witness :
  (exists m st',
      Traverse Examples.is_max 0%Z Examples.far_rules Examples.sort_by_score
        Examples.far_query Examples.far_reference (mkState [] 0)
      = Ok (m, st')
      /\ frontier_inv m)
  \/ Traverse Examples.is_max 0%Z Examples.far_rules Examples.sort_by_score
       Examples.far_query Examples.far_reference (mkState [] 0)
     = Fault EmptyMapDeref
  \/ Traverse Examples.is_max 0%Z Examples.far_rules Examples.sort_by_score
       Examples.far_query Examples.far_reference (mkState [] 0)
     = Fault DecrementBegin.
Proof.
  apply (Traverse_returns_or_known_fault Z (list (nat * nat))
           Examples.is_max Examples.far_rules Examples.sort_by_score 0%Z
           Examples.far_query Examples.far_reference (mkState [] 0)).
  - exact sort_by_score_perm.
  - exact proper_far_query.
  - exact proper_far_reference.
Defined.

Lemma self_child_filter_after_children_witness :
  exists mL stL,
    for_each_child
      (fun child referenceMap =>
         bind (PruneMap Examples.is_max Examples.no_prune
                 Examples.shallow_query child referenceMap [])
           (fun maps =>
              bind (Traverse_map Examples.is_max Examples.no_prune
                      Examples.sort_by_score child (snd maps))
                (fun _ => ret (fst maps))))
      [Examples.leaf 1]
      (Examples.root_map Examples.shallow_query Examples.far_reference)
      (mkState tt 0) = Ok (mL, stL)
    /\ mL = after_children [Examples.leaf 1]
              (Examples.root_map Examples.shallow_query
                 Examples.far_reference)
    /\ exists m' st',
         PruneMapForSelfChild Examples.is_max Examples.no_prune
           (Examples.leaf 0) mL stL = Ok (m', st').
Proof.
  eexists. eexists. split; [vm_compute; reflexivity|].
  eapply (self_child_filter_after_children Z unit Examples.is_max
            Examples.no_prune Examples.sort_by_score Examples.shallow_query
            (Examples.leaf 0) (Examples.leaf 1) []
            (Examples.root_map Examples.shallow_query Examples.far_reference)
            (mkState tt 0)).
  - apply root_map_inv. exact proper_far_reference.
  - vm_compute. reflexivity.
Defined.

Lemma ReferenceRecursion_frame_accounting_witness :
  exists adm pruned,
    @nil (Z * bucket Z)
    = push_all adm []
    /\ subseq (nodes adm) (Children Examples.far_reference)
    /\ counted (mkState (@nil (nat * nat)) 0) (mkState [] 2) pruned
    /\ if Examples.is_max
           (fst (Rescore Examples.far_rules Examples.far_query
                   Examples.far_reference 0%Z []))
       then adm = [] /\ pruned = 1
       else length adm + pruned = NumChildren Examples.far_reference.
Proof.
  apply (ReferenceRecursion_frame_accounting Z (list (nat * nat))
           Examples.is_max Examples.far_rules Examples.far_query
           (mkEntry Examples.far_reference 0%Z 0 0 100%Z) []
           (mkState [] 0) [] (mkState [] 2)).
  vm_compute. reflexivity.
Defined.

Lemma PruneMap_accounting_witness :
  exists m' cm st',
    PruneMap Examples.is_max Examples.no_prune Examples.shallow_query
      (Examples.leaf 1)
      (Examples.root_map Examples.shallow_query Examples.far_reference) []
      (mkState tt 0) = Ok ((m', cm), st')
    /\ exists pruned,
         length (frames cm) + pruned
         = length (frames (Examples.root_map Examples.shallow_query
                             Examples.far_reference))
         /\ counted (mkState tt 0) st' pruned.
Proof.
  eexists. eexists. eexists. split; [vm_compute; reflexivity|].
  eapply (PruneMap_accounting Z unit Examples.is_max Examples.no_prune
            Examples.shallow_query (Examples.leaf 1)
            (Examples.root_map Examples.shallow_query Examples.far_reference)
            (mkState tt 0)).
  - apply root_map_inv. exact proper_far_reference.
  - vm_compute. reflexivity.
Defined.

Lemma PruneMapForSelfChild_accounting_witness :
  exists pruned,
    length (frames (tl Examples.skip_frontier)) + pruned
    = length (frames Examples.skip_frontier)
    /\ counted (mkState (@nil (nat * nat)) 0) (mkState [] 1) pruned.
Proof.
  apply (PruneMapForSelfChild_accounting Z (list (nat * nat))
           Examples.is_max Examples.skip_rules Examples.skip_query_self
           Examples.skip_frontier (mkState [] 0)
           (tl Examples.skip_frontier) (mkState [] 1)).
  - exact skip_frontier_inv.
  - vm_compute. reflexivity.
Defined.

(** ** The naive search *)

Section NaiveSearch.

Variables D S : Type.
Variable P : RuleType D S.

(** The calls of one row of the naive search. *)
Lemma naive_row_log i nr : forall j0 s log,
  fold_left (fun s j => snd (BaseCase (Recording P) i j s)) (seq j0 nr)
    (s, log)
  = (fold_left (fun s j => snd (BaseCase P i j s)) (seq j0 nr) s,
     log ++ map (@EvBaseCase D i) (seq j0 nr)).
Proof.
  induction nr as [|nr IH]; intros j0 s log; cbn [seq fold_left map].
  - rewrite app_nil_r. reflexivity.
  - cbn [Recording BaseCase fst snd].
    destruct (BaseCase P i j0 s) as [d s1] eqn:E. cbn [snd].
    rewrite IH. rewrite <- app_assoc. reflexivity.
Qed.

Lemma naive_search_log nr nq : forall i0 s log,
  fold_left (fun s i => naive_row (Recording P) i nr s) (seq i0 nq) (s, log)
  = (fold_left (fun s i => naive_row P i nr s) (seq i0 nq) s,
     log ++ flat_map (fun i => map (@EvBaseCase D i) (seq 0 nr)) (seq i0 nq)).
Proof.
  induction nq as [|nq IH]; intros i0 s log; cbn [seq fold_left flat_map].
  - rewrite app_nil_r. reflexivity.
  - unfold naive_row at 2. rewrite naive_row_log. rewrite IH.
    rewrite <- app_assoc. reflexivity.
Qed.

End NaiveSearch.

(** X11.  In naive mode the traversal stage of [Search], the choice among
    the brute-force loops and the two traversers, cannot fail and reports
    no prune: whatever the other fields of the object hold, it calls
    [BaseCase] exactly once for every pair of a query column and a
    reference column, row by row in ascending order, makes no [Score] or
    [Rescore] call, and leaves the rule object in the state the same calls
    give without the log.  The mapping of the indices that follows is a
    separate stage, [Search_results], and no part of this statement. *)
Theorem Search_naive_all_pairs (Mat : Type) (n_cols : Mat -> nat)
    (D S : Type) (is_DBL_MAX : D -> bool) (zero : D) (P : RuleType D S)
    (sort : bucket D -> bucket D)
    (SingleTreeTraverse : nat -> CoverTree -> M (S * list (Event D)) unit)
    (rs : RangeSearch Mat) (s : S) (log : list (Event D)) :
  naive rs = true ->
  Search_traversal n_cols is_DBL_MAX zero (Recording P) sort
    SingleTreeTraverse rs (s, log)
  = Ok ((naive_search P (n_cols (querySet rs)) (n_cols (referenceSet rs)) s,
         log ++ flat_map
                  (fun i => map (@EvBaseCase D i)
                              (seq 0 (n_cols (referenceSet rs))))
                  (seq 0 (n_cols (querySet rs)))),
        0%N).
Proof.
  intros Hn. unfold Search_traversal. rewrite Hn.
  unfold naive_search. rewrite naive_search_log. reflexivity.
Qed.

Lemma Search_naive_all_pairs_witness :
  Search_traversal (fun n : nat => n) Examples.is_max 0%Z
    (Recording Examples.no_prune) Examples.sort_by_score
    (@Examples.no_single _)
    (mkRangeSearch 3 2 None None [] [] false true true false 0) (tt, [])
  = Ok ((tt, [EvBaseCase 0 0; EvBaseCase 0 1; EvBaseCase 0 2;
              EvBaseCase 1 0; EvBaseCase 1 1; EvBaseCase 1 2]), 0%N).
Proof.
  exact (Search_naive_all_pairs nat (fun n : nat => n) Z unit
           Examples.is_max 0%Z Examples.no_prune Examples.sort_by_score (@Examples.no_single _)
           (mkRangeSearch 3 2 None None [] [] false true true false 0)
           tt [] eq_refl).
Defined.

(** ** Vectors *)

Section VectorFacts.

Variable A : Type.

Lemma vec_set_spec (x : A) : forall v i,
  i < length v ->
  exists w,
    vec_set i x v = Some w /\ length w = length v
    /\ nth_error w i = Some x
    /\ forall j, j <> i -> nth_error w j = nth_error v j.
Proof.
  induction v as [|y v IH]; intros i Hi; cbn [length] in Hi; [lia|].
  destruct i as [|i]; cbn [vec_set].
  - exists (x :: v). repeat split.
    intros [|j] Hj; [congruence|reflexivity].
  - destruct (IH i) as (w & E & Hl & Hn & Ho); [lia|].
    rewrite E. exists (y :: w). cbn [length nth_error].
    repeat split; auto.
    intros [|j] Hj; [reflexivity|]. cbn [nth_error]. apply Ho. congruence.
Qed.

Lemma vec_set_out_of_range (x : A) : forall v i,
  length v <= i -> vec_set i x v = None.
Proof.
  induction v as [|y v IH]; intros i Hi; [destruct i; reflexivity|].
  cbn [length] in Hi. destruct i as [|i]; [lia|]. cbn [vec_set].
  rewrite IH; [reflexivity|lia].
Qed.

Lemma resize_length n (d : A) v : length (resize n d v) = n.
Proof.
  unfold resize. rewrite length_app, length_firstn, repeat_length. lia.
Qed.

Lemma resize_nil n (d : A) : resize n d [] = repeat d n.
Proof.
  unfold resize. rewrite firstn_nil. cbn [length app].
  rewrite Nat.sub_0_r. reflexivity.
Qed.

Lemma nth_error_repeat_lt n (d : A) i :
  i < n -> nth_error (repeat d n) i = Some d.
Proof.
  revert i. induction n as [|n IH]; intros i Hi; [lia|].
  destruct i as [|i]; [reflexivity|]. cbn [repeat nth_error].
  apply IH. lia.
Qed.

End VectorFacts.

(** ** The inner loop of the mapping *)

Section MapNeighbors.

Variable oldFromNewReferences : list nat.
Variable neighborPtr : list (list nat).

Let old (new : nat) : nat := nth new oldFromNewReferences 0.

Lemma map_neighbors_spec i source :
  nth_error neighborPtr i = Some source ->
  forall k j0 row,
    j0 + k <= length row -> j0 + k <= length source ->
    (forall j x, j0 <= j < j0 + k -> nth_error source j = Some x ->
                 x < length oldFromNewReferences) ->
    exists row',
      map_neighbors oldFromNewReferences neighborPtr i (seq j0 k) row
      = Some row'
      /\ length row' = length row
      /\ forall j,
           nth_error row' j
           = if (j0 <=? j) && (j <? j0 + k)
             then option_map old (nth_error source j)
             else nth_error row j.
Proof.
  intros Hsrc. induction k as [|k IH]; intros j0 row Hrow Hlen Hin.
  - exists row. cbn [seq map_neighbors]. repeat split.
    intros j. destruct (j0 <=? j) eqn:E1; cbn [andb]; [|reflexivity].
    destruct (j <? j0 + 0) eqn:E2; [|reflexivity].
    apply Nat.leb_le in E1. apply Nat.ltb_lt in E2. lia.
  - cbn [seq map_neighbors]. rewrite Hsrc.
    destruct (nth_error source j0) as [x|] eqn:Ex.
    2:{ apply nth_error_None in Ex. lia. }
    assert (Hx : x < length oldFromNewReferences).
    { apply (Hin j0 x); [lia|exact Ex]. }
    destruct (nth_error oldFromNewReferences x) as [y|] eqn:Ey.
    2:{ apply nth_error_None in Ey. lia. }
    destruct (vec_set_spec nat y row j0) as (row1 & E1 & Hl1 & Hn1 & Ho1); [lia|].
    rewrite E1.
    destruct (IH (Datatypes.S j0) row1) as (row' & E & Hl & Hn);
      [lia|lia| |].
    { intros j z Hj. apply Hin. lia. }
    exists row'. split; [exact E|]. split; [congruence|].
    intros j. rewrite Hn.
    destruct (Nat.eq_dec j j0) as [->|Hne].
    + replace (Datatypes.S j0 <=? j0) with false
        by (symmetry; apply Nat.leb_gt; lia).
      replace (j0 <=? j0) with true by (symmetry; apply Nat.leb_le; lia).
      replace (j0 <? j0 + Datatypes.S k) with true
        by (symmetry; apply Nat.ltb_lt; lia).
      cbn [andb]. rewrite Hn1, Ex. cbn [option_map]. unfold old.
      f_equal. symmetry. apply nth_error_nth with (d := 0) in Ey. exact Ey.
    + rewrite (Ho1 j Hne).
      replace (j <? Datatypes.S j0 + k) with (j <? j0 + Datatypes.S k)
        by (f_equal; lia).
      destruct (j0 <=? j) eqn:Ea, (Datatypes.S j0 <=? j) eqn:Eb;
        try reflexivity.
      * apply Nat.leb_le in Ea. apply Nat.leb_gt in Eb. lia.
      * apply Nat.leb_gt in Ea. apply Nat.leb_le in Eb. lia.
Qed.

(** The loop run on a row just resized to [k] writes the mapped first [k]
    indices of the source row. *)
Lemma map_neighbors_row i source k row :
  nth_error neighborPtr i = Some source ->
  k <= length source ->
  (forall x, In x (firstn k source) -> x < length oldFromNewReferences) ->
  map_neighbors oldFromNewReferences neighborPtr i (seq 0 k)
    (resize k 0 row)
  = Some (map old (firstn k source)).
Proof.
  intros Hsrc Hk Hin.
  destruct (map_neighbors_spec i source Hsrc k 0 (resize k 0 row))
    as (row' & E & Hl & Hn).
  - rewrite (resize_length nat). lia.
  - lia.
  - intros j x Hj Hx. apply Hin.
    apply (nth_error_In _ j). rewrite nth_error_firstn.
    replace (j <? k) with true by (symmetry; apply Nat.ltb_lt; lia).
    exact Hx.
  - rewrite E. f_equal. apply nth_error_ext. intros j. rewrite Hn.
    rewrite nth_error_map, nth_error_firstn. cbn [Nat.leb andb Nat.add].
    destruct (j <? k) eqn:Ej; [reflexivity|].
    apply Nat.ltb_ge in Ej. cbn [option_map].
    apply nth_error_None. rewrite (resize_length nat). lia.
Qed.

End MapNeighbors.

(** ** The loops over the rows *)

Section MapRows.

Variable Dist : Type.
Variable rowMapping oldFromNewReferences : list nat.
Variable neighborPtr : list (list nat).
Variable distancePtr : list (list Dist).
Variable n : nat.

Let old (new : nat) : nat := nth new oldFromNewReferences 0.

(** The row of neighbours the mapping writes for the row [i] of the
    traversal. *)
Let mapped (i : nat) : option (list nat) :=
  match nth_error neighborPtr i, nth_error distancePtr i with
  | Some source, Some d => Some (map old (firstn (length d) source))
  | _, _ => None
  end.

Hypothesis rows_distinct : NoDup rowMapping.
Hypothesis rows_in_range : forall q, In q rowMapping -> q < n.
Hypothesis one_row_each : length neighborPtr = n /\ length distancePtr = n.
Hypothesis neighbours_in_range : forall i source d,
  nth_error neighborPtr i = Some source ->
  nth_error distancePtr i = Some d ->
  length d <= length source
  /\ forall x, In x (firstn (length d) source) ->
               x < length oldFromNewReferences.

Lemma map_both_rows_spec : forall k i0 nb ds,
  i0 + k <= length rowMapping -> i0 + k <= n ->
  length nb = n -> length ds = n ->
  exists nb' ds',
    for_rows
      (map_both_row rowMapping oldFromNewReferences neighborPtr distancePtr)
      (seq i0 k) (nb, ds)
    = Some (nb', ds')
    /\ length nb' = n /\ length ds' = n
    /\ (forall i q, i0 <= i < i0 + k -> nth_error rowMapping i = Some q ->
          nth_error ds' q = nth_error distancePtr i
          /\ nth_error nb' q = mapped i)
    /\ (forall q,
          (forall i, i0 <= i < i0 + k -> nth_error rowMapping i <> Some q) ->
          nth_error ds' q = nth_error ds q
          /\ nth_error nb' q = nth_error nb q).
Proof.
  destruct one_row_each as [HlN HlD].
  induction k as [|k IH]; intros i0 nb ds Hk Hkn Hnb Hds.
  - exists nb, ds. cbn [seq for_rows].
    split; [reflexivity|]. split; [exact Hnb|]. split; [exact Hds|].
    split; [intros i q Hi; lia|intros q _; split; reflexivity].
  - cbn [seq for_rows]. unfold map_both_row at 1.
    destruct (nth_error rowMapping i0) as [q0|] eqn:Eq.
    2:{ apply nth_error_None in Eq. lia. }
    assert (Hq0 : q0 < n).
    { apply rows_in_range. eapply nth_error_In. exact Eq. }
    destruct (nth_error distancePtr i0) as [d|] eqn:Ed.
    2:{ apply nth_error_None in Ed. lia. }
    destruct (nth_error neighborPtr i0) as [source|] eqn:Es.
    2:{ apply nth_error_None in Es. lia. }
    destruct (neighbours_in_range i0 source d Es Ed) as [Hle Hin].
    destruct (vec_set_spec (list Dist) d ds q0) as (ds1 & E1 & Hl1 & Hn1 & Ho1);
      [lia|].
    rewrite E1.
    destruct (nth_error nb q0) as [row|] eqn:Er.
    2:{ apply nth_error_None in Er. lia. }
    rewrite (map_neighbors_row oldFromNewReferences neighborPtr i0 source
               (length d) row Es Hle Hin).
    destruct (vec_set_spec (list nat)
                (map (fun new => nth new oldFromNewReferences 0)
                   (firstn (length d) source)) nb q0)
      as (nb1 & E2 & Hl2 & Hn2 & Ho2); [lia|].
    rewrite E2.
    destruct (IH (Datatypes.S i0) nb1 ds1) as (nb' & ds' & E & Hlnb & Hlds
                                              & Hset & Hkeep);
      [lia|lia|congruence|congruence|].
    exists nb', ds'. split; [exact E|]. split; [exact Hlnb|].
    split; [exact Hlds|]. split.
    + intros i q Hi Hq.
      destruct (Nat.eq_dec i i0) as [->|Hne].
      * assert (q = q0) by congruence. subst q.
        destruct (Hkeep q0) as [Kd Kn].
        { intros i' Hi' Hc.
          assert (i' = i0); [|lia].
          apply (proj1 (NoDup_nth_error rowMapping) rows_distinct); [|congruence].
          apply nth_error_Some. congruence. }
        rewrite Kd, Kn, Hn1, Hn2. unfold mapped. rewrite Es, Ed.
        split; reflexivity.
      * apply Hset; [lia|exact Hq].
    + intros q Hq.
      destruct (Hkeep q) as [Kd Kn].
      { intros i Hi. apply Hq. lia. }
      assert (Hne : q <> q0).
      { intros ->. apply (Hq i0); [lia|exact Eq]. }
      rewrite Kd, Kn, (Ho1 q Hne), (Ho2 q Hne). split; reflexivity.
Qed.

End MapRows.

Section MapReferences.

Variable oldFromNewReferences : list nat.
Variable neighborPtr : list (list nat).
Variable n : nat.

Let old (new : nat) : nat := nth new oldFromNewReferences 0.

Hypothesis one_row_each : length neighborPtr = n.
Hypothesis neighbours_in_range : forall source x,
  In source neighborPtr -> In x source -> x < length oldFromNewReferences.

Lemma map_references_rows_spec : forall k i0 nb,
  i0 + k <= n -> length nb = n ->
  exists nb',
    for_rows (map_references_row oldFromNewReferences neighborPtr)
      (seq i0 k) nb
    = Some nb'
    /\ length nb' = n
    /\ forall i,
         nth_error nb' i
         = if (i0 <=? i) && (i <? i0 + k)
           then option_map (map old) (nth_error neighborPtr i)
           else nth_error nb i.
Proof.
  induction k as [|k IH]; intros i0 nb Hk Hnb.
  - exists nb. cbn [seq for_rows]. repeat split; auto.
    intros i. destruct (i0 <=? i) eqn:E1; cbn [andb]; [|reflexivity].
    destruct (i <? i0 + 0) eqn:E2; [|reflexivity].
    apply Nat.leb_le in E1. apply Nat.ltb_lt in E2. lia.
  - cbn [seq for_rows]. unfold map_references_row at 1.
    destruct (nth_error neighborPtr i0) as [source|] eqn:Es.
    2:{ apply nth_error_None in Es. lia. }
    destruct (nth_error nb i0) as [row|] eqn:Er.
    2:{ apply nth_error_None in Er. lia. }
    rewrite (map_neighbors_row oldFromNewReferences neighborPtr i0 source
               (length source) row Es (le_n _)).
    2:{ intros x Hx. rewrite firstn_all in Hx.
        apply (neighbours_in_range source x); [|exact Hx].
        eapply nth_error_In. exact Es. }
    rewrite firstn_all.
    destruct (vec_set_spec (list nat)
                (map (fun new => nth new oldFromNewReferences 0) source)
                nb i0)
      as (nb1 & E1 & Hl1 & Hn1 & Ho1); [lia|].
    rewrite E1.
    destruct (IH (Datatypes.S i0) nb1) as (nb' & E & Hl & Hn);
      [lia|congruence|].
    exists nb'. split; [exact E|]. split; [exact Hl|].
    intros i. rewrite Hn.
    destruct (Nat.eq_dec i i0) as [->|Hne].
    + replace (Datatypes.S i0 <=? i0) with false
        by (symmetry; apply Nat.leb_gt; lia).
      replace (i0 <=? i0) with true by (symmetry; apply Nat.leb_le; lia).
      replace (i0 <? i0 + Datatypes.S k) with true
        by (symmetry; apply Nat.ltb_lt; lia).
      cbn [andb]. rewrite Hn1, Es. reflexivity.
    + rewrite (Ho1 i Hne).
      replace (i <? Datatypes.S i0 + k) with (i <? i0 + Datatypes.S k)
        by (f_equal; lia).
      destruct (i0 <=? i) eqn:Ea, (Datatypes.S i0 <=? i) eqn:Eb;
        try reflexivity.
      * apply Nat.leb_le in Ea. apply Nat.leb_gt in Eb. lia.
      * apply Nat.leb_gt in Ea. apply Nat.leb_le in Eb. lia.
Qed.

End MapReferences.

Lemma Forall2_nth_error_both (A B : Type) (R : A -> B -> Prop) :
  forall l1 l2, Forall2 R l1 l2 ->
  forall i a b, nth_error l1 i = Some a -> nth_error l2 i = Some b -> R a b.
Proof.
  induction 1 as [|x y l1 l2 Hxy _ IH]; intros i a b Ha Hb.
  - destruct i; discriminate.
  - destruct i as [|i]; cbn [nth_error] in Ha, Hb.
    + inversion Ha. inversion Hb. subst. exact Hxy.
    + eapply IH; eassumption.
Qed.

Lemma Permutation_seq_range l n :
  Permutation l (seq 0 n) ->
  NoDup l /\ length l = n /\ forall q, In q l -> q < n.
Proof.
  intros Hp. split; [|split].
  - eapply Permutation_NoDup; [apply Permutation_sym; exact Hp|].
    apply seq_NoDup.
  - rewrite (Permutation_length Hp). apply length_seq.
  - intros q Hq. eapply Permutation_in in Hq; [|exact Hp].
    apply in_seq in Hq. lia.
Qed.

(** X12.  When the object owns its trees and is not a single-tree search
    over a separate query set, [Search] returns the rows permuted back:
    provided the row table ([oldFromNewQueries] with a query set,
    [oldFromNewReferences] without) is a permutation of the query columns
    and every row of the traversal has at least as many neighbours as
    distances, all of them indices of [oldFromNewReferences], no vector is
    accessed out of range, and the row [i] of the traversal arrives at the
    row the table gives for [i], its distances unchanged and its
    neighbours replaced by their entries of [oldFromNewReferences]. *)
Theorem Search_results_rows_permuted (Mat : Type) (n_cols : Mat -> nat)
    (Dist : Type) (rs : RangeSearch Mat)
    (neighbors0 : list (list nat)) (distances0 : list (list Dist))
    (neighborPtr : list (list nat)) (distancePtr : list (list Dist)) :
  treeOwner rs = true ->
  hasQuerySet rs && singleMode rs = false ->
  Permutation
    (if hasQuerySet rs then oldFromNewQueries rs else oldFromNewReferences rs)
    (seq 0 (n_cols (querySet rs))) ->
  length distancePtr = n_cols (querySet rs) ->
  Forall2
    (fun source d =>
       length d <= length source
       /\ Forall (fun new => new < length (oldFromNewReferences rs))
            (firstn (length d) source))
    neighborPtr distancePtr ->
  exists neighbors distances,
    Search_results n_cols rs neighbors0 distances0 neighborPtr distancePtr
    = Some (neighbors, distances)
    /\ length neighbors = n_cols (querySet rs)
    /\ length distances = n_cols (querySet rs)
    /\ forall i q,
         nth_error
           (if hasQuerySet rs then oldFromNewQueries rs
            else oldFromNewReferences rs) i = Some q ->
         exists source d,
           nth_error neighborPtr i = Some source
           /\ nth_error distancePtr i = Some d
           /\ nth_error distances q = Some d
           /\ nth_error neighbors q
              = Some (map (fun new => nth new (oldFromNewReferences rs) 0)
                        (firstn (length d) source)).
Proof.
  intros Hown Hmode Hperm HlD Hrows.
  set (n := n_cols (querySet rs)) in *.
  set (rowMapping := if hasQuerySet rs then oldFromNewQueries rs
                     else oldFromNewReferences rs) in *.
  destruct (Permutation_seq_range rowMapping n Hperm) as (Hnd & Hlen & Hrange).
  assert (HlN : length neighborPtr = n).
  { rewrite (Forall2_length Hrows). exact HlD. }
  assert (Hin : forall i source d,
             nth_error neighborPtr i = Some source ->
             nth_error distancePtr i = Some d ->
             length d <= length source
             /\ forall x, In x (firstn (length d) source) ->
                          x < length (oldFromNewReferences rs)).
  { intros i source d Hs Hd.
    destruct (Forall2_nth_error_both _ _ _ _ _ Hrows i source d Hs Hd)
      as [Hle Hall].
    split; [exact Hle|]. intros x Hx.
    rewrite Forall_forall in Hall. apply Hall. exact Hx. }
  destruct (map_both_rows_spec Dist rowMapping (oldFromNewReferences rs)
              neighborPtr distancePtr n Hnd Hrange (conj HlN HlD) Hin
              n 0 (resize n [] []) (resize n [] []))
    as (nb & ds & E & Hlnb & Hlds & Hset & _).
  - lia.
  - lia.
  - apply resize_length.
  - apply resize_length.
  - exists nb, ds.
    split.
    + unfold Search_results. rewrite Hown. cbn [negb andb].
      fold n. unfold rowMapping in E.
      destruct (hasQuerySet rs); cbn [andb negb] in *.
      * rewrite Hmode. cbn [negb]. exact E.
      * exact E.
    + split; [exact Hlnb|]. split; [exact Hlds|].
      intros i q Hq.
      assert (Hi : i < n).
      { rewrite <- Hlen. apply nth_error_Some. congruence. }
      destruct (nth_error neighborPtr i) as [source|] eqn:Es.
      2:{ apply nth_error_None in Es. lia. }
      destruct (nth_error distancePtr i) as [d|] eqn:Ed.
      2:{ apply nth_error_None in Ed. lia. }
      destruct (Hset i q) as [Hd Hn]; [lia|exact Hq|].
      exists source, d. rewrite Hd, Hn, Es, Ed. repeat split; reflexivity.
Qed.

Lemma Search_results_rows_permuted_witness :
  exists neighbors distances,
    Search_results (fun n : nat => n)
      (mkRangeSearch 3 2 (Some (Examples.leaf 0)) (Some (Examples.leaf 0))
         [2; 0; 1] [1; 0] true true false false 0)
      [] [] [[0; 2]; [1]] [[5%Z; 6%Z]; [7%Z]]
    = Some (neighbors, distances)
    /\ nth_error distances 1 = Some [5%Z; 6%Z]
    /\ nth_error neighbors 1 = Some [2; 1].
Proof.
  destruct (Search_results_rows_permuted nat (fun n : nat => n) Z
              (mkRangeSearch 3 2 (Some (Examples.leaf 0))
                 (Some (Examples.leaf 0))
                 [2; 0; 1] [1; 0] true true false false 0)
              [] [] [[0; 2]; [1]] [[5%Z; 6%Z]; [7%Z]])
    as (nb & ds & E & _ & _ & H).
  - reflexivity.
  - reflexivity.
  - simpl. apply perm_swap.
  - reflexivity.
  - repeat constructor; simpl; lia.
  - exists nb, ds. split; [exact E|].
    destruct (H 0 1 eq_refl) as (source & d & Hs & Hd & H1 & H2).
    simpl in Hs, Hd. inversion Hs. inversion Hd. subst source d.
    split; [exact H1|exact H2].
Defined.

(** X13.  In single-tree mode over a separate query set, on an object that
    owns its reference tree, [Search] leaves the distances as the traversal
    wrote them and the rows in place, and replaces every neighbour by its
    entry of [oldFromNewReferences]: provided the traversal left one row
    per query column and every neighbour is an index of that table, no
    vector is accessed out of range. *)
Theorem Search_results_single_mode (Mat : Type) (n_cols : Mat -> nat)
    (Dist : Type) (rs : RangeSearch Mat)
    (neighbors0 : list (list nat)) (distances0 : list (list Dist))
    (neighborPtr : list (list nat)) (distancePtr : list (list Dist)) :
  treeOwner rs = true -> hasQuerySet rs = true -> singleMode rs = true ->
  length neighborPtr = n_cols (querySet rs) ->
  Forall (Forall (fun new => new < length (oldFromNewReferences rs)))
    neighborPtr ->
  Search_results n_cols rs neighbors0 distances0 neighborPtr distancePtr
  = Some (map (map (fun new => nth new (oldFromNewReferences rs) 0))
            neighborPtr,
          distancePtr).
Proof.
  intros Hown Hq Hsingle HlN Hall.
  set (n := n_cols (querySet rs)) in *.
  destruct (map_references_rows_spec (oldFromNewReferences rs) neighborPtr n
              HlN) with (k := n) (i0 := 0) (nb := resize n (@nil nat) [])
    as (nb & E & Hl & Hn).
  - intros source x Hs Hx. rewrite Forall_forall in Hall.
    specialize (Hall source Hs). rewrite Forall_forall in Hall.
    apply Hall. exact Hx.
  - lia.
  - apply resize_length.
  - unfold Search_results. rewrite Hown, Hq, Hsingle. cbn [negb andb].
    fold n. rewrite E. f_equal. f_equal.
    apply nth_error_ext. intros i. rewrite Hn, nth_error_map.
    cbn [Nat.leb andb Nat.add].
    destruct (i <? n) eqn:Ei; [reflexivity|].
    apply Nat.ltb_ge in Ei.
    replace (nth_error neighborPtr i) with (@None (list nat)).
    + cbn [option_map]. apply nth_error_None.
      rewrite (resize_length (list nat)). lia.
    + symmetry. apply nth_error_None. lia.
Qed.

Lemma Search_results_single_mode_witness :
  Search_results (fun n : nat => n)
    (mkRangeSearch 3 2 (Some (Examples.leaf 0)) None
       [2; 0; 1] [] true true false true 0)
    [] [] [[0; 2]; [1]] [[5%Z; 6%Z]; [7%Z]]
  = Some ([[2; 1]; [0]], [[5%Z; 6%Z]; [7%Z]]).
Proof.
  apply (Search_results_single_mode nat (fun n : nat => n) Z
           (mkRangeSearch 3 2 (Some (Examples.leaf 0)) None
              [2; 0; 1] [] true true false true 0)
           [] [] [[0; 2]; [1]] [[5%Z; 6%Z]; [7%Z]]).
  - reflexivity.
  - reflexivity.
  - reflexivity.
  - reflexivity.
  - repeat constructor; simpl; lia.
Defined.



(** ** Completeness up to pruning *)

Section CoverageFacts.

Variables D S : Type.
Variable is_DBL_MAX : D -> bool.
Variable P : RuleType D S.
Variable may_skip : nat -> nat -> Prop.
Variable R : list nat.
Hypothesis sound : sound_prunes is_DBL_MAX P may_skip.

Let rstate : Type := TState (S * list (Event D)).

Abbreviation base_case_of := (base_case_of P).
Abbreviation prunable := (prunable is_DBL_MAX P).
Abbreviation sound_frame := (sound_frame is_DBL_MAX P).
Abbreviation narrowed := (narrowed is_DBL_MAX P).
Abbreviation covering := (covering is_DBL_MAX P may_skip R).

Implicit Types (C : list (nat * nat)) (fs : bucket D) (f g : MapEntry D).

Lemma sound_frame_mono C C' f :
  incl C C' -> sound_frame C f -> sound_frame C' f.
Proof.
  intros Hi (Hsc & Hwf & Hbc & Hc). repeat split; try assumption.
  intros E. apply Hi. apply Hc. exact E.
Qed.

Lemma sound_frames_mono C C' fs :
  incl C C' -> Forall (sound_frame C) fs -> Forall (sound_frame C') fs.
Proof.
  intros Hi. apply Forall_impl. intros f. apply sound_frame_mono. exact Hi.
Qed.

Lemma narrowed_refl c fs : narrowed c fs fs.
Proof. intros n Hn. left. exact Hn. Qed.

Lemma narrowed_trans c fs1 fs2 fs3 :
  narrowed c fs1 fs2 -> narrowed c fs2 fs3 -> narrowed c fs1 fs3.
Proof.
  intros H12 H23 n Hn. destruct (H12 n Hn) as [H|H]; [apply H23|right];
    exact H.
Qed.

Lemma narrowed_incl c fs1 fs1' fs2 fs2' :
  incl (nodes fs1') (nodes fs1) -> incl (nodes fs2) (nodes fs2') ->
  narrowed c fs1 fs2 -> narrowed c fs1' fs2'.
Proof.
  intros H1 H2 H n Hn. destruct (H n (H1 n Hn)) as [Hk|Hp];
    [left; apply H2; exact Hk | right; exact Hp].
Qed.

Lemma nodes_incl fs fs' : incl fs fs' -> incl (nodes fs) (nodes fs').
Proof. intros H. unfold nodes. apply incl_map. exact H. Qed.

Lemma nodes_perm_incl fs fs' :
  Permutation fs fs' -> incl (nodes fs) (nodes fs').
Proof.
  intros H. apply nodes_incl. intros f. apply Permutation_in. exact H.
Qed.

Lemma In_nodes_points n fs b :
  In n (nodes fs) -> In b (leaf_points n) -> In b (frontier_points fs).
Proof.
  intros Hn Hb. unfold nodes in Hn. apply in_map_iff in Hn.
  destruct Hn as (f & <- & Hf). apply In_frontier_points. eauto.
Qed.

(** A step of the traversal: every frame is covered by the new frames or
    set aside for the points below [c]. *)
Lemma covering_step q c fs fs' C C' :
  covering q fs C ->
  incl (leaf_points c) (leaf_points q) -> incl C C' ->
  Forall (sound_frame C') fs' ->
  (forall f b, In f fs -> In b (leaf_points (referenceNode f)) ->
               In b (frontier_points fs')
               \/ forall a, In a (leaf_points c) -> may_skip a b) ->
  covering c fs' C'.
Proof.
  intros [_ Hcov] Hc HC Hs Hstep. split; [exact Hs|].
  intros a b Ha Hb.
  destruct (Hcov a b (Hc a Ha) Hb) as [Hin|[Hin|Hin]].
  - apply In_frontier_points in Hin. destruct Hin as (f & Hf & Hbf).
    destruct (Hstep f b Hf Hbf) as [H|H]; [left; exact H|].
    right. right. apply H. exact Ha.
  - right. left. apply HC. exact Hin.
  - right. right. exact Hin.
Qed.

Lemma covering_narrowed q c fs fs' C C' :
  covering q fs C ->
  incl (leaf_points c) (leaf_points q) -> incl C C' ->
  Forall (sound_frame C') fs' -> narrowed c fs fs' ->
  covering c fs' C'.
Proof.
  intros Hcov Hc HC Hs Hn.
  apply (covering_step q c fs fs' C C' Hcov Hc HC Hs).
  intros f b Hf Hb.
  destruct (Hn (referenceNode f)) as [Hk|Hp].
  - unfold nodes. apply in_map. exact Hf.
  - left. eapply In_nodes_points; eassumption.
  - right. intros a Ha. apply (sound _ _ Hp a b Ha Hb).
Qed.

Lemma covering_mono q fs fs' C C' :
  covering q fs C -> incl C C' -> incl fs fs' ->
  Forall (sound_frame C') fs' -> covering q fs' C'.
Proof.
  intros Hcov HC Hfs Hs.
  apply (covering_narrowed q q fs fs' C C' Hcov (incl_refl _) HC Hs).
  intros n Hn. left. apply (nodes_incl fs fs' Hfs). exact Hn.
Qed.

(** *** The calls of a recording policy *)

Lemma Score_rec qn rn bc (st : rstate) d st' :
  call_Score (Recording P) qn rn bc st = Ok (d, st') ->
  calls st' = calls st
  /\ (base_case_of (Point qn) (Point rn) bc -> is_DBL_MAX d = true ->
      prunable qn rn).
Proof.
  intros H. split; [eapply call_Score_calls; exact H|].
  unfold call_Score in H. cbn [Recording Score] in H.
  destruct (Score P qn rn bc (fst (rule_state st))) as [d' s'] eqn:E.
  inversion H. subst d'. intros Hbc Hd. exists bc, (fst (rule_state st)).
  left. rewrite E. split; assumption.
Qed.

Lemma Rescore_rec qn rn old (st : rstate) d st' :
  call_Rescore (Recording P) qn rn old st = Ok (d, st') ->
  calls st' = calls st
  /\ (is_DBL_MAX old = false -> is_DBL_MAX d = true -> prunable qn rn).
Proof.
  intros H. split; [eapply call_Rescore_calls; exact H|].
  unfold call_Rescore in H. cbn [Recording Rescore] in H.
  destruct (Rescore P qn rn old (fst (rule_state st))) as [d' s'] eqn:E.
  inversion H. subst d'. intros Hold Hd. exists old, (fst (rule_state st)).
  right. rewrite E. split; assumption.
Qed.

Lemma BaseCase_rec q r (st : rstate) d st' :
  call_BaseCase (Recording P) q r st = Ok (d, st') ->
  calls st' = calls st ++ [(q, r)] /\ base_case_of q r d.
Proof.
  intros H. split; [eapply call_BaseCase_calls; exact H|].
  unfold call_BaseCase in H. cbn [Recording BaseCase] in H.
  destruct (BaseCase P q r (fst (rule_state st))) as [d' s'] eqn:E.
  inversion H. subst d'. exists (fst (rule_state st)). rewrite E. reflexivity.
Qed.

Lemma prunes_rec n (st : rstate) u st' :
  add_prunes n st = Ok (u, st') -> calls st' = calls st.
Proof. apply add_prunes_calls. Qed.

Ltac rec_step :=
  match goal with
  | H : call_BaseCase _ _ _ _ = Ok _ |- _ =>
      apply BaseCase_rec in H; destruct H as [H ?]
  | H : call_Score _ _ _ _ _ = Ok _ |- _ =>
      apply Score_rec in H; destruct H as [H ?]
  | H : call_Rescore _ _ _ _ _ = Ok _ |- _ =>
      apply Rescore_rec in H; destruct H as [H ?]
  | H : add_prunes _ _ = Ok _ |- _ => apply prunes_rec in H
  end.

(** The calls made so far are kept. *)
Ltac incl_app := first [apply incl_refl | apply incl_appl; incl_app].

Ltac in_tail :=
  first [ assumption
        | apply in_or_app; right; left; reflexivity
        | apply in_or_app; left; in_tail ].

Ltac unfold_calls :=
  repeat match goal with
         | H : calls ?x = _ |- context [calls ?x] => rewrite H
         end.

Ltac calls_incl := unfold_calls; incl_app.
Ltac calls_in := unfold_calls; in_tail.

(** The frames of [Hrst] are still sound after the calls made. *)
Ltac still_sound Hrst :=
  eapply sound_frames_mono; [|exact Hrst]; calls_incl.

Lemma cached_pair cand f C :
  sound_frame C f ->
  negb (referenceIndex f =? Point (referenceNode f))
  || negb (queryIndex f =? Point cand) = false ->
  base_case_of (Point cand) (Point (referenceNode f)) (baseCase f)
  /\ In (Point cand, Point (referenceNode f)) C.
Proof.
  intros (_ & _ & Hbc & Hc) Hmis.
  apply orb_false_iff in Hmis. destruct Hmis as [E1 E2].
  apply negb_false_iff in E1. apply negb_false_iff in E2.
  apply Nat.eqb_eq in E1. apply Nat.eqb_eq in E2.
  rewrite <- E1, <- E2. split; [exact Hbc | apply Hc; exact E1].
Qed.

(** *** The filters *)

Lemma PruneMap_frames_cov cand vec : forall acc (st : rstate) res st',
  Forall (sound_frame (calls st)) vec ->
  PruneMap_frames is_DBL_MAX (Recording P) cand vec acc st = Ok (res, st') ->
  exists kept,
    res = acc ++ kept
    /\ incl (calls st) (calls st')
    /\ Forall (sound_frame (calls st')) kept
    /\ narrowed cand vec kept.
Proof.
  induction vec as [|f rest IH]; intros acc st res st' Hsnd H;
    cbn [PruneMap_frames] in H.
  - monad_inv H. exists []. rewrite app_nil_r.
    repeat split; [apply incl_refl | constructor | apply narrowed_refl].
  - inversion Hsnd as [|? ? Hf Hrst]. subst.
    destruct Hf as (Hsc & Hwf & _ & _).
    monad_inv H. rec_step. destruct (is_DBL_MAX a) eqn:Ea.
    + monad_inv Hrest. rec_step.
      eapply IH in Hrest0; [|still_sound Hrst].
      destruct Hrest0 as (kept & Hres & Hi & Hs & Hn).
      exists kept. split; [exact Hres|]. split.
      { eapply incl_tran; [|exact Hi]. calls_incl. }
      split; [exact Hs|].
      intros n [<-|Hn']; [right; auto | apply Hn; exact Hn'].
    + monad_inv Hrest. rec_step. monad_inv Hrest0. rec_step.
      destruct (is_DBL_MAX a1) eqn:Ea1.
      * monad_inv Hrest. rec_step.
        eapply IH in Hrest0; [|still_sound Hrst].
        destruct Hrest0 as (kept & Hres & Hi & Hs & Hn).
        exists kept. split; [exact Hres|]. split.
        { eapply incl_tran; [|exact Hi]. calls_incl. }
        split; [exact Hs|].
        intros n [<-|Hn']; [right; auto | apply Hn; exact Hn'].
      * assert (Hin : In (Point cand, Point (referenceNode f)) (calls st2))
          by calls_in.
        eapply IH in Hrest; [|still_sound Hrst].
        destruct Hrest as (kept & Hres & Hi & Hs & Hn).
        eexists (_ :: kept). split.
        { rewrite Hres, <- app_assoc. reflexivity. }
        split.
        { eapply incl_tran; [|exact Hi]. calls_incl. }
        split.
        { constructor; [|exact Hs]. cbn.
          repeat split; try assumption. intros _. apply Hi. exact Hin. }
        intros n [<-|Hn']; [left; left; reflexivity|].
        destruct (Hn n Hn') as [Hk|Hp]; [left; right; exact Hk|right; exact Hp].
Qed.

Lemma PMSC_frames_cov cand vec : forall acc (st : rstate) res st',
  Forall (sound_frame (calls st)) vec ->
  PruneMapForSelfChild_frames is_DBL_MAX (Recording P) cand vec acc st
  = Ok (res, st') ->
  exists kept,
    res = acc ++ kept
    /\ incl (calls st) (calls st')
    /\ Forall (sound_frame (calls st')) kept
    /\ narrowed cand vec kept.
Proof.
  induction vec as [|f rest IH]; intros acc st res st' Hsnd H;
    cbn [PruneMapForSelfChild_frames] in H.
  - monad_inv H. exists []. rewrite app_nil_r.
    repeat split; [apply incl_refl | constructor | apply narrowed_refl].
  - inversion Hsnd as [|? ? Hf Hrst]. subst.
    pose proof Hf as (Hsc & Hwf & _ & _).
    monad_inv H.
    assert (Hobc : incl (calls st) (calls st0)
                   /\ match a with
                      | None => prunable cand (referenceNode f)
                      | Some bc =>
                          base_case_of (Point cand) (Point (referenceNode f))
                            bc
                          /\ In (Point cand, Point (referenceNode f))
                               (calls st0)
                      end).
    { destruct (negb (referenceIndex f =? Point (referenceNode f))
                || negb (queryIndex f =? Point cand)) eqn:Hmis.
      - monad_inv Hstep. rec_step. destruct (is_DBL_MAX a0) eqn:Ea.
        + monad_inv Hrest0. rec_step. monad_inv Hrest1.
          split; [calls_incl | auto].
        + monad_inv Hrest0. rec_step. monad_inv Hrest1.
          split; [calls_incl|]. split; [assumption | calls_in].
      - monad_inv Hstep. split; [apply incl_refl|].
        apply (cached_pair cand f _ Hf Hmis). }
    destruct Hobc as [Hi0 Hobc].
    assert (Hrst0 : Forall (sound_frame (calls st0)) rest).
    { eapply sound_frames_mono; eassumption. }
    clear Hstep.
    destruct a as [bc|].
    + destruct Hobc as [Hbc Hin].
      monad_inv Hrest. rec_step. destruct (is_DBL_MAX a) eqn:Ea.
      * monad_inv Hrest0. rec_step.
        eapply IH in Hrest; [|still_sound Hrst0].
        destruct Hrest as (kept & Hres & Hi & Hs & Hn).
        exists kept. split; [exact Hres|]. split.
        { eapply incl_tran; [exact Hi0|]. eapply incl_tran; [|exact Hi].
          calls_incl. }
        split; [exact Hs|].
        intros n [<-|Hn']; [right; auto | apply Hn; exact Hn'].
      * assert (Hin1 : In (Point cand, Point (referenceNode f)) (calls st1))
          by (rewrite Hstep; exact Hin).
        eapply IH in Hrest0; [|still_sound Hrst0].
        destruct Hrest0 as (kept & Hres & Hi & Hs & Hn).
        eexists (_ :: kept). split.
        { rewrite Hres, <- app_assoc. reflexivity. }
        split.
        { eapply incl_tran; [exact Hi0|]. eapply incl_tran; [|exact Hi].
          calls_incl. }
        split.
        { constructor; [|exact Hs]. cbn.
          repeat split; try assumption. intros _. apply Hi. exact Hin1. }
        intros n [<-|Hn']; [left; left; reflexivity|].
        destruct (Hn n Hn') as [Hk|Hp]; [left; right; exact Hk|right; exact Hp].
    + eapply IH in Hrest; [|exact Hrst0].
      destruct Hrest as (kept & Hres & Hi & Hs & Hn).
      exists kept. split; [exact Hres|]. split.
      { eapply incl_tran; eassumption. }
      split; [exact Hs|].
      intros n [<-|Hn']; [right; exact Hobc | apply Hn; exact Hn'].
Qed.

(** *** The expansion of a reference node *)

Lemma RR_children_cov q cs : forall m (st : rstate) m' st',
  Forall wf_tree cs ->
  ReferenceRecursion_children is_DBL_MAX (Recording P) q cs m st
  = Ok (m', st') ->
  exists adm,
    m' = push_all adm m
    /\ incl (calls st) (calls st')
    /\ Forall (sound_frame (calls st')) adm
    /\ incl (nodes adm) cs
    /\ forall c, In c cs -> In c (nodes adm) \/ prunable q c.
Proof.
  induction cs as [|c cs IH]; intros m st m' st' Hwf H;
    cbn [ReferenceRecursion_children] in H.
  - monad_inv H. exists []. cbn.
    repeat split; [apply incl_refl | constructor | apply incl_refl
                   | intros c []].
  - inversion Hwf as [|? ? Hwc Hwcs]. subst.
    monad_inv H. rec_step. monad_inv Hrest. rec_step.
    destruct (is_DBL_MAX a0) eqn:Ea.
    + monad_inv Hrest0. rec_step.
      destruct (IH _ _ _ _ Hwcs Hrest) as (adm & Hm & Hi & Hs & Hin & Hn).
      exists adm. split; [exact Hm|]. split.
      { eapply incl_tran; [|exact Hi]. calls_incl. }
      split; [exact Hs|]. split; [apply incl_tl; exact Hin|].
      intros c' [<-|Hc']; [right; auto|].
      destruct (Hn c' Hc') as [Hk|Hp]; [left|right]; assumption.
    + assert (Hpair : In (Point q, Point c) (calls st1)) by calls_in.
      destruct (IH _ _ _ _ Hwcs Hrest0) as (adm & Hm & Hi & Hs & Hin & Hn).
      exists (mkEntry c a0 (Point c) (Point q) a :: adm).
      split; [exact Hm|]. split.
      { eapply incl_tran; [|exact Hi]. calls_incl. }
      split.
      { constructor; [|exact Hs]. cbn.
        repeat split; try assumption. intros _. apply Hi. exact Hpair. }
      split.
      { cbn. intros n [<-|Hn']; [left; reflexivity|right; apply Hin; exact Hn']. }
      intros c' [<-|Hc']; [left; left; reflexivity|].
      destruct (Hn c' Hc') as [Hk|Hp]; [left; right|right]; assumption.
Qed.

Lemma RR_frame_cov q f m (st : rstate) m' st' :
  sound_frame (calls st) f ->
  ReferenceRecursion_frame is_DBL_MAX (Recording P) q f m st = Ok (m', st') ->
  exists adm,
    m' = push_all adm m
    /\ incl (calls st) (calls st')
    /\ Forall (sound_frame (calls st')) adm
    /\ incl (nodes adm) (Children (referenceNode f))
    /\ (prunable q (referenceNode f)
        \/ (Children (referenceNode f) <> []
            /\ forall c, In c (Children (referenceNode f)) ->
                         In c (nodes adm) \/ prunable q c)).
Proof.
  intros Hf H. unfold ReferenceRecursion_frame in H.
  pose proof Hf as (Hsc & Hwf & Hbcf & Hcache).
  monad_inv H. rec_step. destruct (is_DBL_MAX a) eqn:Ea.
  { monad_inv Hrest. rec_step. monad_inv Hrest0.
    exists []. split; [reflexivity|]. split; [calls_incl|].
    split; [constructor|]. split; [intros n []|]. left. auto. }
  monad_inv Hrest.
  assert (Hbc : incl (calls st0) (calls st1)
                /\ base_case_of (Point q) (Point (referenceNode f)) a0
                /\ In (Point q, Point (referenceNode f)) (calls st1)).
  { destruct (negb (Point (referenceNode f) =? referenceIndex f)
              || negb (Point q =? queryIndex f)) eqn:Hmis.
    - rec_step. split; [calls_incl|]. split; [assumption | calls_in].
    - monad_inv Hstep0. split; [apply incl_refl|].
      apply orb_false_iff in Hmis. destruct Hmis as [E1 E2].
      apply negb_false_iff in E1. apply negb_false_iff in E2.
      apply Nat.eqb_eq in E1. apply Nat.eqb_eq in E2.
      rewrite Hstep. rewrite E1, E2. split; [exact Hbcf|].
      apply Hcache. symmetry. exact E1. }
  destruct Hbc as (Hi1 & Hbc & Hpair). clear Hstep0.
  monad_inv Hrest0. rec_step. destruct (is_DBL_MAX a1) eqn:Ea1.
  { monad_inv Hrest. rec_step. monad_inv Hrest0.
    exists []. split; [reflexivity|]. split.
    { eapply incl_tran; [|eapply incl_tran; [exact Hi1|]]; calls_incl. }
    split; [constructor|]. split; [intros n []|]. left. auto. }
  unfold ReferenceRecursion_expand in Hrest.
  destruct (referenceNode f) as [p s kids] eqn:Hnode.
  cbn [Children Point] in *.
  destruct kids as [|child0 others]; [discriminate|].
  pose proof (wf_tree_self _ _ _ _ Hwf) as Hself.
  pose proof (wf_tree_children _ _ _ Hwf) as Hkids.
  inversion Hkids as [|? ? [_ Hw0] Hwo]. subst.
  assert (Hwfo : Forall wf_tree others).
  { eapply Forall_impl; [|exact Hwo]. intros c [_ Hc]. exact Hc. }
  monad_inv Hrest. rec_step. monad_inv Hrest0.
  assert (Hi2 : incl (calls st) (calls st3)).
  { eapply incl_tran; [|eapply incl_tran; [exact Hi1|]]; calls_incl. }
  assert (Hpair3 : In (Point q, Point child0) (calls st3)).
  { rewrite Hstep1, Hstep0. exact Hpair. }
  assert (Hbc0 : base_case_of (Point q) (Point child0) a0) by exact Hbc.
  clear Hstep Hstep0 Hstep1 Hi1 Hpair.
  destruct (is_DBL_MAX a2) eqn:Ea2.
  - monad_inv Hstep2. rec_step. monad_inv Hrest0.
    destruct (RR_children_cov _ _ _ _ _ _ Hwfo Hrest)
      as (adm & Hm & Hi & Hs & Hin & Hn).
    exists adm. split; [exact Hm|]. split.
    { eapply incl_tran; [exact Hi2|]. eapply incl_tran; [|exact Hi].
      calls_incl. }
    split; [exact Hs|]. split; [apply incl_tl; exact Hin|].
    right. split; [discriminate|].
    intros c [<-|Hc]; [right; auto|].
    destruct (Hn c Hc) as [Hk|Hp]; [left|right]; assumption.
  - monad_inv Hstep2.
    destruct (RR_children_cov _ _ _ _ _ _ Hwfo Hrest)
      as (adm & Hm & Hi & Hs & Hin & Hn).
    exists (mkEntry child0 a2 (Point child0) (Point q) a0 :: adm).
    split; [exact Hm|]. split.
    { eapply incl_tran; eassumption. }
    split.
    { constructor; [|exact Hs]. cbn.
      repeat split; try assumption. intros _. apply Hi. exact Hpair3. }
    split.
    { cbn. intros n [<-|Hn']; [left; reflexivity|right; apply Hin; exact Hn']. }
    right. split; [discriminate|].
    intros c [<-|Hc]; [left; left; reflexivity|].
    destruct (Hn c Hc) as [Hk|Hp]; [left; right|right]; assumption.
Qed.

(** The points of an expanded or pruned node stay covered or are set
    aside. *)
Lemma expanded_covered q n (adm : bucket D) :
  prunable q n
  \/ (Children n <> []
      /\ forall c, In c (Children n) -> In c (nodes adm) \/ prunable q c) ->
  forall b, In b (leaf_points n) ->
    In b (frontier_points adm)
    \/ forall a, In a (leaf_points q) -> may_skip a b.
Proof.
  intros [Hp|[Hne Hcs]] b Hb.
  - right. intros a Ha. apply (sound _ _ Hp a b Ha Hb).
  - destruct n as [p s [|c0 cs]]; [contradiction Hne; reflexivity|].
    rewrite leaf_points_node in Hb. apply in_flat_map in Hb.
    destruct Hb as (c & Hc & Hbc). cbn [Children] in Hcs.
    destruct (Hcs c Hc) as [Hk|Hp].
    + left. eapply In_nodes_points; eassumption.
    + right. intros a Ha. apply (sound _ _ Hp a b Ha Hbc).
Qed.

(** *** The leaf phase *)

Lemma base_cases_cov q pv : forall (st : rstate) u st',
  Forall (sound_frame (calls st)) pv ->
  base_cases is_DBL_MAX (Recording P) q pv st = Ok (u, st') ->
  incl (calls st) (calls st')
  /\ forall f, In f pv ->
       In (Point q, Point (referenceNode f)) (calls st')
       \/ prunable q (referenceNode f).
Proof.
  induction pv as [|f rest IH]; intros st u st' Hsnd H; cbn [base_cases] in H.
  - monad_inv H. split; [apply incl_refl | intros f []].
  - inversion Hsnd as [|? ? Hf Hrst]. subst.
    destruct Hf as (Hsc & _ & _ & Hcache).
    destruct ((referenceIndex f =? Point (referenceNode f))
              && (queryIndex f =? Point q)) eqn:Hdone.
    + monad_inv H. rec_step.
      assert (Hi0 : incl (calls st) (calls st0)) by calls_incl.
      eapply IH in Hrest; [|still_sound Hrst].
      destruct Hrest as [Hi Hall].
      split; [eapply incl_tran; eassumption|].
      intros g [<-|Hg]; [|apply Hall; exact Hg].
      left. apply Hi. apply Hi0.
      apply andb_true_iff in Hdone. destruct Hdone as [E1 E2].
      apply Nat.eqb_eq in E1. apply Nat.eqb_eq in E2.
      rewrite <- E1, <- E2. apply Hcache. exact E1.
    + monad_inv H. rec_step. destruct (is_DBL_MAX a) eqn:Ea.
      * monad_inv Hrest. rec_step.
        assert (Hi0 : incl (calls st) (calls st1)) by calls_incl.
        eapply IH in Hrest0; [|still_sound Hrst].
        destruct Hrest0 as [Hi Hall].
        split; [eapply incl_tran; eassumption|].
        intros g [<-|Hg]; [right; auto | apply Hall; exact Hg].
      * monad_inv Hrest. rec_step.
        assert (Hi0 : incl (calls st) (calls st1)) by calls_incl.
        assert (Hin : In (Point q, Point (referenceNode f)) (calls st1))
          by calls_in.
        eapply IH in Hrest0; [|still_sound Hrst].
        destruct Hrest0 as [Hi Hall].
        split; [eapply incl_tran; eassumption|].
        intros g [<-|Hg]; [|apply Hall; exact Hg].
        left. apply Hi. exact Hin.
Qed.

Lemma covering_perm q fs fs' C :
  Permutation fs fs' -> covering q fs C -> covering q fs' C.
Proof.
  intros Hp Hcov.
  apply (covering_mono q fs fs' C C Hcov (incl_refl _)).
  - intros f. apply Permutation_in. exact Hp.
  - destruct Hcov as [Hs _]. rewrite Forall_forall in *. intros f Hf.
    apply Hs. eapply Permutation_in; [apply Permutation_sym; exact Hp|].
    exact Hf.
Qed.

(** *** The loops of [ReferenceRecursion] *)

Lemma RR_for_cov q top vec : (INT_MIN < top)%Z ->
  forall fuel i low (st : rstate) m' st',
    frontier_inv ((top, vec) :: low) ->
    covering q (skipn i vec ++ frames low) (calls st) ->
    ReferenceRecursion_for is_DBL_MAX (Recording P) fuel q top i
      ((top, vec) :: low) st = Ok (m', st') ->
    exists low',
      m' = (top, vec) :: low'
      /\ frontier_inv ((top, vec) :: low')
      /\ incl (calls st) (calls st')
      /\ covering q (frames low') (calls st').
Proof.
  intros Htop. induction fuel as [|fuel IH];
    intros i low st m' st' Hinv Hcov H; cbn [ReferenceRecursion_for] in H;
    [discriminate|].
  rewrite m_bucket_head in H.
  destruct (nth_error vec i) as [f|] eqn:En.
  - monad_inv H.
    rewrite (skipn_nth_error _ _ _ _ En) in Hcov.
    pose proof Hcov as [Hsnd _].
    inversion Hsnd as [|? ? Hf Hrst]. subst.
    destruct (RR_frame_cov q f _ st a st0 Hf Hstep)
      as (adm & Hm & Hi & Hs & Hin & Hexp).
    destruct (frontier_inv_cons D top vec low Hinv) as [[_ Hvec] Hlow].
    rewrite Forall_forall in Hvec.
    destruct (Hvec f (nth_error_In _ _ En)) as [Hsc Hpr].
    pose proof (proper_Children _ Hpr) as Hch. rewrite Forall_forall in Hch.
    assert (Hbelow : Forall (fun g => (Scale (referenceNode g) < top)%Z) adm).
    { apply Forall_forall. intros g Hg. rewrite <- Hsc.
      apply Hch. apply Hin. unfold nodes. apply in_map. exact Hg. }
    assert (Hprop : Forall proper (nodes adm)).
    { apply Forall_forall. intros n Hn. apply Hch. apply Hin. exact Hn. }
    rewrite (push_all_below D top vec adm low Hbelow) in Hm. subst a.
    pose proof (frames_push_all D adm low (proj1 Hlow)) as Hperm.
    destruct (IH (Datatypes.S i) (push_all adm low) st0 m' st') as
      (low' & Hm' & Hinv' & Hi' & Hcov').
    + rewrite <- (push_all_below D top vec adm low Hbelow).
      apply frontier_inv_push_all; assumption.
    + eapply (covering_step q q _ _ _ _ Hcov (incl_refl _) Hi).
      * apply Forall_app. split.
        -- apply Forall_app in Hrst. destruct Hrst as [Hr1 _].
           eapply sound_frames_mono; eassumption.
        -- apply Forall_app in Hrst. destruct Hrst as [_ Hr2].
           rewrite Forall_forall in *. intros g Hg.
           eapply Permutation_in in Hg; [|exact Hperm].
           apply in_app_or in Hg. destruct Hg as [Hg|Hg].
           ++ eapply sound_frame_mono; [exact Hi|]. apply Hr2. exact Hg.
           ++ apply Hs. exact Hg.
      * intros g b Hg Hb. rewrite frontier_points_app.
        destruct Hg as [<-|Hg].
        -- destruct (expanded_covered q _ adm Hexp b Hb) as [Hc|Hc];
             [|right; exact Hc].
           left. apply in_or_app. right.
           apply In_frontier_points in Hc. destruct Hc as (g & Hg & Hbg).
           apply In_frontier_points. exists g. split; [|exact Hbg].
           eapply Permutation_in; [apply Permutation_sym; exact Hperm|].
           apply in_or_app. right. exact Hg.
        -- left. apply in_app_or in Hg. apply in_or_app.
           destruct Hg as [Hg|Hg].
           ++ left. apply In_frontier_points. eauto.
           ++ right. apply In_frontier_points. exists g. split; [|exact Hb].
              eapply Permutation_in; [apply Permutation_sym; exact Hperm|].
              apply in_or_app. left. exact Hg.
    + exact Hrest.
    + exists low'. split; [exact Hm'|]. split; [exact Hinv'|].
      split; [eapply incl_tran; eassumption | exact Hcov'].
  - monad_inv H. rewrite (skipn_nth_error_None _ _ _ En) in Hcov.
    exists low. split; [reflexivity|]. split; [exact Hinv|].
    split; [apply incl_refl | exact Hcov].
Qed.

Variable sort : bucket D -> bucket D.
Hypothesis sort_perm : forall v, Permutation (sort v) v.

Lemma RR_while_cov q : (INT_MIN <= Scale q)%Z ->
  forall fuel m (st : rstate) m' st',
    frontier_inv m ->
    covering q (frames m) (calls st) ->
    ReferenceRecursion_while is_DBL_MAX (Recording P) sort fuel q m st
    = Ok (m', st') ->
    frontier_inv m' /\ incl (calls st) (calls st')
    /\ covering q (frames m') (calls st').
Proof.
  intros Hq. induction fuel as [|fuel IH]; intros m st m' st' Hinv Hcov H;
    cbn [ReferenceRecursion_while] in H; [discriminate|].
  destruct m as [|[top sv] low]; [discriminate|].
  cbn [m_rbegin hd_error] in H.
  destruct (top >? Scale q)%Z eqn:Etop.
  2:{ monad_inv H. split; [exact Hinv|]. split; [apply incl_refl|exact Hcov]. }
  assert (Htop : (INT_MIN < top)%Z).
  { apply Z.gtb_lt in Etop. lia. }
  replace (top =? INT_MIN)%Z with false in H
    by (symmetry; apply Z.eqb_neq; lia).
  rewrite andb_false_r in H. rewrite m_set_head in H.
  monad_inv H.
  destruct (frontier_inv_cons D top sv low Hinv) as [Hb Hlow].
  destruct (RR_for_cov q top (sort sv) Htop
              (Datatypes.S (bucket_weight sv)) 0 low st a st0) as
    (low' & Hm & Hinv' & Hi & Hcov'); [| |exact Hstep|].
  - eapply frontier_inv_head; [|exact Hinv].
    eapply bucket_inv_perm; [apply sort_perm | exact Hb].
  - cbn [skipn]. eapply covering_perm; [|exact Hcov].
    change (frames ((top, sv) :: low)) with (sv ++ frames low).
    apply Permutation_app_tail. apply Permutation_sym. apply sort_perm.
  - subst a. cbn [m_rbegin hd_error] in Hrest. rewrite m_erase_head in Hrest.
    destruct (frontier_inv_cons D _ _ _ Hinv') as [_ Hlow'].
    destruct (IH low' st0 m' st' Hlow' Hcov' Hrest) as (Hf & Hi' & Hc).
    split; [exact Hf|]. split; [eapply incl_tran; eassumption | exact Hc].
Qed.

(** *** [PruneMap] *)

Lemma frames_inner (m : scale_map D) :
  frontier_inv m -> frames m = inner_frames m ++ m_bucket INT_MIN m.
Proof.
  induction m as [|[k v] m IH]; intros Hinv; [reflexivity|].
  destruct (frontier_inv_cons D k v m Hinv) as [_ Hm].
  cbn [inner_frames]. unfold m_bucket. rewrite m_find_cons.
  change (frames ((k, v) :: m)) with (v ++ frames m).
  rewrite (Z.eqb_sym INT_MIN k).
  destruct (Z.eqb_spec k INT_MIN) as [->|Hne].
  - assert (m = []).
    { destruct m as [|[k2 v2] m2]; [reflexivity|]. exfalso.
      destruct Hinv as [[Hlt _] _]. inversion Hlt as [|? ? Hk2 _]. subst.
      pose proof (frontier_inv_keys D _ Hm) as Hge.
      inversion Hge as [|? ? Hk2' _]. subst. simpl in *. lia. }
    subst m. simpl. rewrite app_nil_r. reflexivity.
  - specialize (IH Hm). unfold m_bucket in IH. rewrite IH.
    rewrite app_assoc. reflexivity.
Qed.

(** A bucket rewritten with what a filter keeps of it. *)
Lemma refilter_frames k (old kept : bucket D) (m : scale_map D) :
  map_ok m -> m_bucket k m = old ->
  Permutation (frames (m_set k (old ++ kept) m)) (frames m ++ kept).
Proof.
  intros Hok Hb.
  eapply Permutation_trans; [apply frames_set; exact Hok|].
  rewrite <- app_assoc.
  eapply Permutation_trans;
    [apply Permutation_app_head; apply Permutation_app_comm|].
  rewrite app_assoc. apply Permutation_app_tail.
  apply Permutation_sym. rewrite <- Hb. apply frames_erase. exact Hok.
Qed.

Lemma erase_empty_frames k (m : scale_map D) :
  map_ok m -> m_bucket k m = [] ->
  Permutation (frames (m_erase k m)) (frames m).
Proof.
  intros Hok Hb. apply Permutation_sym.
  eapply Permutation_trans; [apply (frames_erase D k); exact Hok|].
  rewrite Hb. apply Permutation_refl.
Qed.

Lemma PruneMap_scales_cov cand : forall buckets cm (st : rstate) cm' st',
  map_ok cm -> ~ In INT_MIN (keys cm) ->
  Forall (sound_frame (calls st)) (frames buckets) ->
  PruneMap_scales is_DBL_MAX (Recording P) cand buckets cm st
  = Ok (cm', st') ->
  exists kept,
    Permutation (frames cm') (frames cm ++ kept)
    /\ map_ok cm' /\ ~ In INT_MIN (keys cm')
    /\ incl (calls st) (calls st')
    /\ Forall (sound_frame (calls st')) kept
    /\ narrowed cand (inner_frames buckets) kept.
Proof.
  induction buckets as [|[k v] rest IH];
    intros cm st cm' st' Hok Hmin Hsnd H; cbn [PruneMap_scales] in H.
  - monad_inv H. exists []. rewrite app_nil_r.
    repeat split; [apply Permutation_refl | assumption | assumption
                   | apply incl_refl | constructor | intros n []].
  - cbn [inner_frames]. destruct (Z.eqb_spec k INT_MIN) as [->|Hk].
    + monad_inv H. exists []. rewrite app_nil_r.
      repeat split; [apply Permutation_refl | assumption | assumption
                     | apply incl_refl | constructor | intros n []].
    + monad_inv H.
      change (frames ((k, v) :: rest)) with (v ++ frames rest) in Hsnd.
      apply Forall_app in Hsnd. destruct Hsnd as [Hsv Hsrest].
      destruct (PruneMap_frames_cov cand v _ st a st0 Hsv Hstep)
        as (kept & Hres & Hi & Hs & Hn).
      set (cm1 := m_touch k cm) in *.
      assert (Hok1 : map_ok cm1) by (apply map_ok_touch; exact Hok).
      assert (Hf1 : Permutation (frames cm1) (frames cm)).
      { apply frames_touch. exact Hok. }
      set (cm2 := m_set k a cm1) in *.
      assert (Hok2 : map_ok cm2) by (apply map_ok_set; exact Hok1).
      assert (Hf2 : Permutation (frames cm2) (frames cm ++ kept)).
      { unfold cm2. rewrite Hres.
        eapply Permutation_trans;
          [apply refilter_frames; [exact Hok1 | reflexivity]|].
        apply Permutation_app_tail. exact Hf1. }
      assert (Hmin2 : ~ In INT_MIN (keys cm2)).
      { unfold cm2, cm1. intros Hin. apply keys_set in Hin.
        destruct Hin as [Hin|Hin]; [congruence|].
        apply keys_touch in Hin. destruct Hin; [congruence | contradiction]. }
      assert (Hcm3 : exists cm3,
                 (match a with [] => m_erase k cm2 | _ :: _ => cm2 end = cm3)
                 /\ Permutation (frames cm3) (frames cm ++ kept)
                 /\ map_ok cm3 /\ ~ In INT_MIN (keys cm3)).
      { destruct a as [|g a'].
        - exists (m_erase k cm2). split; [reflexivity|]. split; [|split].
          + eapply Permutation_trans; [|exact Hf2].
            apply erase_empty_frames; [exact Hok2|].
            unfold cm2. rewrite m_bucket_set. rewrite Z.eqb_refl.
            reflexivity.
          + apply map_ok_erase. exact Hok2.
          + intros Hin. apply keys_erase in Hin. contradiction.
        - exists cm2. auto. }
      destruct Hcm3 as (cm3 & Hcm3 & Hf3 & Hok3 & Hmin3).
      rewrite Hcm3 in Hrest.
      destruct (IH cm3 st0 cm' st' Hok3 Hmin3
                  (sound_frames_mono _ _ _ Hi Hsrest) Hrest)
        as (kept' & Hf' & Hok' & Hmin' & Hi' & Hs' & Hn').
      exists (kept ++ kept'). split.
      { eapply Permutation_trans; [exact Hf'|].
        rewrite app_assoc. apply Permutation_app_tail. exact Hf3. }
      split; [exact Hok'|]. split; [exact Hmin'|].
      split; [eapply incl_tran; eassumption|].
      split.
      { apply Forall_app. split; [|exact Hs'].
        eapply sound_frames_mono; eassumption. }
      intros n Hin. unfold nodes in Hin. rewrite map_app in Hin.
      apply in_app_or in Hin. unfold nodes. rewrite map_app.
      destruct Hin as [Hin|Hin].
      * destruct (Hn n Hin) as [Hk'|Hp]; [left|right; exact Hp].
        apply in_or_app. left. exact Hk'.
      * destruct (Hn' n Hin) as [Hk'|Hp]; [left|right; exact Hp].
        apply in_or_app. right. exact Hk'.
Qed.

Lemma PruneMap_cov q cand m (st : rstate) m' cm st' :
  frontier_inv m -> covering q (frames m) (calls st) ->
  incl (leaf_points cand) (leaf_points q) ->
  PruneMap is_DBL_MAX (Recording P) q cand m [] st = Ok ((m', cm), st') ->
  incl (calls st) (calls st')
  /\ covering q (frames m') (calls st')
  /\ covering cand (frames cm) (calls st').
Proof.
  intros Hinv Hcov Hsub H. unfold PruneMap in H.
  destruct m as [|e m0] eqn:Hm.
  - apply ret_Ok in H. destruct H as [E ->]. inversion E. subst m' cm.
    split; [apply incl_refl|]. split; [exact Hcov|].
    apply (covering_narrowed q cand [] [] _ _ Hcov Hsub (incl_refl _));
      [constructor | apply narrowed_refl].
  - rewrite <- Hm in *. clear Hm e m0. monad_inv H.
    apply ret_Ok in Hrest. destruct Hrest as [E E2]. inversion E.
    subst m' cm st0. clear E.
    pose proof Hinv as [Hmok _].
    pose proof Hcov as [Hsnd _].
    destruct (PruneMap_scales_cov cand m [] st a st' I (fun H => H) Hsnd
                Hstep)
      as (kept & Hf & Hok & Hmin & Hi & Hs & Hn).
    cbn [frames flat_map app] in Hf.
    split; [exact Hi|]. split.
    { eapply covering_perm;
        [apply Permutation_sym; apply frames_touch; exact Hmok|].
      apply (covering_mono q _ _ _ _ Hcov Hi (incl_refl _)).
      eapply sound_frames_mono; eassumption. }
    rewrite m_bucket_touch.
    assert (Hcm : Permutation
                    (frames (m_set INT_MIN (m_bucket INT_MIN m) a))
                    (m_bucket INT_MIN m ++ kept)).
    { eapply Permutation_trans; [apply frames_set; exact Hok|].
      rewrite (m_erase_absent D INT_MIN a Hmin).
      apply Permutation_app_head. exact Hf. }
    rewrite (frames_inner m Hinv) in Hcov, Hsnd.
    apply Forall_app in Hsnd. destruct Hsnd as [_ Hleaf].
    eapply covering_perm; [apply Permutation_sym; exact Hcm|].
    apply (covering_narrowed q cand _ _ _ _ Hcov Hsub Hi).
    + apply Forall_app. split; [|exact Hs].
      eapply sound_frames_mono; eassumption.
    + intros n Hin. unfold nodes in Hin. rewrite map_app in Hin.
      apply in_app_or in Hin. unfold nodes. rewrite map_app.
      destruct Hin as [Hin|Hin].
      * destruct (Hn n Hin) as [Hk'|Hp]; [left|right; exact Hp].
        apply in_or_app. right. exact Hk'.
      * left. apply in_or_app. left. exact Hin.
Qed.

(** *** [PruneMapForSelfChild] *)

Lemma PMSC_loop_cov cand : forall fuel cur m (st : rstate) m' st',
  map_ok m -> Forall (sound_frame (calls st)) (frames m) ->
  PruneMapForSelfChild_loop is_DBL_MAX (Recording P) fuel cand cur m st
  = Ok (m', st') ->
  incl (calls st) (calls st')
  /\ Forall (sound_frame (calls st')) (frames m')
  /\ narrowed cand (frames m) (frames m').
Proof.
  induction fuel as [|fuel IH]; intros cur m st m' st' Hok Hsnd H;
    cbn [PruneMapForSelfChild_loop] in H; [discriminate|].
  destruct (iterator_eqb cur (begin_it m)).
  { monad_inv H.
    split; [apply incl_refl|]. split; [exact Hsnd | apply narrowed_refl]. }
  apply bind_Ok in H. destruct H as ([k sv] & stD & Hd & H).
  apply lift_Ok in Hd. destruct Hd as [Hd ->].
  destruct (k =? INT_MIN)%Z.
  { monad_inv H.
    split; [apply incl_refl|]. split; [exact Hsnd | apply narrowed_refl]. }
  apply bind_Ok in H. destruct H as (res & st1 & Hfr & H).
  pose proof (rit_deref_In D _ _ _ Hd) as Hin.
  pose proof (In_m_find k sv m Hok Hin) as Hfind.
  assert (Hbk : m_bucket k m = sv) by (unfold m_bucket; rewrite Hfind; auto).
  pose proof (frames_erase D k m Hok) as Hfm. rewrite Hbk in Hfm.
  assert (Hsv : Forall (sound_frame (calls st)) sv).
  { rewrite Forall_forall in *. intros f Hf. apply Hsnd.
    eapply Permutation_in; [apply Permutation_sym; exact Hfm|].
    apply in_or_app. left. exact Hf. }
  destruct (PMSC_frames_cov cand sv [] st res st1 Hsv Hfr)
    as (kept & Hres & Hi & Hs & Hn).
  cbn [app] in Hres. subst res.
  set (m1 := m_set k kept m) in *.
  assert (Hok1 : map_ok m1) by (apply map_ok_set; exact Hok).
  pose proof (frames_set D k kept m Hok) as Hf1. fold m1 in Hf1.
  assert (Hs1 : Forall (sound_frame (calls st1)) (frames m1)).
  { rewrite Forall_forall in *. intros f Hf.
    eapply Permutation_in in Hf; [|exact Hf1].
    apply in_app_or in Hf. destruct Hf as [Hf|Hf]; [apply Hs; exact Hf|].
    eapply sound_frame_mono; [exact Hi|]. apply Hsnd.
    eapply Permutation_in; [apply Permutation_sym; exact Hfm|].
    apply in_or_app. right. exact Hf. }
  assert (Hn1 : narrowed cand (frames m) (frames m1)).
  { intros n Hnin.
    apply (nodes_perm_incl _ _ Hfm) in Hnin.
    unfold nodes in Hnin. rewrite map_app in Hnin. apply in_app_or in Hnin.
    destruct Hnin as [Hnin|Hnin].
    - destruct (Hn n Hnin) as [Hk|Hp]; [left|right; exact Hp].
      apply (nodes_perm_incl _ _ (Permutation_sym Hf1)).
      unfold nodes. rewrite map_app. apply in_or_app. left. exact Hk.
    - left. apply (nodes_perm_incl _ _ (Permutation_sym Hf1)).
      unfold nodes. rewrite map_app. apply in_or_app. right. exact Hnin. }
  destruct kept as [|g kept'].
  - set (m2 := m_erase k m1) in *.
    assert (Hf2 : Permutation (frames m2) (frames m1)).
    { apply erase_empty_frames; [exact Hok1|].
      unfold m1. rewrite m_bucket_set, Z.eqb_refl. reflexivity. }
    assert (Hs2 : Forall (sound_frame (calls st1)) (frames m2)).
    { rewrite Forall_forall in *. intros f Hf. apply Hs1.
      eapply Permutation_in; eassumption. }
    assert (Hn2 : narrowed cand (frames m) (frames m2)).
    { eapply narrowed_incl; [apply incl_refl| |exact Hn1].
      apply nodes_perm_incl. apply Permutation_sym. exact Hf2. }
    assert (Hok2 : map_ok m2) by (apply map_ok_erase; exact Hok1).
    destruct m2 as [|e2 m2'] eqn:Hm2.
    + monad_inv H. split; [exact Hi|]. split; assumption.
    + rewrite <- Hm2 in *.
      apply bind_Ok in H. destruct H as (cur' & st2 & Hinc & H).
      apply lift_Ok in Hinc. destruct Hinc as [_ ->].
      destruct (IH _ _ _ _ _ Hok2 Hs2 H) as (Hi' & Hs' & Hn').
      split; [eapply incl_tran; eassumption|]. split; [exact Hs'|].
      eapply narrowed_trans; eassumption.
  - apply bind_Ok in H. destruct H as (cur' & st2 & Hinc & H).
    apply lift_Ok in Hinc. destruct Hinc as [_ ->].
    destruct (IH _ _ _ _ _ Hok1 Hs1 H) as (Hi' & Hs' & Hn').
    split; [eapply incl_tran; eassumption|]. split; [exact Hs'|].
    eapply narrowed_trans; eassumption.
Qed.

Lemma PMSC_cov q cand m (st : rstate) m' st' :
  frontier_inv m -> covering q (frames m) (calls st) ->
  incl (leaf_points cand) (leaf_points q) ->
  PruneMapForSelfChild is_DBL_MAX (Recording P) cand m st = Ok (m', st') ->
  incl (calls st) (calls st') /\ covering cand (frames m') (calls st').
Proof.
  intros [Hok _] Hcov Hsub H. unfold PruneMapForSelfChild in H.
  pose proof Hcov as [Hsnd _].
  assert (Hloop : incl (calls st) (calls st')
                  /\ Forall (sound_frame (calls st')) (frames m')
                  /\ narrowed cand (frames m) (frames m')).
  { destruct m as [|e m0] eqn:Hm.
    - monad_inv H. split; [apply incl_refl|].
      split; [exact Hsnd | apply narrowed_refl].
    - rewrite <- Hm in *. eapply PMSC_loop_cov; eassumption. }
  destruct Hloop as (Hi & Hs & Hn). split; [exact Hi|].
  eapply covering_narrowed; eassumption.
Qed.

(** *** [Traverse] *)

Lemma proper_leaf t : proper t -> Scale t = INT_MIN -> Children t = [].
Proof.
  intros Ht Hs. pose proof (proper_Children t Ht) as Hch.
  destruct (Children t) as [|c cs]; [reflexivity|]. exfalso.
  inversion Hch as [|? ? [Hlt Hc] _]. subst.
  pose proof (proper_Scale c Hc). lia.
Qed.

Lemma proper_leaf_points t :
  proper t -> Scale t = INT_MIN -> leaf_points t = [Point t].
Proof.
  intros Ht Hs. pose proof (proper_leaf t Ht Hs) as Hc.
  destruct t as [p s cs]. cbn [Children] in Hc. subst cs. reflexivity.
Qed.

(** The body of the loop over the non-self children of [q]. *)
Let child_step (q : CoverTree) :=
  fun (child : CoverTree) (referenceMap : scale_map D) =>
    bind (PruneMap is_DBL_MAX (Recording P) q child referenceMap [])
      (fun maps =>
         bind (Traverse_map is_DBL_MAX (Recording P) sort child (snd maps))
           (fun _ => ret (fst maps))).

(** What the traversal of a query node guarantees. *)
Let completes (c : CoverTree) : Prop :=
  forall m (st : rstate) m' st',
    frontier_inv m -> covering c (frames m) (calls st) ->
    Traverse_map is_DBL_MAX (Recording P) sort c m st = Ok (m', st') ->
    incl (calls st) (calls st')
    /\ forall a b, In a (leaf_points c) -> In b R ->
                   In (a, b) (calls st') \/ may_skip a b.

Lemma for_each_child_cov q cs : forall m (st : rstate) mL stL,
  Forall completes cs ->
  incl (flat_map leaf_points cs) (leaf_points q) ->
  frontier_inv m -> covering q (frames m) (calls st) ->
  for_each_child (child_step q) cs m st = Ok (mL, stL) ->
  frontier_inv mL
  /\ incl (calls st) (calls stL)
  /\ covering q (frames mL) (calls stL)
  /\ forall a b, In a (flat_map leaf_points cs) -> In b R ->
                 In (a, b) (calls stL) \/ may_skip a b.
Proof.
  induction cs as [|c rest IH]; intros m st mL stL Hcs Hsub Hinv Hcov H;
    cbn [for_each_child] in H.
  - apply ret_Ok in H. destruct H as [-> ->].
    split; [exact Hinv|]. split; [apply incl_refl|]. split; [exact Hcov|].
    intros a b [].
  - inversion Hcs as [|? ? Hc Hrest]. subst.
    apply bind_Ok in H. destruct H as (m1 & st1 & Hstep & H).
    unfold child_step in Hstep. apply bind_Ok in Hstep.
    destruct Hstep as ([mP cm] & stP & HPM & Hstep).
    apply bind_Ok in Hstep. destruct Hstep as (mT & stT & HT & Hret).
    apply ret_Ok in Hret. destruct Hret as [E E2]. cbn [fst snd] in *.
    subst m1 stT.
    assert (Hsubc : incl (leaf_points c) (leaf_points q)).
    { intros a Ha. apply Hsub. cbn [flat_map]. apply in_or_app. left.
      exact Ha. }
    assert (Hsubr : incl (flat_map leaf_points rest) (leaf_points q)).
    { intros a Ha. apply Hsub. cbn [flat_map]. apply in_or_app. right.
      exact Ha. }
    destruct (PruneMap_cov q c m st mP cm stP Hinv Hcov Hsubc HPM)
      as (Hi1 & HcovP & Hcovc).
    pose proof (PruneMap_ends D (S * list (Event D)) is_DBL_MAX
                  (Recording P) no_fault q c m st Hinv) as He.
    rewrite HPM in He. cbn [ends fst snd] in He.
    destruct He as (_ & HinvP & Hinvc & _).
    destruct (Hc cm stP mT st1 Hinvc Hcovc HT) as [Hi2 Hdone].
    assert (HcovP1 : covering q (frames mP) (calls st1)).
    { apply (covering_mono q _ _ _ _ HcovP Hi2 (incl_refl _)).
      destruct HcovP as [HsP _]. eapply sound_frames_mono; eassumption. }
    destruct (IH mP st1 mL stL Hrest Hsubr HinvP HcovP1 H)
      as (HinvL & Hi3 & HcovL & Hrestdone).
    split; [exact HinvL|]. split.
    { eapply incl_tran; [exact Hi1|]. eapply incl_tran; eassumption. }
    split; [exact HcovL|].
    intros a b Ha Hb. cbn [flat_map] in Ha. apply in_app_or in Ha.
    destruct Ha as [Ha|Ha].
    + destruct (Hdone a b Ha Hb) as [Hd|Hd]; [left; apply Hi3|right];
        exact Hd.
    + apply Hrestdone; assumption.
Qed.

Lemma Traverse_map_cov : forall q, proper q -> completes q.
Proof.
  induction q as [p s cs IH] using CoverTree_ind'.
  intros Hq m st m' st' Hinv Hcov H.
  rewrite Traverse_map_eq in H.
  pose proof (proper_Scale _ Hq) as Hs.
  pose proof (proper_Children _ Hq) as Hch.
  cbn [Scale Children] in *.
  destruct m as [|e m0] eqn:Hm.
  { apply ret_Ok in H. destruct H as [_ ->].
    split; [apply incl_refl|]. intros a b Ha Hb.
    destruct Hcov as [_ Hcov].
    destruct (Hcov a b Ha Hb) as [[]|Hd]. exact Hd. }
  rewrite <- Hm in *. clear Hm e m0.
  apply bind_Ok in H. destruct H as (mR & stR & HRR & H).
  unfold ReferenceRecursion in HRR.
  destruct (RR_while_cov (Node p s cs) Hs _ m st mR stR Hinv Hcov HRR)
    as (HinvR & HiR & HcovR).
  pose proof (RR_while_ends D (S * list (Event D)) is_DBL_MAX (Recording P)
                sort sort_perm (Node p s cs) Hs
                (Datatypes.S (map_weight m)) m st Hinv (Nat.lt_succ_diag_r _))
    as He.
  rewrite HRR in He. cbn [ends] in He. destruct He as (_ & HneR & HleR).
  cbn [Scale] in HleR.
  apply bind_Ok in H. destruct H as (m2 & st2 & Hmid & H).
  destruct (Z.eqb_spec s INT_MIN) as [Hleaf|Hinner]; cbn [negb] in Hmid, H.
  - (* a query leaf: the base cases *)
    apply ret_Ok in Hmid. destruct Hmid as [-> ->].
    rewrite Hleaf in HleR.
    destruct (leaf_only D mR HinvR HneR HleR) as [pv ->].
    cbn [m_begin] in H. rewrite Z.eqb_refl in H. cbn [negb] in H.
    apply bind_Ok in H. destruct H as (u & st3 & Hbc & H).
    apply ret_Ok in H. destruct H as [_ ->].
    pose proof HcovR as [HsndR HcR].
    cbn [frames flat_map] in HsndR, HcR. rewrite app_nil_r in HsndR, HcR.
    destruct (base_cases_cov (Node p s cs) pv stR u st3 HsndR Hbc)
      as [Hi3 Hall].
    split; [eapply incl_tran; eassumption|].
    destruct (frontier_inv_cons D _ _ _ HinvR) as [[_ Hpv] _].
    rewrite Forall_forall in Hpv.
    intros a b Ha Hb.
    destruct (HcR a b Ha Hb) as [Hin|[Hin|Hin]].
    + apply In_frontier_points in Hin. destruct Hin as (f & Hf & Hbf).
      destruct (Hpv f Hf) as [Hsc Hpr].
      rewrite (proper_leaf_points _ Hpr Hsc) in Hbf.
      destruct Hbf as [<-|[]].
      rewrite (proper_leaf_points _ Hq Hleaf) in Ha.
      destruct Ha as [<-|[]]. cbn [Point] in *.
      destruct (Hall f Hf) as [Hd|Hp]; [left; exact Hd|].
      right. apply (sound _ _ Hp).
      * rewrite (proper_leaf_points _ Hq Hleaf). left. reflexivity.
      * rewrite (proper_leaf_points _ Hpr Hsc). left. reflexivity.
    + left. apply Hi3. exact Hin.
    + right. exact Hin.
  - (* an inner query node: the children *)
    apply ret_Ok in H. destruct H as [E1 E2]. subst m2 st2.
    destruct (m_rbegin mR) as [[top v]|] eqn:Hrb; [|discriminate].
    destruct (s >=? top)%Z eqn:Hge.
    2:{ exfalso. destruct mR as [|[k w] mR']; [discriminate|].
        cbn [m_rbegin hd_error] in Hrb. inversion Hrb. subst k w.
        inversion HleR as [|? ? Hk _]. subst.
        rewrite Z.geb_leb in Hge. apply Z.leb_gt in Hge. lia. }
    destruct cs as [|c0 others];
      [exfalso; apply (proper_inner _ Hq); [exact Hinner | reflexivity]|].
    inversion IH as [|? ? IH0 IHo]. inversion Hch as [|? ? [_ Hc0] Hco].
    subst.
    apply bind_Ok in Hmid. destruct Hmid as (mL & stL & Hloop & Hmid).
    apply bind_Ok in Hmid. destruct Hmid as (mS & stS & HPMSC & HT).
    assert (Hothers : Forall completes others).
    { rewrite Forall_forall in *. intros c Hc. apply IHo; [exact Hc|].
      apply Hco. exact Hc. }
    assert (Hsub0 : incl (leaf_points c0) (leaf_points (Node p s (c0 :: others)))).
    { rewrite leaf_points_node. intros a Ha. cbn [flat_map].
      apply in_or_app. left. exact Ha. }
    assert (Hsubo : incl (flat_map leaf_points others)
                      (leaf_points (Node p s (c0 :: others)))).
    { rewrite leaf_points_node. intros a Ha. cbn [flat_map].
      apply in_or_app. right. exact Ha. }
    destruct (for_each_child_cov (Node p s (c0 :: others)) others mR stR mL
                stL Hothers Hsubo HinvR HcovR Hloop)
      as (HinvL & HiL & HcovL & Hodone).
    destruct (PMSC_cov (Node p s (c0 :: others)) c0 mL stL mS stS HinvL HcovL
                Hsub0 HPMSC) as [HiS HcovS].
    pose proof (PMSC_ends D (S * list (Event D)) is_DBL_MAX (Recording P)
                  c0 mL stL HinvL) as He.
    rewrite HPMSC in He. cbn [ends] in He. destruct He as (HinvS & _).
    destruct (IH0 Hc0 mS stS m' st' HinvS HcovS HT) as [HiT H0done].
    split.
    { eapply incl_tran; [exact HiR|]. eapply incl_tran; [exact HiL|].
      eapply incl_tran; eassumption. }
    intros a b Ha Hb. rewrite leaf_points_node in Ha. cbn [flat_map] in Ha.
    apply in_app_or in Ha. destruct Ha as [Ha|Ha].
    + apply H0done; assumption.
    + destruct (Hodone a b Ha Hb) as [Hd|Hd]; [left|right; exact Hd].
      apply HiT. apply HiS. exact Hd.
Qed.

Variable zero : D.
Hypothesis zero_finite : is_DBL_MAX zero = false.

Lemma Traverse_cov q r (st : rstate) m st' :
  proper q -> proper r -> wf_tree r -> incl R (leaf_points r) ->
  Traverse is_DBL_MAX zero (Recording P) sort q r st = Ok (m, st') ->
  forall a b, In a (leaf_points q) -> In b R ->
              In (a, b) (calls st') \/ may_skip a b.
Proof.
  intros Hq Hr Hwr HR H. unfold Traverse in H.
  apply bind_Ok in H. destruct H as (bc & st1 & Hbc & H).
  apply BaseCase_rec in Hbc. destruct Hbc as [Hcalls Hbc].
  refine (proj2 (Traverse_map_cov q Hq _ st1 m st' _ _ H)).
  - apply root_frontier_inv. exact Hr.
  - split.
    + cbn. constructor; [|constructor]. cbn.
      repeat split; try assumption. intros _. calls_in.
    + intros a b Ha Hb. left. cbn. rewrite app_nil_r. apply HR. exact Hb.
Qed.

End CoverageFacts.

Lemma In_count_BaseCase (D : Type) a b : forall log : list (Event D),
  In (a, b) (bc_pairs log) -> 0 < count_BaseCase a b log.
Proof.
  unfold count_BaseCase.
  induction log as [|e log IH]; cbn [filter bc_pairs length]; [intros []|].
  destruct e as [q r'| |]; cbn [is_BaseCase_of]; try exact IH.
  intros [E|Hin].
  - inversion E. subst. rewrite !Nat.eqb_refl. cbn [andb length]. lia.
  - destruct ((a =? q) && (b =? r')); cbn [length]; [lia|].
    apply IH. exact Hin.
Qed.

(** The range-search policy of the examples prunes a pair of nodes only
    when no pair of points the nodes cover lies in the range. *)
Lemma range_rules_sound qx rx lo hi :
  sound_prunes Examples.is_max (Examples.range_rules qx rx lo hi)
    (fun a b => Examples.in_range lo hi (Examples.dist qx rx a b) = false).
Proof.
  intros qn rn (d & s & [[_ H]|[Hd H]]) a b Ha Hb.
  - cbn [Examples.range_rules Score fst] in H.
    destruct (existsb
                (fun q => existsb
                            (fun r => Examples.in_range lo hi
                                        (Examples.dist qx rx q r))
                            (leaf_points rn))
                (leaf_points qn)) eqn:E; [discriminate H|].
    destruct (Examples.in_range lo hi (Examples.dist qx rx a b)) eqn:Er;
      [|reflexivity].
    exfalso. rewrite <- not_true_iff_false in E. apply E.
    apply existsb_exists. exists a. split; [exact Ha|].
    apply existsb_exists. exists b. split; [exact Hb | exact Er].
  - cbn [Examples.range_rules Rescore fst] in H. congruence.
Qed.

(** X15.  The traversal is complete up to pruning.  Let the policy prune a
    pair of nodes (by [Score], given a base case of the two nodes' points,
    or by [Rescore], given a score other than [DBL_MAX]) only when every
    pair of points the two nodes cover may be skipped.  Then, on proper
    cover trees with a well-formed reference tree, with a sort that
    permutes its bucket and a root score (0.0 in the source) that is not
    [DBL_MAX], a traversal that returns has called [BaseCase] for every
    pair of a query leaf point and a reference leaf point that may not be
    skipped. *)
Theorem Traverse_complete_up_to_pruning (D S : Type)
    (is_DBL_MAX : D -> bool) (zero : D) (P : RuleType D S)
    (sort : bucket D -> bucket D) (may_skip : nat -> nat -> Prop)
    (q r : CoverTree) (st : TState (S * list (Event D)))
    (m : scale_map D) (st' : TState (S * list (Event D))) :
  (forall v, Permutation (sort v) v) ->
  is_DBL_MAX zero = false ->
  proper q -> proper r -> wf_tree r ->
  sound_prunes is_DBL_MAX P may_skip ->
  Traverse is_DBL_MAX zero (Recording P) sort q r st = Ok (m, st') ->
  forall a b,
    In a (leaf_points q) -> In b (leaf_points r) ->
    0 < count_BaseCase a b (snd (rule_state st')) \/ may_skip a b.
Proof.
  intros Hsort Hzero Hq Hr Hwr Hsound H a b Ha Hb.
  destruct (Traverse_cov D S is_DBL_MAX P may_skip (leaf_points r) Hsound
              sort Hsort zero Hzero q r st m st' Hq Hr Hwr (incl_refl _) H
              a b Ha Hb) as [Hin|Hskip].
  - left. apply In_count_BaseCase. exact Hin.
  - right. exact Hskip.
Qed.

Lemma Traverse_complete_up_to_pruning_witness :
  exists m st',
    Examples.run
      (Examples.traverse (Recording Examples.skip_rules)
         Examples.skip_query Examples.skip_reference) ([], [])
    = Ok (m, st')
    /\ forall a b,
         In a [0; 1; 2] -> In b [0; 1; 2; 3] ->
         0 < count_BaseCase a b (snd (rule_state st'))
         \/ Examples.in_range 0 5
              (Examples.dist [0%Z; 1%Z; 100%Z]
                 [100%Z; 101%Z; 102%Z; 103%Z] a b) = false.
Proof.
  eexists. eexists. split; [vm_compute; reflexivity|].
  eapply (Traverse_complete_up_to_pruning Z (list (nat * nat))
            Examples.is_max 0%Z Examples.skip_rules Examples.sort_by_score
            (fun a b =>
               Examples.in_range 0 5
                 (Examples.dist [0%Z; 1%Z; 100%Z]
                    [100%Z; 101%Z; 102%Z; 103%Z] a b) = false)
            Examples.skip_query Examples.skip_reference
            (mkState ([], []) 0)).
  - exact sort_by_score_perm.
  - reflexivity.
  - proper_tree.
  - exact proper_skip_reference.
  - vm_compute. repeat split.
  - apply range_rules_sound.
  - vm_compute. reflexivity.
Defined.

(** ** Traversals under a policy that never prunes *)

Section NeverPrunesFacts.

Variables D S : Type.
Variable is_DBL_MAX : D -> bool.
Variable rule : RuleType D S.
Hypothesis np : never_prunes is_DBL_MAX rule.

Abbreviation finite_score := (finite_score is_DBL_MAX).
Abbreviation finite_scores := (finite_scores is_DBL_MAX).

Implicit Types (m : scale_map D) (st : TState S) (allowed : fault -> Prop)
  (f g : MapEntry D).

Lemma ends_Score_np allowed qn rn bc st :
  ends allowed (fun d _ => is_DBL_MAX d = false)
    (call_Score rule qn rn bc st).
Proof.
  unfold call_Score.
  pose proof (proj1 (np qn rn bc (rule_state st))) as H.
  destruct (Score rule qn rn bc (rule_state st)). exact H.
Qed.

Lemma ends_Rescore_np allowed qn rn old st :
  is_DBL_MAX old = false ->
  ends allowed (fun d _ => is_DBL_MAX d = false)
    (call_Rescore rule qn rn old st).
Proof.
  intros Hold. unfold call_Rescore.
  pose proof (proj2 (np qn rn old (rule_state st)) Hold) as H.
  destruct (Rescore rule qn rn old (rule_state st)). exact H.
Qed.

Lemma ends_BaseCase_np allowed q r st :
  ends allowed (fun _ _ => True) (call_BaseCase rule q r st).
Proof.
  unfold call_BaseCase. destruct (BaseCase rule q r (rule_state st)).
  exact I.
Qed.

(** *** Maps without a [DBL_MAX] score *)

Lemma finite_scores_nil : finite_scores (@nil (Z * bucket D)).
Proof. intros k v H. discriminate H. Qed.

Lemma finite_scores_set k v m :
  finite_scores m -> Forall finite_score v -> finite_scores (m_set k v m).
Proof.
  intros Hm Hv j w. rewrite m_find_set.
  destruct (j =? k)%Z; [intros E; inversion E; subst; exact Hv | apply Hm].
Qed.

Lemma finite_scores_erase k m :
  map_ok m -> finite_scores m -> finite_scores (m_erase k m).
Proof.
  intros Hok Hm j w. rewrite (m_find_erase j k m Hok).
  destruct (j =? k)%Z; [discriminate | apply Hm].
Qed.

Lemma finite_scores_touch k m : finite_scores m -> finite_scores (m_touch k m).
Proof.
  intros Hm j w. rewrite m_find_touch.
  destruct (m_find j m) as [v|] eqn:E.
  - intros E'. inversion E'. subst. apply (Hm j w E).
  - destruct (j =? k)%Z; [|discriminate].
    intros E'. inversion E'. constructor.
Qed.

Lemma finite_scores_bucket k m :
  finite_scores m -> Forall finite_score (m_bucket k m).
Proof.
  intros Hm. unfold m_bucket. destruct (m_find k m) as [v|] eqn:E.
  - apply (Hm k v E).
  - constructor.
Qed.

Lemma finite_scores_push k g m :
  finite_scores m -> finite_score g -> finite_scores (m_push k g m).
Proof.
  intros Hm Hg. unfold m_push. apply finite_scores_set; [exact Hm|].
  apply Forall_app. split; [apply finite_scores_bucket; exact Hm|].
  constructor; [exact Hg | constructor].
Qed.

Lemma finite_scores_push_all adm : forall m,
  finite_scores m -> Forall finite_score adm ->
  finite_scores (push_all adm m).
Proof.
  unfold push_all. induction adm as [|g adm IH]; intros m Hm Hadm;
    cbn [fold_left]; [exact Hm|].
  inversion Hadm. subst. apply IH; [apply finite_scores_push|]; assumption.
Qed.

Lemma finite_scores_cons k v m :
  finite_scores ((k, v) :: m) -> map_ok ((k, v) :: m) ->
  Forall finite_score v /\ finite_scores m.
Proof.
  intros H [Hlt Hok]. split.
  - apply (H k v). cbn [m_find]. rewrite Z.eqb_refl. reflexivity.
  - intros j w E. apply (H j w). cbn [m_find].
    destruct (Z.eqb_spec j k) as [->|Hne]; [|exact E]. exfalso.
    apply m_find_Some_keys in E. rewrite Forall_forall in Hlt.
    specialize (Hlt k E). lia.
Qed.

Lemma finite_scores_head k v v' m :
  Forall finite_score v' -> finite_scores ((k, v) :: m) ->
  finite_scores ((k, v') :: m).
Proof.
  intros Hv H j w. cbn [m_find]. specialize (H j w). cbn [m_find] in H.
  destruct (j =? k)%Z; [intros E; inversion E; subst; exact Hv | exact H].
Qed.

Lemma m_set_nonempty k (v : bucket D) m : m_set k v m <> [].
Proof.
  intros E. apply (f_equal (m_find k)) in E.
  rewrite m_find_set, Z.eqb_refl in E. discriminate E.
Qed.

Lemma push_all_nonempty (adm : bucket D) : forall m,
  adm <> [] \/ m <> [] -> push_all adm m <> [].
Proof.
  unfold push_all. induction adm as [|g adm IH]; intros m H;
    cbn [fold_left].
  - destruct H as [H|H]; [contradiction H; reflexivity | exact H].
  - apply IH. right. apply m_set_nonempty.
Qed.

(** *** The filters keep every frame *)

Lemma PruneMap_frames_np allowed cand sv : forall nv st,
  Forall finite_score sv ->
  ends allowed
    (fun res _ =>
       exists added,
         res = nv ++ added /\ nodes added = nodes sv
         /\ Forall finite_score added)
    (PruneMap_frames is_DBL_MAX rule cand sv nv st).
Proof.
  induction sv as [|f rest IH]; intros nv st Hsv; cbn [PruneMap_frames].
  - apply ends_ret. exists []. rewrite app_nil_r.
    repeat split. constructor.
  - inversion Hsv as [|? ? Hf Hrest]. subst.
    eapply ends_bind; [apply ends_Rescore_np; exact Hf|]. cbv beta.
    intros sc st1 Hsc. rewrite Hsc.
    eapply ends_bind; [apply ends_BaseCase_np|]. cbv beta. intros bc st2 _.
    eapply ends_bind; [apply ends_Score_np|]. cbv beta.
    intros sc' st3 Hsc'. rewrite Hsc'.
    eapply ends_post; [|apply IH; exact Hrest].
    intros res _ (added & -> & Hn & Hfin).
    eexists (_ :: added). split; [rewrite <- app_assoc; reflexivity|].
    split; [cbn; f_equal; exact Hn|].
    constructor; [exact Hsc' | exact Hfin].
Qed.

Lemma PMSC_frames_np allowed cand vec : forall acc st,
  Forall finite_score vec ->
  ends allowed
    (fun res _ =>
       exists kept,
         res = acc ++ kept /\ nodes kept = nodes vec
         /\ Forall finite_score kept)
    (PruneMapForSelfChild_frames is_DBL_MAX rule cand vec acc st).
Proof.
  induction vec as [|f rest IH]; intros acc st Hvec;
    cbn [PruneMapForSelfChild_frames].
  - apply ends_ret. exists []. rewrite app_nil_r.
    repeat split. constructor.
  - inversion Hvec as [|? ? Hf Hrest]. subst.
    eapply ends_bind with (Mid := fun obc _ => obc <> None).
    { destruct (negb (referenceIndex f =? Point (referenceNode f))
                || negb (queryIndex f =? Point cand)).
      - eapply ends_bind; [apply ends_Rescore_np; exact Hf|]. cbv beta.
        intros sc st1 Hsc. rewrite Hsc.
        eapply ends_bind; [apply ends_BaseCase_np|]. cbv beta.
        intros bc st2 _. apply ends_ret. discriminate.
      - apply ends_ret. discriminate. }
    intros [bc|] st1 Hobc; [|contradiction Hobc; reflexivity].
    eapply ends_bind; [apply ends_Score_np|]. cbv beta.
    intros sc' st2 Hsc'. rewrite Hsc'.
    eapply ends_post; [|apply IH; exact Hrest].
    intros res _ (kept & -> & Hn & Hfin).
    eexists (_ :: kept). split; [rewrite <- app_assoc; reflexivity|].
    split; [cbn; f_equal; exact Hn|].
    constructor; [exact Hsc' | exact Hfin].
Qed.

(** *** [ReferenceRecursion] admits every child *)

Lemma RR_children_np allowed q cs : forall m st,
  ends allowed
    (fun m' _ =>
       exists adm,
         m' = push_all adm m /\ nodes adm = cs /\ Forall finite_score adm)
    (ReferenceRecursion_children is_DBL_MAX rule q cs m st).
Proof.
  induction cs as [|c rest IH]; intros m st;
    cbn [ReferenceRecursion_children].
  - apply ends_ret. exists []. repeat split. constructor.
  - eapply ends_bind; [apply ends_BaseCase_np|]. cbv beta. intros bc st1 _.
    eapply ends_bind; [apply ends_Score_np|]. cbv beta.
    intros sc st2 Hsc. rewrite Hsc.
    eapply ends_post; [|apply IH].
    intros m' _ (adm & -> & Hn & Hfin).
    exists (mkEntry c sc (Point c) (Point q) bc :: adm).
    split; [reflexivity|]. split; [cbn; f_equal; exact Hn|].
    constructor; [exact Hsc | exact Hfin].
Qed.

Lemma RR_frame_np allowed q f m st :
  finite_score f -> Children (referenceNode f) <> [] ->
  ends allowed
    (fun m' _ =>
       exists adm,
         m' = push_all adm m
         /\ nodes adm = Children (referenceNode f)
         /\ Forall finite_score adm)
    (ReferenceRecursion_frame is_DBL_MAX rule q f m st).
Proof.
  intros Hf Hch. unfold ReferenceRecursion_frame.
  eapply ends_bind; [apply ends_Rescore_np; exact Hf|]. cbv beta.
  intros r st1 Hr. rewrite Hr.
  eapply ends_bind with (Mid := fun _ _ => True).
  { destruct (negb (Point (referenceNode f) =? referenceIndex f)
              || negb (Point q =? queryIndex f)).
    - apply ends_BaseCase_np.
    - apply ends_ret. exact I. }
  intros bc st2 _.
  eapply ends_bind; [apply ends_Score_np|]. cbv beta.
  intros sc st3 Hsc. rewrite Hsc.
  unfold ReferenceRecursion_expand.
  destruct (Children (referenceNode f)) as [|child0 others];
    [contradiction Hch; reflexivity|].
  eapply ends_bind; [apply ends_Score_np|]. cbv beta.
  intros sc0 st4 Hsc0. rewrite Hsc0.
  eapply ends_bind
    with (Mid := fun m1 _ =>
                   m1 = m_push (Scale child0)
                          (mkEntry child0 sc0 (Point (referenceNode f))
                             (Point q) bc) m);
    [apply ends_ret; reflexivity|].
  intros m1 st5 ->.
  eapply ends_post; [|apply RR_children_np].
  intros m' _ (adm & -> & Hn & Hfin).
  exists (mkEntry child0 sc0 (Point (referenceNode f)) (Point q) bc :: adm).
  split; [reflexivity|]. split; [cbn; f_equal; exact Hn|].
  constructor; [exact Hsc0 | exact Hfin].
Qed.

Lemma RR_for_np allowed q top vec :
  (INT_MIN < top)%Z ->
  forall fuel i low st,
    frontier_inv ((top, vec) :: low) ->
    finite_scores ((top, vec) :: low) ->
    length (skipn i vec) < fuel ->
    ends allowed
      (fun m' _ =>
         exists low',
           m' = (top, vec) :: low'
           /\ frontier_inv ((top, vec) :: low')
           /\ finite_scores ((top, vec) :: low')
           /\ (low <> [] \/ skipn i vec <> [] -> low' <> [])
           /\ map_weight low' + length (skipn i vec)
              <= map_weight low + bucket_weight (skipn i vec))
      (ReferenceRecursion_for is_DBL_MAX rule fuel q top i
         ((top, vec) :: low) st).
Proof.
  intros Htop. induction fuel as [|fuel IH]; intros i low st Hinv Hfin Hlen;
    [lia|].
  cbn [ReferenceRecursion_for]. rewrite m_bucket_head.
  destruct (nth_error vec i) as [f|] eqn:Hnth.
  - destruct (frontier_inv_cons D top vec low Hinv) as [[_ Hvec] Hlow].
    destruct (finite_scores_cons top vec low Hfin (proj1 Hinv))
      as [Hfvec Hflow].
    assert (Hf : Scale (referenceNode f) = top /\ proper (referenceNode f)).
    { rewrite Forall_forall in Hvec. apply Hvec.
      eapply nth_error_In. eassumption. }
    destruct Hf as [Hfs Hfp].
    assert (Hff : finite_score f).
    { rewrite Forall_forall in Hfvec. apply Hfvec.
      eapply nth_error_In. eassumption. }
    assert (Hkids : Children (referenceNode f) <> []).
    { apply (proper_inner _ Hfp). lia. }
    eapply ends_bind; [apply RR_frame_np; assumption|].
    cbv beta. intros m1 st1 (adm & -> & Hn & Hfadm).
    assert (Hsub : subseq (nodes adm) (Children (referenceNode f))).
    { rewrite Hn. apply subseq_refl. }
    assert (Hadm : Forall (fun c => (Scale c < top)%Z /\ proper c)
                     (nodes adm)).
    { pose proof (proper_Children _ Hfp) as Hch. rewrite Hfs in Hch.
      rewrite Hn. exact Hch. }
    assert (Hbelow : Forall (fun g => (Scale (referenceNode g) < top)%Z) adm).
    { rewrite Forall_forall in *. intros g Hg.
      apply (Hadm (referenceNode g)). unfold nodes. apply in_map.
      assumption. }
    assert (Hprop : Forall proper (nodes adm)).
    { eapply Forall_impl; [|exact Hadm]. simpl. tauto. }
    assert (Hne : adm <> []).
    { intros ->. apply Hkids. rewrite <- Hn. reflexivity. }
    assert (Hinv1 : frontier_inv (push_all adm ((top, vec) :: low))).
    { apply frontier_inv_push_all; assumption. }
    assert (Hfin1 : finite_scores (push_all adm ((top, vec) :: low))).
    { apply finite_scores_push_all; assumption. }
    rewrite (push_all_below D top vec adm low Hbelow) in *.
    eapply ends_post; [|apply (IH (Datatypes.S i) _ st1 Hinv1 Hfin1)].
    + intros m' _ (low' & -> & Hinv' & Hfin' & Hne' & Hw). exists low'.
      split; [reflexivity|]. split; [assumption|]. split; [assumption|].
      split.
      { intros _. apply Hne'. left. apply push_all_nonempty. left.
        exact Hne. }
      pose proof (map_weight_push_all D adm low (proj1 Hlow)) as Hpw.
      pose proof (children_weight D _ _ Hsub adm eq_refl) as Hcw.
      pose proof (kids_weight (referenceNode f)) as Hk.
      rewrite (bucket_weight_skipn D i vec f Hnth).
      rewrite (skipn_nth_error _ _ _ _ Hnth). cbn [length]. lia.
    + rewrite (skipn_nth_error _ _ _ _ Hnth) in Hlen. cbn [length] in Hlen.
      lia.
  - apply ends_ret. exists low. split; [reflexivity|].
    split; [assumption|]. split; [assumption|].
    rewrite (skipn_nth_error_None _ _ _ Hnth). split.
    + intros [H|H]; [exact H | contradiction H; reflexivity].
    + simpl. lia.
Qed.

Variable sort : bucket D -> bucket D.
Hypothesis sort_perm : forall v, Permutation (sort v) v.

Lemma finite_perm (v v' : bucket D) :
  Permutation v' v -> Forall finite_score v -> Forall finite_score v'.
Proof.
  intros Hp Hv. rewrite Forall_forall in *. intros f Hf. apply Hv.
  eapply Permutation_in; eassumption.
Qed.

Lemma RR_while_np q :
  (INT_MIN <= Scale q)%Z ->
  forall fuel m st,
    frontier_inv m -> finite_scores m -> m <> [] -> map_weight m < fuel ->
    ends no_fault
      (fun m' _ =>
         frontier_inv m' /\ finite_scores m' /\ m' <> []
         /\ Forall (fun k => (k <= Scale q)%Z) (keys m'))
      (ReferenceRecursion_while is_DBL_MAX rule sort fuel q m st).
Proof.
  intros Hq. induction fuel as [|fuel IH]; intros m st Hinv Hfin Hne Hlt;
    [lia|].
  cbn [ReferenceRecursion_while].
  destruct m as [|[top vec] low]; [contradiction Hne; reflexivity|].
  unfold m_rbegin. cbn [hd_error].
  destruct (Z.gtb_spec top (Scale q)) as [Hgt|Hle].
  - destruct ((Scale q =? INT_MIN)%Z && (top =? INT_MIN)%Z) eqn:Hbrk.
    { apply andb_true_iff in Hbrk. destruct Hbrk as [H1 H2].
      apply Z.eqb_eq in H1, H2. lia. }
    rewrite m_set_head.
    destruct (frontier_inv_cons D top vec low Hinv) as [Hvec Hlow].
    destruct (finite_scores_cons top vec low Hfin (proj1 Hinv))
      as [Hfvec Hflow].
    assert (Hinv1 : frontier_inv ((top, sort vec) :: low)).
    { eapply frontier_inv_head; [|exact Hinv].
      eapply bucket_inv_perm; [apply sort_perm | assumption]. }
    assert (Hfin1 : finite_scores ((top, sort vec) :: low)).
    { eapply finite_scores_head; [|exact Hfin].
      eapply finite_perm; [apply sort_perm | exact Hfvec]. }
    assert (Hvne : sort vec <> []).
    { intros E. destruct Hvec as [Hnil _].
      pose proof (sort_perm vec) as Hp. rewrite E in Hp.
      apply Permutation_nil in Hp. specialize (Hnil Hp). lia. }
    pose proof (length_le_bucket_weight D vec) as Hlv.
    pose proof (Permutation_length (sort_perm vec)) as Hls.
    eapply ends_bind.
    { apply (RR_for_np no_fault q top (sort vec)); [lia|exact Hinv1| |].
      - exact Hfin1.
      - simpl. lia. }
    cbv beta. intros m2 st2 (low' & -> & Hinv' & Hfin' & Hne' & Hw).
    cbn [hd_error]. rewrite m_erase_head.
    apply IH.
    + apply (frontier_inv_cons D top (sort vec) low' Hinv').
    + apply (finite_scores_cons top (sort vec) low' Hfin' (proj1 Hinv')).
    + apply Hne'. right. exact Hvne.
    + cbn [skipn] in Hw. rewrite !map_weight_cons in *.
      rewrite (bucket_weight_perm D _ _ (sort_perm vec)) in Hw. lia.
  - apply ends_ret. split; [assumption|]. split; [assumption|].
    split; [discriminate|].
    pose proof (@map_ok_rbegin_max D top vec ((top, vec) :: low)
                  (proj1 Hinv) eq_refl) as Hmax.
    eapply Forall_impl; [|exact Hmax]. simpl. intros k Hk. lia.
Qed.

(** *** [PruneMapForSelfChild] erases nothing *)

Lemma begin_it_last m : begin_it m = last (map At (keys m)) End.
Proof.
  unfold begin_it. induction m as [|[k v] m IH]; [reflexivity|].
  destruct m as [|e m']; [reflexivity|].
  change (m_begin ((k, v) :: e :: m')) with (m_begin (e :: m')).
  rewrite IH. destruct e as [k' v']. reflexivity.
Qed.

Lemma begin_it_keys m m' : keys m' = keys m -> begin_it m' = begin_it m.
Proof. intros E. rewrite !begin_it_last, E. reflexivity. Qed.

(** A valid iterator other than [begin()] can be decremented. *)
Lemma it_prev_not_begin cur m :
  map_ok m -> it_valid cur m = true ->
  iterator_eqb cur (begin_it m) = false -> it_prev cur m <> None.
Proof.
  intros Hok Hvalid Hb. destruct cur as [|c]; cbn [it_prev].
  - destruct m; [discriminate Hb | discriminate].
  - apply it_valid_At in Hvalid.
    destruct (m_begin_Some D m) as [[k v] E].
    { intros ->. contradiction Hvalid. }
    unfold begin_it in Hb. rewrite E in Hb. cbn [iterator_eqb] in Hb.
    apply Z.eqb_neq in Hb.
    pose proof (m_begin_min D m k v Hok E) as Hmin.
    rewrite Forall_forall in Hmin. specialize (Hmin c Hvalid).
    apply (first_below_Some D c m k); [|lia].
    apply m_begin_In in E. apply (in_map fst) in E. exact E.
Qed.

Lemma PMSC_loop_np cand : forall fuel cur m st,
  frontier_inv m -> finite_scores m ->
  it_valid cur m = true -> below cur m < fuel ->
  ends no_fault (fun m' _ => frontier_inv m' /\ finite_scores m')
    (PruneMapForSelfChild_loop is_DBL_MAX rule fuel cand cur m st).
Proof.
  induction fuel as [|fuel IH]; intros cur m st Hinv Hfin Hvalid Hlt; [lia|].
  cbn [PruneMapForSelfChild_loop].
  destruct (iterator_eqb cur (begin_it m)) eqn:Hb;
    [apply ends_ret; split; assumption|].
  unfold bind at 1. unfold lift, rit_deref. rewrite Hvalid. cbn [negb].
  destruct (it_prev cur m) as [[thisScale vec]|] eqn:Hprev.
  2:{ exfalso. apply (it_prev_not_begin cur m (proj1 Hinv) Hvalid Hb).
      exact Hprev. }
  destruct (Z.eqb_spec thisScale INT_MIN) as [Hleaf|Hleaf];
    [apply ends_ret; split; assumption|].
  pose proof (it_prev_In D cur m _ Hprev) as Hin.
  pose proof (it_prev_under D cur m _ _ Hprev) as Hunder.
  pose proof (In_m_find thisScale vec m (proj1 Hinv) Hin) as Hfind.
  destruct (frontier_inv_In D thisScale vec m Hinv Hin) as [Hnil Hvec].
  eapply ends_bind; [apply PMSC_frames_np; apply (Hfin thisScale vec Hfind)|].
  cbv beta. intros newvec st1 (kept & -> & Hn & Hfk). cbn [app].
  destruct kept as [|g kept].
  { exfalso. destruct vec as [|f vec']; [apply Hleaf; apply Hnil; reflexivity|].
    discriminate Hn. }
  set (m1 := m_set thisScale (g :: kept) m).
  assert (Hkeys : keys m1 = keys m).
  { apply (keys_set_present D thisScale (g :: kept) vec m (proj1 Hinv) Hfind). }
  assert (Hinv1 : frontier_inv m1).
  { apply frontier_inv_set; [assumption|]. split; [discriminate|].
    apply (subseq_nodes_Forall D
             (fun t => Scale t = thisScale /\ proper t) vec (g :: kept));
      [rewrite Hn; apply subseq_refl | assumption]. }
  assert (Hfin1 : finite_scores m1).
  { apply finite_scores_set; assumption. }
  assert (Hvalid1 : it_valid cur m1 = true).
  { apply (it_valid_off D cur m m1 thisScale Hunder); [|exact Hvalid].
    intros j Hne. unfold m1. rewrite m_find_set.
    destruct (Z.eqb_spec j thisScale); [contradiction | reflexivity]. }
  assert (Hb1 : iterator_eqb cur (begin_it m1) = false).
  { rewrite (begin_it_keys m m1 Hkeys). exact Hb. }
  unfold bind at 1. unfold lift, rit_incr. rewrite Hvalid1, Hb1. cbn [negb].
  destruct (it_prev cur m1) as [[k' v']|] eqn:Hprev1.
  2:{ exfalso. apply (it_prev_not_begin cur m1 (proj1 Hinv1) Hvalid1 Hb1).
      exact Hprev1. }
  apply IH; [assumption | assumption | |].
  - cbn [it_valid]. apply it_prev_In in Hprev1.
    rewrite (In_m_find k' v' m1 (proj1 Hinv1) Hprev1). reflexivity.
  - pose proof (it_prev_below D cur m1 k' v' Hprev1) as Hd.
    unfold below in *. rewrite Hkeys in *. lia.
Qed.

Lemma PMSC_np cand m st :
  frontier_inv m -> finite_scores m ->
  ends no_fault (fun m' _ => frontier_inv m' /\ finite_scores m')
    (PruneMapForSelfChild is_DBL_MAX rule cand m st).
Proof.
  intros Hinv Hfin. unfold PruneMapForSelfChild.
  destruct m as [|e m0] eqn:Hm; [apply ends_ret; split; assumption|].
  rewrite <- Hm in *. apply PMSC_loop_np; [assumption | assumption
                                          | reflexivity|].
  unfold below. rewrite filter_under_End. unfold keys.
  rewrite length_map. lia.
Qed.

(** *** [PruneMap] *)

Lemma PruneMap_np q cand m st :
  frontier_inv m -> finite_scores m ->
  ends no_fault
    (fun maps _ =>
       frontier_inv (fst maps) /\ finite_scores (fst maps)
       /\ frontier_inv (snd maps) /\ finite_scores (snd maps))
    (PruneMap is_DBL_MAX rule q cand m [] st).
Proof.
  intros Hinv Hfin.
  pose proof (PruneMap_ends D S is_DBL_MAX rule no_fault q cand m st Hinv)
    as He.
  unfold PruneMap in *. destruct m as [|e m0] eqn:Hm.
  { apply ends_ret. cbn [fst snd].
    split; [apply frontier_inv_nil|]. split; [apply finite_scores_nil|].
    split; [apply frontier_inv_nil | apply finite_scores_nil]. }
  rewrite <- Hm in *. clear Hm e m0.
  unfold bind in *.
  destruct (PruneMap_scales is_DBL_MAX rule cand m [] st)
    as [[cm st1]|e|]; [|exact He|exact He].
  unfold ret in *. cbn [ends fst snd] in *.
  destruct He as (_ & Hinv1 & Hinv2 & Hkept & _).
  split; [exact Hinv1|]. split; [apply finite_scores_touch; exact Hfin|].
  split; [exact Hinv2|].
  intros k w E.
  destruct (Z.eq_dec k INT_MIN) as [->|Hne].
  - rewrite m_find_set, Z.eqb_refl in E. inversion E. subst w.
    apply finite_scores_bucket. apply finite_scores_touch. exact Hfin.
  - destruct (Hkept k w E Hne) as [Hk _].
    eapply Forall_impl; [|exact Hk]. intros f [_ Hf]. exact Hf.
Qed.

(** *** [Traverse] returns *)

Let child_step (q : CoverTree) :=
  fun (child : CoverTree) (referenceMap : scale_map D) =>
    bind (PruneMap is_DBL_MAX rule q child referenceMap [])
      (fun maps =>
         bind (Traverse_map is_DBL_MAX rule sort child (snd maps))
           (fun _ => ret (fst maps))).

Let returns (c : CoverTree) : Prop :=
  forall m st,
    frontier_inv m -> finite_scores m ->
    ends no_fault (fun _ _ => True)
      (Traverse_map is_DBL_MAX rule sort c m st).

Lemma for_each_child_np q cs : forall m st,
  Forall returns cs ->
  frontier_inv m -> finite_scores m ->
  ends no_fault (fun m' _ => frontier_inv m' /\ finite_scores m')
    (for_each_child (child_step q) cs m st).
Proof.
  induction cs as [|c rest IH]; intros m st Hcs Hinv Hfin;
    cbn [for_each_child].
  - apply ends_ret. split; assumption.
  - inversion Hcs as [|? ? Hc Hrest]. subst.
    eapply ends_bind
      with (Mid := fun m1 _ => frontier_inv m1 /\ finite_scores m1).
    + unfold child_step.
      eapply ends_bind; [apply PruneMap_np; assumption|]. cbv beta.
      intros [mP cm] stP (HinvP & HfinP & Hinvc & Hfinc). cbn [fst snd] in *.
      eapply ends_bind; [apply Hc; assumption|]. cbv beta.
      intros _ stT _. apply ends_ret. split; assumption.
    + intros m1 st1 [Hinv1 Hfin1]. apply IH; assumption.
Qed.

Lemma Traverse_map_np : forall q, proper q -> returns q.
Proof.
  induction q as [p s cs IH] using CoverTree_ind'.
  intros Hq m st Hinv Hfin. rewrite Traverse_map_eq.
  pose proof (proper_Scale _ Hq) as Hs.
  pose proof (proper_Children _ Hq) as Hch.
  cbn [Scale Children] in *.
  destruct m as [|e m0] eqn:Hm; [apply ends_ret; exact I|].
  rewrite <- Hm in *.
  assert (Hne : m <> []) by (rewrite Hm; discriminate). clear Hm e m0.
  eapply ends_bind.
  { unfold ReferenceRecursion.
    apply (RR_while_np (Node p s cs) Hs _ m st Hinv Hfin Hne). lia. }
  cbv beta. intros mR stR (HinvR & HfinR & HneR & HleR).
  cbn [Scale] in HleR.
  eapply ends_bind with (Mid := fun m2 _ => s = INT_MIN -> m2 = mR).
  - destruct (Z.eqb_spec s INT_MIN) as [Hleaf|Hinner]; cbn [negb].
    { apply ends_ret. reflexivity. }
    destruct mR as [|[top v] mR'] eqn:HmR; [contradiction HneR; reflexivity|].
    rewrite <- HmR in *. cbn [m_rbegin hd_error]. 
    assert (Hrb : m_rbegin mR = Some (top, v)) by (rewrite HmR; reflexivity).
    rewrite Hrb.
    assert (Hge : (s >=? top)%Z = true).
    { rewrite HmR in HleR. inversion HleR as [|? ? Hk _]. subst.
      rewrite Z.geb_leb. apply Z.leb_le. exact Hk. }
    rewrite Hge.
    destruct cs as [|c0 others].
    { exfalso. apply (proper_inner _ Hq); [exact Hinner | reflexivity]. }
    inversion IH as [|? ? IH0 IHo]. inversion Hch as [|? ? [_ Hc0] Hco].
    subst.
    assert (Hothers : Forall returns others).
    { rewrite Forall_forall in *. intros c Hc. apply IHo; [exact Hc|].
      apply Hco. exact Hc. }
    eapply ends_bind;
      [apply (for_each_child_np (Node p s (c0 :: others))); eassumption|].
    cbv beta. intros mL stL [HinvL HfinL].
    eapply ends_bind; [apply PMSC_np; assumption|]. cbv beta.
    intros mS stS [HinvS HfinS].
    eapply ends_post; [|apply IH0; assumption].
    intros m' s' _ Hc. contradiction.
  - intros m2 st2 Hleaf.
    destruct (Z.eqb_spec s INT_MIN) as [Hs0|Hs0]; cbn [negb];
      [|apply ends_ret; exact I].
    rewrite (Hleaf Hs0). rewrite Hs0 in HleR.
    destruct (leaf_only D mR HinvR HneR HleR) as [pv ->]. cbn [m_begin].
    rewrite Z.eqb_refl. cbn [negb].
    eapply ends_bind; [apply base_cases_ends|]. cbv beta. intros _ st3 _.
    apply ends_ret. exact I.
Qed.

Variable zero : D.
Hypothesis zero_finite : is_DBL_MAX zero = false.

Lemma Traverse_np q r st :
  proper q -> proper r ->
  exists m st', Traverse is_DBL_MAX zero rule sort q r st = Ok (m, st').
Proof.
  intros Hq Hr.
  assert (He : ends no_fault (fun _ _ => True)
                 (Traverse is_DBL_MAX zero rule sort q r st)).
  { unfold Traverse.
    eapply ends_bind; [apply ends_BaseCase_np|]. cbv beta. intros bc st1 _.
    apply Traverse_map_np; [assumption| |].
    - apply root_frontier_inv. assumption.
    - apply finite_scores_push; [apply finite_scores_nil | exact zero_finite]. }
  apply ends_no_fault in He. destruct He as (m & st' & E & _).
  exists m, st'. exact E.
Qed.

End NeverPrunesFacts.

Lemma never_prunes_Recording (D S : Type) (is_DBL_MAX : D -> bool)
    (P : RuleType D S) :
  never_prunes is_DBL_MAX P -> never_prunes is_DBL_MAX (Recording P).
Proof.
  intros Hnp qn rn d [s log]. cbn [Recording Score Rescore fst].
  destruct (Hnp qn rn d s) as [H1 H2].
  destruct (Score P qn rn d s) as [d1 s1].
  destruct (Rescore P qn rn d s) as [d2 s2]. auto.
Qed.

Lemma never_prunes_sound (D S : Type) (is_DBL_MAX : D -> bool)
    (P : RuleType D S) :
  never_prunes is_DBL_MAX P ->
  sound_prunes is_DBL_MAX P (fun _ _ => False).
Proof.
  intros Hnp qn rn (d & s & [[_ H]|[Hd H]]) a b _ _;
    destruct (Hnp qn rn d s) as [H1 H2].
  - congruence.
  - specialize (H2 Hd). congruence.
Qed.

Lemma no_prune_never_prunes : never_prunes Examples.is_max Examples.no_prune.
Proof. intros qn rn d s. split; [reflexivity | intros H; exact H]. Qed.

(** X16.  Without pruning the dual-tree traversal does the work of the
    naive search.  If [Score] never returns [DBL_MAX], and [Rescore] does
    not either on a score other than [DBL_MAX], then on proper, well-formed
    cover trees whose leaves hold distinct points, with a sort that
    permutes its bucket and a root score that is not [DBL_MAX], started
    with an empty log, [Traverse] returns, and it has called [BaseCase]
    exactly once for every pair of a query leaf point and a reference leaf
    point. *)
Theorem Traverse_without_pruning (D S : Type) (is_DBL_MAX : D -> bool)
    (zero : D) (P : RuleType D S) (sort : bucket D -> bucket D)
    (q r : CoverTree) (st : TState (S * list (Event D))) :
  (forall v, Permutation (sort v) v) ->
  is_DBL_MAX zero = false ->
  never_prunes is_DBL_MAX P ->
  proper q -> wf_tree q -> NoDup (leaf_points q) ->
  proper r -> wf_tree r -> NoDup (leaf_points r) ->
  snd (rule_state st) = [] ->
  exists m st',
    Traverse is_DBL_MAX zero (Recording P) sort q r st = Ok (m, st')
    /\ forall a b,
         In a (leaf_points q) -> In b (leaf_points r) ->
         count_BaseCase a b (snd (rule_state st')) = 1.
Proof.
  intros Hsort Hzero Hnp Hq Hwq Hnq Hr Hwr Hnr Hlog.
  destruct (Traverse_np D (S * list (Event D)) is_DBL_MAX (Recording P)
              (never_prunes_Recording D S is_DBL_MAX P Hnp) sort Hsort zero
              Hzero q r st Hq Hr) as (m & st' & E).
  exists m, st'. split; [exact E|]. intros a b Ha Hb.
  assert (Hfresh : calls st = []).
  { unfold calls. rewrite Hlog. reflexivity. }
  pose proof (NoDup_count_BaseCase D a b (snd (rule_state st'))
                (Traverse_once D S is_DBL_MAX zero P sort Hsort q r st m st'
                   Hwq Hnq Hwr Hnr Hfresh E)) as Hle.
  destruct (Traverse_cov D S is_DBL_MAX P (fun _ _ => False) (leaf_points r)
              (never_prunes_sound D S is_DBL_MAX P Hnp) sort Hsort zero
              Hzero q r st m st' Hq Hr Hwr (incl_refl _) E a b Ha Hb)
    as [Hin|[]].
  apply In_count_BaseCase in Hin. unfold calls in Hin. lia.
Qed.

Lemma Traverse_without_pruning_witness :
  exists m st',
    Examples.run
      (Examples.traverse (Recording Examples.no_prune)
         Examples.shallow_query Examples.deep_reference) (tt, [])
    = Ok (m, st')
    /\ forall a b,
         In a [0; 1] -> In b [0; 1; 2] ->
         count_BaseCase a b (snd (rule_state st')) = 1.
Proof.
  apply (Traverse_without_pruning Z unit Examples.is_max 0%Z
           Examples.no_prune Examples.sort_by_score
           Examples.shallow_query Examples.deep_reference
           (mkState (tt, []) 0)).
  - exact sort_by_score_perm.
  - reflexivity.
  - exact no_prune_never_prunes.
  - exact proper_shallow_query.
  - vm_compute. repeat split.
  - vm_compute. repeat constructor; simpl; intuition discriminate.
  - exact proper_deep_reference.
  - vm_compute. repeat split.
  - vm_compute. repeat constructor; simpl; intuition discriminate.
  - reflexivity.
Defined.

(** ** The calls of a traversal stay within the two trees *)

Lemma Point_in_all_points t : In (Point t) (all_points t).
Proof. destruct t as [p s cs]. left. reflexivity. Qed.

Lemma all_points_child t c :
  In c (Children t) -> incl (all_points c) (all_points t).
Proof.
  destruct t as [p s cs]. cbn [Children all_points]. intros Hc a Ha.
  right. apply in_flat_map. exists c. split; assumption.
Qed.

Section WithinFacts.

Variables D S : Type.
Variable is_DBL_MAX : D -> bool.
Variable P : RuleType D S.
Variables Qs Rs : list nat.

Let rstate : Type := TState (S * list (Event D)).

Implicit Types (m : scale_map D) (fs v : bucket D) (f g : MapEntry D).

Lemma within_app C new :
  within Qs Rs C -> (forall a b, In (a, b) new -> In a Qs /\ In b Rs) ->
  within Qs Rs (C ++ new).
Proof.
  intros HC Hnew a b Hin. apply in_app_or in Hin.
  destruct Hin as [Hin|Hin]; [apply HC | apply Hnew]; exact Hin.
Qed.

Lemma rooted_nodes fs fs' :
  incl (nodes fs') (nodes fs) -> rooted Rs fs -> rooted Rs fs'.
Proof.
  intros Hi Hr. unfold rooted in *. rewrite Forall_forall in *.
  intros g Hg.
  assert (Hn : In (referenceNode g) (nodes fs)).
  { apply Hi. unfold nodes. apply in_map. exact Hg. }
  unfold nodes in Hn. apply in_map_iff in Hn. destruct Hn as (f & E & Hf).
  rewrite <- E. apply Hr. exact Hf.
Qed.

Lemma rooted_subseq fs fs' :
  subseq (nodes fs') (nodes fs) -> rooted Rs fs -> rooted Rs fs'.
Proof.
  intros Hs. apply rooted_nodes. intros n Hn.
  eapply subseq_In; eassumption.
Qed.

Lemma rooted_app fs1 fs2 :
  rooted Rs fs1 -> rooted Rs fs2 -> rooted Rs (fs1 ++ fs2).
Proof. intros H1 H2. apply Forall_app. split; assumption. Qed.

(** The pairs of a query point with the nodes of rooted frames. *)
Lemma pairs_within a fs called :
  In a Qs -> rooted Rs fs -> subseq called fs ->
  forall x y, In (x, y) (map (pair_with a) called) -> In x Qs /\ In y Rs.
Proof.
  intros Ha Hr Hs x y Hin. apply in_map_iff in Hin.
  destruct Hin as (f & E & Hf). unfold pair_with in E. inversion E. subst.
  split; [exact Ha|].
  unfold rooted in Hr. rewrite Forall_forall in Hr.
  apply (Hr f); [eapply subseq_In; eassumption|].
  apply Point_in_all_points.
Qed.

(** *** Rooted maps *)

Lemma rooted_map_nil : rooted_map Rs (@nil (Z * bucket D)).
Proof. intros k v []. Qed.

Lemma rooted_map_set k v m :
  rooted_map Rs m -> rooted Rs v -> rooted_map Rs (m_set k v m).
Proof.
  intros Hm Hv j w Hin. apply In_m_set in Hin.
  destruct Hin as [[_ ->]|Hin]; [exact Hv | apply (Hm j w Hin)].
Qed.

Lemma rooted_map_erase k m : rooted_map Rs m -> rooted_map Rs (m_erase k m).
Proof. intros Hm j w Hin. apply In_m_erase in Hin. apply (Hm j w Hin). Qed.

Lemma rooted_map_bucket k m : rooted_map Rs m -> rooted Rs (m_bucket k m).
Proof.
  intros Hm. unfold m_bucket. destruct (m_find k m) as [v|] eqn:E.
  - apply (Hm k v). apply m_find_In. exact E.
  - constructor.
Qed.

Lemma rooted_map_touch k m : rooted_map Rs m -> rooted_map Rs (m_touch k m).
Proof.
  intros Hm. unfold m_touch. destruct (m_find k m); [exact Hm|].
  apply rooted_map_set; [exact Hm | constructor].
Qed.

Lemma rooted_map_push k g m :
  rooted_map Rs m -> incl (all_points (referenceNode g)) Rs ->
  rooted_map Rs (m_push k g m).
Proof.
  intros Hm Hg. unfold m_push. apply rooted_map_set; [exact Hm|].
  apply rooted_app; [apply rooted_map_bucket; exact Hm|].
  constructor; [exact Hg | constructor].
Qed.

Lemma rooted_map_push_all adm : forall m,
  rooted_map Rs m -> rooted Rs adm -> rooted_map Rs (push_all adm m).
Proof.
  unfold push_all. induction adm as [|g adm IH]; intros m Hm Hadm;
    cbn [fold_left]; [exact Hm|].
  inversion Hadm. subst. apply IH; [apply rooted_map_push|]; assumption.
Qed.

(** *** The loops *)

Ltac log_step :=
  match goal with
  | H : call_BaseCase _ _ _ _ = Ok _ |- _ => apply call_BaseCase_calls in H
  | H : call_Score _ _ _ _ _ = Ok _ |- _ => apply call_Score_calls in H
  | H : call_Rescore _ _ _ _ _ = Ok _ |- _ => apply call_Rescore_calls in H
  | H : add_prunes _ _ = Ok _ |- _ => apply add_prunes_calls in H
  end.

Lemma base_cases_within q pv (st : rstate) u st' :
  In (Point q) Qs -> rooted Rs pv -> within Qs Rs (calls st) ->
  base_cases is_DBL_MAX (Recording P) q pv st = Ok (u, st') ->
  within Qs Rs (calls st').
Proof.
  intros Hq Hr Hw H.
  destruct (base_cases_run D S is_DBL_MAX P q pv st u st' H)
    as (called & Hs & _ & ->).
  apply within_app; [exact Hw|].
  apply (pairs_within (Point q) pv called Hq Hr Hs).
Qed.

Lemma PruneMap_frames_within cand vec acc (st : rstate) res st' :
  In (Point cand) Qs -> rooted Rs vec -> rooted Rs acc ->
  within Qs Rs (calls st) ->
  PruneMap_frames is_DBL_MAX (Recording P) cand vec acc st = Ok (res, st') ->
  rooted Rs res /\ within Qs Rs (calls st').
Proof.
  intros Hq Hr Ha Hw H.
  destruct (PruneMap_frames_run D S is_DBL_MAX P cand vec acc st res st' H)
    as (kept & processed & -> & Hk & _ & Hp & ->).
  assert (Hrp : rooted Rs processed).
  { apply (rooted_subseq vec processed); [|exact Hr].
    apply subseq_map. exact Hp. }
  split.
  - apply rooted_app; [exact Ha|].
    apply (rooted_subseq processed kept Hk Hrp).
  - apply within_app; [exact Hw|].
    apply (pairs_within (Point cand) vec processed Hq Hr Hp).
Qed.

Lemma PMSC_frames_within cand vec acc (st : rstate) res st' :
  In (Point cand) Qs -> rooted Rs vec -> rooted Rs acc ->
  within Qs Rs (calls st) ->
  PruneMapForSelfChild_frames is_DBL_MAX (Recording P) cand vec acc st
  = Ok (res, st') ->
  rooted Rs res /\ within Qs Rs (calls st').
Proof.
  intros Hq Hr Ha Hw H.
  destruct (PMSC_frames_run D S is_DBL_MAX P cand vec acc st res st' H)
    as (kept & called & -> & Hk & _ & Hc & _ & ->).
  split.
  - apply rooted_app; [exact Ha|]. apply (rooted_subseq vec kept Hk Hr).
  - apply within_app; [exact Hw|].
    apply (pairs_within (Point cand) vec called Hq Hr Hc).
Qed.

Lemma PruneMap_scales_within cand :
  In (Point cand) Qs ->
  forall buckets cm (st : rstate) cm' st',
    rooted_map Rs buckets -> rooted_map Rs cm -> within Qs Rs (calls st) ->
    PruneMap_scales is_DBL_MAX (Recording P) cand buckets cm st
    = Ok (cm', st') ->
    rooted_map Rs cm' /\ within Qs Rs (calls st').
Proof.
  intros Hq. induction buckets as [|[k v] rest IH];
    intros cm st cm' st' Hb Hcm Hw H; cbn [PruneMap_scales] in H.
  - monad_inv H. split; assumption.
  - destruct (k =? INT_MIN)%Z; [monad_inv H; split; assumption|].
    apply bind_Ok in H. destruct H as (nsv & st1 & Hfr & H).
    destruct (PruneMap_frames_within cand v (m_bucket k (m_touch k cm)) st nsv
                st1 Hq) as [Hn Hw1];
      [apply (Hb k v); left; reflexivity
      |apply rooted_map_bucket; apply rooted_map_touch; exact Hcm
      |exact Hw | exact Hfr|].
    eapply IH; [| |exact Hw1|exact H].
    + intros j w Hin. apply (Hb j w). right. exact Hin.
    + assert (H2 : rooted_map Rs (m_set k nsv (m_touch k cm))).
      { apply rooted_map_set; [apply rooted_map_touch; exact Hcm | exact Hn]. }
      destruct nsv; [apply rooted_map_erase|]; exact H2.
Qed.

Lemma PruneMap_within q cand m (st : rstate) m' cm st' :
  In (Point cand) Qs -> rooted_map Rs m -> within Qs Rs (calls st) ->
  PruneMap is_DBL_MAX (Recording P) q cand m [] st = Ok ((m', cm), st') ->
  rooted_map Rs m' /\ rooted_map Rs cm /\ within Qs Rs (calls st').
Proof.
  intros Hq Hm Hw H. unfold PruneMap in H.
  destruct m as [|e m0] eqn:Em.
  - apply ret_Ok in H. destruct H as [E E2]. inversion E. subst.
    split; [exact Hm|]. split; [apply rooted_map_nil | exact Hw].
  - rewrite <- Em in *. clear Em e m0.
    apply bind_Ok in H. destruct H as (cm1 & st1 & Hsc & H).
    apply ret_Ok in H. destruct H as [E E2]. inversion E. subst m' cm st1.
    destruct (PruneMap_scales_within cand Hq m [] st cm1 st' Hm
                (rooted_map_nil) Hw Hsc) as [Hc Hw'].
    split; [apply rooted_map_touch; exact Hm|]. split; [|exact Hw'].
    apply rooted_map_set; [exact Hc|].
    apply rooted_map_bucket. apply rooted_map_touch. exact Hm.
Qed.

Lemma PMSC_loop_within cand :
  In (Point cand) Qs ->
  forall fuel cur m (st : rstate) m' st',
    rooted_map Rs m -> within Qs Rs (calls st) ->
    PruneMapForSelfChild_loop is_DBL_MAX (Recording P) fuel cand cur m st
    = Ok (m', st') ->
    rooted_map Rs m' /\ within Qs Rs (calls st').
Proof.
  intros Hq. induction fuel as [|fuel IH]; intros cur m st m' st' Hm Hw H;
    cbn [PruneMapForSelfChild_loop] in H; [discriminate|].
  destruct (iterator_eqb cur (begin_it m)); [monad_inv H; split; assumption|].
  apply bind_Ok in H. destruct H as ([k sv] & stD & Hd & H).
  apply lift_Ok in Hd. destruct Hd as [Hd ->].
  destruct (k =? INT_MIN)%Z; [monad_inv H; split; assumption|].
  apply bind_Ok in H. destruct H as (res & st1 & Hfr & H).
  pose proof (rit_deref_In D _ _ _ Hd) as Hin.
  destruct (PMSC_frames_within cand sv [] st res st1 Hq (Hm k sv Hin))
    as [Hres Hw1]; [constructor | exact Hw | exact Hfr|].
  assert (H1 : rooted_map Rs (m_set k res m)).
  { apply rooted_map_set; assumption. }
  destruct res as [|g res'].
  - destruct (m_erase k (m_set k [] m)) as [|e2 m2] eqn:Hm2.
    + monad_inv H. split; [apply rooted_map_nil | exact Hw1].
    + rewrite <- Hm2 in *.
      apply bind_Ok in H. destruct H as (cur' & st2 & Hinc & H).
      apply lift_Ok in Hinc. destruct Hinc as [_ ->].
      apply (IH _ _ _ _ _ (rooted_map_erase k _ H1) Hw1 H).
  - apply bind_Ok in H. destruct H as (cur' & st2 & Hinc & H).
    apply lift_Ok in Hinc. destruct Hinc as [_ ->].
    apply (IH _ _ _ _ _ H1 Hw1 H).
Qed.

Lemma PMSC_within cand m (st : rstate) m' st' :
  In (Point cand) Qs -> rooted_map Rs m -> within Qs Rs (calls st) ->
  PruneMapForSelfChild is_DBL_MAX (Recording P) cand m st = Ok (m', st') ->
  rooted_map Rs m' /\ within Qs Rs (calls st').
Proof.
  intros Hq Hm Hw H. unfold PruneMapForSelfChild in H.
  destruct m as [|e m0] eqn:Em; [monad_inv H; split; assumption|].
  rewrite <- Em in *. eapply PMSC_loop_within; eassumption.
Qed.

Lemma RR_children_within q cs m (st : rstate) m' st' :
  In (Point q) Qs -> (forall c, In c cs -> incl (all_points c) Rs) ->
  rooted_map Rs m -> within Qs Rs (calls st) ->
  ReferenceRecursion_children is_DBL_MAX (Recording P) q cs m st
  = Ok (m', st') ->
  rooted_map Rs m' /\ within Qs Rs (calls st').
Proof.
  intros Hq Hcs Hm Hw H.
  destruct (RR_children_run D S is_DBL_MAX P q cs m st m' st' H)
    as (adm & -> & Hs & _ & ->).
  split.
  - apply rooted_map_push_all; [exact Hm|].
    apply Forall_forall. intros g Hg. apply Hcs.
    eapply subseq_In; [exact Hs|]. unfold nodes. apply in_map. exact Hg.
  - apply within_app; [exact Hw|]. intros a b Hin.
    apply in_map_iff in Hin. destruct Hin as (c & E & Hc). inversion E.
    subst. split; [exact Hq|]. apply (Hcs c Hc). apply Point_in_all_points.
Qed.

Lemma RR_frame_within q f m (st : rstate) m' st' :
  In (Point q) Qs -> incl (all_points (referenceNode f)) Rs ->
  rooted_map Rs m -> within Qs Rs (calls st) ->
  ReferenceRecursion_frame is_DBL_MAX (Recording P) q f m st = Ok (m', st') ->
  rooted_map Rs m' /\ within Qs Rs (calls st').
Proof.
  intros Hq Hf Hm Hw H. unfold ReferenceRecursion_frame in H.
  assert (Hpair : In (Point q) Qs /\ In (Point (referenceNode f)) Rs).
  { split; [exact Hq|]. apply Hf. apply Point_in_all_points. }
  apply bind_Ok in H. destruct H as (r & st1 & Hr & H).
  apply call_Rescore_calls in Hr. rewrite <- Hr in Hw.
  destruct (is_DBL_MAX r).
  { apply bind_Ok in H. destruct H as (u & st2 & Hp & H).
    apply add_prunes_calls in Hp. apply ret_Ok in H. destruct H as [-> ->].
    split; [exact Hm|]. rewrite Hp. exact Hw. }
  apply bind_Ok in H. destruct H as (bc & st2 & Hbc & H).
  assert (Hw2 : within Qs Rs (calls st2)).
  { destruct (negb (Point (referenceNode f) =? referenceIndex f)
              || negb (Point q =? queryIndex f)).
    - apply call_BaseCase_calls in Hbc. rewrite Hbc.
      apply within_app; [exact Hw|].
      intros x y [E|[]]. inversion E. subst. exact Hpair.
    - apply ret_Ok in Hbc. destruct Hbc as [_ ->]. exact Hw. }
  clear Hbc.
  apply bind_Ok in H. destruct H as (sc & st3 & Hsc & H).
  apply call_Score_calls in Hsc. rewrite <- Hsc in Hw2.
  destruct (is_DBL_MAX sc).
  { apply bind_Ok in H. destruct H as (u & st4 & Hp & H).
    apply add_prunes_calls in Hp. apply ret_Ok in H. destruct H as [-> ->].
    split; [exact Hm|]. rewrite Hp. exact Hw2. }
  unfold ReferenceRecursion_expand in H.
  destruct (Children (referenceNode f)) as [|child0 others] eqn:Hch;
    [discriminate|].
  assert (Hkids : forall c, In c (child0 :: others) ->
                            incl (all_points c) Rs).
  { intros c Hc. eapply incl_tran; [|exact Hf].
    apply all_points_child. rewrite Hch. exact Hc. }
  apply bind_Ok in H. destruct H as (sc0 & st4 & Hsc0 & H).
  apply call_Score_calls in Hsc0. rewrite <- Hsc0 in Hw2.
  apply bind_Ok in H. destruct H as (m1 & st5 & Hmid & H).
  assert (Hmid' : rooted_map Rs m1 /\ within Qs Rs (calls st5)).
  { destruct (is_DBL_MAX sc0).
    - apply bind_Ok in Hmid. destruct Hmid as (u & st6 & Hp & Hmid).
      apply add_prunes_calls in Hp. apply ret_Ok in Hmid.
      destruct Hmid as [-> ->].
      split; [exact Hm|]. rewrite Hp. exact Hw2.
    - apply ret_Ok in Hmid. destruct Hmid as [-> ->]. split; [|exact Hw2].
      apply rooted_map_push; [exact Hm|]. cbn. apply Hkids. left.
      reflexivity. }
  destruct Hmid' as [Hm1 Hw5].
  apply (RR_children_within q others m1 st5 m' st' Hq); try assumption.
  intros c Hc. apply Hkids. right. exact Hc.
Qed.

Lemma RR_for_within q k :
  In (Point q) Qs ->
  forall fuel i m (st : rstate) m' st',
    rooted_map Rs m -> within Qs Rs (calls st) ->
    ReferenceRecursion_for is_DBL_MAX (Recording P) fuel q k i m st
    = Ok (m', st') ->
    rooted_map Rs m' /\ within Qs Rs (calls st').
Proof.
  intros Hq. induction fuel as [|fuel IH]; intros i m st m' st' Hm Hw H;
    cbn [ReferenceRecursion_for] in H; [discriminate|].
  destruct (nth_error (m_bucket k m) i) as [f|] eqn:En;
    [|monad_inv H; split; assumption].
  apply bind_Ok in H. destruct H as (m1 & st1 & Hfr & H).
  assert (Hf : incl (all_points (referenceNode f)) Rs).
  { pose proof (rooted_map_bucket k m Hm) as Hb. unfold rooted in Hb.
    rewrite Forall_forall in Hb. apply Hb. eapply nth_error_In. exact En. }
  destruct (RR_frame_within q f m st m1 st1 Hq Hf Hm Hw Hfr) as [Hm1 Hw1].
  apply (IH _ _ _ _ _ Hm1 Hw1 H).
Qed.

Variable sort : bucket D -> bucket D.
Hypothesis sort_perm : forall v, Permutation (sort v) v.

Lemma RR_while_within q :
  In (Point q) Qs ->
  forall fuel m (st : rstate) m' st',
    rooted_map Rs m -> within Qs Rs (calls st) ->
    ReferenceRecursion_while is_DBL_MAX (Recording P) sort fuel q m st
    = Ok (m', st') ->
    rooted_map Rs m' /\ within Qs Rs (calls st').
Proof.
  intros Hq. induction fuel as [|fuel IH]; intros m st m' st' Hm Hw H;
    cbn [ReferenceRecursion_while] in H; [discriminate|].
  destruct (m_rbegin m) as [[top sv]|] eqn:Hrb; [|discriminate].
  destruct (top >? Scale q)%Z; [|monad_inv H; split; assumption].
  destruct ((Scale q =? INT_MIN)%Z && (top =? INT_MIN)%Z);
    [monad_inv H; split; assumption|].
  apply bind_Ok in H. destruct H as (m2 & st2 & Hfor & H).
  assert (Hin : In (top, sv) m).
  { destruct m; [discriminate|]. cbn in Hrb. inversion Hrb. left.
    reflexivity. }
  assert (Hm1 : rooted_map Rs (m_set top (sort sv) m)).
  { apply rooted_map_set; [exact Hm|].
    pose proof (Hm top sv Hin) as Hsv. unfold rooted in *.
    rewrite Forall_forall in *. intros f Hf. apply Hsv.
    eapply Permutation_in; [apply sort_perm | exact Hf]. }
  destruct (RR_for_within q top Hq _ _ _ _ _ _ Hm1 Hw Hfor) as [Hm2 Hw2].
  destruct (m_rbegin m2) as [[top' sv']|]; [|discriminate].
  apply (IH _ _ _ _ (rooted_map_erase top' m2 Hm2) Hw2 H).
Qed.

(** *** [Traverse] *)

Let child_step (q : CoverTree) :=
  fun (child : CoverTree) (referenceMap : scale_map D) =>
    bind (PruneMap is_DBL_MAX (Recording P) q child referenceMap [])
      (fun maps =>
         bind (Traverse_map is_DBL_MAX (Recording P) sort child (snd maps))
           (fun _ => ret (fst maps))).

Let stays_within (c : CoverTree) : Prop :=
  incl (all_points c) Qs ->
  forall m (st : rstate) m' st',
    rooted_map Rs m -> within Qs Rs (calls st) ->
    Traverse_map is_DBL_MAX (Recording P) sort c m st = Ok (m', st') ->
    rooted_map Rs m' /\ within Qs Rs (calls st').

Lemma for_each_child_within q cs : forall m (st : rstate) mL stL,
  Forall stays_within cs ->
  (forall c, In c cs -> incl (all_points c) Qs) ->
  rooted_map Rs m -> within Qs Rs (calls st) ->
  for_each_child (child_step q) cs m st = Ok (mL, stL) ->
  rooted_map Rs mL /\ within Qs Rs (calls stL).
Proof.
  induction cs as [|c rest IH]; intros m st mL stL Hcs Hin Hm Hw H;
    cbn [for_each_child] in H.
  - apply ret_Ok in H. destruct H as [-> ->]. split; assumption.
  - inversion Hcs as [|? ? Hc Hrest]. subst.
    apply bind_Ok in H. destruct H as (m1 & st1 & Hstep & H).
    unfold child_step in Hstep. apply bind_Ok in Hstep.
    destruct Hstep as ([mP cm] & stP & HPM & Hstep).
    apply bind_Ok in Hstep. destruct Hstep as (mT & stT & HT & Hret).
    apply ret_Ok in Hret. destruct Hret as [E E2]. cbn [fst snd] in *.
    subst m1 stT.
    assert (Hcq : incl (all_points c) Qs) by (apply Hin; left; reflexivity).
    destruct (PruneMap_within q c m st mP cm stP) as (HmP & Hcm & HwP);
      [apply Hcq; apply Point_in_all_points | exact Hm | exact Hw
      | exact HPM|].
    destruct (Hc Hcq cm stP mT st1 Hcm HwP HT) as [_ Hw1].
    apply (IH mP st1 mL stL Hrest); try assumption.
    intros c' Hc'. apply Hin. right. exact Hc'.
Qed.

Lemma Traverse_map_within : forall q, stays_within q.
Proof.
  induction q as [p s cs IH] using CoverTree_ind'.
  intros Hq m st m' st' Hm Hw H. rewrite Traverse_map_eq in H.
  assert (Hp : In (Point (Node p s cs)) Qs).
  { apply Hq. apply Point_in_all_points. }
  destruct m as [|e m0] eqn:Em.
  { apply ret_Ok in H. destruct H as [-> ->]. split; assumption. }
  rewrite <- Em in *. clear Em e m0.
  apply bind_Ok in H. destruct H as (mR & stR & HRR & H).
  unfold ReferenceRecursion in HRR.
  destruct (RR_while_within (Node p s cs) Hp _ m st mR stR Hm Hw HRR)
    as [HmR HwR].
  apply bind_Ok in H. destruct H as (m2 & st2 & Hmid & H).
  assert (Hmid' : rooted_map Rs m2 /\ within Qs Rs (calls st2)).
  { cbn [Scale Children] in Hmid.
    destruct (negb (s =? INT_MIN)%Z).
    2:{ apply ret_Ok in Hmid. destruct Hmid as [-> ->]. split; assumption. }
    destruct (m_rbegin mR) as [[top v]|]; [|discriminate].
    destruct (s >=? top)%Z.
    2:{ apply ret_Ok in Hmid. destruct Hmid as [-> ->]. split; assumption. }
    destruct cs as [|c0 others]; [discriminate|].
    inversion IH as [|? ? IH0 IHo]. subst.
    assert (Hkids : forall c, In c (c0 :: others) -> incl (all_points c) Qs).
    { intros c Hc. eapply incl_tran; [|exact Hq].
      apply (all_points_child (Node p s (c0 :: others))). exact Hc. }
    apply bind_Ok in Hmid. destruct Hmid as (mL & stL & Hloop & Hmid).
    apply bind_Ok in Hmid. destruct Hmid as (mS & stS & HPMSC & HT).
    destruct (for_each_child_within (Node p s (c0 :: others)) others mR stR
                mL stL IHo) as [HmL HwL]; try assumption.
    { intros c Hc. apply Hkids. right. exact Hc. }
    destruct (PMSC_within c0 mL stL mS stS) as [HmS HwS]; try assumption.
    { apply (Hkids c0); [left; reflexivity | apply Point_in_all_points]. }
    apply (IH0 (Hkids c0 (or_introl eq_refl)) mS stS m2 st2 HmS HwS HT). }
  destruct Hmid' as [Hm2 Hw2]. cbn [Scale] in H.
  destruct (negb (s =? INT_MIN)%Z).
  { apply ret_Ok in H. destruct H as [-> ->]. split; assumption. }
  destruct (m_begin m2) as [[first pv]|] eqn:Hb; [|discriminate].
  destruct (negb (first =? INT_MIN)%Z); [discriminate|].
  apply bind_Ok in H. destruct H as (u & st3 & Hbc & H).
  apply ret_Ok in H. destruct H as [-> ->].
  split; [exact Hm2|].
  apply (base_cases_within (Node p s cs) pv st2 u st3 Hp); try assumption.
  apply (Hm2 first pv). apply m_begin_In. exact Hb.
Qed.

End WithinFacts.

Lemma Traverse_within (D S : Type) (is_DBL_MAX : D -> bool) (zero : D)
    (P : RuleType D S) (sort : bucket D -> bucket D) q r
    (st : TState (S * list (Event D))) m st' :
  (forall v, Permutation (sort v) v) ->
  calls st = [] ->
  Traverse is_DBL_MAX zero (Recording P) sort q r st = Ok (m, st') ->
  within (all_points q) (all_points r) (calls st').
Proof.
  intros Hsort Hfresh H. unfold Traverse in H.
  apply bind_Ok in H. destruct H as (bc & st1 & Hbc & H).
  apply call_BaseCase_calls in Hbc. rewrite Hfresh in Hbc. cbn [app] in Hbc.
  refine (proj2 (Traverse_map_within D S is_DBL_MAX P (all_points q)
                   (all_points r) sort Hsort q (incl_refl _) _ st1 m st'
                   _ _ H)).
  - apply rooted_map_push; [apply rooted_map_nil|]. cbn. apply incl_refl.
  - rewrite Hbc. intros a b [E|[]]. inversion E. subst.
    split; apply Point_in_all_points.
Qed.

Lemma all_points_leaf_points : forall t,
  wf_tree t -> incl (all_points t) (leaf_points t).
Proof.
  induction t as [p s cs IH] using CoverTree_ind'. intros Hwf.
  destruct cs as [|c0 cs]; [apply incl_refl|].
  pose proof (wf_tree_self _ _ _ _ Hwf) as Hself.
  pose proof (wf_tree_children _ _ _ Hwf) as Hkids.
  rewrite leaf_points_node. cbn [all_points].
  assert (Hall : incl (flat_map all_points (c0 :: cs))
                   (flat_map leaf_points (c0 :: cs))).
  { intros a Ha. apply in_flat_map in Ha. destruct Ha as (c & Hc & Hac).
    apply in_flat_map. exists c. split; [exact Hc|].
    rewrite Forall_forall in IH, Hkids.
    apply (IH c Hc); [apply (Hkids c Hc) | exact Hac]. }
  intros a [<-|Ha]; [|apply Hall; exact Ha].
  apply Hall. cbn [flat_map]. apply in_or_app. left. rewrite <- Hself.
  apply Point_in_all_points.
Qed.

Lemma count_BaseCases_pairs (D : Type) : forall log : list (Event D),
  count_BaseCases log = length (bc_pairs log).
Proof.
  unfold count_BaseCases.
  induction log as [|e log IH]; [reflexivity|].
  destruct e; cbn [filter is_BaseCase bc_pairs length]; rewrite <- ?IH;
    reflexivity.
Qed.

(** X17.  [BaseCase] is only called on points of the two trees: whatever
    the trees and the policy, when a traversal started with an empty log
    returns, the query index of every [BaseCase] call is the point of a
    node of the query tree and its reference index the point of a node of
    the reference tree. *)
Theorem BaseCase_on_tree_points (D S : Type) (is_DBL_MAX : D -> bool)
    (zero : D) (P : RuleType D S) (sort : bucket D -> bucket D)
    (q r : CoverTree) (st : TState (S * list (Event D)))
    (m : scale_map D) (st' : TState (S * list (Event D))) :
  (forall v, Permutation (sort v) v) ->
  snd (rule_state st) = [] ->
  Traverse is_DBL_MAX zero (Recording P) sort q r st = Ok (m, st') ->
  forall a b,
    0 < count_BaseCase a b (snd (rule_state st')) ->
    In a (all_points q) /\ In b (all_points r).
Proof.
  intros Hsort Hlog H a b Hc.
  assert (Hfresh : calls st = []).
  { unfold calls. rewrite Hlog. reflexivity. }
  apply (Traverse_within D S is_DBL_MAX zero P sort q r st m st' Hsort
           Hfresh H a b).
  apply count_BaseCase_In. exact Hc.
Qed.

Lemma BaseCase_on_tree_points_witness :
  exists m st',
    Examples.run
      (Examples.traverse (Recording Examples.skip_rules)
         Examples.skip_query Examples.skip_reference) ([], [])
    = Ok (m, st')
    /\ forall a b,
         0 < count_BaseCase a b (snd (rule_state st')) ->
         In a (all_points Examples.skip_query)
         /\ In b (all_points Examples.skip_reference).
Proof.
  eexists. eexists. split; [vm_compute; reflexivity|].
  eapply (BaseCase_on_tree_points Z (list (nat * nat)) Examples.is_max 0%Z
            Examples.skip_rules Examples.sort_by_score
            Examples.skip_query Examples.skip_reference
            (mkState ([], []) 0)).
  - exact sort_by_score_perm.
  - reflexivity.
  - vm_compute. reflexivity.
Defined.

(** X18.  A dual-tree traversal never makes more [BaseCase] calls than the
    naive search: on well-formed cover trees whose leaves hold distinct
    points, whatever the policy, a traversal started with an empty log
    that returns has made at most (number of query points) times (number
    of reference points) calls of [BaseCase]. *)
Theorem BaseCase_calls_bounded (D S : Type) (is_DBL_MAX : D -> bool)
    (zero : D) (P : RuleType D S) (sort : bucket D -> bucket D)
    (q r : CoverTree) (st : TState (S * list (Event D)))
    (m : scale_map D) (st' : TState (S * list (Event D))) :
  (forall v, Permutation (sort v) v) ->
  wf_tree q -> NoDup (leaf_points q) ->
  wf_tree r -> NoDup (leaf_points r) ->
  snd (rule_state st) = [] ->
  Traverse is_DBL_MAX zero (Recording P) sort q r st = Ok (m, st') ->
  count_BaseCases (snd (rule_state st'))
  <= length (leaf_points q) * length (leaf_points r).
Proof.
  intros Hsort Hwq Hnq Hwr Hnr Hlog H.
  assert (Hfresh : calls st = []).
  { unfold calls. rewrite Hlog. reflexivity. }
  pose proof (Traverse_once D S is_DBL_MAX zero P sort Hsort q r st m st'
                Hwq Hnq Hwr Hnr Hfresh H) as Hnd.
  pose proof (Traverse_within D S is_DBL_MAX zero P sort q r st m st' Hsort
                Hfresh H) as Hin.
  rewrite count_BaseCases_pairs. fold (calls st').
  rewrite <- length_prod.
  apply NoDup_incl_length; [exact Hnd|].
  intros [a b] Hab. destruct (Hin a b Hab) as [Ha Hb].
  apply in_prod; [apply all_points_leaf_points | apply all_points_leaf_points];
    assumption.
Qed.

Lemma BaseCase_calls_bounded_witness :
  exists m st',
    Examples.run
      (Examples.traverse (Recording Examples.skip_rules)
         Examples.skip_query Examples.skip_reference) ([], [])
    = Ok (m, st')
    /\ count_BaseCases (snd (rule_state st')) <= 3 * 4.
Proof.
  eexists. eexists. split; [vm_compute; reflexivity|].
  eapply (BaseCase_calls_bounded Z (list (nat * nat)) Examples.is_max 0%Z
            Examples.skip_rules Examples.sort_by_score
            Examples.skip_query Examples.skip_reference
            (mkState ([], []) 0)).
  - exact sort_by_score_perm.
  - vm_compute. repeat split.
  - vm_compute. repeat constructor; simpl; intuition discriminate.
  - vm_compute. repeat split.
  - vm_compute. repeat constructor; simpl; intuition discriminate.
  - reflexivity.
  - vm_compute. reflexivity.
Defined.
